(** * ResClient: the resource cache, its reference-state engine and the
      collection diff, embedded from [src/class/ResClient.js].

    Conventions of the embedding.
    - A JavaScript object used as a dictionary ([cache], [refs], [stale],
      [requests], a model's properties, the [rm] table of a change event)
      is an association list in insertion order, which is the order in
      which [for (k in o)] enumerates string keys that are not array
      indices.  Keys are assumed not to be array indices.
    - A resource object (ResModel, ResCollection, ResError) is owned by
      the cache item that created it.  A value that is such an object is
      [VRes oid rid]: [oid] is its identity (what [===] compares) and
      [rid] what [getResourceId()] returns.
    - Counters are integers in [Z]; list positions are [nat]. *)

From Stdlib Require Import List String Ascii ZArith Lia Bool Arith PeanoNat.
From Stdlib Require Import DecimalString.
From Stdlib Require Import Permutation.
Import ListNotations.

Open Scope string_scope.
Open Scope Z_scope.
Open Scope list_scope.

(* ================================================================== *)
(** ** Dictionaries in insertion order *)

(** The keys of a dictionary are kept in the order in which they were
    first assigned.  This is the order in which [for (k in o)] visits
    them, except that JavaScript visits the keys that are canonical
    array indices (["0"], ["1"], ["42"]) first, in ascending order. *)

Module Obj.
Section Obj.
Context {V : Type}.

Definition t := list (string * V).

  (** [o[k]] *)
Fixpoint get (k : string) (o : t) : option V :=
    match o with
    | [] => None
    | (k', v) :: o' => if String.eqb k' k then Some v else get k o'
    end.

  (** [o[k] = v]: an existing key keeps its place, a new one goes last. *)
Fixpoint set (k : string) (v : V) (o : t) : t :=
    match o with
    | [] => [(k, v)]
    | (k', v') :: o' =>
        if String.eqb k' k then (k', v) :: o' else (k', v') :: set k v o'
    end.

  (** [delete o[k]] *)
Fixpoint del (k : string) (o : t) : t :=
    match o with
    | [] => []
    | (k', v') :: o' =>
        if String.eqb k' k then del k o' else (k', v') :: del k o'
    end.

Definition keys (o : t) : list string := map fst o.

Definition has (k : string) (o : t) : bool :=
    match get k o with Some _ => true | None => false end.
End Obj.
Arguments t : clear implicits.
End Obj.

(* ================================================================== *)
(** ** Values, resources and cache items *)

(** JSON scalars, and [undefined]. *)
Inductive prim : Type :=
| PUndef
| PNull
| PBool (b : bool)
| PNum (n : Z)
| PStr (s : string).

(** A value as it arrives on the wire.  The source only inspects the
    top-level [rid] and [action] members of an object, so objects are
    kept flat. *)
Inductive wire : Type :=
| WPrim (p : prim)
| WObj (members : Obj.t prim).

(** A value held by a materialized model or collection. *)
Inductive value : Type :=
| VPrim (p : prim)
| VRes (oid : nat) (rid : string)
| VRaw (members : Obj.t prim).

(** Resource types: [typeModel], [typeCollection], [typeError]. *)
Inductive rtype : Type := typeModel | typeCollection | typeError.

Definition rtype_eqb (a b : rtype) : bool :=
  match a, b with
  | typeModel, typeModel | typeCollection, typeCollection
  | typeError, typeError => true
  | _, _ => false
  end.

(** The object behind [ci.item]: identity and content. *)
Inductive content : Type :=
| CModel (props : Obj.t value)
| CCollection (elems : list value)
| CError (err : Obj.t prim).

Record resobj : Type := mkResobj { oid : nat; body : content }.

(** Modelled from the spec: CacheItem.js is not among the sources.  The
    record has the fields of spec section 3 (rid, type, item, subscribed,
    direct, indirect, promise).  [ci_id] is the identity of the CacheItem
    object: closures and reference-state tables hold the object, which
    may outlive its cache entry. *)
Record CacheItem : Type := mkCI {
  ci_id : nat;
  rid : string;
  type : option rtype;
  item : option resobj;
  direct : Z;
  indirect : Z;
  subscribed : bool;
  promise : option nat
}.

(** [this.cache]: cache items keyed by their own [rid]. *)
Definition Cache := list CacheItem.

(** The item stored in the cache under [r]: the own property [r] of
    [this.cache]. *)
Fixpoint cache_get (c : Cache) (r : string) : option CacheItem :=
  match c with
  | [] => None
  | ci :: c' => if String.eqb (rid ci) r then Some ci else cache_get c' r
  end.

(** The names of the members every plain object inherits from
    [Object.prototype].  [this.cache] is created as [{}], so the
    expression [this.cache[rid]] yields such a member when [rid] is one
    of these names and no item is stored under it. *)
Definition inherited (r : string) : bool :=
  existsb (String.eqb r)
    ["constructor"; "hasOwnProperty"; "isPrototypeOf"; "propertyIsEnumerable";
     "toLocaleString"; "toString"; "valueOf"; "__proto__";
     "__defineGetter__"; "__defineSetter__";
     "__lookupGetter__"; "__lookupSetter__"]%string.

(** Whether [this.cache[rid]] is truthy, the test the code makes where
    it looks a resource up.  The handlers below look up with
    [cache_get]: they are the code for the rids that name no inherited
    member, and what is stated of an uncached rid is stated under
    [cache_has c r = false]. *)
Definition cache_has (c : Cache) (r : string) : bool :=
  match cache_get c r with
  | Some _ => true
  | None => inherited r
  end.

(** [this.cache[ci.rid] = ci], also used when a field of the cached
    object is assigned. *)
Fixpoint cache_put (ci : CacheItem) (c : Cache) : Cache :=
  match c with
  | [] => [ci]
  | x :: c' =>
      if String.eqb (rid x) (rid ci) then ci :: c' else x :: cache_put ci c'
  end.

(** [delete this.cache[r]] *)
Fixpoint cache_del (r : string) (c : Cache) : Cache :=
  match c with
  | [] => []
  | x :: c' => if String.eqb (rid x) r then cache_del r c' else x :: cache_del r c'
  end.

Definition cache_rids (c : Cache) : list string := map rid c.

(* ================================================================== *)
(** ** The reference-state engine *)

(** Traverse states. *)
Definition stateNone : Z := 0.
Definition stateDelete : Z := 1.
Definition stateKeep : Z := 2.
Definition stateStale : Z := 3.

(** What a traverse callback returns and receives: [false]/[true], one
    of the numeric states, or a rid. *)
Inductive tstate : Type :=
| TBool (b : bool)
| TNum (n : Z)
| TRid (r : string).

Definition tstate_is_false (s : tstate) : bool :=
  match s with TBool false => true | _ => false end.

(** [state === stateDelete] *)
Definition tstate_is_delete (s : tstate) : bool :=
  match s with TNum n => Z.eqb n stateDelete | _ => false end.

(** [rid === state] *)
Definition tstate_is_rid (r : string) (s : tstate) : bool :=
  match s with TRid r' => String.eqb r r' | _ => false end.

(** RefState: [{ ci, rc, st }]. *)
Record RefState : Type := mkRS {
  rs_ci : CacheItem;
  rc : Z;
  st : Z
}.

Definition Refs := Obj.t RefState.

(** Outcome of a computation that may throw or exhaust its fuel. *)
Inductive outcome (A : Type) : Type :=
| Done (a : A)
| Thrown (msg : string)
| NoFuel.
Arguments Done {A} a.
Arguments Thrown {A} msg.
Arguments NoFuel {A}.

(** [_isResource(v)] *)
Definition isResource (v : value) : bool :=
  match v with VRes _ _ => true | _ => false end.

(** [_getRefItem(v)] *)
Definition getRefItem (c : Cache) (v : value) : option CacheItem :=
  match v with
  | VRes _ r => cache_get c r
  | _ => None
  end.

(** The values [_traverse] and [_deleteRef] iterate over: the elements of
    a collection, the own properties of a model, nothing otherwise. *)
Definition item_values (ci : CacheItem) : list value :=
  match type ci, item ci with
  | Some typeCollection, Some (mkResobj _ (CCollection l)) => l
  | Some typeModel, Some (mkResobj _ (CModel o)) => map snd o
  | _, _ => []
  end.

Definition callback := Refs -> CacheItem -> tstate -> outcome (Refs * tstate).

(** The loop over the values of an item. *)
Fixpoint each_ref (c : Cache) (visit : CacheItem -> Refs -> outcome Refs)
    (vs : list value) (refs : Refs) : outcome Refs :=
  match vs with
  | [] => Done refs
  | v :: vs' =>
      match getRefItem c v with
      | Some ci =>
          match visit ci refs with
          | Done refs' => each_ref c visit vs' refs'
          | other => other
          end
      | None => each_ref c visit vs' refs
      end
  end.

(** [_traverse(ci, cb, state, skipFirst)]; [refs] is the table the bound
    callback updates. *)
Fixpoint traverse (fuel : nat) (c : Cache) (cb : callback)
    (ci : CacheItem) (state : tstate) (skipFirst : bool) (refs : Refs)
  : outcome Refs :=
  match fuel with
  | O => NoFuel
  | S fuel' =>
      let descend (state' : tstate) (refs' : Refs) :=
        each_ref c (fun ci' r => traverse fuel' c cb ci' state' false r)
                 (item_values ci) refs' in
      if skipFirst then descend state refs
      else
        match cb refs ci state with
        | Done (refs', state') =>
            if tstate_is_false state' then Done refs' else descend state' refs'
        | Thrown m => Thrown m
        | NoFuel => NoFuel
        end
  end.

(** [_seekRefs(refs, ci, state)] *)
Definition seekRefs : callback := fun refs ci state =>
  if subscribed ci then Done (refs, TBool false)
  else
    match Obj.get (rid ci) refs with
    | None =>
        Done (Obj.set (rid ci) (mkRS ci (indirect ci - 1) stateNone) refs,
              TBool true)
    | Some r =>
        Done (Obj.set (rid ci) (mkRS (rs_ci r) (rc r - 1) (st r)) refs,
              TBool false)
    end.

Definition set_st (r : RefState) (s : Z) : RefState :=
  mkRS (rs_ci r) (rc r) s.

(** [_markDelete(refs, ci, state)] *)
Definition markDelete : callback := fun refs ci state =>
  if subscribed ci then Done (refs, TBool false)
  else
    match Obj.get (rid ci) refs with
    | None => Thrown "TypeError: r is undefined"
    | Some r =>
        if Z.eqb (st r) stateKeep then Done (refs, TBool false)
        else if tstate_is_delete state then
          if Z.ltb 0 (rc r) then
            Done (Obj.set (rid ci) (set_st r stateKeep) refs, TRid (rid ci))
          else if negb (Z.eqb (st r) stateNone) then Done (refs, TBool false)
          else if negb (Z.eqb (direct (rs_ci r)) 0) then
            Done (Obj.set (rid ci) (set_st r stateStale) refs, TRid (rid ci))
          else
            Done (Obj.set (rid ci) (set_st r stateDelete) refs, TNum stateDelete)
        else if tstate_is_rid (rid ci) state then Done (refs, TBool false)
        else
          Done (Obj.set (rid ci) (set_st r stateKeep) refs,
                if Z.ltb 0 (rc r) then TRid (rid ci) else state)
    end.

(** Recursion depth that the two traversals cannot exceed (shown below). *)
Definition seek_fuel (c : Cache) : nat := S (S (List.length c)).
Definition mark_fuel (refs : Refs) : nat := S (S (2 * List.length refs)).

(** The first traversal of [_getRefState]. *)
Definition seekPass (c : Cache) (ci : CacheItem) : outcome Refs :=
  traverse (seek_fuel c) c seekRefs ci (TNum 0) true
           [(rid ci, mkRS ci (indirect ci) stateNone)].

(** [_getRefState(ci)] *)
Definition getRefState (c : Cache) (ci : CacheItem) : outcome Refs :=
  if subscribed ci then Done []
  else
    match seekPass c ci with
    | Done refs =>
        traverse (mark_fuel refs) c markDelete ci (TNum stateDelete) false refs
    | other => other
    end.



(* ================================================================== *)
(** ** Messages, effects and the client state *)

(** A JSON object of the protocol, by the members the source reads:
    [models], [collections], [errors] (a resource bundle), [values]
    (change event), [value] and [idx] (add and remove events), [rid]
    (response to [new]). *)
Record Data : Type := mkData {
  d_models : option (Obj.t (Obj.t wire));
  d_collections : option (Obj.t (list wire));
  d_errors : option (Obj.t (Obj.t prim));
  d_values : option (Obj.t wire);
  d_value : option wire;
  d_idx : option Z;
  d_rid : option string
}.

Definition no_data : Data := mkData None None None None None None None.

(** The [error] member of a response. *)
Record ErrBody : Type := mkErrBody { eb_code : string; eb_message : string }.

(** A ResError after [__init]: rid, method, params, code and message. *)
Record ResErr : Type := mkResErr {
  er_rid : string;
  er_method : string;
  er_params : option Data;
  er_code : string;
  er_message : string
}.

(** A parsed inbound frame: [{id, error?, result?}], [{event, data?}],
    or anything else. *)
Inductive message : Type :=
| MResponse (id : Z) (error : option ErrBody) (result : option Data)
| MEvent (event : string) (data : option Data)
| MOther.

(** Promises the client hands out or waits on. *)
Inductive promise_ref : Type :=
| PReq (id : Z)          (* the promise made in [_sendNow] *)
| PGet (n : nat)         (* the promise returned by [get] *)
| PCreate (n : nat)      (* the promise returned by [create] *)
| PSend (n : nat)        (* the promise of a [_send] issued while disconnected *)
| PConnect (n : nat).    (* the connect promise *)

Inductive pvalue : Type :=
| PVUnit
| PVData (d : option Data)
| PVItem (o : option nat).

Inductive perror : Type :=
| PEErr (e : ResErr)
| PEExn (msg : string).

Inductive settled : Type :=
| Resolved (v : pvalue)
| Rejected (e : perror).

Inductive buspayload : Type :=
| BRaw (d : option Data)
| BChanged (o : Obj.t value)
| BItemIdx (v : value) (idx : option Z)
| BItem (o : option nat).

Inductive timer : Type :=
| TmSubscribeToStale (r : string)
| TmReconnect.

(** What a handler does to the outside. *)
Inductive effect : Type :=
| EBus (target : option nat) (name : string) (p : buspayload)
| EClient (event : string) (err : option ResErr)
| ESend (id : Z) (method : string) (params : option Data)
| EWsNew
| EWsClose
| ETimeout (t : timer) (delay : Z)
| EConsoleError (msg : string)
| ESettle (p : promise_ref) (o : settled).

(** The chain of [then]/[catch] callbacks a caller attached to the
    promise of a request. *)
Inductive cont : Type :=
| KNone
| KCreate (p : nat)
| KSubscribe (ci : nat) (throwError : bool) (getp : option nat)
| KUnsubscribe (ci : nat).

(** An entry of [this.requests]; [rq_settled] is the state of the
    promise whose [resolve] and [reject] the entry holds, [rq_then] the
    callbacks chained on it and [rq_outer] the promise that adopts it
    when the send waited for the connection. *)
Record Request : Type := mkRequest {
  rq_method : string;
  rq_params : option Data;
  rq_settled : bool;
  rq_then : cont;
  rq_outer : option nat
}.

(** What reaches the callbacks chained on the promise of a request. *)
Inductive reqout : Type :=
| RResult (d : option Data)
| RError (e : perror).

(** A [_send] chained on a connect promise. *)
Record Pending : Type := mkPending {
  pn_on : nat;
  pn_rid : string;
  pn_method : string;
  pn_params : option Data;
  pn_promise : nat;
  pn_then : cont
}.

(** A promise reaction waiting to run after the current handler. *)
Inductive microtask : Type :=
| MtCont (k : cont) (o : reqout)
| MtSend (p : Pending)
| MtFail (p : Pending) (code message : string).

Record Client : Type := mkClient {
  namespace : string;
  tryConnect : bool;
  connected : bool;
  ws : bool;
  requests : list (Z * Request);
  reqId : Z;
  cache : Cache;
  detached : list CacheItem;
  stale : option (Obj.t bool);
  connectPromise : option nat;
  connectCallback : option nat;
  waiting : list Pending;
  micro : list microtask;
  nextId : nat;
  trace : list effect
}.

(** Default settings. *)
Definition defaultNamespace : string := "resclient".
Definition reconnectDelay : Z := 3000.
Definition subscribeStaleDelay : Z := 2000.

(** The state the constructor leaves. *)
Definition newClient : Client :=
  mkClient defaultNamespace false false false [] 1 [] [] None None None [] [] 0%nat [].

Definition set_tryConnect (b : bool) (s : Client) : Client :=
  mkClient (namespace s) b (connected s) (ws s) (requests s) (reqId s)
           (cache s) (detached s) (stale s) (connectPromise s)
           (connectCallback s) (waiting s) (micro s) (nextId s) (trace s).
Definition set_connected (b : bool) (s : Client) : Client :=
  mkClient (namespace s) (tryConnect s) b (ws s) (requests s) (reqId s)
           (cache s) (detached s) (stale s) (connectPromise s)
           (connectCallback s) (waiting s) (micro s) (nextId s) (trace s).
Definition set_ws (b : bool) (s : Client) : Client :=
  mkClient (namespace s) (tryConnect s) (connected s) b (requests s) (reqId s)
           (cache s) (detached s) (stale s) (connectPromise s)
           (connectCallback s) (waiting s) (micro s) (nextId s) (trace s).
Definition set_requests (r : list (Z * Request)) (s : Client) : Client :=
  mkClient (namespace s) (tryConnect s) (connected s) (ws s) r (reqId s)
           (cache s) (detached s) (stale s) (connectPromise s)
           (connectCallback s) (waiting s) (micro s) (nextId s) (trace s).
Definition set_reqId (n : Z) (s : Client) : Client :=
  mkClient (namespace s) (tryConnect s) (connected s) (ws s) (requests s) n
           (cache s) (detached s) (stale s) (connectPromise s)
           (connectCallback s) (waiting s) (micro s) (nextId s) (trace s).
Definition set_cache (c : Cache) (s : Client) : Client :=
  mkClient (namespace s) (tryConnect s) (connected s) (ws s) (requests s)
           (reqId s) c (detached s) (stale s) (connectPromise s)
           (connectCallback s) (waiting s) (micro s) (nextId s) (trace s).
Definition set_detached (d : list CacheItem) (s : Client) : Client :=
  mkClient (namespace s) (tryConnect s) (connected s) (ws s) (requests s)
           (reqId s) (cache s) d (stale s) (connectPromise s)
           (connectCallback s) (waiting s) (micro s) (nextId s) (trace s).
Definition set_stale (st : option (Obj.t bool)) (s : Client) : Client :=
  mkClient (namespace s) (tryConnect s) (connected s) (ws s) (requests s)
           (reqId s) (cache s) (detached s) st (connectPromise s)
           (connectCallback s) (waiting s) (micro s) (nextId s) (trace s).
Definition set_connectPromise (p : option nat) (s : Client) : Client :=
  mkClient (namespace s) (tryConnect s) (connected s) (ws s) (requests s)
           (reqId s) (cache s) (detached s) (stale s) p
           (connectCallback s) (waiting s) (micro s) (nextId s) (trace s).
Definition set_connectCallback (p : option nat) (s : Client) : Client :=
  mkClient (namespace s) (tryConnect s) (connected s) (ws s) (requests s)
           (reqId s) (cache s) (detached s) (stale s) (connectPromise s)
           p (waiting s) (micro s) (nextId s) (trace s).
Definition set_waiting (w : list Pending) (s : Client) : Client :=
  mkClient (namespace s) (tryConnect s) (connected s) (ws s) (requests s)
           (reqId s) (cache s) (detached s) (stale s) (connectPromise s)
           (connectCallback s) w (micro s) (nextId s) (trace s).
Definition set_micro (q : list microtask) (s : Client) : Client :=
  mkClient (namespace s) (tryConnect s) (connected s) (ws s) (requests s)
           (reqId s) (cache s) (detached s) (stale s) (connectPromise s)
           (connectCallback s) (waiting s) q (nextId s) (trace s).
Definition set_nextId (n : nat) (s : Client) : Client :=
  mkClient (namespace s) (tryConnect s) (connected s) (ws s) (requests s)
           (reqId s) (cache s) (detached s) (stale s) (connectPromise s)
           (connectCallback s) (waiting s) (micro s) n (trace s).
Definition set_trace (t : list effect) (s : Client) : Client :=
  mkClient (namespace s) (tryConnect s) (connected s) (ws s) (requests s)
           (reqId s) (cache s) (detached s) (stale s) (connectPromise s)
           (connectCallback s) (waiting s) (micro s) (nextId s) t.

(** Record an effect; the trace is in order of occurrence. *)
Definition emit (e : effect) (s : Client) : Client :=
  set_trace (trace s ++ [e]) s.

(** Allocate an identity (object or promise). *)
Definition fresh (s : Client) : nat * Client :=
  (nextId s, set_nextId (S (nextId s)) s).

(** A handler either returns or throws; both leave a state. *)
Inductive result (A : Type) : Type :=
| Ok (a : A) (s : Client)
| Err (msg : string) (s : Client).
Arguments Ok {A} a s.
Arguments Err {A} msg s.

Definition M (A : Type) : Type := Client -> result A.

Definition ret {A} (a : A) : M A := fun s => Ok a s.
Definition throw {A} (msg : string) : M A := fun s => Err msg s.
Definition bind {A B} (m : M A) (k : A -> M B) : M B :=
  fun s => match m s with
           | Ok a s' => k a s'
           | Err e s' => Err e s'
           end.
Definition modify (f : Client -> Client) : M unit := fun s => Ok tt (f s).
Definition gets {A} (f : Client -> A) : M A := fun s => Ok (f s) s.

Notation "x <- m ;; k" := (bind m (fun x => k))
  (at level 61, m at next level, right associativity).
Notation "m ;;; k" := (bind m (fun _ => k))
  (at level 61, right associativity).

(** [for (x of l) body(x)] *)
Fixpoint forEach {A} (l : list A) (body : A -> M unit) : M unit :=
  match l with
  | [] => ret tt
  | x :: l' => body x ;;; forEach l' body
  end.

Definition state_of {A} (r : result A) : Client :=
  match r with Ok _ s => s | Err _ s => s end.

(* ================================================================== *)
(** ** Cache items as objects *)

(** Modelled from the spec: the operations of CacheItem.js.  [direct] is
    incremented by listener-add and decremented by listener-remove;
    [indirect] is adjusted when an edge is made or severed; the type is
    set when the item is materialized; the promise is the in-flight
    subscription while the initial fetch is outstanding. *)
Definition setSubscribed (b : bool) (ci : CacheItem) : CacheItem :=
  mkCI (ci_id ci) (rid ci) (type ci) (item ci) (direct ci) (indirect ci) b
       (promise ci).
Definition addIndirect (n : Z) (ci : CacheItem) : CacheItem :=
  mkCI (ci_id ci) (rid ci) (type ci) (item ci) (direct ci) (indirect ci + n)
       (subscribed ci) (promise ci).
Definition removeIndirect (n : Z) (ci : CacheItem) : CacheItem :=
  mkCI (ci_id ci) (rid ci) (type ci) (item ci) (direct ci) (indirect ci - n)
       (subscribed ci) (promise ci).
Definition addDirect (ci : CacheItem) : CacheItem :=
  mkCI (ci_id ci) (rid ci) (type ci) (item ci) (direct ci + 1) (indirect ci)
       (subscribed ci) (promise ci).
Definition decDirect (ci : CacheItem) : CacheItem :=
  mkCI (ci_id ci) (rid ci) (type ci) (item ci) (direct ci - 1) (indirect ci)
       (subscribed ci) (promise ci).
Definition setItem (o : resobj) (t : rtype) (ci : CacheItem) : CacheItem :=
  mkCI (ci_id ci) (rid ci) (Some t) (Some o) (direct ci) (indirect ci)
       (subscribed ci) None.
Definition setPromise (p : nat) (ci : CacheItem) : CacheItem :=
  mkCI (ci_id ci) (rid ci) (type ci) (item ci) (direct ci) (indirect ci)
       (subscribed ci)
       (match item ci with None => Some p | Some _ => promise ci end).
Definition setBody (b : content) (ci : CacheItem) : CacheItem :=
  mkCI (ci_id ci) (rid ci) (type ci)
       (match item ci with Some o => Some (mkResobj (oid o) b) | None => None end)
       (direct ci) (indirect ci) (subscribed ci) (promise ci).

(** [new CacheItem(rid, this._unsubscribe)] *)
Definition newCacheItem (id : nat) (r : string) : CacheItem :=
  mkCI id r None None 0 0 false None.

(** A method called on the object cached under [r]. *)
Definition cache_alter (f : CacheItem -> CacheItem) (r : string) (c : Cache) : Cache :=
  map (fun x => if String.eqb (rid x) r then f x else x) c.

(** A method called on the object with identity [h], wherever it is. *)
Definition alter_id (f : CacheItem -> CacheItem) (h : nat) (l : list CacheItem)
  : list CacheItem :=
  map (fun x => if Nat.eqb (ci_id x) h then f x else x) l.

Definition alter_obj (f : CacheItem -> CacheItem) (h : nat) (s : Client) : Client :=
  set_detached (alter_id f h (detached s)) (set_cache (alter_id f h (cache s)) s).

Definition find_id (h : nat) (l : list CacheItem) : option CacheItem :=
  find (fun x => Nat.eqb (ci_id x) h) l.

(** The current state of the object with identity [h]. *)
Definition deref (h : nat) (s : Client) : option CacheItem :=
  match find_id h (cache s) with
  | Some x => Some x
  | None => find_id h (detached s)
  end.

(** [delete this.cache[r]]: the object leaves the cache; closures may
    still hold it. *)
Definition uncache (r : string) (s : Client) : Client :=
  set_cache (cache_del r (cache s))
    (set_detached
       (detached s ++ filter (fun x => String.eqb (rid x) r) (cache s)) s).

(** [ci.item] as a value: the resource object, or [null]. *)
Definition item_value (ci : CacheItem) : value :=
  match item ci with
  | Some o => VRes (oid o) (rid ci)
  | None => VPrim PNull
  end.

Definition item_oid (ci : CacheItem) : option nat :=
  match item ci with Some o => Some (oid o) | None => None end.

(* ================================================================== *)
(** ** The stale set and eviction *)

(** [_addStale(rid)] *)
Definition addStale (r : string) (s : Client) : Client :=
  set_stale
    (Some (Obj.set r true (match stale s with Some o => o | None => [] end))) s.

(** [_removeStale(rid)] *)
Definition removeStale (r : string) (s : Client) : Client :=
  match stale s with
  | None => s
  | Some o =>
      match Obj.del r o with
      | [] => set_stale None s
      | o' => set_stale (Some o') s
      end
  end.

(** [_setStale(rid)] *)
Definition setStale (r : string) (s : Client) : Client :=
  let s1 := addStale r s in
  if connected s1
  then emit (ETimeout (TmSubscribeToStale r) subscribeStaleDelay) s1
  else s1.

(** [this.stale && this.stale[rid]] *)
Definition is_stale (r : string) (s : Client) : bool :=
  match stale s with
  | Some o => match Obj.get r o with Some b => b | None => false end
  | None => false
  end.

(** [_deleteRef(ci)] *)
Definition deleteRef (ci : CacheItem) (s : Client) : Client :=
  let c' :=
    fold_left
      (fun c v => match getRefItem c v with
                  | Some ri => cache_alter (removeIndirect 1) (rid ri) c
                  | None => c
                  end)
      (item_values ci) (cache s) in
  removeStale (rid ci) (uncache (rid ci) (set_cache c' s)).

(** One round of the loop of [_tryDelete]. *)
Definition tryDelete_step (s : Client) (e : string * RefState) : Client :=
  if Z.eqb (st (snd e)) stateStale then setStale (fst e) s
  else if Z.eqb (st (snd e)) stateDelete then deleteRef (rs_ci (snd e)) s
  else s.

(** [_tryDelete(ci)].  Fuel cannot run out for a cached root
    ([getRefState_spec] below). *)
Definition tryDelete (ci : CacheItem) : M unit := fun s =>
  match getRefState (cache s) ci with
  | Done refs => Ok tt (fold_left tryDelete_step refs s)
  | Thrown m => Err m s
  | NoFuel => Err "out of fuel" s
  end.


(* ================================================================== *)
(** ** Strings and wire values *)

Fixpoint lastIndexOf_from (ch : ascii) (s : string) (pos : nat) (acc : option nat)
  : option nat :=
  match s with
  | EmptyString => acc
  | String a s' =>
      lastIndexOf_from ch s' (S pos) (if Ascii.eqb a ch then Some pos else acc)
  end.

(** [s.lastIndexOf(ch)]; [None] is -1. *)
Definition lastIndexOf (ch : ascii) (s : string) : option nat :=
  lastIndexOf_from ch s 0%nat None.

Fixpoint indexOf_from (ch : ascii) (s : string) (pos : nat) : option nat :=
  match s with
  | EmptyString => None
  | String a s' => if Ascii.eqb a ch then Some pos else indexOf_from ch s' (S pos)
  end.

(** [s.indexOf(ch)] *)
Definition indexOf (ch : ascii) (s : string) : option nat := indexOf_from ch s 0%nat.

(** [s.substr(i)] and [s.substr(0, n)] *)
Definition substr_from (i : nat) (s : string) : string :=
  substring i (String.length s) s.
Definition substr_to (n : nat) (s : string) : string := substring 0 n s.

Definition is_space (a : ascii) : bool :=
  match nat_of_ascii a with
  | 32%nat | 9%nat | 10%nat | 11%nat | 12%nat | 13%nat => true
  | _ => false
  end.

Fixpoint ltrim (s : string) : string :=
  match s with
  | String a s' => if is_space a then ltrim s' else s
  | EmptyString => EmptyString
  end.

Fixpoint rev_string (s : string) (acc : string) : string :=
  match s with
  | EmptyString => acc
  | String a s' => rev_string s' (String a acc)
  end.

(** [s.trim()], for ASCII white space. *)
Definition trim (s : string) : string :=
  rev_string (ltrim (rev_string (ltrim s) EmptyString)) EmptyString.

Definition prim_eqb (p q : prim) : bool :=
  match p, q with
  | PUndef, PUndef | PNull, PNull => true
  | PBool a, PBool b => Bool.eqb a b
  | PNum a, PNum b => Z.eqb a b
  | PStr a, PStr b => String.eqb a b
  | _, _ => false
  end.

(** [v === w] on held values: scalars by value, objects by identity (a
    resource object has one rid, and a plain object parsed from a frame
    is never the one already held). *)
Definition value_eqb (v w : value) : bool :=
  match v, w with
  | VPrim p, VPrim q => prim_eqb p q
  | VRes o r, VRes o' r' => Nat.eqb o o' && String.eqb r r'
  | _, _ => false
  end.

(** Truthiness of a scalar. *)
Definition truthy (p : prim) : bool :=
  match p with
  | PUndef | PNull => false
  | PBool b => b
  | PNum n => negb (Z.eqb n 0)
  | PStr s => negb (String.eqb s "")
  end.

(** The property key a scalar is converted to. *)
Definition to_key (p : prim) : string :=
  match p with
  | PUndef => "undefined"
  | PNull => "null"
  | PBool true => "true"
  | PBool false => "false"
  | PNum n => NilZero.string_of_int (Z.to_int n)
  | PStr s => s
  end.

(** [typeof v === 'object' && v !== null && v.rid]: the key [v.rid]
    when the test holds. *)
Definition wire_ref (v : wire) : option string :=
  match v with
  | WPrim _ => None
  | WObj m =>
      match Obj.get "rid" m with
      | Some p => if truthy p then Some (to_key p) else None
      | None => None
      end
  end.

(** [v.action === 'delete'] on an object. *)
Definition wire_is_delete (v : wire) : bool :=
  match v with
  | WObj m =>
      match Obj.get "action" m with
      | Some (PStr a) => String.eqb a "delete"
      | _ => false
      end
  | WPrim _ => false
  end.

(** A wire value that is kept as it is. *)
Definition wire_plain (v : wire) : value :=
  match v with
  | WPrim p => VPrim p
  | WObj m => VRaw m
  end.

(* ================================================================== *)
(** ** Resource adapters *)

(** Modelled from the spec: ResModel.js and ResCollection.js are not
    among the sources.  [__update] sets the given properties, an absent
    value removing the property, and returns the previous values of the
    properties that changed, or nothing when none did (spec 4.3, S2);
    [__add] inserts at an index and [__remove] removes the element at an
    index and returns it (spec 4.3).  Outside the range of the list
    [__add] appends and [__remove] removes nothing. *)
Fixpoint model_update (vals : Obj.t value) (props : Obj.t value)
    (changed : Obj.t value) : Obj.t value * Obj.t value :=
  match vals with
  | [] => (props, changed)
  | (k, v) :: vals' =>
      let old := match Obj.get k props with Some o => o | None => VPrim PUndef end in
      if value_eqb old v then model_update vals' props changed
      else
        let props' :=
          match v with
          | VPrim PUndef => Obj.del k props
          | _ => Obj.set k v props
          end in
        model_update vals' props' (Obj.set k old changed)
  end.

Definition insert_at {A} (i : nat) (x : A) (l : list A) : list A :=
  firstn i l ++ x :: skipn i l.

Definition remove_at {A} (i : nat) (l : list A) : list A :=
  firstn i l ++ skipn (S i) l.

Definition idx_nat (idx : option Z) : nat :=
  match idx with Some z => Z.to_nat z | None => 0%nat end.

Definition coll_add (v : value) (idx : option Z) (l : list value) : list value :=
  insert_at (idx_nat idx) v l.

Definition coll_remove (idx : option Z) (l : list value) : option value * list value :=
  (nth_error l (idx_nat idx), remove_at (idx_nat idx) l).

Definition props_of (ci : CacheItem) : Obj.t value :=
  match item ci with
  | Some (mkResobj _ (CModel o)) => o
  | _ => []
  end.

Definition elems_of (ci : CacheItem) : list value :=
  match item ci with
  | Some (mkResobj _ (CCollection l)) => l
  | _ => []
  end.

(** Modelled from the spec: TypeList.js and the default factories'
    classes are not among the sources.  A factory returns a new, empty
    resource object of the kind. *)
Definition empty_body (t : rtype) : content :=
  match t with
  | typeModel => CModel []
  | typeCollection => CCollection []
  | typeError => CError []
  end.

(* ================================================================== *)
(** ** The collection diff *)

Section PatchDiff.
Context {A : Type}.
Variable eqb : A -> A -> bool.

  (** The calls [_patchDiff] makes, in order. *)
Inductive diffev : Type :=
  | DKeep (id : option A) (m n : nat) (idx : Z)
  | DAdd (id : option A) (n : nat) (idx : Z)
  | DRemove (id : option A) (m : nat) (idx : Z).

  (** [a[i] === b[j]] *)
Definition same_at (a b : list A) (i j : nat) : bool :=
    match nth_error a i, nth_error b j with
    | Some x, Some y => eqb x y
    | None, None => true
    | _, _ => false
    end.

  (** [while (s < m && s < n && a[s] === b[s]) s++] *)
Fixpoint trim_start (fuel : nat) (a b : list A) (s m n : nat) : nat :=
    match fuel with
    | O => s
    | S f =>
        if (s <? m)%nat && (s <? n)%nat && same_at a b s s
        then trim_start f a b (S s) m n
        else s
    end.

  (** [while (s < m && s < n && a[m - 1] === b[n - 1]) { m--; n--; }] *)
Fixpoint trim_end (fuel : nat) (a b : list A) (s m n : nat) : nat * nat :=
    match fuel with
    | O => (m, n)
    | S f =>
        if (s <? m)%nat && (s <? n)%nat && same_at a b (m - 1) (n - 1)
        then trim_end f a b s (m - 1) (n - 1)
        else (m, n)
    end.

  (** [a.slice(s, m)] *)
Definition slice (a : list A) (s m : nat) : list A := firstn (m - s) (skipn s a).

  (** Row [i + 1] of the matrix after column 0, from row [i]. *)
Fixpoint lcs_row (x : A) (bb : list A) (prev : list nat) (left : nat) : list nat :=
    match bb, prev with
    | y :: bb', d :: ((u :: _) as prev') =>
        let v := if eqb x y then S d else Nat.max left u in
        v :: lcs_row x bb' prev' v
    | _, _ => []
    end.

Fixpoint lcs_rows (aa bb : list A) (prev : list nat) : list (list nat) :=
    match aa with
    | [] => []
    | x :: aa' =>
        let row := 0%nat :: lcs_row x bb prev 0%nat in
        row :: lcs_rows aa' bb row
    end.

  (** The matrix [c], of [m + 1] rows and [n + 1] columns. *)
Definition lcs_matrix (aa bb : list A) : list (list nat) :=
    let row0 := repeat 0%nat (S (List.length bb)) in
    row0 :: lcs_rows aa bb row0.

Definition cell (c : list (list nat)) (i j : nat) : nat :=
    nth j (nth i c []) 0%nat.

  (** The backtracking loop; returns the calls made, the [adds] array
      and [r]. *)
Fixpoint backtrack (fuel : nat) (aa bb : list A) (c : list (list nat)) (s : nat)
      (i j : nat) (idx : Z) (r : Z) (adds : list (nat * Z * Z)) (out : list diffev)
    : list diffev * list (nat * Z * Z) * Z :=
    match fuel with
    | O => (out, adds, r)
    | S f =>
        let m := (i - 1)%nat in
        let n := (j - 1)%nat in
        if (0 <? i)%nat && (0 <? j)%nat && same_at aa bb m n then
          backtrack f aa bb c s (i - 1) (j - 1) (idx - 1) r adds
                    (out ++ [DKeep (nth_error aa m) (m + s) (n + s) (idx - 1)])
        else if (0 <? j)%nat
                && ((i =? 0)%nat || (cell c (i - 1) j <=? cell c i n)%nat) then
          backtrack f aa bb c s i (j - 1) idx r (adds ++ [(n, idx, r)]) out
        else if (0 <? i)%nat
                && ((j =? 0)%nat || (cell c i n <? cell c (i - 1) j)%nat) then
          backtrack f aa bb c s (i - 1) j (idx - 1) (r + 1) adds
                    (out ++ [DRemove (nth_error aa m) (m + s) (idx - 1)])
        else (out, adds, r)
    end.

  (** [for (i = hi - 1; i >= lo; i--) onKeep(a[i], i, i + d, i)] *)
Fixpoint keeps_down (a : list A) (lo : nat) (count : nat) (d : Z) : list diffev :=
    match count with
    | O => []
    | S k =>
        let i := (lo + k)%nat in
        DKeep (nth_error a i) i (Z.to_nat (Z.of_nat i + d)) (Z.of_nat i)
        :: keeps_down a lo k d
    end.

  (** The final loop over [adds], from its last entry to its first;
      [k] is [len - i]. *)
Fixpoint do_adds (bb : list A) (s : nat) (r : Z) (radds : list (nat * Z * Z))
      (k : Z) : list diffev :=
    match radds with
    | [] => []
    | (n, idx, j) :: rest =>
        DAdd (nth_error bb n) (n + s) (idx - r + j + k)
        :: do_adds bb s r rest (k + 1)
    end.

  (** [_patchDiff(a, b, onKeep, onAdd, onRemove)]: the calls in order. *)
Definition patchDiff (a b : list A) : list diffev :=
    let la := List.length a in
    let lb := List.length b in
    let s := trim_start (S la) a b 0 la lb in
    if (s =? la)%nat && (s =? lb)%nat then []
    else
      let '(m0, n0) := trim_end (S la) a b s la lb in
      let aa := slice a s m0 in
      let bb := slice b s n0 in
      let m := List.length aa in
      let n := List.length bb in
      let c := lcs_matrix aa bb in
      let tail := keeps_down a (s + m) (la - (s + m))
                             (Z.of_nat n - Z.of_nat m) in
      let '(out, adds, r) :=
        backtrack (S (m + n)) aa bb c s m n (Z.of_nat (m + s)) 0 [] [] in
      let head := keeps_down a 0 s 0 in
      tail ++ out ++ head ++ do_adds bb s r (rev adds) 0.

  (** What the collection does on an event ([onKeep] does nothing). *)
Definition apply_diffev (l : list A) (e : diffev) : list A :=
    match e with
    | DKeep _ _ _ _ => l
    | DRemove _ _ idx => remove_at (Z.to_nat idx) l
    | DAdd (Some x) _ idx => insert_at (Z.to_nat idx) x l
    | DAdd None _ _ => l
    end.

  (** Indices of the [onRemove] calls and of the [onAdd] calls. *)
Definition remove_idxs (evs : list diffev) : list Z :=
    flat_map (fun e => match e with DRemove _ _ idx => [idx] | _ => [] end) evs.
Definition add_idxs (evs : list diffev) : list Z :=
    flat_map (fun e => match e with DAdd _ _ idx => [idx] | _ => [] end) evs.
Definition is_add (e : diffev) : bool :=
    match e with DAdd _ _ _ => true | _ => false end.
End PatchDiff.
Arguments diffev : clear implicits.

(** Strictly descending below a bound, strictly ascending above one. *)
Fixpoint desc_below (b : Z) (l : list Z) : Prop :=
  match l with
  | [] => True
  | x :: l' => x < b /\ desc_below x l'
  end.
Fixpoint asc_above (b : Z) (l : list Z) : Prop :=
  match l with
  | [] => True
  | x :: l' => b < x /\ asc_above x l'
  end.


(* ================================================================== *)
(** ** Event handlers and materialization *)

Definition alloc : M nat := fun s => let (n, s') := fresh s in Ok n s'.

(** The [TypeError] of reading a property of [undefined] or of a
    missing result. *)
Definition typeError_undefined : string := "TypeError: cannot read properties of undefined".

(** The object with identity [h]; every identity in use names one. *)
Definition the_obj (h : nat) : M CacheItem := fun s =>
  match deref h s with
  | Some ci => Ok ci s
  | None => Err typeError_undefined s
  end.

(** [this.cache[r]] when a member of it is read next. *)
Definition cached (r : string) : M CacheItem := fun s =>
  match cache_get (cache s) r with
  | Some ci => Ok ci s
  | None => Err typeError_undefined s
  end.

(** The event name [namespace + '.resource.' + rid + '.' + event]. *)
Definition resource_event (s : Client) (r event : string) : string :=
  (namespace s ++ ".resource." ++ r ++ "." ++ event)%string.

Definition emit_bus (ci : CacheItem) (event : string) (p : buspayload) : M unit :=
  fun s => Ok tt (emit (EBus (item_oid ci) (resource_event s (rid ci) event) p) s).

Definition not_model (ci : CacheItem) : bool :=
  match type ci with Some typeModel => false | _ => true end.
Definition not_collection (ci : CacheItem) : bool :=
  match type ci with Some typeCollection => false | _ => true end.

(** [rm[r]] is adjusted by [d], or set to [d] when [r] is not in [rm]. *)
Definition rm_bump (r : string) (d : Z) (rm : Obj.t Z) : Obj.t Z :=
  match Obj.get r rm with
  | Some n => Obj.set r (n + d) rm
  | None => Obj.set r d rm
  end.

Definition unsupported_value : string := "Unsupported model change value: ".

(** The first loop of [_handleChangeEvent]: the prepared values and the
    table [rm], or the exception thrown. *)
Fixpoint change_scan (c : Cache) (props : Obj.t value) (vals : Obj.t wire)
    (acc : Obj.t value) (rm : Obj.t Z) : string + (Obj.t value * Obj.t Z) :=
  match vals with
  | [] => inr (acc, rm)
  | (k, v) :: vals' =>
      let prepared : string + (value * Obj.t Z) :=
        match v with
        | WPrim p => inr (VPrim p, rm)
        | WObj _ =>
            if wire_is_delete v then inr (VPrim PUndef, rm)
            else
              match wire_ref v with
              | Some r =>
                  match cache_get c r with
                  | Some ci => inr (item_value ci, rm_bump r (-1) rm)
                  | None => inl typeError_undefined
                  end
              | None => inl unsupported_value
              end
        end in
      match prepared with
      | inl msg => inl msg
      | inr (v', rm1) =>
          let rm2 :=
            match Obj.get k props with
            | Some (VRes _ r') => rm_bump r' 1 rm1
            | _ => rm1
            end in
          change_scan c props vals' (acc ++ [(k, v')]) rm2
      end
  end.

(** One round of the second loop of [_handleChangeEvent], for the
    entry [rm[rid] = r]. *)
Definition change_step (e : string * Z) : M unit :=
  _ <- cached (fst e) ;;
  modify (fun s => set_cache (cache_alter (removeIndirect (snd e)) (fst e) (cache s)) s) ;;;
  if Z.ltb 0 (snd e)
  then (ci <- cached (fst e) ;; tryDelete ci)
  else ret tt.

(** The second loop of [_handleChangeEvent]. *)
Definition change_apply (rm : Obj.t Z) : M unit := forEach rm change_step.

(** Among the fields of a change event, the number whose new value
    refers to [r] and the number whose previous value does. *)
Definition new_refs (r : string) (vals : Obj.t wire) : Z :=
  Z.of_nat (List.length
    (filter (fun kv => negb (wire_is_delete (snd kv))
                       && match wire_ref (snd kv) with
                          | Some r' => String.eqb r' r
                          | None => false
                          end) vals)).
Definition old_refs (r : string) (props : Obj.t value) (vals : Obj.t wire) : Z :=
  Z.of_nat (List.length
    (filter (fun kv => match Obj.get (fst kv) props with
                       | Some (VRes _ r') => String.eqb r' r
                       | _ => false
                       end) vals)).

(** [_handleChangeEvent(cacheItem, event, data)]; [cr] stands for
    [this._cacheResources]. *)
Definition handleChangeEvent_with (cr : option Data -> M unit)
    (h : nat) (event : string) (data : option Data) : M bool :=
  ci0 <- the_obj h ;;
  if not_model ci0 then ret false
  else
    cr data ;;;
    ci <- the_obj h ;;
    match data with
    | None => throw typeError_undefined
    | Some d =>
        c <- gets cache ;;
        match change_scan c (props_of ci)
                (match d_values d with Some vs => vs | None => [] end) [] [] with
        | inl msg => throw msg
        | inr (vals, rm) =>
            change_apply rm ;;;
            ci' <- the_obj h ;;
            let '(props', changed) := model_update vals (props_of ci') [] in
            modify (alter_obj (setBody (CModel props')) h) ;;;
            match changed with
            | [] => ret true
            | _ => emit_bus ci' event (BChanged changed) ;;; ret true
            end
        end
    end.

(** [_handleAddEvent(cacheItem, event, data)] *)
Definition handleAddEvent_with (cr : option Data -> M unit)
    (h : nat) (event : string) (data : option Data) : M bool :=
  ci0 <- the_obj h ;;
  if not_collection ci0 then ret false
  else
    match data with
    | None => throw typeError_undefined
    | Some d =>
        let w := match d_value d with Some w => w | None => WPrim PUndef end in
        v <- match wire_ref w with
             | Some r =>
                 cr data ;;;
                 ci <- cached r ;;
                 modify (fun s => set_cache (cache_alter (addIndirect 1) r (cache s)) s) ;;;
                 ret (item_value ci)
             | None => ret (wire_plain w)
             end ;;
        ci <- the_obj h ;;
        modify (alter_obj (setBody (CCollection (coll_add v (d_idx d) (elems_of ci)))) h) ;;;
        emit_bus ci event (BItemIdx v (d_idx d)) ;;;
        ret true
    end.

Definition removed_not_cached : string := "Removed model is not in cache".

(** [_handleRemoveEvent(cacheItem, event, data)] *)
Definition handleRemoveEvent (h : nat) (event : string) (data : option Data) : M bool :=
  ci <- the_obj h ;;
  if not_collection ci then ret false
  else
    match data with
    | None => throw typeError_undefined
    | Some d =>
        let '(removed, rest) := coll_remove (d_idx d) (elems_of ci) in
        modify (alter_obj (setBody (CCollection rest)) h) ;;;
        emit_bus ci event
          (BItemIdx (match removed with Some v => v | None => VPrim PUndef end)
                    (d_idx d)) ;;;
        match removed with
        | Some (VRes _ r) =>
            c <- gets cache ;;
            match cache_get c r with
            | None => throw removed_not_cached
            | Some _ =>
                modify (fun s => set_cache (cache_alter (removeIndirect 1) r (cache s)) s) ;;;
                refItem <- cached r ;;
                tryDelete refItem ;;;
                ret true
            end
        | _ => ret true
        end
    end.

(** [_handleUnsubscribeEvent(cacheItem, event)] *)
Definition handleUnsubscribeEvent (h : nat) (event : string) : M bool :=
  modify (alter_obj (setSubscribed false) h) ;;;
  ci <- the_obj h ;;
  tryDelete ci ;;;
  emit_bus ci event (BItem (item_oid ci)) ;;;
  ret true.

(** A resource of a bundle, by kind. *)
Inductive rdata : Type :=
| RDModel (d : Obj.t wire)
| RDCollection (d : list wire)
| RDError (d : Obj.t prim).

(** [resources[t + 's']] *)
Definition bundle (t : rtype) (d : Data) : option (Obj.t rdata) :=
  match t with
  | typeModel =>
      option_map (map (fun kv => (fst kv, RDModel (snd kv)))) (d_models d)
  | typeCollection =>
      option_map (map (fun kv => (fst kv, RDCollection (snd kv)))) (d_collections d)
  | typeError =>
      option_map (map (fun kv => (fst kv, RDError (snd kv)))) (d_errors d)
  end.

Definition type_inconsistency : string := "Resource type inconsistency".

(** [_createItems(refs, type)]: the table [sync] it returns and what is
    left in [refs]. *)
Fixpoint createItems (t : rtype) (refs : Obj.t rdata)
  : M (Obj.t rdata * Obj.t rdata) :=
  match refs with
  | [] => ret ([], [])
  | (r, d) :: refs' =>
      c <- gets cache ;;
      ci <- match cache_get c r with
            | None =>
                h <- alloc ;;
                modify (fun s => set_cache (cache_put (newCacheItem h r) (cache s)) s) ;;;
                ret (newCacheItem h r)
            | Some ci => modify (removeStale r) ;;; ret ci
            end ;;
      here <- match item ci with
              | Some _ =>
                  match type ci with
                  | Some t' =>
                      if rtype_eqb t' t then ret ([(r, d)], [])
                      else modify (emit (EConsoleError type_inconsistency)) ;;;
                           ret ([], [])
                  | None =>
                      modify (emit (EConsoleError type_inconsistency)) ;;;
                      ret ([], [])
                  end
              | None =>
                  o <- alloc ;;
                  modify (fun s => set_cache
                            (cache_alter (setItem (mkResobj o (empty_body t)) t) r
                                         (cache s)) s) ;;;
                  ret ([], [(r, d)])
              end ;;
      rest <- createItems t refs' ;;
      ret (fst here ++ fst rest, snd here ++ snd rest)
  end.

(** [ci = this.cache[v.rid]; ci.addIndirect(); ... ci.item] *)
Definition take_ref (r : string) : M value :=
  ci <- cached r ;;
  modify (fun s => set_cache (cache_alter (addIndirect 1) r (cache s)) s) ;;;
  ret (item_value ci).

Definition prepareValue (v : wire) : M value :=
  match wire_ref v with
  | Some r => take_ref r
  | None => ret (wire_plain v)
  end.

(** [types.model.prepareData] *)
Fixpoint prepareModel (dta : Obj.t wire) : M (Obj.t value) :=
  match dta with
  | [] => ret []
  | (k, v) :: dta' =>
      v' <- prepareValue v ;;
      rest <- prepareModel dta' ;;
      ret ((k, v') :: rest)
  end.

(** [types.collection.prepareData] *)
Fixpoint prepareCollection (dta : list wire) : M (list value) :=
  match dta with
  | [] => ret []
  | v :: dta' =>
      v' <- prepareValue v ;;
      rest <- prepareCollection dta' ;;
      ret (v' :: rest)
  end.

Definition prepareData (d : rdata) : M content :=
  match d with
  | RDModel o => o' <- prepareModel o ;; ret (CModel o')
  | RDCollection l => l' <- prepareCollection l ;; ret (CCollection l')
  | RDError e => ret (CError e)
  end.

(** [_initItems(refs, type)] *)
Definition initItems (refs : Obj.t rdata) : M unit :=
  forEach refs (fun e =>
    ci <- cached (fst e) ;;
    match item ci with
    | None => throw typeError_undefined
    | Some _ =>
        b <- prepareData (snd e) ;;
        modify (fun s => set_cache (cache_alter (setBody b) (fst e) (cache s)) s)
    end).

Definition no_resources : option Data -> M unit := fun _ => ret tt.

(** [_syncModel(cacheItem, data)]: the change event it forms has only
    [values], so the [_cacheResources] call inside finds no bundle. *)
Definition syncModel (h : nat) (d : Obj.t wire) : M unit :=
  handleChangeEvent_with no_resources h "change"
    (Some (mkData None None None (Some d) None None None)) ;;;
  ret tt.

(** The array [b] of [_syncCollection]. *)
Fixpoint sync_targets (c : Cache) (data : list wire) : option (list value) :=
  match data with
  | [] => Some []
  | v :: data' =>
      match (match wire_ref v with
             | Some r => option_map item_value (cache_get c r)
             | None => Some (wire_plain v)
             end), sync_targets c data' with
      | Some x, Some rest => Some (x :: rest)
      | _, _ => None
      end
  end.

(** [_syncCollection(cacheItem, data)] *)
Definition syncCollection (h : nat) (data : list wire) : M unit :=
  ci <- the_obj h ;;
  c <- gets cache ;;
  match sync_targets c data with
  | None => throw typeError_undefined
  | Some b =>
      forEach (patchDiff value_eqb (elems_of ci) b) (fun e =>
        match e with
        | DKeep _ _ _ _ => ret tt
        | DAdd _ n idx =>
            handleAddEvent_with no_resources h "add"
              (Some (mkData None None None None (nth_error data n) (Some idx) None)) ;;;
            ret tt
        | DRemove _ _ idx =>
            handleRemoveEvent h "remove"
              (Some (mkData None None None None None (Some idx) None)) ;;;
            ret tt
        end)
  end.

(** [_syncItems(refs, type)] *)
Definition syncItems (refs : Obj.t rdata) : M unit :=
  forEach refs (fun e =>
    match snd e with
    | RDModel d => ci <- cached (fst e) ;; syncModel (ci_id ci) d
    | RDCollection d => ci <- cached (fst e) ;; syncCollection (ci_id ci) d
    | RDError _ => ret tt
    end).

Definition create_phase (t : rtype) (resources : Data)
  : M (Obj.t rdata * Obj.t rdata) :=
  match bundle t resources with
  | Some refs => createItems t refs
  | None => ret ([], [])
  end.

(** [_cacheResources(resources)] *)
Definition cacheResources (resources : option Data) : M unit :=
  match resources with
  | None => ret tt
  | Some res =>
      m <- create_phase typeModel res ;;
      c <- create_phase typeCollection res ;;
      e <- create_phase typeError res ;;
      initItems (snd m) ;;; initItems (snd c) ;;; initItems (snd e) ;;;
      syncItems (fst m) ;;; syncItems (fst c) ;;; syncItems (fst e)
  end.

Definition handleChangeEvent := handleChangeEvent_with cacheResources.
Definition handleAddEvent := handleAddEvent_with cacheResources.

Definition malformed_event : string := "Malformed event name: ".
Definition not_in_cache : string := "Resource not found in cache".

(** [_handleEvent(data)] *)
Definition handleEvent (event : string) (data : option Data) : M unit :=
  match lastIndexOf "."%char event with
  | None => throw (malformed_event ++ event)%string
  | Some idx =>
      if (idx =? String.length event - 1)%nat
      then throw (malformed_event ++ event)%string
      else
        let r := substr_to idx event in
        c <- gets cache ;;
        match cache_get c r with
        | None => throw not_in_cache
        | Some cacheItem =>
            let ev := substr_from (S idx) event in
            handled <-
              (if String.eqb ev "change" then handleChangeEvent (ci_id cacheItem) ev data
               else if String.eqb ev "add" then handleAddEvent (ci_id cacheItem) ev data
               else if String.eqb ev "remove" then handleRemoveEvent (ci_id cacheItem) ev data
               else if String.eqb ev "unsubscribe" then handleUnsubscribeEvent (ci_id cacheItem) ev
               else ret false) ;;
            if handled then ret tt
            else fun s =>
              Ok tt (emit (EBus (item_oid cacheItem) (resource_event s r ev) (BRaw data)) s)
        end
  end.


(* ================================================================== *)
(** ** Requests, subscriptions and the connection *)

Definition try_catch {A} (m : M A) (handler : string -> M A) : M A :=
  fun s => match m s with
           | Ok a s' => Ok a s'
           | Err e s' => handler e s'
           end.

Definition enqueue (t : microtask) : M unit :=
  modify (fun s => set_micro (micro s ++ [t]) s).

Definition settle (p : promise_ref) (o : settled) : M unit :=
  modify (emit (ESettle p o)).

Fixpoint req_get (id : Z) (rs : list (Z * Request)) : option Request :=
  match rs with
  | [] => None
  | (k, r) :: rs' => if Z.eqb k id then Some r else req_get id rs'
  end.

Definition req_del (id : Z) (rs : list (Z * Request)) : list (Z * Request) :=
  filter (fun kr => negb (Z.eqb (fst kr) id)) rs.

Definition ws_is_null : string := "TypeError: cannot read properties of null".

(** [_sendNow(method, params)], with the callbacks [k] the caller chains
    on the promise and, for a send that waited for the connection, the
    promise [outer] that adopts it.  When [this.ws] is null the executor
    throws and the promise is rejected at once. *)
Definition sendNow (method : string) (params : option Data) (k : cont)
    (outer : option nat) : M Z :=
  id <- gets reqId ;;
  modify (set_reqId (id + 1)) ;;;
  open <- gets ws ;;
  modify (fun s => set_requests
            (requests s ++ [(id, mkRequest method params (negb open) k outer)]) s) ;;;
  (if open then modify (emit (ESend id method params))
   else
     settle (PReq id) (Rejected (PEExn ws_is_null)) ;;;
     match outer with
     | Some n => settle (PSend n) (Rejected (PEExn ws_is_null))
     | None => ret tt
     end ;;;
     enqueue (MtCont k (RError (PEExn ws_is_null)))) ;;;
  ret id.

(** [connect()] *)
Definition connect : M nat :=
  modify (set_tryConnect true) ;;;
  cp <- gets connectPromise ;;
  match cp with
  | Some p => ret p
  | None =>
      p <- alloc ;;
      modify (set_connectCallback (Some p)) ;;;
      modify (set_ws true) ;;;
      modify (emit EWsNew) ;;;
      modify (set_connectPromise (Some p)) ;;;
      ret p
  end.

Definition invalid_rid : string := "Invalid resource ID".
Definition invalid_method : string := "Invalid method".

(** Whether the connect promise [p] is still pending: [connectCallback]
    holds its [resolve] and [reject] until one of them is called. *)
Definition connect_pending (p : nat) (s : Client) : bool :=
  match connectCallback s with
  | Some q => Nat.eqb q p
  | None => false
  end.

(** [_send(action, rid, method, params)].  While the client is not
    connected the request is chained on the connect promise: it waits
    while that promise is pending, and is written in the next reaction
    when the promise has been resolved already. *)
Definition send (action r : string) (method : option string)
    (params : option Data) (k : cont) : M promise_ref :=
  if String.eqb r "" then throw invalid_rid
  else
    match method with
    | Some "" => throw invalid_method
    | _ =>
        let m := (action ++ "." ++ r
                  ++ match method with Some x => "." ++ x | None => "" end)%string in
        c <- gets connected ;;
        if c then id <- sendNow m params k None ;; ret (PReq id)
        else
          p <- connect ;;
          n <- alloc ;;
          pending <- gets (connect_pending p) ;;
          (if pending
           then modify (fun s => set_waiting
                          (waiting s ++ [mkPending p r m params n k]) s)
           else enqueue (MtSend (mkPending p r m params n k))) ;;;
          ret (PSend n)
    end.

(** [_handleFailedSubscribe(cacheItem)] *)
Definition handleFailedSubscribe (h : nat) : M unit :=
  modify (alter_obj (setSubscribed false) h) ;;;
  ci <- the_obj h ;;
  tryDelete ci.

(** [_subscribe(ci, throwError)]; [getp] is the promise [get] derives
    from the one returned. *)
Definition subscribe (h : nat) (throwError : bool) (getp : option nat) : M unit :=
  ci <- the_obj h ;;
  modify (alter_obj (setSubscribed true) h) ;;;
  modify (removeStale (rid ci)) ;;;
  send "subscribe" (rid ci) None None (KSubscribe h throwError getp) ;;;
  ret tt.

(** [_subscribeReferred(ci)] *)
Definition subscribeReferred (h : nat) : M unit :=
  modify (alter_obj (setSubscribed false) h) ;;;
  ci <- the_obj h ;;
  c <- gets cache ;;
  match getRefState c ci with
  | Done refs =>
      modify (alter_obj (setSubscribed true) h) ;;;
      forEach refs (fun e =>
        if Z.eqb (st (snd e)) stateStale
        then subscribe (ci_id (rs_ci (snd e))) false None
        else ret tt)
  | Thrown m => throw m
  | NoFuel => throw "out of fuel"
  end.

(** [_unsubscribe(ci)], the callback given to every CacheItem. *)
Definition unsubscribe (h : nat) : M unit :=
  ci <- the_obj h ;;
  if negb (subscribed ci) then
    stl <- gets (is_stale (rid ci)) ;;
    if stl then tryDelete ci else ret tt
  else
    subscribeReferred h ;;;
    send "unsubscribe" (rid ci) None None (KUnsubscribe h) ;;;
    ret tt.

(** The callbacks chained on the promise of a request, run once it is
    settled.  An exception in a callback rejects the promise derived from
    it and is handed to the next [catch]. *)
Definition run_cont (k : cont) (o : reqout) : M unit :=
  match k with
  | KNone => ret tt
  | KCreate p =>
      match o with
      | RResult response =>
          try_catch
            (cacheResources response ;;;
             match response with
             | None => throw typeError_undefined
             | Some d =>
                 ci <- cached (match d_rid d with
                               | Some r => r
                               | None => "undefined"
                               end) ;;
                 modify (fun s => set_cache
                           (cache_alter (setSubscribed true) (rid ci) (cache s)) s) ;;;
                 settle (PCreate p) (Resolved (PVItem (item_oid ci)))
             end)
            (fun msg => settle (PCreate p) (Rejected (PEExn msg)))
      | RError e => settle (PCreate p) (Rejected e)
      end
  | KSubscribe h throwError getp =>
      let finish (r : option perror) : M unit :=
        match getp with
        | None => ret tt
        | Some g =>
            match r with
            | Some e => settle (PGet g) (Rejected e)
            | None =>
                ci <- the_obj h ;;
                settle (PGet g) (Resolved (PVItem (item_oid ci)))
            end
        end in
      let failed (e : perror) : M unit :=
        try_catch
          (handleFailedSubscribe h ;;;
           if throwError then finish (Some e) else finish None)
          (fun msg => finish (Some (PEExn msg))) in
      match o with
      | RResult response =>
          try_catch (cacheResources response ;;; finish None)
                    (fun msg => failed (PEExn msg))
      | RError e => failed e
      end
  | KUnsubscribe h =>
      let retry : M unit :=
        try_catch (ci <- the_obj h ;; tryDelete ci) (fun _ => ret tt) in
      match o with
      | RResult _ =>
          try_catch
            (modify (alter_obj (setSubscribed false) h) ;;;
             ci <- the_obj h ;;
             tryDelete ci)
            (fun _ => retry)
      | RError _ => retry
      end
  end.

(** The rid [_handleErrorResponse] extracts from a method name. *)
Definition method_rid (m : string) : string :=
  match indexOf "."%char m with
  | None => ""
  | Some i =>
      let r := substr_from (S i) m in
      let a := substr_to i m in
      trim
        (if String.eqb a "call" || String.eqb a "auth" then
           match lastIndexOf "."%char r with
           | Some j => substr_to j r
           | None => r
           end
         else r)
  end.

Definition resolve_request (id : Z) (req : Request) (o : reqout) : M unit :=
  if rq_settled req then ret tt
  else
    let out := match o with
               | RResult d => Resolved (PVData d)
               | RError e => Rejected e
               end in
    settle (PReq id) out ;;;
    match rq_outer req with
    | Some n => settle (PSend n) out
    | None => ret tt
    end ;;;
    enqueue (MtCont (rq_then req) o).

(** [_handleErrorResponse(req, data)] *)
Definition handleErrorResponse (id : Z) (req : Request) (e : ErrBody) : M unit :=
  let err := mkResErr (method_rid (rq_method req)) (rq_method req)
                      (rq_params req) (eb_code e) (eb_message e) in
  modify (emit (EClient "error" (Some err))) ;;;
  resolve_request id req (RError (PEErr err)).

(** [_handleSuccessResponse(req, data)] *)
Definition handleSuccessResponse (id : Z) (req : Request) (result : option Data) : M unit :=
  resolve_request id req (RResult result).

Definition no_matching_request : string := "Server response without matching request".
Definition invalid_message : string := "Invalid message from server: ".

(** [_receive(json)], on the parsed frame. *)
Definition receive (msg : message) : M unit :=
  match msg with
  | MResponse id error result =>
      rs <- gets requests ;;
      match req_get id rs with
      | None => throw no_matching_request
      | Some req =>
          modify (fun s => set_requests (req_del id (requests s)) s) ;;;
          match error with
          | Some e => handleErrorResponse id req e
          | None => handleSuccessResponse id req result
          end
      end
  | MEvent event data => handleEvent event data
  | MOther => throw invalid_message
  end.

(** What [get] returns. *)
Inductive getresult : Type :=
| GetPromise (p : nat)
| GetNow (o : option nat).

(** [get(rid)] *)
Definition get (r : string) : M getresult :=
  c <- gets cache ;;
  match cache_get c r with
  | Some ci =>
      match promise ci with
      | Some p => ret (GetPromise p)
      | None => ret (GetNow (item_oid ci))
      end
  | None =>
      h <- alloc ;;
      modify (fun s => set_cache (cache_put (newCacheItem h r) (cache s)) s) ;;;
      g <- alloc ;;
      subscribe h true (Some g) ;;;
      modify (alter_obj (setPromise g) h) ;;;
      ret (GetPromise g)
  end.

(** [call(rid, method, params)] and [authenticate(rid, method, params)] *)
Definition call (r : string) (method : option string) (params : option Data)
  : M promise_ref :=
  send "call" r (match method with
                 | Some "" | None => Some ""
                 | Some m => Some m
                 end) params KNone.
Definition authenticate (r : string) (method : option string) (params : option Data)
  : M promise_ref :=
  send "auth" r (match method with
                 | Some "" | None => Some ""
                 | Some m => Some m
                 end) params KNone.

(** [create(rid, params)] *)
Definition create (r : string) (params : option Data) : M nat :=
  p <- alloc ;;
  send "new" r None params (KCreate p) ;;;
  ret p.

(** [resourceOn(rid, events, handler)] *)
Definition resourceOn (r : string) : M unit :=
  c <- gets cache ;;
  match cache_get c r with
  | None => throw not_in_cache
  | Some _ =>
      modify (fun s => set_cache (cache_alter addDirect r (cache s)) s)
  end.

(** Modelled from the spec: [removeDirect] of CacheItem.js, which is
    not among the sources.  It decrements [direct] and invokes the
    unsubscribe callback the item was constructed with when the count
    falls to zero (spec 3). *)
Definition removeDirect (ci : CacheItem) : M unit :=
  modify (fun s => set_cache (cache_alter decDirect (rid ci) (cache s)) s) ;;;
  if Z.eqb (direct ci - 1) 0 then unsubscribe (ci_id ci) else ret tt.

(** [resourceOff(rid, events, handler)] *)
Definition resourceOff (r : string) : M unit :=
  c <- gets cache ;;
  match cache_get c r with
  | None => throw not_in_cache
  | Some ci => removeDirect ci
  end.

Definition take_waiting (p : nat) (s : Client) : list Pending * Client :=
  (filter (fun w => Nat.eqb (pn_on w) p) (waiting s),
   set_waiting (filter (fun w => negb (Nat.eqb (pn_on w) p)) (waiting s)) s).

(** [_connectResolve()] *)
Definition connectResolve : M unit :=
  cb <- gets connectCallback ;;
  match cb with
  | None => ret tt
  | Some p =>
      settle (PConnect p) (Resolved PVUnit) ;;;
      wl <- (fun s => let (l, s') := take_waiting p s in Ok l s') ;;
      forEach wl (fun w => enqueue (MtSend w)) ;;;
      modify (set_connectCallback None)
  end.

(** [_connectReject(e)], [e] being [{ code, message }]. *)
Definition connectReject (code message : string) : M unit :=
  modify (set_connectPromise None) ;;;
  modify (set_ws false) ;;;
  cb <- gets connectCallback ;;
  match cb with
  | None => ret tt
  | Some p =>
      settle (PConnect p)
             (Rejected (PEErr (mkResErr "" "" None code message))) ;;;
      wl <- (fun s => let (l, s') := take_waiting p s in Ok l s') ;;
      forEach wl (fun w => enqueue (MtFail w code message)) ;;;
      modify (set_connectCallback None)
  end.

(** [disconnect()] *)
Definition disconnect : M unit :=
  modify (set_tryConnect false) ;;;
  open <- gets ws ;;
  if open then
    modify (emit EWsClose) ;;;
    connectReject "system.disconnect" "Disconnect called"
  else ret tt.

(** [_subscribeToStale(rid)] *)
Definition subscribeToStale (r : string) : M unit :=
  c <- gets connected ;;
  stl <- gets (is_stale r) ;;
  if negb c || negb stl then ret tt
  else
    ci <- cached r ;;
    subscribe (ci_id ci) false None.

(** [_subscribeToAllStale()] *)
Definition subscribeToAllStale : M unit :=
  stl <- gets stale ;;
  match stl with
  | None => ret tt
  | Some o => forEach (Obj.keys o) subscribeToStale
  end.

(** [_handleOnopen(e)] up to the call of [onConnect]. *)
Definition handleOnopen : M unit := modify (set_connected true).

(** The [catch] of [_handleOnopen]: [if (this.ws) this.ws.close()]. *)
Definition close_socket : M unit :=
  open <- gets ws ;;
  if open then modify (emit EWsClose) else ret tt.

(** The callbacks of [_handleOnopen] once [onConnect] has settled: the
    [then] when it is fulfilled, and the [catch] when it is rejected or
    the [then] throws. *)
Definition onConnectDone (ok : bool) : M unit :=
  if ok then
    try_catch
      (subscribeToAllStale ;;;
       modify (emit (EClient "connect" None)) ;;;
       connectResolve)
      (fun _ => close_socket)
  else close_socket.

(** [_handleOnerror(e)] *)
Definition handleOnerror : M unit :=
  connectReject "system.connectionError" "Connection error".

(** [_handleOnclose(e)] *)
Definition handleOnclose : M unit :=
  modify (set_connectPromise None) ;;;
  modify (set_ws false) ;;;
  c <- gets connected ;;
  (if c then
     modify (set_connected false) ;;;
     rids <- gets (fun s => cache_rids (cache s)) ;;
     forEach rids (fun r =>
       cc <- gets cache ;;
       match cache_get cc r with
       | None => ret tt
       | Some ci =>
           if subscribed ci then
             modify (fun s => set_cache (cache_alter (setSubscribed false) r (cache s)) s) ;;;
             modify (addStale r) ;;;
             ci' <- cached r ;;
             tryDelete ci'
           else ret tt
       end) ;;;
     modify (emit (EClient "close" None))
   else ret tt) ;;;
  cc <- gets cache ;;
  tc <- gets tryConnect ;;
  let hasStale := match cc with [] => false | _ => true end in
  modify (set_tryConnect (hasStale && tc)) ;;;
  if hasStale && tc
  then modify (emit (ETimeout TmReconnect reconnectDelay))
  else ret tt.

(** The timer of [_reconnect()]. *)
Definition reconnectTimer : M unit :=
  tc <- gets tryConnect ;;
  if tc then connect ;;; ret tt else ret tt.

(* ================================================================== *)
(** ** Handler turns *)

Definition run_task (t : microtask) : M unit :=
  match t with
  | MtCont k o => run_cont k o
  | MtSend w =>
      sendNow (pn_method w) (pn_params w) (pn_then w) (Some (pn_promise w)) ;;;
      ret tt
  | MtFail w code message =>
      let err := PEErr (mkResErr (pn_rid w) (pn_method w) (pn_params w)
                                 code message) in
      settle (PSend (pn_promise w)) (Rejected err) ;;;
      enqueue (MtCont (pn_then w) (RError err))
  end.

(** Run the queued promise reactions in order.  A reaction queues at
    most one more, which queues none, so two rounds empty the queue. *)
Fixpoint run_tasks (ts : list microtask) (s : Client) : Client :=
  match ts with
  | [] => s
  | t :: ts' => run_tasks ts' (state_of (run_task t s))
  end.

Definition drain_once (s : Client) : Client :=
  run_tasks (micro s) (set_micro [] s).

Definition drain (s : Client) : Client := drain_once (drain_once (drain_once s)).

(** What can start a handler turn. *)
Inductive input : Type :=
| IGet (r : string)
| ICall (r : string) (method : option string) (params : option Data)
| IAuthenticate (r : string) (method : option string) (params : option Data)
| ICreate (r : string) (params : option Data)
| IResourceOn (r : string)
| IResourceOff (r : string)
| IConnect
| IDisconnect
| IOpen
| IOnConnectDone (ok : bool)
| IError
| IMessage (msg : message)
| IClose
| ITimer (t : timer).

Definition handler (i : input) : M unit :=
  match i with
  | IGet r => get r ;;; ret tt
  | ICall r m p => call r m p ;;; ret tt
  | IAuthenticate r m p => authenticate r m p ;;; ret tt
  | ICreate r p => create r p ;;; ret tt
  | IResourceOn r => resourceOn r
  | IResourceOff r => resourceOff r
  | IConnect => connect ;;; ret tt
  | IDisconnect => disconnect
  | IOpen => handleOnopen
  | IOnConnectDone ok => onConnectDone ok
  | IError => handleOnerror
  | IMessage msg => receive msg
  | IClose => handleOnclose
  | ITimer (TmSubscribeToStale r) => subscribeToStale r
  | ITimer TmReconnect => reconnectTimer
  end.

(** One turn: the handler, then the promise reactions it queued. *)
Definition turn (i : input) (s : Client) : Client :=
  drain (state_of (handler i s)).

Definition run (ins : list input) (s : Client) : Client :=
  fold_left (fun s i => turn i s) ins s.

(** Whether the turn's handler threw. *)
Definition throws (i : input) (s : Client) : option string :=
  match handler i s with Ok _ _ => None | Err e _ => Some e end.


(* ================================================================== *)
(** ** Concrete sessions *)

(** A client whose connection is open and whose connect callback has
    resolved. *)
Definition s_conn : Client :=
  run [IConnect; IOpen; IOnConnectDone true] newClient.

(** A resource bundle of models only. *)
Definition mdl (l : Obj.t (Obj.t wire)) : Data :=
  mkData (Some l) None None None None None None.

(** The payload of a change event. *)
Definition chg (l : Obj.t wire) : Data :=
  mkData None None None (Some l) None None None.

(** The wire form of a resource reference, [{rid: r}]. *)
Definition ref (r : string) : wire := WObj [("rid", PStr r)].

(** The wire form of the delete action, [{action: "delete"}]. *)
Definition del : wire := WObj [("action", PStr "delete")].

(** What the tests read of a cache: per item its rid, direct and
    indirect counts, subscription flag and values. *)
Definition brief (s : Client) : list (string * Z * Z * bool * list value) :=
  map (fun ci => (rid ci, direct ci, indirect ci, subscribed ci, item_values ci))
      (cache s).

(** A session that opens the connection. *)
Definition connect_session : list input := [IConnect; IOpen; IOnConnectDone true].

(** A session in which [get("M")] is answered with a model [M] whose
    fields [a] and [b] both refer to the model [X]. *)
Definition two_refs_session : list input :=
  connect_session
  ++ [IGet "M";
      IMessage (MResponse 1 None
        (Some (mdl [("M", [("a", ref "X"); ("b", ref "X")]); ("X", [])])))].

Definition s_two_refs : Client := run two_refs_session newClient.


(* ================================================================== *)
(** ** Observing request promises *)

(** Whether an effect settles the promise of request [id]. *)
Definition is_req_settle (id : Z) (e : effect) : bool :=
  match e with
  | ESettle (PReq k) _ => Z.eqb k id
  | _ => false
  end.

(** How many times the promise of request [id] has been settled. *)
Definition settled_count (id : Z) (t : list effect) : nat :=
  List.length (filter (is_req_settle id) t).

(** A request is outstanding while it is in the table with its promise
    not settled. *)
Definition outstanding (id : Z) (rs : list (Z * Request)) : bool :=
  match req_get id rs with
  | Some req => negb (rq_settled req)
  | None => false
  end.


(* ================================================================== *)
(** ** The rest of the public interface *)

(** [actionDelete] *)
Definition actionDelete : wire := WObj [("action", PStr "delete")].

(** The parameters [setModel(modelId, props)] hands to
    [_send('call', modelId, 'set', ...)]: a copy of [props] in which
    every [undefined] is replaced with [actionDelete]. *)
Definition setModel_params (props : Obj.t wire) : Obj.t wire :=
  map (fun kv => (fst kv,
                  match snd kv with
                  | WPrim PUndef => actionDelete
                  | v => v
                  end)) props.

(** Properties that are scalars, as they arrive and as a model holds
    them. *)
Definition scalar_props (props : Obj.t prim) : Obj.t wire :=
  map (fun kv => (fst kv, WPrim (snd kv))) props.

Definition scalar_values (props : Obj.t prim) : Obj.t value :=
  map (fun kv => (fst kv, VPrim (snd kv))) props.

(** [s.match(/^prefix/)] *)
Fixpoint starts_with (prefix s : string) : bool :=
  match prefix, s with
  | EmptyString, _ => true
  | String a p', String b s' => Ascii.eqb a b && starts_with p' s'
  | String _ _, EmptyString => false
  end.

(** [s.replace(/^http/, 'ws')] *)
Definition http_to_ws (s : string) : string :=
  if starts_with "http" s
  then ("ws" ++ substring 4 (String.length s) s)%string
  else s.

Section ResolvePath.
  (** The environment of [_resolvePath]: whether [document] and its
      [createElement] exist, and the absolute URL the browser makes of
      the [href] of an anchor element. *)
Variable has_document : bool.
Variable href : string -> string.

  (** [_resolvePath(url)] *)
Definition resolvePath (url : string) : string :=
    if starts_with "ws://" url || starts_with "wss://" url || negb has_document
    then url
    else http_to_ws (href url).
End ResolvePath.

Section TypeRegistry.
  (** Modelled from the spec: TypeList.js is not among the sources.
      A type list holds resource factories by pattern; [addFactory] and
      [removeFactory] are its two updates, the second returning the
      factory removed. *)
Variables (TypeList factory : Type).
Variable addFactory : string -> factory -> TypeList -> TypeList.
Variable removeFactory : string -> TypeList -> option factory * TypeList.

  (** [this.types.model.list] and [this.types.collection.list] *)
Record Types : Type := mkTypes {
    model_list : TypeList;
    collection_list : TypeList
  }.

  (** [registerModelType(pattern, factory)] *)
Definition registerModelType (pattern : string) (f : factory) (t : Types) : Types :=
    mkTypes (addFactory pattern f (model_list t)) (collection_list t).

  (** [unregisterModelType(pattern)] *)
Definition unregisterModelType (pattern : string) (t : Types)
    : option factory * Types :=
    let (f, l) := removeFactory pattern (model_list t) in
    (f, mkTypes l (collection_list t)).

  (** [registerCollectionType(pattern, factory)] *)
Definition registerCollectionType (pattern : string) (f : factory) (t : Types)
    : Types :=
    mkTypes (model_list t) (addFactory pattern f (collection_list t)).

  (** [unregisterCollectionType(pattern)], which calls [removeFactory]
      on [this.types.model.list]. *)
Definition unregisterCollectionType (pattern : string) (t : Types)
    : option factory * Types :=
    let (f, l) := removeFactory pattern (model_list t) in
    (f, mkTypes l (collection_list t)).
End TypeRegistry.
Arguments mkTypes {TypeList}.
Arguments model_list {TypeList}.
Arguments collection_list {TypeList}.
Arguments registerModelType {TypeList factory}.
Arguments unregisterModelType {TypeList factory}.
Arguments registerCollectionType {TypeList factory}.
Arguments unregisterCollectionType {TypeList factory}.


(* ================================================================== *)
(** ** Looking a resource up *)

(** A rid for which [this.cache[rid]] is falsy has no item stored under
    it and names no inherited member. *)
Lemma cache_has_false c r :
  cache_has c r = false <-> cache_get c r = None /\ inherited r = false.
Proof.
  unfold cache_has. destruct (cache_get c r); split.
  - discriminate.
  - intros (H & _). discriminate.
  - auto.
  - intros (_ & H). exact H.
Qed.

Lemma cache_has_uncached c r : cache_has c r = false -> cache_get c r = None.
Proof. intros H. now apply cache_has_false in H. Qed.
#[local] Hint Resolve cache_has_uncached : core.


(* ================================================================== *)
(** ** Facts about dictionaries and the cache *)

Section ObjFacts.
Context {V : Type}.
Implicit Types (o : Obj.t V) (k : string) (v : V).

Lemma get_set_eq k v o : Obj.get k (Obj.set k v o) = Some v.
  Proof.
    induction o as [|[k' v'] o IH]; simpl.
    - now rewrite String.eqb_refl.
    - destruct (String.eqb k' k) eqn:E; simpl; rewrite E; auto.
  Qed.

Lemma get_set_ne k k' v o :
    k <> k' -> Obj.get k' (Obj.set k v o) = Obj.get k' o.
  Proof.
    intros N. induction o as [|[k0 v0] o IH]; simpl.
    - apply String.eqb_neq in N. now rewrite N.
    - destruct (String.eqb k0 k) eqn:E; simpl.
      + apply String.eqb_eq in E. subst k0.
        apply String.eqb_neq in N. now rewrite N.
      + now rewrite IH.
  Qed.

Lemma get_None_keys k o : Obj.get k o = None <-> ~ In k (Obj.keys o).
  Proof.
    induction o as [|[k0 v0] o IH]; simpl.
    - tauto.
    - destruct (String.eqb k0 k) eqn:E.
      + apply String.eqb_eq in E. split; [discriminate | tauto].
      + apply String.eqb_neq in E. tauto.
  Qed.

Lemma get_Some_keys k v o : Obj.get k o = Some v -> In k (Obj.keys o).
  Proof.
    intros H. destruct (in_dec string_dec k (Obj.keys o)) as [I|I]; auto.
    apply get_None_keys in I. congruence.
  Qed.

Lemma keys_get k o : In k (Obj.keys o) -> exists v, Obj.get k o = Some v.
  Proof.
    intros I. destruct (Obj.get k o) eqn:E; eauto.
    apply get_None_keys in E. tauto.
  Qed.

Lemma set_new k v o : Obj.get k o = None -> Obj.set k v o = o ++ [(k, v)].
  Proof.
    induction o as [|[k0 v0] o IH]; simpl; auto.
    destruct (String.eqb k0 k); [discriminate|].
    intros H. now rewrite IH.
  Qed.

Lemma keys_set_old k v v0 o :
    Obj.get k o = Some v0 -> Obj.keys (Obj.set k v o) = Obj.keys o.
  Proof.
    induction o as [|[k1 v1] o IH]; simpl; [discriminate|].
    destruct (String.eqb k1 k) eqn:E; simpl; auto.
    intros H. now rewrite IH.
  Qed.

Lemma length_set_old k v v0 o :
    Obj.get k o = Some v0 -> List.length (Obj.set k v o) = List.length o.
  Proof.
    intros H. apply keys_set_old with (v := v) in H.
    unfold Obj.keys in H.
    rewrite <- (length_map fst (Obj.set k v o)), H. apply length_map.
  Qed.

Lemma get_In k v o : Obj.get k o = Some v -> In (k, v) o.
  Proof.
    induction o as [|[k1 v1] o IH]; simpl; [discriminate|].
    destruct (String.eqb k1 k) eqn:E.
    - apply String.eqb_eq in E. intros [= ->]. subst. auto.
    - auto.
  Qed.

Lemma In_get_NoDup k v o :
    NoDup (Obj.keys o) -> In (k, v) o -> Obj.get k o = Some v.
  Proof.
    induction o as [|[k1 v1] o IH]; simpl; [tauto|].
    intros ND [E|I].
    - inversion E; subst. now rewrite String.eqb_refl.
    - inversion ND as [|? ? N ND']; subst.
      destruct (String.eqb k1 k) eqn:E.
      + apply String.eqb_eq in E. subst. exfalso. apply N.
        change k with (fst (k, v)). now apply in_map.
      + auto.
  Qed.
End ObjFacts.

Lemma cache_get_rid c r x : cache_get c r = Some x -> rid x = r.
Proof.
  induction c as [|y c IH]; simpl; [discriminate|].
  destruct (String.eqb (rid y) r) eqn:E; auto.
  intros [= ->]. now apply String.eqb_eq.
Qed.

Lemma cache_get_In c r x : cache_get c r = Some x -> In x c.
Proof.
  induction c as [|y c IH]; simpl; [discriminate|].
  destruct (String.eqb (rid y) r); auto.
  intros [= ->]. auto.
Qed.

Lemma cache_get_self c r x : cache_get c r = Some x -> cache_get c (rid x) = Some x.
Proof. intros H. now rewrite (cache_get_rid _ _ _ H). Qed.

Lemma cache_get_None c r : cache_get c r = None <-> ~ In r (cache_rids c).
Proof.
  induction c as [|y c IH]; simpl; [tauto|].
  destruct (String.eqb (rid y) r) eqn:E.
  - apply String.eqb_eq in E. split; [discriminate | tauto].
  - apply String.eqb_neq in E. tauto.
Qed.

Lemma cache_get_NoDup c x :
  NoDup (cache_rids c) -> In x c -> cache_get c (rid x) = Some x.
Proof.
  induction c as [|y c IH]; simpl; [tauto|].
  intros ND [E|I].
  - subst. now rewrite String.eqb_refl.
  - inversion ND as [|? ? N ND']; subst.
    destruct (String.eqb (rid y) (rid x)) eqn:E; auto.
    apply String.eqb_eq in E. exfalso. apply N. rewrite E.
    now apply in_map.
Qed.

(** The cached items an item refers to, in iteration order. *)
Definition kids (c : Cache) (ci : CacheItem) : list CacheItem :=
  flat_map (fun v => match getRefItem c v with Some x => [x] | None => [] end)
           (item_values ci).

Fixpoint each_ci (visit : CacheItem -> Refs -> outcome Refs)
    (l : list CacheItem) (refs : Refs) : outcome Refs :=
  match l with
  | [] => Done refs
  | ci :: l' =>
      match visit ci refs with
      | Done refs' => each_ci visit l' refs'
      | other => other
      end
  end.

Lemma each_ref_kids c visit vs refs :
  each_ref c visit vs refs =
  each_ci visit
    (flat_map (fun v => match getRefItem c v with Some x => [x] | None => [] end) vs)
    refs.
Proof.
  revert refs. induction vs as [|v vs IH]; intros refs; simpl; auto.
  destruct (getRefItem c v) as [x|]; simpl; auto.
  destruct (visit x refs); auto.
Qed.

Lemma kids_cached c ci x : In x (kids c ci) -> cache_get c (rid x) = Some x.
Proof.
  unfold kids. rewrite in_flat_map. intros (v & _ & H).
  destruct v as [p|o r|m]; simpl in H; try tauto.
  destruct (cache_get c r) as [y|] eqn:E; simpl in H; [|tauto].
  destruct H as [<-|[]]. eapply cache_get_self; eauto.
Qed.

Lemma traverse_skip_eq fuel c cb ci state refs :
  traverse (S fuel) c cb ci state true refs =
  each_ci (fun ci' r => traverse fuel c cb ci' state false r) (kids c ci) refs.
Proof. cbn [traverse]. now rewrite each_ref_kids. Qed.

(* ================================================================== *)
(** ** The first traversal: counting references from inside *)

(** What [_seekRefs] does to the table for an item that is not
    subscribed. *)
Definition seek_upd (x : CacheItem) (refs : Refs) : Refs :=
  match Obj.get (rid x) refs with
  | None => Obj.set (rid x) (mkRS x (indirect x - 1) stateNone) refs
  | Some r => Obj.set (rid x) (mkRS (rs_ci r) (rc r - 1) (st r)) refs
  end.

Definition nonsub (x : CacheItem) : bool := negb (subscribed x).

(** The cached, not subscribed items an item refers to: the edges the
    traversals follow. *)
Definition nskids (c : Cache) (ci : CacheItem) : list CacheItem :=
  filter nonsub (kids c ci).

Definition nskids_of (c : Cache) (r : string) : list CacheItem :=
  match cache_get c r with Some x => nskids c x | None => [] end.

(** Reachability along such edges. *)
Inductive nsreach (c : Cache) (a : string) : string -> Prop :=
| nsr_refl : nsreach c a a
| nsr_step b x : nsreach c a b -> In x (nskids_of c b) -> nsreach c a (rid x).

Lemma nsreach_trans c a b d : nsreach c a b -> nsreach c b d -> nsreach c a d.
Proof.
  intros H1 H2. induction H2; auto. eapply nsr_step; eauto.
Qed.

Lemma nskids_cached c ci x :
  In x (nskids c ci) -> cache_get c (rid x) = Some x /\ subscribed x = false.
Proof.
  unfold nskids. rewrite filter_In. intros [I N]. split.
  - eapply kids_cached; eauto.
  - unfold nonsub in N. now destruct (subscribed x).
Qed.

Lemma nskids_of_cached c ci :
  cache_get c (rid ci) = Some ci -> nskids_of c (rid ci) = nskids c ci.
Proof. unfold nskids_of. now intros ->. Qed.

Section SeekPass.
Variable c : Cache.

Definition seek_all (L : list CacheItem) (refs : Refs) : Refs :=
    fold_left (fun r x => seek_upd x r) L refs.

  (** What a part of the first traversal that starts at the items
      [heads] does to the table: it performs the visits [L], which bring
      in the keys [new]; the visits are the heads and every edge out of
      a new key, each once. *)
Definition seek_post (heads : list CacheItem) (refs refs' : Refs) : Prop :=
    exists L new,
      refs' = seek_all L refs
      /\ Obj.keys refs' = Obj.keys refs ++ new
      /\ NoDup new
      /\ (forall r, In r new -> ~ In r (Obj.keys refs))
      /\ (forall x, In x L -> cache_get c (rid x) = Some x /\ subscribed x = false)
      /\ Permutation L (heads ++ flat_map (nskids_of c) new)
      /\ (forall r, In r new -> exists h, In h heads /\ nsreach c (rid h) r).

Lemma seek_upd_keys x refs :
    Obj.keys (seek_upd x refs) =
    Obj.keys refs ++ (if Obj.has (rid x) refs then [] else [rid x]).
  Proof.
    unfold seek_upd, Obj.has. destruct (Obj.get (rid x) refs) eqn:E.
    - rewrite (keys_set_old _ _ _ _ E). now rewrite app_nil_r.
    - rewrite (set_new _ _ _ E). unfold Obj.keys. now rewrite map_app.
  Qed.

Lemma seek_post_loop (visit : CacheItem -> Refs -> outcome Refs) :
    (forall x refs refs',
        cache_get c (rid x) = Some x ->
        visit x refs = Done refs' ->
        seek_post (if subscribed x then [] else [x]) refs refs') ->
    forall l refs refs',
      (forall x, In x l -> cache_get c (rid x) = Some x) ->
      each_ci visit l refs = Done refs' ->
      seek_post (filter nonsub l) refs refs'.
  Proof.
    intros HV. induction l as [|x l IH]; intros refs refs' Hc H; simpl in H.
    - inversion H; subst. exists [], []. simpl.
      rewrite app_nil_r. repeat split; auto using NoDup_nil; try tauto.
    - destruct (visit x refs) as [refs1| |] eqn:E1; try discriminate.
      apply HV in E1; [|apply Hc; simpl; auto].
      apply IH in H; [|intros; apply Hc; simpl; auto].
      destruct E1 as (L1 & new1 & -> & K1 & ND1 & F1 & C1 & P1 & R1).
      destruct H as (L2 & new2 & -> & K2 & ND2 & F2 & C2 & P2 & R2).
      exists (L1 ++ L2), (new1 ++ new2). repeat split.
      + unfold seek_all. now rewrite fold_left_app.
      + rewrite K2, K1. now rewrite app_assoc.
      + apply NoDup_app; auto. intros r I1 I2.
        apply (F2 r I2). rewrite K1. apply in_or_app. auto.
      + intros r I. apply in_app_or in I. destruct I as [I|I]; auto.
        intros I'. apply (F2 r I). rewrite K1. apply in_or_app. auto.
      + apply in_app_or in H. destruct H as [I|I]; [apply C1|apply C2]; auto.
      + apply in_app_or in H. destruct H as [I|I]; [apply C1|apply C2]; auto.
      + rewrite flat_map_app.
        assert (E : filter nonsub (x :: l)
                    = (if subscribed x then [] else [x]) ++ filter nonsub l).
        { simpl. unfold nonsub at 1. destruct (subscribed x); reflexivity. }
        rewrite E.
        eapply Permutation_trans; [apply Permutation_app; eassumption|].
        rewrite <- !app_assoc. apply Permutation_app_head.
        rewrite !app_assoc. apply Permutation_app_tail.
        apply Permutation_app_comm.
      + intros r I. apply in_app_or in I. destruct I as [I|I].
        * destruct (R1 r I) as (h & Hh & Hr). exists h. split; auto.
          simpl. unfold nonsub at 1.
          destruct (subscribed x); simpl in *; tauto.
        * destruct (R2 r I) as (h & Hh & Hr). exists h. split; auto.
          simpl. destruct (nonsub x); simpl; auto.
  Qed.

Lemma seek_post_visit fuel :
    forall x state refs refs',
      cache_get c (rid x) = Some x ->
      traverse fuel c seekRefs x state false refs = Done refs' ->
      seek_post (if subscribed x then [] else [x]) refs refs'.
  Proof.
    induction fuel as [|fuel IH]; intros x state refs refs' Hx H;
      simpl in H; [discriminate|].
    unfold seekRefs in H.
    destruct (subscribed x) eqn:Sx.
    - simpl in H. inversion H; subst. exists [], []. simpl.
      rewrite app_nil_r. repeat split; auto using NoDup_nil; try tauto.
    - destruct (Obj.get (rid x) refs) as [r|] eqn:G; simpl in H.
      + inversion H; subst. exists [x], []. simpl.
        repeat split; auto; try tauto.
        * unfold seek_upd. now rewrite G.
        * rewrite (keys_set_old _ _ _ _ G). now rewrite app_nil_r.
        * constructor.
        * destruct H0 as [<-|[]]; auto.
        * destruct H0 as [<-|[]]; auto.
      + rewrite each_ref_kids in H. fold (kids c x) in H.
        apply seek_post_loop in H.
        * destruct H as (L & new & -> & K & ND & F & C & P & R).
          assert (U : Obj.set (rid x) (mkRS x (indirect x - 1) stateNone) refs
                      = seek_upd x refs).
          { unfold seek_upd. now rewrite G. }
          rewrite U in *.
          assert (KU : Obj.keys (seek_upd x refs) = Obj.keys refs ++ [rid x]).
          { rewrite seek_upd_keys. unfold Obj.has. now rewrite G. }
          exists (x :: L), (rid x :: new). repeat split.
          -- rewrite K, KU. now rewrite <- app_assoc.
          -- constructor; auto. intros I. apply (F _ I). rewrite KU.
             apply in_or_app. simpl. auto.
          -- intros r [<-|I].
             ++ now apply get_None_keys.
             ++ intros I'. apply (F r I). rewrite KU. apply in_or_app. auto.
          -- destruct H as [<-|I]; auto. now apply C.
          -- destruct H as [<-|I]; auto. now apply C.
          -- simpl. apply perm_skip. rewrite (nskids_of_cached _ _ Hx).
             exact P.
          -- intros r [<-|I].
             ++ exists x. split; [simpl; auto | constructor].
             ++ destruct (R r I) as (h & Hh & Hr). exists x.
                split; [simpl; auto|].
                eapply nsreach_trans; [|exact Hr].
                eapply nsr_step; [constructor|].
                now rewrite (nskids_of_cached _ _ Hx).
        * intros y r1 r2 Hy. apply IH. exact Hy.
        * intros y Hy. eapply kids_cached; eauto.
  Qed.
End SeekPass.

(** Number of items of [L] whose rid is [r]. *)
Definition hits (r : string) (L : list CacheItem) : Z :=
  Z.of_nat (List.length (filter (fun x => String.eqb (rid x) r) L)).

Lemma hits_nil r : hits r [] = 0.
Proof. reflexivity. Qed.

Lemma hits_cons r x L :
  hits r (x :: L) = (if String.eqb (rid x) r then 1 else 0) + hits r L.
Proof.
  unfold hits. cbn [filter].
  destruct (String.eqb (rid x) r); cbn [List.length]; lia.
Qed.

Lemma hits_app r L1 L2 : hits r (L1 ++ L2) = hits r L1 + hits r L2.
Proof.
  unfold hits. rewrite filter_app, length_app. lia.
Qed.

Lemma hits_nonneg r L : 0 <= hits r L.
Proof. unfold hits. lia. Qed.

Lemma hits_perm r L1 L2 : Permutation L1 L2 -> hits r L1 = hits r L2.
Proof.
  intros P. induction P; rewrite ?hits_cons; try lia.
Qed.

Lemma hits_pos_In r L : 0 < hits r L -> exists x, In x L /\ rid x = r.
Proof.
  induction L as [|x L IH]; rewrite ?hits_nil, ?hits_cons; [lia|].
  destruct (String.eqb (rid x) r) eqn:E.
  - apply String.eqb_eq in E. intros _. exists x. simpl. auto.
  - intros H. destruct IH as (y & I & Hy); [lia|]. exists y. simpl. auto.
Qed.

Lemma hits_zero_notin r L : (forall x, In x L -> rid x <> r) -> hits r L = 0.
Proof.
  induction L as [|x L IH]; intros H; rewrite ?hits_nil, ?hits_cons; auto.
  rewrite IH by (intros; apply H; simpl; auto).
  destruct (String.eqb (rid x) r) eqn:E; auto.
  apply String.eqb_eq in E. exfalso. apply (H x); simpl; auto.
Qed.

Lemma hits_zero_In r L x : hits r L = 0 -> In x L -> rid x <> r.
Proof.
  induction L as [|y L IH]; simpl; [tauto|].
  rewrite hits_cons. pose proof (hits_nonneg r L). intros Z0 Hx.
  destruct (String.eqb_spec (rid y) r); [lia|].
  destruct Hx as [->|Hx]; auto.
Qed.

Lemma seek_upd_get_ne x r refs :
  rid x <> r -> Obj.get r (seek_upd x refs) = Obj.get r refs.
Proof.
  intros N. unfold seek_upd.
  destruct (Obj.get (rid x) refs); now apply get_set_ne.
Qed.

Lemma seek_all_get_old L :
  forall refs r rs,
    Obj.get r refs = Some rs ->
    Obj.get r (seek_all L refs)
    = Some (mkRS (rs_ci rs) (rc rs - hits r L) (st rs)).
Proof.
  induction L as [|x L IH]; intros refs r rs G; simpl.
  - rewrite hits_nil, Z.sub_0_r. now destruct rs.
  - rewrite hits_cons. destruct (String.eqb (rid x) r) eqn:E.
    + apply String.eqb_eq in E. subst r.
      erewrite IH.
      2:{ unfold seek_upd. rewrite G. apply get_set_eq. }
      simpl.
      replace (rc rs - 1 - hits (rid x) L) with (rc rs - (1 + hits (rid x) L))
        by lia.
      reflexivity.
    + apply String.eqb_neq in E.
      erewrite IH by (rewrite seek_upd_get_ne; eauto).
      now rewrite Z.add_0_l.
  Qed.

Lemma seek_all_get_new L :
  forall refs r X,
    Obj.get r refs = None ->
    (forall x, In x L -> rid x = r -> x = X) ->
    Obj.get r (seek_all L refs)
    = if Z.eqb (hits r L) 0 then None
      else Some (mkRS X (indirect X - hits r L) stateNone).
Proof.
  induction L as [|x L IH]; intros refs r X G HX; simpl.
  - exact G.
  - rewrite hits_cons. destruct (String.eqb (rid x) r) eqn:E.
    + apply String.eqb_eq in E.
      assert (x = X) by (apply HX; simpl; auto). subst x r.
      erewrite seek_all_get_old.
      2:{ unfold seek_upd. rewrite G. apply get_set_eq. }
      cbn [rs_ci rc st]. pose proof (hits_nonneg (rid X) L).
      destruct (Z.eqb_spec (1 + hits (rid X) L) 0); [lia|].
      replace (indirect X - 1 - hits (rid X) L)
        with (indirect X - (1 + hits (rid X) L)) by lia.
      reflexivity.
    + apply String.eqb_neq in E.
      rewrite (IH _ r X); auto.
      * now rewrite seek_upd_get_ne.
      * intros; apply HX; simpl; auto.
Qed.

Lemma filter_len_mono {A} (p q : A -> bool) l :
  (forall x, In x l -> q x = true -> p x = true) ->
  (List.length (filter q l) <= List.length (filter p l))%nat.
Proof.
  induction l as [|x l IH]; intros H; simpl; auto.
  assert (IH' := IH (fun y I => H y (or_intror I))).
  destruct (q x) eqn:Q.
  - rewrite (H x (or_introl eq_refl) Q). simpl. lia.
  - destruct (p x); simpl; lia.
Qed.

Lemma filter_len_strict {A} (p q : A -> bool) l a :
  (forall x, In x l -> q x = true -> p x = true) ->
  In a l -> p a = true -> q a = false ->
  (List.length (filter q l) < List.length (filter p l))%nat.
Proof.
  induction l as [|x l IH]; intros H I Pa Qa; simpl; [destruct I|].
  assert (H' : forall y, In y l -> q y = true -> p y = true)
    by (intros; apply H; simpl; auto).
  destruct I as [->|I].
  - rewrite Pa, Qa. simpl. pose proof (filter_len_mono p q l H'). lia.
  - specialize (IH H' I Pa Qa).
    destruct (q x) eqn:Q.
    + rewrite (H x (or_introl eq_refl) Q). simpl. lia.
    + destruct (p x); simpl; lia.
Qed.

Section SeekTotal.
Variable c : Cache.

  (** Cached items that have no entry in the table yet. *)
Definition unseen (refs : Refs) : nat :=
    List.length (filter (fun x => negb (Obj.has (rid x) refs)) c).

Lemma has_true_keys {V} k (o : Obj.t V) : Obj.has k o = true <-> In k (Obj.keys o).
  Proof.
    unfold Obj.has. destruct (Obj.get k o) eqn:E.
    - split; auto. intros _. eapply get_Some_keys; eauto.
    - apply get_None_keys in E. split; [discriminate | tauto].
  Qed.

Lemma unseen_mono refs refs' :
    (forall k, In k (Obj.keys refs) -> In k (Obj.keys refs')) ->
    (unseen refs' <= unseen refs)%nat.
  Proof.
    intros H. apply filter_len_mono. intros x _ Q.
    destruct (Obj.has (rid x) refs) eqn:E; auto.
    apply has_true_keys in E. apply H in E. apply has_true_keys in E.
    now rewrite E in Q.
  Qed.

Lemma unseen_add x refs :
    cache_get c (rid x) = Some x ->
    Obj.get (rid x) refs = None ->
    (unseen (seek_upd x refs) < unseen refs)%nat.
  Proof.
    intros Hx G. apply filter_len_strict with (a := x).
    - intros y _ Q. destruct (Obj.has (rid y) refs) eqn:E; auto.
      apply has_true_keys in E.
      assert (I : Obj.has (rid y) (seek_upd x refs) = true).
      { apply has_true_keys. rewrite seek_upd_keys. apply in_or_app. auto. }
      now rewrite I in Q.
    - eapply cache_get_In; eauto.
    - unfold Obj.has. now rewrite G.
    - assert (I : Obj.has (rid x) (seek_upd x refs) = true).
      { apply has_true_keys. rewrite seek_upd_keys. unfold Obj.has.
        rewrite G. apply in_or_app. simpl. auto. }
      now rewrite I.
  Qed.

Lemma seek_post_keys heads refs refs' :
    seek_post c heads refs refs' ->
    forall k, In k (Obj.keys refs) -> In k (Obj.keys refs').
  Proof.
    intros (L & new & _ & K & _) k I. rewrite K. apply in_or_app. auto.
  Qed.

Lemma seek_visit_eq fuel x state refs :
    traverse (S fuel) c seekRefs x state false refs =
    if subscribed x then Done refs
    else
      match Obj.get (rid x) refs with
      | Some _ => Done (seek_upd x refs)
      | None =>
          each_ci (fun ci' r => traverse fuel c seekRefs ci' (TBool true) false r)
                  (kids c x) (seek_upd x refs)
      end.
  Proof.
    cbn [traverse]. unfold seekRefs at 1, seek_upd.
    destruct (subscribed x); [reflexivity|].
    destruct (Obj.get (rid x) refs); [reflexivity|].
    cbn [tstate_is_false]. now rewrite each_ref_kids.
  Qed.

Lemma seek_total fuel :
    forall x state refs,
      cache_get c (rid x) = Some x ->
      (unseen refs < fuel)%nat ->
      exists refs', traverse fuel c seekRefs x state false refs = Done refs'.
  Proof.
    induction fuel as [|fuel IH]; intros x state refs Hx HU; [lia|].
    rewrite seek_visit_eq.
    destruct (subscribed x); [eauto|].
    destruct (Obj.get (rid x) refs) as [r|] eqn:G; [eauto|].
    pose proof (unseen_add x refs Hx G) as HA.
    assert (HK : forall y, In y (kids c x) -> cache_get c (rid y) = Some y)
      by (intros; eapply kids_cached; eauto).
    assert (HU' : (unseen (seek_upd x refs) < fuel)%nat) by lia.
    clear HA HU G.
    revert HK HU'. generalize (seek_upd x refs). generalize (kids c x).
    induction l as [|y l IHl]; intros refs1 HK HU'; cbn [each_ci]; [eauto|].
    destruct (IH y (TBool true) refs1) as (refs2 & E2); auto.
    { apply HK; simpl; auto. }
    rewrite E2. apply IHl.
    - intros; apply HK; simpl; auto.
    - apply seek_post_visit in E2; [|apply HK; simpl; auto].
      pose proof (unseen_mono _ _ (seek_post_keys _ _ _ E2)). lia.
  Qed.

Lemma unseen_le refs : (unseen refs <= List.length c)%nat.
  Proof. unfold unseen. apply List.filter_length_le. Qed.

  (** The first traversal returns. *)
Lemma seekPass_total ci : exists refs, seekPass c ci = Done refs.
  Proof.
    unfold seekPass, seek_fuel. rewrite traverse_skip_eq.
    assert (HK : forall y, In y (kids c ci) -> cache_get c (rid y) = Some y)
      by (intros; eapply kids_cached; eauto).
    revert HK.
    generalize [(rid ci, mkRS ci (indirect ci) stateNone)].
    generalize (kids c ci).
    induction l as [|y l IHl]; intros refs1 HK; cbn [each_ci]; [eauto|].
    destruct (seek_total (S (List.length c)) y (TNum 0) refs1) as (refs2 & E2).
    { apply HK; simpl; auto. }
    { pose proof (unseen_le refs1). lia. }
    rewrite E2. apply IHl. intros; apply HK; simpl; auto.
  Qed.
End SeekTotal.

Lemma seek_all_keys_old L : forall refs k,
  In k (Obj.keys refs) -> In k (Obj.keys (seek_all L refs)).
Proof.
  induction L as [|x L IH]; intros refs k I; simpl; auto.
  apply IH. rewrite seek_upd_keys. apply in_or_app. auto.
Qed.

Lemma seek_all_keys_visited L : forall refs x,
  In x L -> In (rid x) (Obj.keys (seek_all L refs)).
Proof.
  induction L as [|y L IH]; intros refs x I; simpl; [destruct I|].
  destruct I as [->|I]; auto.
  apply seek_all_keys_old. rewrite seek_upd_keys.
  destruct (Obj.has (rid x) refs) eqn:E.
  - rewrite app_nil_r. now apply has_true_keys.
  - apply in_or_app. simpl. auto.
Qed.

(** Edges into [r] out of the items whose rids are listed in [S]. *)
Definition inner_edges (c : Cache) (S : list string) (r : string) : Z :=
  hits r (flat_map (nskids_of c) S).

(** After the first traversal the table has exactly the items reachable
    from the root through items that are not subscribed, each with
    [rc = indirect] minus the number of edges that reach it from items of
    the table, and with state [stateNone]. *)
Theorem seekPass_spec c ci refs :
  cache_get c (rid ci) = Some ci ->
  seekPass c ci = Done refs ->
  NoDup (Obj.keys refs)
  /\ (forall r, In r (Obj.keys refs) <-> nsreach c (rid ci) r)
  /\ (forall r rs, Obj.get r refs = Some rs ->
        cache_get c r = Some (rs_ci rs)
        /\ st rs = stateNone
        /\ rc rs = indirect (rs_ci rs) - inner_edges c (Obj.keys refs) r)
  /\ (forall r rs, Obj.get r refs = Some rs -> r <> rid ci ->
        subscribed (rs_ci rs) = false).
Proof.
  intros Hc H. unfold seekPass, seek_fuel in H.
  rewrite traverse_skip_eq in H.
  apply (seek_post_loop c) in H.
  2:{ intros x r1 r2 Hx Hv. eapply seek_post_visit; eauto. }
  2:{ intros y Hy. eapply kids_cached; eauto. }
  fold (nskids c ci) in H.
  destruct H as (L & new & -> & K & ND & F & C & P & R).
  set (refs0 := [(rid ci, mkRS ci (indirect ci) stateNone)]) in *.
  simpl in K.
  assert (PL : Permutation L (flat_map (nskids_of c) (rid ci :: new))).
  { simpl. now rewrite (nskids_of_cached _ _ Hc). }
  assert (Hnew : forall r, In r new -> r <> rid ci).
  { intros r I E. apply (F r I). simpl. auto. }
  split; [|split; [|split]].
  - rewrite K. constructor; auto. intros I. now apply (Hnew _ I).
  - intros r. split.
    + rewrite K. intros [<-|I]; [constructor|].
      destruct (R r I) as (h & Hh & Hr).
      eapply nsreach_trans; [|exact Hr].
      eapply nsr_step; [constructor|].
      now rewrite (nskids_of_cached _ _ Hc).
    + intros Hr. induction Hr as [|b x Hb IH Hx].
      * rewrite K. simpl. auto.
      * apply seek_all_keys_visited.
        eapply Permutation_in; [apply Permutation_sym; exact PL|].
        rewrite <- K. apply in_flat_map. eauto.
  - intros r rs G. unfold inner_edges. rewrite K.
    rewrite <- (hits_perm r _ _ PL).
    destruct (string_dec r (rid ci)) as [->|N].
    + erewrite seek_all_get_old in G by (simpl; now rewrite String.eqb_refl).
      inversion G; subst; simpl. auto.
    + assert (G0 : Obj.get r refs0 = None).
      { simpl. destruct (String.eqb_spec (rid ci) r); congruence. }
      assert (I : In r new).
      { apply get_Some_keys in G. rewrite K in G. simpl in G.
        destruct G; congruence. }
      destruct (keys_get r (seek_all L refs0)) as (rs' & G').
      { rewrite K. simpl. auto. }
      pose proof (hits_nonneg r L) as Hn.
      destruct (Z.eqb_spec (hits r L) 0) as [Z0|Z0].
      * rewrite (seek_all_get_new L refs0 r ci) in G; auto.
        -- apply Z.eqb_eq in Z0. rewrite Z0 in G. discriminate.
        -- intros x Hx Ex. exfalso. eapply hits_zero_In; eauto.
      * destruct (hits_pos_In r L) as (X & HX & EX); [lia|].
        destruct (C X HX) as (CX & SX).
        rewrite (seek_all_get_new L refs0 r X) in G; auto.
        -- apply Z.eqb_neq in Z0. rewrite Z0 in G.
           inversion G; subst; simpl. auto.
        -- intros x Hx Ex. destruct (C x Hx) as (Cx & _).
           rewrite <- EX in Ex. rewrite Ex in Cx. congruence.
  - intros r rs G N.
    assert (G0 : Obj.get r refs0 = None).
    { simpl. destruct (String.eqb_spec (rid ci) r); congruence. }
    pose proof (hits_nonneg r L) as Hn.
    destruct (Z.eqb_spec (hits r L) 0) as [Z0|Z0].
    + exfalso.
      assert (I : In r new).
      { apply get_Some_keys in G. rewrite K in G. simpl in G.
        destruct G; congruence. }
      rewrite (seek_all_get_new L refs0 r ci) in G; auto.
      * apply Z.eqb_eq in Z0. rewrite Z0 in G. discriminate.
      * intros x Hx Ex. exfalso. eapply hits_zero_In; eauto.
    + destruct (hits_pos_In r L) as (X & HX & EX); [lia|].
      destruct (C X HX) as (CX & SX).
      rewrite (seek_all_get_new L refs0 r X) in G; auto.
      * apply Z.eqb_neq in Z0. rewrite Z0 in G.
        inversion G; subst; simpl. auto.
      * intros x Hx Ex. destruct (C x Hx) as (Cx & _).
        rewrite <- EX in Ex. rewrite Ex in Cx. congruence.
Qed.

(* ================================================================== *)
(** ** The second traversal: classification *)

Lemma traverse_visit_eq fuel c cb x state refs :
  traverse (S fuel) c cb x state false refs =
  match cb refs x state with
  | Done (refs1, s1) =>
      if tstate_is_false s1 then Done refs1
      else each_ci (fun ci' r => traverse fuel c cb ci' s1 false r)
                   (kids c x) refs1
  | Thrown m => Thrown m
  | NoFuel => NoFuel
  end.
Proof.
  cbn [traverse]. destruct (cb refs x state) as [[refs1 s1]| |]; auto.
  destruct (tstate_is_false s1); auto. now rewrite each_ref_kids.
Qed.

(** An item that stays in the cache: kept or put in the stale set. *)
Definition retained (s : Z) : Prop := s = stateKeep \/ s = stateStale.

Definition classified (s : Z) : Prop := s <> stateNone.

(** How [_markDelete] may change a state. *)
Definition st_le (s s' : Z) : Prop :=
  s' = s \/ s' = stateKeep
  \/ (s = stateNone /\ (s' = stateDelete \/ s' = stateStale)).

Definition weight (s : Z) : nat :=
  if Z.eqb s stateKeep then 0%nat
  else if Z.eqb s stateNone then 2%nat else 1%nat.

Definition total_weight (refs : Refs) : nat :=
  list_sum (map (fun e => weight (st (snd e))) refs).

Definition entry_le (e e' : string * RefState) : Prop :=
  fst e = fst e' /\ rs_ci (snd e) = rs_ci (snd e')
  /\ rc (snd e) = rc (snd e') /\ st_le (st (snd e)) (st (snd e')).

Definition refs_le (R R' : Refs) : Prop := Forall2 entry_le R R'.

Lemma st_le_refl s : st_le s s.
Proof. left. reflexivity. Qed.

Lemma st_le_trans a b d : st_le a b -> st_le b d -> st_le a d.
Proof.
  unfold st_le, stateKeep, stateNone, stateDelete, stateStale. lia.
Qed.

Lemma st_le_weight a b : st_le a b -> (weight b <= weight a)%nat.
Proof.
  unfold st_le, weight, stateKeep, stateNone, stateDelete, stateStale.
  intros H.
  destruct (Z.eqb_spec b 2), (Z.eqb_spec a 2), (Z.eqb_spec b 0),
    (Z.eqb_spec a 0); lia.
Qed.

Lemma retained_up a b : retained a -> st_le a b -> retained b.
Proof.
  unfold retained, st_le, stateKeep, stateNone, stateDelete, stateStale. lia.
Qed.

Lemma classified_up a b : classified a -> st_le a b -> classified b.
Proof.
  unfold classified, st_le, stateKeep, stateNone, stateDelete, stateStale. lia.
Qed.

Lemma retained_dec s : retained s \/ ~ retained s.
Proof. unfold retained, stateKeep, stateStale. lia. Qed.

Lemma classified_dec s : classified s \/ ~ classified s.
Proof. unfold classified, stateNone. lia. Qed.

Lemma retained_classified s : retained s -> classified s.
Proof. unfold retained, classified, stateKeep, stateStale, stateNone. lia. Qed.

Lemma refs_le_refl R : refs_le R R.
Proof.
  induction R; constructor; auto.
  repeat split; auto using st_le_refl.
Qed.

Lemma refs_le_trans R1 R2 R3 : refs_le R1 R2 -> refs_le R2 R3 -> refs_le R1 R3.
Proof.
  intros H. revert R3.
  induction H as [|e1 e2 R1 R2 (A1 & A2 & A3 & A4) _ IH]; intros R3 H3;
    inversion H3 as [|? e3 ? R3' (B1 & B2 & B3 & B4) B5]; subst;
    constructor; [|now apply IH].
  repeat split; try congruence. eapply st_le_trans; eauto.
Qed.

Lemma refs_le_get R R' r :
  refs_le R R' ->
  match Obj.get r R, Obj.get r R' with
  | Some a, Some b =>
      rs_ci a = rs_ci b /\ rc a = rc b /\ st_le (st a) (st b)
  | None, None => True
  | _, _ => False
  end.
Proof.
  induction 1 as [|[k a] [k' b] R R' (E & H1 & H2 & H3) _ IH]; simpl; auto.
  simpl in *. subst k'. destruct (String.eqb k r); auto.
Qed.

Lemma refs_le_get_Some R R' r a :
  refs_le R R' -> Obj.get r R = Some a ->
  exists b, Obj.get r R' = Some b /\ rs_ci a = rs_ci b /\ rc a = rc b
            /\ st_le (st a) (st b).
Proof.
  intros H G. pose proof (refs_le_get R R' r H) as P. rewrite G in P.
  destruct (Obj.get r R'); [eauto | tauto].
Qed.

Lemma refs_le_get_back R R' r b :
  refs_le R R' -> Obj.get r R' = Some b ->
  exists a, Obj.get r R = Some a /\ rs_ci a = rs_ci b /\ rc a = rc b
            /\ st_le (st a) (st b).
Proof.
  intros H G. pose proof (refs_le_get R R' r H) as P. rewrite G in P.
  destruct (Obj.get r R); [eauto | tauto].
Qed.

Lemma refs_le_set R k rs s' :
  Obj.get k R = Some rs -> st_le (st rs) s' ->
  refs_le R (Obj.set k (set_st rs s') R).
Proof.
  induction R as [|[k0 v0] R IH]; simpl; [discriminate|].
  destruct (String.eqb k0 k) eqn:E.
  - intros [= ->] L. constructor; [|apply refs_le_refl].
    unfold entry_le. simpl. auto.
  - intros G L. constructor; [|now apply IH].
    unfold entry_le. simpl. auto using st_le_refl.
Qed.

Lemma refs_le_weight R R' : refs_le R R' -> (total_weight R' <= total_weight R)%nat.
Proof.
  unfold total_weight.
  induction 1 as [|e e' R R' (_ & _ & _ & H3) _ IH]; simpl; auto.
  apply st_le_weight in H3. lia.
Qed.

Lemma weight_set R k rs s' :
  Obj.get k R = Some rs -> (weight s' < weight (st rs))%nat ->
  (total_weight (Obj.set k (set_st rs s') R) < total_weight R)%nat.
Proof.
  unfold total_weight.
  induction R as [|[k0 v0] R IH]; simpl; [discriminate|].
  destruct (String.eqb k0 k) eqn:E; simpl.
  - intros [= ->] L. lia.
  - intros G L. specialize (IH G L). lia.
Qed.

Lemma total_weight_bound R : (total_weight R <= 2 * List.length R)%nat.
Proof.
  unfold total_weight. induction R as [|e R IH]; simpl; auto.
  assert (weight (st (snd e)) <= 2)%nat.
  { unfold weight. destruct (Z.eqb _ _); [lia|]. destruct (Z.eqb _ _); lia. }
  lia.
Qed.

Section MarkPass.
Variable c : Cache.

  (** The table the first traversal leaves: every entry holds the cached
      item of its key, which is not subscribed, and every edge out of an
      entry leads to an entry. *)
Definition refs_wf (R : Refs) : Prop :=
    forall r rs, Obj.get r R = Some rs ->
      cache_get c r = Some (rs_ci rs)
      /\ subscribed (rs_ci rs) = false
      /\ forall y, In y (nskids_of c r) ->
           exists ry, Obj.get (rid y) R = Some ry.

Lemma refs_wf_le R R' : refs_wf R -> refs_le R R' -> refs_wf R'.
  Proof.
    intros W L r rs' G.
    destruct (refs_le_get_back _ _ _ _ L G) as (rs & G0 & E1 & _).
    destruct (W r rs G0) as (A & B & C). rewrite <- E1.
    repeat split; auto.
    intros y Hy. destruct (C y Hy) as (ry & Gy).
    destruct (refs_le_get_Some _ _ _ _ L Gy) as (ry' & Gy' & _). eauto.
  Qed.

  (** A stale-root token names an entry that is retained. *)
Definition valid_tok (state : tstate) (R : Refs) : Prop :=
    forall T rs, state = TRid T -> Obj.get T R = Some rs -> retained (st rs).

Lemma valid_tok_le state R R' : valid_tok state R -> refs_le R R' -> valid_tok state R'.
  Proof.
    intros V L T rs' E G.
    destruct (refs_le_get_back _ _ _ _ L G) as (rs & G0 & _ & _ & S).
    eapply retained_up; eauto.
  Qed.

  (** Entries that came to satisfy [Q] between [R] and [R'] have all
      their edges lead to entries that satisfy [Q] in [R']. *)
Definition newly (Q : Z -> Prop) (R R' : Refs) : Prop :=
    forall p rs rs', Obj.get p R = Some rs -> Obj.get p R' = Some rs' ->
      ~ Q (st rs) -> Q (st rs') ->
      forall y, In y (nskids_of c p) ->
        exists ry, Obj.get (rid y) R' = Some ry /\ Q (st ry).

  (** Entries marked [stateDelete] between [R] and [R'] have no outside
      reference and no direct listener. *)
Definition del_ok (R R' : Refs) : Prop :=
    forall r rs', Obj.get r R' = Some rs' -> st rs' = stateDelete ->
      (exists rs, Obj.get r R = Some rs /\ st rs = stateDelete)
      \/ (rc rs' <= 0 /\ direct (rs_ci rs') = 0).

Record mark_post (R R' : Refs) : Prop := mkMarkPost {
    mp_le : refs_le R R';
    mp_del : del_ok R R';
    mp_ret : newly retained R R';
    mp_cls : newly classified R R'
  }.

Definition visited_ok (x : CacheItem) (state : tstate) (R' : Refs) : Prop :=
    subscribed x = false ->
    exists rs', Obj.get (rid x) R' = Some rs' /\ classified (st rs')
                /\ (tstate_is_delete state = false -> retained (st rs')).

Lemma visited_ok_le x state R R' :
    visited_ok x state R -> refs_le R R' -> visited_ok x state R'.
  Proof.
    intros V L S. destruct (V S) as (rs & G & C & T).
    destruct (refs_le_get_Some _ _ _ _ L G) as (rs' & G' & _ & _ & Le).
    exists rs'. repeat split; auto.
    - eapply classified_up; eauto.
    - intros D. eapply retained_up; eauto.
  Qed.

Lemma newly_refl Q R : newly Q R R.
  Proof. intros p rs rs' G G' N H. congruence. Qed.

Lemma newly_trans Q R1 R2 R3 :
    (forall s, Q s \/ ~ Q s) ->
    (forall a b, Q a -> st_le a b -> Q b) ->
    refs_le R1 R2 -> refs_le R2 R3 ->
    newly Q R1 R2 -> newly Q R2 R3 -> newly Q R1 R3.
  Proof.
    intros Dec Up L12 L23 N12 N23 p rs rs' G1 G3 NQ HQ y Hy.
    destruct (refs_le_get_Some _ _ _ _ L12 G1) as (rs2 & G2 & _).
    destruct (Dec (st rs2)) as [Q2|Q2].
    - destruct (N12 p rs rs2 G1 G2 NQ Q2 y Hy) as (ry & Gy & Qy).
      destruct (refs_le_get_Some _ _ _ _ L23 Gy) as (ry' & Gy' & _ & _ & Le).
      exists ry'. split; auto. eapply Up; eauto.
    - eapply N23; eauto.
  Qed.

Lemma mark_post_refl R : mark_post R R.
  Proof.
    constructor; auto using refs_le_refl, newly_refl.
    intros r rs' G D. left. eauto.
  Qed.

Lemma mark_post_trans R1 R2 R3 :
    mark_post R1 R2 -> mark_post R2 R3 -> mark_post R1 R3.
  Proof.
    intros [L12 D12 A12 B12] [L23 D23 A23 B23]. constructor.
    - eapply refs_le_trans; eauto.
    - intros r rs3 G3 S3.
      destruct (D23 r rs3 G3 S3) as [(rs2 & G2 & S2)|OK]; auto.
      destruct (D12 r rs2 G2 S2) as [?|(OK1 & OK2)]; auto.
      right.
      destruct (refs_le_get_Some _ _ _ _ L23 G2) as (rs3' & G3' & E1 & E2 & _).
      rewrite G3 in G3'. inversion G3'; subst. now rewrite <- E1, <- E2.
    - eapply newly_trans; eauto using retained_dec, retained_up.
    - eapply newly_trans; eauto using classified_dec, classified_up.
  Qed.

  (** The loop over the items an entry refers to. *)
Lemma mark_loop (visit : CacheItem -> Refs -> outcome Refs) s1 (bound : nat) :
    (forall x R,
        refs_wf R -> cache_get c (rid x) = Some x ->
        (subscribed x = false -> exists rs, Obj.get (rid x) R = Some rs) ->
        valid_tok s1 R -> (total_weight R < bound)%nat ->
        exists R', visit x R = Done R' /\ mark_post R R' /\ visited_ok x s1 R') ->
    forall l R,
      refs_wf R ->
      (forall y, In y l -> cache_get c (rid y) = Some y
                 /\ (subscribed y = false -> exists rs, Obj.get (rid y) R = Some rs)) ->
      valid_tok s1 R -> (total_weight R < bound)%nat ->
      exists R', each_ci visit l R = Done R' /\ mark_post R R'
                 /\ forall y, In y l -> visited_ok y s1 R'.
  Proof.
    intros HV. induction l as [|x l IH]; intros R W Hl V B; cbn [each_ci].
    - exists R. split; auto. split; [apply mark_post_refl|]. intros y [].
    - destruct (Hl x (or_introl eq_refl)) as (Cx & Ex).
      destruct (HV x R W Cx Ex V B) as (R1 & E1 & P1 & V1).
      rewrite E1.
      destruct (IH R1) as (R2 & E2 & P2 & V2).
      + eapply refs_wf_le; eauto using mp_le.
      + intros y Hy. destruct (Hl y (or_intror Hy)) as (Cy & Ey).
        split; auto. intros Sy. destruct (Ey Sy) as (rs & G).
        destruct (refs_le_get_Some _ _ _ _ (mp_le _ _ P1) G) as (rs' & G' & _).
        eauto.
      + eapply valid_tok_le; eauto using mp_le.
      + pose proof (refs_le_weight _ _ (mp_le _ _ P1)). lia.
      + exists R2. split; auto. split; [eapply mark_post_trans; eauto|].
        intros y [<-|Hy]; auto.
        eapply visited_ok_le; eauto using mp_le.
  Qed.
End MarkPass.

Section MarkVisit.
Variable c : Cache.

Lemma nskids_of_visited x s1 R' y :
    cache_get c (rid x) = Some x ->
    (forall y, In y (kids c x) -> visited_ok y s1 R') ->
    In y (nskids_of c (rid x)) ->
    exists ry, Obj.get (rid y) R' = Some ry /\ classified (st ry)
               /\ (tstate_is_delete s1 = false -> retained (st ry)).
  Proof.
    intros Cx HV Hy. rewrite (nskids_of_cached _ _ Cx) in Hy.
    pose proof (nskids_cached _ _ _ Hy) as (_ & Sy).
    unfold nskids in Hy. apply filter_In in Hy. destruct Hy as (Hy & _).
    exact (HV y Hy Sy).
  Qed.

Lemma newly_expand (Q : Z -> Prop) x R rs s' R' :
    Obj.get (rid x) R = Some rs ->
    newly c Q (Obj.set (rid x) (set_st rs s') R) R' ->
    (forall s, Q s \/ ~ Q s) ->
    (Q s' -> forall y, In y (nskids_of c (rid x)) ->
             exists ry, Obj.get (rid y) R' = Some ry /\ Q (st ry)) ->
    newly c Q R R'.
  Proof.
    intros G N Dec HK p rsp rsp' Gp Gp' NQ HQ y Hy.
    destruct (string_dec (rid x) p) as [<-|Ne].
    - destruct (Dec s') as [Qs|Qs]; [now apply HK|].
      eapply (N (rid x) (set_st rs s')); eauto. apply get_set_eq.
    - eapply (N p rsp); eauto. now rewrite get_set_ne.
  Qed.

Lemma mark_expand x R rs s' s1 R' :
    cache_get c (rid x) = Some x ->
    Obj.get (rid x) R = Some rs ->
    st_le (st rs) s' -> classified s' ->
    (s' = stateDelete -> rc rs <= 0 /\ direct (rs_ci rs) = 0) ->
    (retained s' -> tstate_is_delete s1 = false) ->
    mark_post c (Obj.set (rid x) (set_st rs s') R) R' ->
    (forall y, In y (kids c x) -> visited_ok y s1 R') ->
    mark_post c R R'
    /\ exists rs', Obj.get (rid x) R' = Some rs' /\ st_le s' (st rs').
  Proof.
    intros Cx G Le Cl Del Tok [L1 D1 A1 B1] HV.
    pose proof (refs_le_set R (rid x) rs s' G Le) as L0.
    assert (G1 : Obj.get (rid x) (Obj.set (rid x) (set_st rs s') R)
                 = Some (set_st rs s')) by apply get_set_eq.
    destruct (refs_le_get_Some _ _ _ _ L1 G1) as (rsx & Gx & Ex1 & Ex2 & Ex3).
    split; [|eauto].
    constructor.
    - eapply refs_le_trans; eauto.
    - intros r rs' G' S'.
      destruct (D1 r rs' G' S') as [(rs1 & Gr1 & Sr1)|OK]; auto.
      destruct (string_dec (rid x) r) as [<-|Ne].
      + right. rewrite G1 in Gr1. inversion Gr1; subst rs1. simpl in Sr1.
        rewrite Gx in G'. inversion G'; subst rs'.
        simpl in Ex1, Ex2. rewrite <- Ex1, <- Ex2. auto.
      + left. rewrite get_set_ne in Gr1 by auto. eauto.
    - eapply newly_expand; eauto using retained_dec.
      intros Rs y Hy.
      destruct (nskids_of_visited x s1 R' y Cx HV Hy) as (ry & Gy & _ & T).
      eauto.
    - eapply newly_expand; eauto using classified_dec.
      intros Rs y Hy.
      destruct (nskids_of_visited x s1 R' y Cx HV Hy) as (ry & Gy & T & _).
      eauto.
  Qed.

Lemma kids_have_entries x R R1 :
    refs_wf c R -> refs_le R R1 -> cache_get c (rid x) = Some x ->
    (exists rs, Obj.get (rid x) R = Some rs) ->
    forall y, In y (kids c x) ->
      cache_get c (rid y) = Some y
      /\ (subscribed y = false -> exists rs, Obj.get (rid y) R1 = Some rs).
  Proof.
    intros W L Cx (rs & G) y Hy. split; [eapply kids_cached; eauto|].
    intros Sy. destruct (W _ _ G) as (_ & _ & K).
    destruct (K y) as (ry & Gy).
    - rewrite (nskids_of_cached _ _ Cx). unfold nskids.
      apply filter_In. split; auto. unfold nonsub. now rewrite Sy.
    - destruct (refs_le_get_Some _ _ _ _ L Gy) as (ry' & Gy' & _). eauto.
  Qed.

  (** A visit of the second traversal returns, given fuel above the
      weight of the table, and establishes [mark_post]. *)
Lemma mark_visit fuel :
    forall x state R,
      tstate_is_false state = false ->
      refs_wf c R -> cache_get c (rid x) = Some x ->
      (subscribed x = false -> exists rs, Obj.get (rid x) R = Some rs) ->
      valid_tok state R -> (total_weight R < fuel)%nat ->
      exists R', traverse fuel c markDelete x state false R = Done R'
                 /\ mark_post c R R' /\ visited_ok x state R'.
  Proof.
    induction fuel as [|fuel IH]; intros x state R SF W Cx Ex V B; [lia|].
    rewrite traverse_visit_eq. unfold markDelete at 1.
    destruct (subscribed x) eqn:Sx.
    { cbn [tstate_is_false]. exists R. split; auto.
      split; [apply mark_post_refl|]. intros S. congruence. }
    destruct (Ex eq_refl) as (rs & G). rewrite G.
    (* the common continuation: the entry is updated and the children
       are visited *)
    assert (EXP : forall s' s1,
      tstate_is_false s1 = false ->
      st_le (st rs) s' -> classified s' -> (weight s' < weight (st rs))%nat ->
      (s' = stateDelete -> rc rs <= 0 /\ direct (rs_ci rs) = 0) ->
      (retained s' -> tstate_is_delete s1 = false) ->
      (tstate_is_delete state = false -> retained s') ->
      valid_tok s1 (Obj.set (rid x) (set_st rs s') R) ->
      exists R',
        (if tstate_is_false s1 then Done (Obj.set (rid x) (set_st rs s') R)
         else each_ci (fun ci' r => traverse fuel c markDelete ci' s1 false r)
                      (kids c x) (Obj.set (rid x) (set_st rs s') R)) = Done R'
        /\ mark_post c R R' /\ visited_ok x state R').
    { intros s' s1 NF Le Cl Wt Del Tok Ret V1. rewrite NF.
      pose proof (refs_le_set R (rid x) rs s' G Le) as L0.
      pose proof (weight_set R (rid x) rs s' G Wt) as W0.
      destruct (mark_loop c
                  (fun ci' r => traverse fuel c markDelete ci' s1 false r)
                  s1 fuel) with (l := kids c x)
                                (R := Obj.set (rid x) (set_st rs s') R)
        as (R' & E' & P' & V'); auto.
      - eapply refs_wf_le; eauto.
      - eapply kids_have_entries; eauto.
      - lia.
      - exists R'. split; auto.
        destruct (mark_expand x R rs s' s1 R' Cx G Le Cl Del Tok P' V')
          as (MP & rs' & G' & Le').
        split; auto. intros _. exists rs'. split; auto. split.
        + eapply classified_up; eauto.
        + intros D. eapply retained_up; eauto. }
    destruct (Z.eqb_spec (st rs) stateKeep) as [K|NK].
    { cbn [tstate_is_false]. exists R. split; auto.
      split; [apply mark_post_refl|]. intros _. exists rs.
      unfold classified, retained, stateNone, stateKeep in *.
      split; auto. split; [lia|]. intros _. lia. }
    assert (WK : (weight stateKeep < weight (st rs))%nat).
    { unfold weight, stateKeep in *. simpl.
      destruct (Z.eqb_spec (st rs) 2); [lia|].
      destruct (Z.eqb (st rs) stateNone); lia. }
    assert (LK : st_le (st rs) stateKeep) by (right; left; reflexivity).
    assert (VX : forall s', retained s' ->
                  valid_tok (TRid (rid x)) (Obj.set (rid x) (set_st rs s') R)).
    { intros s' Rs T rsT [= <-] GT. rewrite get_set_eq in GT.
      inversion GT; subst. exact Rs. }
    assert (W1 : st rs = stateNone -> forall s', s' = stateDelete \/ s' = stateStale ->
                 (weight s' < weight (st rs))%nat).
    { intros N0 s' [->| ->]; rewrite N0; unfold weight; simpl; lia. }
    destruct (tstate_is_delete state) eqn:SD.
    - destruct (Z.ltb_spec 0 (rc rs)) as [RC|RC].
      + apply EXP.
        * reflexivity.
        * exact LK.
        * discriminate.
        * exact WK.
        * discriminate.
        * reflexivity.
        * discriminate.
        * apply VX. left. reflexivity.
      + destruct (Z.eqb_spec (st rs) stateNone) as [N0|N0]; cbn [negb].
        2:{ cbn [tstate_is_false]. exists R. split; auto.
            split; [apply mark_post_refl|]. intros _. exists rs.
            split; auto. split; [exact N0|]. intros; congruence. }
        destruct (Z.eqb_spec (direct (rs_ci rs)) 0) as [D0|D0]; cbn [negb].
        * apply EXP.
          -- reflexivity.
          -- right. right. auto.
          -- discriminate.
          -- apply W1; auto.
          -- intros _. split; [lia | exact D0].
          -- intros [?|?]; discriminate.
          -- discriminate.
          -- intros T rsT [=].
        * apply EXP.
          -- reflexivity.
          -- right. right. auto.
          -- discriminate.
          -- apply W1; auto.
          -- discriminate.
          -- reflexivity.
          -- discriminate.
          -- apply VX. right. reflexivity.
    - destruct (tstate_is_rid (rid x) state) eqn:TR.
      + cbn [tstate_is_false]. exists R. split; auto.
        split; [apply mark_post_refl|]. intros _. exists rs.
        assert (Rt : retained (st rs)).
        { destruct state as [b|n|T]; simpl in TR; try discriminate.
          apply String.eqb_eq in TR. subst T. eapply V; eauto. }
        split; auto. split; auto. now apply retained_classified.
      + apply EXP.
        * destruct (0 <? rc rs); auto.
        * exact LK.
        * discriminate.
        * exact WK.
        * discriminate.
        * intros _. destruct (0 <? rc rs); auto.
        * intros _. left. reflexivity.
        * destruct (0 <? rc rs).
          -- apply VX. left. reflexivity.
          -- eapply valid_tok_le; eauto. now apply refs_le_set.
  Qed.
End MarkVisit.

(** What [_getRefState] returns for a cached root that is not
    subscribed. *)
Record refstate_ok (c : Cache) (ci : CacheItem) (R : Refs) : Prop := mkRefstateOk {
  ro_nodup : NoDup (Obj.keys R);
  ro_reach : forall r, In r (Obj.keys R) <-> nsreach c (rid ci) r;
  ro_entry : forall r rs, Obj.get r R = Some rs ->
      cache_get c r = Some (rs_ci rs)
      /\ subscribed (rs_ci rs) = false
      /\ rc rs = indirect (rs_ci rs) - inner_edges c (Obj.keys R) r
      /\ (st rs = stateDelete \/ st rs = stateKeep \/ st rs = stateStale);
  ro_delete : forall r rs, Obj.get r R = Some rs -> st rs = stateDelete ->
      rc rs <= 0 /\ direct (rs_ci rs) = 0;
  ro_cover : forall p rs, Obj.get p R = Some rs -> retained (st rs) ->
      forall y, In y (nskids_of c p) ->
        exists ry, Obj.get (rid y) R = Some ry /\ retained (st ry)
}.

Lemma nsreach_cached c a r :
  cache_get c a <> None -> nsreach c a r -> cache_get c r <> None.
Proof.
  intros Ha H. induction H as [|b x _ _ Hx]; auto.
  unfold nskids_of in Hx. destruct (cache_get c b) as [pb|]; [|destruct Hx].
  apply nskids_cached in Hx. destruct Hx as (E & _). congruence.
Qed.

Theorem getRefState_spec c ci :
  cache_get c (rid ci) = Some ci ->
  subscribed ci = false ->
  exists R, getRefState c ci = Done R /\ refstate_ok c ci R.
Proof.
  intros Hc Hs. unfold getRefState. rewrite Hs.
  destruct (seekPass_total c ci) as (R0 & E0). rewrite E0.
  destruct (seekPass_spec c ci R0 Hc E0) as (ND & RE & EN & NS).
  assert (NS' : forall r rs, Obj.get r R0 = Some rs -> subscribed (rs_ci rs) = false).
  { intros r rs G. destruct (string_dec r (rid ci)) as [->|N].
    - destruct (EN _ _ G) as (C & _). rewrite Hc in C.
      injection C as C. now rewrite <- C.
    - eauto. }
  assert (WF : refs_wf c R0).
  { intros r rs G. destruct (EN _ _ G) as (C & _ & _).
    repeat split; eauto.
    intros y Hy. apply keys_get. apply RE.
    eapply nsr_step; [|exact Hy]. apply RE. eapply get_Some_keys; eauto. }
  destruct (mark_visit c (mark_fuel R0) ci (TNum stateDelete) R0)
    as (R & E & [L D A B] & V); auto.
  { intros _. apply keys_get. apply RE. constructor. }
  { intros T rs [=]. }
  { unfold mark_fuel. pose proof (total_weight_bound R0). lia. }
  exists R. split; auto.
  assert (KE : Obj.keys R = Obj.keys R0).
  { clear - L. induction L as [|e e' R0 R (E & _) _ IH]; simpl; auto.
    now rewrite IH, E. }
  assert (CL : forall r, nsreach c (rid ci) r ->
                 exists rs, Obj.get r R = Some rs /\ classified (st rs)).
  { intros r Hr. induction Hr as [|b y Hb IH Hy].
    - destruct (V Hs) as (rs & G & Cl & _). eauto.
    - destruct IH as (rb & Gb & Cb).
      destruct (refs_le_get_back _ _ _ _ L Gb) as (rb0 & Gb0 & _).
      destruct (EN _ _ Gb0) as (_ & S0 & _).
      eapply (B b rb0 rb); eauto. }
  constructor.
  - now rewrite KE.
  - intros r. rewrite KE. apply RE.
  - intros r rs G.
    destruct (refs_le_get_back _ _ _ _ L G) as (rs0 & G0 & E1 & E2 & Le).
    destruct (EN _ _ G0) as (C0 & S0 & RC0).
    rewrite KE, <- E1, <- E2. repeat split; eauto.
    destruct (CL r) as (rs' & G' & Cl).
    { apply RE. eapply get_Some_keys; eauto. }
    rewrite G in G'. inversion G'; subst rs'.
    rewrite S0 in Le.
    unfold st_le, classified, stateNone, stateDelete, stateKeep, stateStale in *.
    lia.
  - intros r rs G S.
    destruct (D r rs G S) as [(rs0 & G0 & S0)|OK]; auto.
    destruct (EN _ _ G0) as (_ & S0' & _).
    unfold stateNone, stateDelete in *. lia.
  - intros p rs G Rt y Hy.
    destruct (refs_le_get_back _ _ _ _ L G) as (rs0 & G0 & _).
    destruct (EN _ _ G0) as (_ & S0 & _).
    eapply (A p rs0 rs); eauto.
    rewrite S0. unfold retained, stateNone, stateKeep, stateStale. lia.
Qed.

(* ================================================================== *)
(** ** Reference counts and edges of the cache *)

(** Number of edges into [r] from the cached items whose rid satisfies
    [from]. *)
Definition inbound (c : Cache) (from : string -> bool) (r : string) : Z :=
  hits r (flat_map (fun p => if from (rid p) then kids c p else []) c).

(** The invariant of spec section 3: [indirect] is the number of edges
    from cached items. *)
Definition indirect_ok (c : Cache) : Prop :=
  forall x, In x c -> indirect x = inbound c (fun _ => true) (rid x).

Definition cached_items (c : Cache) (K : list string) : list CacheItem :=
  flat_map (fun k => match cache_get c k with Some x => [x] | None => [] end) K.

Lemma flat_map_if {A B} (P : A -> bool) (f : A -> list B) l :
  flat_map (fun p => if P p then f p else []) l = flat_map f (filter P l).
Proof.
  induction l as [|a l IH]; simpl; auto.
  destruct (P a); simpl; now rewrite IH.
Qed.

Lemma hits_split r (P : CacheItem -> bool) (f : CacheItem -> list CacheItem) l :
  hits r (flat_map f l)
  = hits r (flat_map (fun p => if P p then f p else []) l)
    + hits r (flat_map (fun p => if negb (P p) then f p else []) l).
Proof.
  induction l as [|a l IH]; simpl; auto.
  rewrite !hits_app, IH. destruct (P a); simpl; rewrite ?hits_nil; lia.
Qed.

Lemma hits_filter r (P : CacheItem -> bool) l :
  (forall y, In y l -> rid y = r -> P y = true) ->
  hits r (filter P l) = hits r l.
Proof.
  induction l as [|a l IH]; intros H; simpl; auto.
  assert (IH' : hits r (filter P l) = hits r l)
    by (apply IH; intros; apply H; simpl; auto).
  destruct (P a) eqn:E; rewrite ?hits_cons, IH'; auto.
  destruct (String.eqb_spec (rid a) r) as [Er|]; auto.
  rewrite (H a (or_introl eq_refl) Er) in E. discriminate.
Qed.

Lemma hits_flat_map_ext r (f g : CacheItem -> list CacheItem) l :
  (forall p, In p l -> hits r (f p) = hits r (g p)) ->
  hits r (flat_map f l) = hits r (flat_map g l).
Proof.
  induction l as [|a l IH]; intros H; simpl; auto.
  rewrite !hits_app, IH, (H a); simpl; auto.
  intros; apply H; simpl; auto.
Qed.

Lemma flat_map_nskids_of c K :
  flat_map (nskids_of c) K = flat_map (nskids c) (cached_items c K).
Proof.
  unfold cached_items. induction K as [|k K IH]; simpl; auto.
  rewrite flat_map_app, <- IH. unfold nskids_of at 1.
  destruct (cache_get c k); simpl; now rewrite ?app_nil_r.
Qed.

Lemma cached_items_In c K x :
  In x (cached_items c K) <-> In (rid x) K /\ cache_get c (rid x) = Some x.
Proof.
  unfold cached_items. rewrite in_flat_map. split.
  - intros (k & Hk & H). destruct (cache_get c k) as [y|] eqn:E; [|destruct H].
    destruct H as [<-|[]]. rewrite (cache_get_rid _ _ _ E). auto.
  - intros (Hk & E). exists (rid x). rewrite E. simpl. auto.
Qed.

Lemma cached_items_NoDup c K : NoDup K -> NoDup (cached_items c K).
Proof.
  unfold cached_items. induction 1 as [|k K N ND IH]; simpl; [constructor|].
  destruct (cache_get c k) as [x|] eqn:E; simpl; auto.
  constructor; auto. intros I. apply cached_items_In in I.
  rewrite (cache_get_rid _ _ _ E) in I. tauto.
Qed.

Lemma NoDup_rids_items c : NoDup (cache_rids c) -> NoDup c.
Proof. apply NoDup_map_inv. Qed.

Lemma cached_items_perm c K :
  NoDup (cache_rids c) -> NoDup K ->
  Permutation (filter (fun p => if in_dec string_dec (rid p) K then true else false) c)
              (cached_items c K).
Proof.
  intros NC NK. apply NoDup_Permutation.
  - apply NoDup_filter. now apply NoDup_rids_items.
  - now apply cached_items_NoDup.
  - intros x. rewrite filter_In, cached_items_In. split.
    + intros (I & H). destruct (in_dec string_dec (rid x) K); [|discriminate].
      split; auto. now apply cache_get_NoDup.
    + intros (I & H). split; [eapply cache_get_In; eauto|].
      destruct (in_dec string_dec (rid x) K); tauto.
Qed.

(** Edges counted inside the table are the edges from the cached items
    whose rid is a key of the table. *)
Lemma inner_edges_inbound c K x :
  NoDup (cache_rids c) -> NoDup K ->
  cache_get c (rid x) = Some x -> subscribed x = false ->
  inner_edges c K (rid x)
  = inbound c (fun p => if in_dec string_dec p K then true else false) (rid x).
Proof.
  intros NC NK Cx Sx. unfold inner_edges, inbound.
  rewrite flat_map_nskids_of.
  rewrite (flat_map_if (fun p => if in_dec string_dec (rid p) K then true else false)).
  rewrite <- (hits_perm _ _ _
    (Permutation_flat_map (nskids c) (cached_items_perm c K NC NK))).
  apply hits_flat_map_ext. intros p _. unfold nskids.
  apply hits_filter. intros y Hy Ey.
  apply kids_cached in Hy. rewrite Ey, Cx in Hy. injection Hy as <-.
  unfold nonsub. now rewrite Sx.
Qed.

Lemma inbound_split c (P : string -> bool) r :
  inbound c (fun _ => true) r
  = inbound c P r + inbound c (fun p => negb (P p)) r.
Proof.
  unfold inbound. set (f := kids c). clearbody f.
  induction c as [|a l IH]; simpl; auto.
  rewrite !hits_app, IH. destruct (P (rid a)); simpl; rewrite ?hits_nil; lia.
Qed.




(** A cache used in examples: P is subscribed and refers to A; A and B
    are not subscribed and refer to each other. *)
Definition ex_model (r : string) (o : nat) (refs : list (string * (nat * string)))
    (d i : Z) (sub : bool) : CacheItem :=
  mkCI o r (Some typeModel)
       (Some (mkResobj o (CModel (map (fun kv => (fst kv, VRes (fst (snd kv)) (snd (snd kv)))) refs))))
       d i sub None.

Definition ex_P : CacheItem := ex_model "P" 1 [("a", (2%nat, "A"))] 1 0 true.
Definition ex_A : CacheItem := ex_model "A" 2 [("next", (3%nat, "B"))] 0 2 false.
Definition ex_B : CacheItem := ex_model "B" 3 [("next", (2%nat, "A"))] 0 1 false.
Definition ex_cache : Cache := [ex_P; ex_A; ex_B].





Example seekPass_example :
  option_map (map (fun e => (fst e, rc (snd e))))
             (match seekPass ex_cache ex_A with Done R => Some R | _ => None end)
  = Some [("A", 1); ("B", 0)].
Proof. reflexivity. Qed.


(* ================================================================== *)
(** ** The collection diff rebuilds the new sequence *)

Section ListFacts.
Context {A : Type}.
Implicit Types (l : list A).

Lemma firstn_succ_nth l : forall i x,
    nth_error l i = Some x -> firstn (S i) l = firstn i l ++ [x].
  Proof.
    induction l as [|a l IH]; intros [|i] x H; simpl in *; try discriminate.
    - now inversion H.
    - f_equal. now apply IH.
  Qed.

Lemma skipn_nth l : forall i x,
    nth_error l i = Some x -> skipn i l = x :: skipn (S i) l.
  Proof.
    induction l as [|a l IH]; intros [|i] x H; simpl in *; try discriminate.
    - now inversion H.
    - now apply IH.
  Qed.

Lemma remove_at_app l x X : remove_at (List.length l) (l ++ x :: X) = l ++ X.
  Proof.
    unfold remove_at. induction l as [|a l IH]; simpl; auto.
    f_equal. exact IH.
  Qed.

Lemma insert_at_app l x X : insert_at (List.length l) x (l ++ X) = l ++ x :: X.
  Proof.
    unfold insert_at. induction l as [|a l IH]; simpl.
    - reflexivity.
    - f_equal. exact IH.
  Qed.
End ListFacts.

Lemma desc_below_weaken b b' l : desc_below b l -> b <= b' -> desc_below b' l.
Proof. destruct l; simpl; auto. intros (H & D) L. split; auto. lia. Qed.

Lemma asc_above_snoc lo l x :
  asc_above lo l -> lo < x -> (forall y, In y l -> y < x) ->
  asc_above lo (l ++ [x]).
Proof.
  revert lo. induction l as [|a l IH]; intros lo H L F; simpl in *.
  - auto.
  - destruct H as (H1 & H2). split; auto.
Qed.

Lemma desc_below_all b l : desc_below b l -> forall y, In y l -> y < b.
Proof.
  revert b. induction l as [|a l IH]; intros b H y I; simpl in *; [tauto|].
  destruct H as (H1 & H2). destruct I as [<-|I]; auto.
  specialize (IH _ H2 y I). lia.
Qed.

Lemma desc_rev_asc lo b l :
  desc_below b l -> (forall y, In y l -> lo < y) -> asc_above lo (rev l).
Proof.
  revert b. induction l as [|a l IH]; intros b H F; simpl in *; auto.
  destruct H as (H1 & H2). apply asc_above_snoc.
  - eapply IH; eauto.
  - apply F. auto.
  - intros y I. apply in_rev in I. eapply desc_below_all; eauto.
Qed.

Section DiffProofs.
Context {A : Type}.
Variable eqb : A -> A -> bool.
Hypothesis eqb_sound : forall x y, eqb x y = true -> x = y.

Abbreviation apply_all := (fold_left (@apply_diffev A)).

Lemma same_at_sound a b i j :
    (i < List.length a)%nat ->
    same_at eqb a b i j = true ->
    exists x, nth_error a i = Some x /\ nth_error b j = Some x.
  Proof.
    unfold same_at. intros Hi H.
    destruct (nth_error a i) as [x|] eqn:Ea.
    - destruct (nth_error b j) as [y|]; [|discriminate].
      apply eqb_sound in H. subst. eauto.
    - apply nth_error_None in Ea. lia.
  Qed.

Lemma do_adds_app (bb : list A) s r l1 l2 k :
    do_adds bb s r (l1 ++ l2) k
    = do_adds bb s r l1 k ++ do_adds bb s r l2 (k + Z.of_nat (List.length l1)).
  Proof.
    revert k. induction l1 as [|[[n idx] j] l1 IH]; intros k; simpl.
    - now rewrite Z.add_0_r.
    - f_equal. rewrite IH. do 2 f_equal. lia.
  Qed.

Lemma keeps_down_noop a lo count d l :
    apply_all (keeps_down a lo count d) l = l.
  Proof. induction count; simpl; auto. Qed.

Section Backtrack.
Variables (aa bb : list A) (c : list (list nat)) (s : nat) (P : list A).
Hypothesis P_length : List.length P = s.

Definition add_n (e : nat * Z * Z) : Z := Z.of_nat (fst (fst e)).

Lemma backtrack_spec fuel :
      forall i j idx r adds out out' adds' r',
        (i + j < fuel)%nat ->
        (i <= List.length aa)%nat -> (j <= List.length bb)%nat ->
        idx = Z.of_nat (i + s) ->
        backtrack eqb fuel aa bb c s i j idx r adds out = (out', adds', r') ->
        exists O N K,
          out' = out ++ O /\ adds' = adds ++ N
          /\ Z.of_nat (List.length K) + (r' - r) = Z.of_nat i
          /\ (List.length K + List.length N = j)%nat
          /\ (forall X, apply_all O (P ++ firstn i aa ++ X) = P ++ K ++ X)
          /\ (forall X, apply_all (do_adds bb s r' (rev N) 0) (P ++ K ++ X)
                        = P ++ firstn j bb ++ X)
          /\ add_idxs O = []
          /\ desc_below (Z.of_nat (i + s)) (remove_idxs O)
          /\ add_idxs (do_adds bb s r' (rev N) 0)
             = map (fun e => add_n e + Z.of_nat s) (rev N)
          /\ desc_below (Z.of_nat j) (map add_n N).
    Proof.
      induction fuel as [|fuel IH];
        intros i j idx r adds out out' adds' r' Hf Hi Hj Hidx H; [lia|].
      cbn [backtrack] in H.
      destruct ((0 <? i)%nat && (0 <? j)%nat
                && same_at eqb aa bb (i - 1) (j - 1)) eqn:C1.
      - (* keep *)
        apply andb_prop in C1. destruct C1 as (C1 & Sm).
        apply andb_prop in C1. destruct C1 as (Ci & Cj).
        apply Nat.ltb_lt in Ci, Cj.
        destruct (same_at_sound aa bb (i - 1) (j - 1)) as (x & Ea & Eb);
          auto; [lia|].
        apply IH in H; try lia.
        destruct H as (O & N & K & -> & -> & Hc1 & Hc2 & Hb & Hcc
                       & Ha & Hd & Hai & Hnd).
        exists (DKeep (nth_error aa (i - 1)) (i - 1 + s) (j - 1 + s) (idx - 1) :: O),
               N, (K ++ [x]).
        rewrite <- app_assoc. simpl.
        split; [reflexivity|]. split; [reflexivity|].
        split; [rewrite length_app; simpl; lia|].
        split; [rewrite length_app; simpl; lia|].
        split; [|split; [|split; [exact Ha|split; [|split; [exact Hai|]]]]].
        + intros X. replace i with (S (i - 1)) at 1 by lia.
          rewrite (firstn_succ_nth aa (i - 1) x Ea).
          rewrite <- !app_assoc. simpl. apply Hb.
        + intros X. replace j with (S (j - 1)) at 1 by lia.
          rewrite (firstn_succ_nth bb (j - 1) x Eb).
          rewrite <- !app_assoc. simpl. apply Hcc.
        + eapply desc_below_weaken; [exact Hd|]. lia.
        + eapply desc_below_weaken; [exact Hnd|]. lia.
      - destruct ((0 <? j)%nat
                  && ((i =? 0)%nat
                      || (cell c (i - 1) j <=? cell c i (j - 1))%nat)) eqn:C2.
        + (* add *)
          apply andb_prop in C2. destruct C2 as (Cj & _).
          apply Nat.ltb_lt in Cj.
          destruct (nth_error bb (j - 1)) as [y|] eqn:Eb.
          2:{ apply nth_error_None in Eb. lia. }
          apply IH in H; try lia.
          destruct H as (O & N & K & -> & -> & Hc1 & Hc2 & Hb & Hcc
                         & Ha & Hd & Hai & Hnd).
          exists O, (((j - 1)%nat, idx, r) :: N), K.
          rewrite <- app_assoc. simpl.
          assert (Eidx : idx - r' + r + Z.of_nat (List.length N)
                         = Z.of_nat (s + (j - 1))) by lia.
          split; [reflexivity|]. split; [reflexivity|].
          split; [lia|]. split; [lia|].
          split; [exact Hb|].
          split; [|split; [exact Ha|split; [exact Hd|split]]].
          * intros X. rewrite do_adds_app, fold_left_app, Hcc.
            simpl. rewrite Eb. rewrite length_rev, Eidx.
            replace (Z.to_nat (Z.of_nat (s + (j - 1))))
              with (List.length (P ++ firstn (j - 1) bb)).
            2:{ rewrite length_app, length_firstn, P_length. lia. }
            rewrite app_assoc, insert_at_app.
            replace j with (S (j - 1)) at 2 by lia.
            rewrite (firstn_succ_nth bb (j - 1) y Eb).
            now rewrite <- !app_assoc.
          * rewrite do_adds_app. unfold add_idxs in *.
            rewrite flat_map_app, Hai, map_app. simpl.
            rewrite length_rev, Eidx. unfold add_n. simpl.
            do 2 f_equal. lia.
          * split; [unfold add_n; simpl; lia|].
            eapply desc_below_weaken; [exact Hnd|]. unfold add_n. simpl. lia.
        + destruct ((0 <? i)%nat
                    && ((j =? 0)%nat
                        || (cell c i (j - 1) <? cell c (i - 1) j)%nat)) eqn:C3.
          * (* remove *)
            apply andb_prop in C3. destruct C3 as (Ci & _).
            apply Nat.ltb_lt in Ci.
            destruct (nth_error aa (i - 1)) as [x|] eqn:Ea.
            2:{ apply nth_error_None in Ea. lia. }
            apply IH in H; try lia.
            destruct H as (O & N & K & -> & -> & Hc1 & Hc2 & Hb & Hcc
                           & Ha & Hd & Hai & Hnd).
            exists (DRemove (Some x) (i - 1 + s) (idx - 1) :: O), N, K.
            rewrite <- app_assoc. simpl.
            split; [reflexivity|]. split; [reflexivity|].
            split; [lia|]. split; [lia|].
            split; [|split; [exact Hcc|split; [exact Ha|split;
                      [|split; [exact Hai|exact Hnd]]]]].
            -- intros X.
               assert (Ef : firstn i aa = firstn (i - 1) aa ++ [x]).
               { replace i with (S (i - 1)) at 1 by lia.
                 now apply firstn_succ_nth. }
               rewrite Ef.
               replace (Z.to_nat (idx - 1))
                 with (List.length (P ++ firstn (i - 1) aa)).
               2:{ rewrite length_app, length_firstn, P_length. lia. }
               rewrite <- !app_assoc. simpl.
               rewrite app_assoc, remove_at_app, <- app_assoc. apply Hb.
            -- split; [lia|].
               eapply desc_below_weaken; [exact Hd|]. lia.
          * (* the loop ends: both indices are 0 *)
            assert (i = 0%nat /\ j = 0%nat) as (-> & ->).
            { destruct (Nat.leb_spec (cell c (i - 1) j) (cell c i (j - 1))),
                (Nat.ltb_spec (cell c i (j - 1)) (cell c (i - 1) j)),
                (Nat.eqb_spec i 0), (Nat.eqb_spec j 0),
                (Nat.ltb_spec 0 i), (Nat.ltb_spec 0 j);
                simpl in C2, C3; try discriminate; lia. }
            inversion H; subst. exists [], [], [].
            rewrite !app_nil_r. simpl. repeat split; auto; lia.
    Qed.
End Backtrack.
End DiffProofs.

Section DiffRoundTrip.
Context {A : Type}.
Variable eqb : A -> A -> bool.
Hypothesis eqb_sound : forall x y, eqb x y = true -> x = y.

Lemma trim_start_spec (a b : list A) fuel :
    forall s,
      firstn s a = firstn s b ->
      (s <= List.length a)%nat -> (s <= List.length b)%nat ->
      let s' := trim_start eqb fuel a b s (List.length a) (List.length b) in
      firstn s' a = firstn s' b
      /\ (s <= s' <= List.length a)%nat /\ (s' <= List.length b)%nat.
  Proof.
    induction fuel as [|fuel IH]; intros s E Ha Hb; simpl; [split; auto; lia|].
    destruct ((s <? List.length a)%nat && (s <? List.length b)%nat
              && same_at eqb a b s s) eqn:C; [|split; auto; lia].
    apply andb_prop in C. destruct C as (C & Sm).
    apply andb_prop in C. destruct C as (Ca & Cb).
    apply Nat.ltb_lt in Ca, Cb.
    destruct (same_at_sound eqb eqb_sound a b s s Ca Sm) as (x & Ea & Eb).
    destruct (IH (S s)) as (E' & H1 & H2); try lia.
    - rewrite (firstn_succ_nth a s x Ea), (firstn_succ_nth b s x Eb).
      now rewrite E.
    - split; auto. lia.
  Qed.

Lemma trim_end_spec (a b : list A) (s : nat) fuel :
    forall m n m' n',
      skipn m a = skipn n b ->
      (s <= m <= List.length a)%nat -> (s <= n <= List.length b)%nat ->
      trim_end eqb fuel a b s m n = (m', n') ->
      skipn m' a = skipn n' b
      /\ (s <= m' <= m)%nat /\ (s <= n' <= n)%nat.
  Proof.
    induction fuel as [|fuel IH]; intros m n m' n' E Ha Hb H; simpl in H.
    - inversion H; subst. split; auto. lia.
    - destruct ((s <? m)%nat && (s <? n)%nat
                && same_at eqb a b (m - 1) (n - 1)) eqn:C.
      2:{ inversion H; subst. split; auto. lia. }
      apply andb_prop in C. destruct C as (C & Sm).
      apply andb_prop in C. destruct C as (Ca & Cb).
      apply Nat.ltb_lt in Ca, Cb.
      destruct (same_at_sound eqb eqb_sound a b (m - 1) (n - 1)) as (x & Ea & Eb);
        auto; [lia|].
      apply IH in H; try lia.
      + destruct H as (E' & H1 & H2). split; auto. lia.
      + rewrite (skipn_nth a (m - 1) x Ea), (skipn_nth b (n - 1) x Eb).
        replace (S (m - 1)) with m by lia.
        replace (S (n - 1)) with n by lia. now rewrite E.
  Qed.

Lemma slice_split (l : list A) s m :
    (s <= m <= List.length l)%nat ->
    l = firstn s l ++ slice l s m ++ skipn m l
    /\ List.length (slice l s m) = (m - s)%nat.
  Proof.
    intros H. unfold slice. split.
    - replace (skipn m l) with (skipn (m - s) (skipn s l)).
      + now rewrite (firstn_skipn (m - s) (skipn s l)), firstn_skipn.
      + rewrite skipn_skipn. f_equal. lia.
    - rewrite length_firstn, length_skipn. lia.
  Qed.

Lemma keeps_down_idxs (a : list A) lo count d :
    remove_idxs (keeps_down a lo count d) = []
    /\ add_idxs (keeps_down a lo count d) = [].
  Proof. induction count; simpl; auto. Qed.

Lemma do_adds_is_add (bb : list A) s r l k :
    forallb (@is_add A) (do_adds bb s r l k) = true
    /\ remove_idxs (do_adds bb s r l k) = [].
  Proof.
    revert k. induction l as [|[[n idx] j] l IH]; intros k; simpl; auto.
  Qed.

Lemma desc_below_shift b l d :
    desc_below b l -> desc_below (b + d) (map (fun x => x + d) l).
  Proof.
    revert b. induction l as [|x l IH]; intros b H; simpl in *; auto.
    destruct H as (H1 & H2). split; [lia|]. now apply IH.
  Qed.

  (** Applying the calls of [_patchDiff(a, b, ...)] in order to [a]
      gives [b]; no [onAdd] precedes an [onRemove] or [onKeep]; the
      indices of the removes descend and those of the adds ascend. *)
Lemma patchDiff_rebuilds (a b : list A) :
    fold_left (@apply_diffev A) (patchDiff eqb a b) a = b
    /\ (exists pre post,
          patchDiff eqb a b = pre ++ post
          /\ add_idxs pre = [] /\ forallb (@is_add A) post = true)
    /\ desc_below (Z.of_nat (List.length a)) (remove_idxs (patchDiff eqb a b))
    /\ asc_above (-1) (add_idxs (patchDiff eqb a b)).
  Proof.
    unfold patchDiff.
    destruct (trim_start_spec a b (S (List.length a)) 0) as (EP & HP1 & HP2);
      auto; try lia.
    set (s := trim_start eqb (S (List.length a)) a b 0
                         (List.length a) (List.length b)) in *.
    destruct ((s =? List.length a)%nat && (s =? List.length b)%nat) eqn:Q.
    { apply andb_prop in Q. destruct Q as (Qa & Qb).
      apply Nat.eqb_eq in Qa, Qb. simpl. split.
      - rewrite <- (firstn_all a), <- (firstn_all b).
        rewrite <- Qa, <- Qb. exact EP.
      - split; auto. exists [], []. auto. }
    destruct (trim_end eqb (S (List.length a)) a b s
                       (List.length a) (List.length b)) as [m0 n0] eqn:TE.
    apply trim_end_spec in TE; try lia.
    2:{ now rewrite !skipn_all. }
    destruct TE as (ET & HT1 & HT2).
    destruct (slice_split a s m0) as (Da & La); [lia|].
    destruct (slice_split b s n0) as (Db & Lb); [lia|].
    set (aa := slice a s m0) in *. set (bb := slice b s n0) in *.
    destruct (backtrack eqb (S (List.length aa + List.length bb)) aa bb
                        (lcs_matrix eqb aa bb) s (List.length aa)
                        (List.length bb)
                        (Z.of_nat (List.length aa + s)) 0 [] [])
      as [[out adds] r] eqn:BT.
    apply (backtrack_spec eqb eqb_sound aa bb (lcs_matrix eqb aa bb) s
                          (firstn s a)) in BT; try lia.
    2:{ rewrite length_firstn. lia. }
    destruct BT as (O & N & K & EO & EN & _ & _ & HO & HN & HA & HD & HAI & HND).
    simpl in EO, EN. subst out adds.
    set (tl := keeps_down a (s + List.length aa)
                 (List.length a - (s + List.length aa))
                 (Z.of_nat (List.length bb) - Z.of_nat (List.length aa))).
    set (hd := keeps_down a 0 s 0).
    set (ad := do_adds bb s r (rev N) 0) in *.
    destruct (keeps_down_idxs a (s + List.length aa)
                (List.length a - (s + List.length aa))
                (Z.of_nat (List.length bb) - Z.of_nat (List.length aa)))
      as (Rt & At).
    destruct (keeps_down_idxs a 0 s 0) as (Rh & Ah).
    destruct (do_adds_is_add bb s r (rev N) 0) as (Fa & Ra).
    fold tl in Rt, At. fold hd in Rh, Ah. fold ad in Fa, Ra.
    split; [|split; [|split]].
    - rewrite !fold_left_app. unfold tl, hd. rewrite !keeps_down_noop.
      pose proof (HO (skipn m0 a)) as HO'.
      rewrite firstn_all, <- Da in HO'.
      rewrite HO', HN, firstn_all, EP, ET. symmetry. exact Db.
    - exists (tl ++ O ++ hd), ad. split; [now rewrite <- !app_assoc|].
      split; auto. unfold add_idxs in *.
      rewrite !flat_map_app, At, HA, Ah. reflexivity.
    - unfold remove_idxs in *.
      rewrite !flat_map_app, Rt, Rh, Ra, app_nil_r. cbn [app].
      eapply desc_below_weaken; [exact HD|]. lia.
    - unfold add_idxs in *.
      rewrite !flat_map_app, At, HA, Ah. cbn [app]. rewrite HAI.
      rewrite map_rev.
      replace (map (fun e => add_n e + Z.of_nat s) N)
        with (map (fun x => x + Z.of_nat s) (map add_n N))
        by (now rewrite map_map).
      eapply desc_rev_asc.
      + apply desc_below_shift. exact HND.
      + intros y I. apply in_map_iff in I. destruct I as (x & <- & I).
        apply in_map_iff in I. destruct I as (e & <- & _).
        unfold add_n. lia.
  Qed.
End DiffRoundTrip.

Lemma prim_eqb_sound p q : prim_eqb p q = true -> p = q.
Proof.
  destruct p, q; simpl; try discriminate; auto.
  - intros H. apply Bool.eqb_prop in H. now subst.
  - intros H. apply Z.eqb_eq in H. now subst.
  - intros H. apply String.eqb_eq in H. now subst.
Qed.

Lemma value_eqb_sound v w : value_eqb v w = true -> v = w.
Proof.
  destruct v, w; simpl; try discriminate.
  - intros H. apply prim_eqb_sound in H. now subst.
  - intros H. apply andb_prop in H. destruct H as (H1 & H2).
    apply Nat.eqb_eq in H1. apply String.eqb_eq in H2. now subst.
Qed.

(** C3. For every pair of sequences [a] and [b], whatever the elements,
    compared by an equality test that holds only of equal elements: the
    calls [_patchDiff] makes, applied in the order they are made to a copy
    of [a], produce exactly [b]; every remove is made before every add;
    the remove indices are strictly descending and the add indices
    strictly ascending. *)
Theorem patchDiff_round_trip {A : Type} (eqb : A -> A -> bool) (a b : list A) :
  (forall x y, eqb x y = true -> x = y) ->
  fold_left (@apply_diffev A) (patchDiff eqb a b) a = b
  /\ (exists pre post,
        patchDiff eqb a b = pre ++ post
        /\ add_idxs pre = [] /\ forallb (@is_add A) post = true)
  /\ desc_below (Z.of_nat (List.length a)) (remove_idxs (patchDiff eqb a b))
  /\ asc_above (-1) (add_idxs (patchDiff eqb a b)).
Proof.
  intros H. now apply patchDiff_rebuilds.
Qed.

Lemma patchDiff_round_trip_witness :
  fold_left (@apply_diffev Z) (patchDiff Z.eqb [1; 2; 3; 4; 5] [1; 3; 4; 6; 5])
            [1; 2; 3; 4; 5] = [1; 3; 4; 6; 5]
  /\ (exists pre post,
        patchDiff Z.eqb [1; 2; 3; 4; 5] [1; 3; 4; 6; 5] = pre ++ post
        /\ add_idxs pre = [] /\ forallb (@is_add Z) post = true)
  /\ desc_below (Z.of_nat (List.length [1; 2; 3; 4; 5]))
                (remove_idxs (patchDiff Z.eqb [1; 2; 3; 4; 5] [1; 3; 4; 6; 5]))
  /\ asc_above (-1) (add_idxs (patchDiff Z.eqb [1; 2; 3; 4; 5] [1; 3; 4; 6; 5])).
Proof.
  apply (patchDiff_round_trip Z.eqb [1; 2; 3; 4; 5] [1; 3; 4; 6; 5]).
  intros x y H. now apply Z.eqb_eq.
Defined.

(** The diff as the collection synchronization uses it, on held values. *)
Corollary patchDiff_values_round_trip (a b : list value) :
  fold_left (@apply_diffev value) (patchDiff value_eqb a b) a = b.
Proof.
  apply (patchDiff_rebuilds value_eqb value_eqb_sound a b).
Qed.

(** Scenario S6 of the spec. *)
Example patchDiff_S6 :
  let evs := patchDiff Z.eqb [1; 2; 3; 4; 5] [1; 3; 4; 6; 5] in
  remove_idxs evs = [1] /\ add_idxs evs = [3]
  /\ filter (@is_add Z) evs = [DAdd (Some 6) 3 3].
Proof. repeat split. Qed.


(* ================================================================== *)
(** ** The diff of a list with itself, and with itself and one more *)

Section DiffEdges.
Context {A : Type}.
Variable eqb : A -> A -> bool.
Hypothesis eqb_refl : forall x, eqb x x = true.

Lemma same_at_prefix (a t t' : list A) i :
    (i < List.length a)%nat -> same_at eqb (a ++ t) (a ++ t') i i = true.
  Proof.
    intros H. unfold same_at. rewrite !nth_error_app1 by exact H.
    destruct (nth_error a i) eqn:E; [apply eqb_refl|].
    apply nth_error_None in E. lia.
  Qed.

  (** The first loop stops where the common prefix ends, when one of
      the lists is no longer than it. *)
Lemma trim_start_prefix (a t t' : list A) : forall fuel s,
    (s <= List.length a)%nat -> (List.length a - s < fuel)%nat ->
    t = [] \/ t' = [] ->
    trim_start eqb fuel (a ++ t) (a ++ t') s
               (List.length (a ++ t)) (List.length (a ++ t'))
    = List.length a.
  Proof.
    induction fuel as [|fuel IH]; intros s Hs Hf Ht; [lia|]. cbn [trim_start].
    rewrite !length_app.
    destruct (Nat.eq_dec s (List.length a)) as [->|N].
    - replace ((List.length a <? List.length a + List.length t)%nat
               && (List.length a <? List.length a + List.length t')%nat) with false.
      + reflexivity.
      + symmetry. apply andb_false_iff.
        destruct Ht as [-> | ->]; [left|right]; apply Nat.ltb_ge; cbn; lia.
    - assert (L : (s < List.length a)%nat) by lia.
      rewrite (same_at_prefix a t t' s L).
      replace (s <? List.length a + List.length t)%nat with true
        by (symmetry; apply Nat.ltb_lt; lia).
      replace (s <? List.length a + List.length t')%nat with true
        by (symmetry; apply Nat.ltb_lt; lia).
      cbn [andb]. rewrite <- !length_app. apply IH; auto; lia.
  Qed.

Lemma slice_tail (a t : list A) :
    slice (a ++ t) (List.length a) (List.length (a ++ t)) = t.
  Proof.
    unfold slice. rewrite length_app, skipn_app, skipn_all, Nat.sub_diag.
    cbn [skipn app]. replace (List.length a + List.length t - List.length a)%nat
      with (List.length t) by lia.
    apply firstn_all.
  Qed.

Lemma patchDiff_same (a : list A) : patchDiff eqb a a = [].
  Proof.
    unfold patchDiff.
    pose proof (trim_start_prefix a [] [] (S (List.length a)) 0) as T.
    rewrite !app_nil_r in T. rewrite T by (auto; lia).
    now rewrite Nat.eqb_refl.
  Qed.

Lemma patchDiff_append (a : list A) x :
    patchDiff eqb a (a ++ [x])
    = keeps_down a 0 (List.length a) 0
      ++ [DAdd (Some x) (List.length a) (Z.of_nat (List.length a))].
  Proof.
    unfold patchDiff.
    pose proof (trim_start_prefix a [] [x] (S (List.length a)) 0) as T.
    rewrite !app_nil_r in T. rewrite T by (auto; lia). clear T.
    rewrite Nat.eqb_refl.
    replace (List.length a =? List.length (a ++ [x]))%nat with false
      by (symmetry; apply Nat.eqb_neq; rewrite length_app; cbn; lia).
    cbn [andb trim_end]. rewrite Nat.ltb_irrefl. cbn [andb].
    pose proof (slice_tail a [x]) as S1. rewrite S1.
    assert (S0 : slice a (List.length a) (List.length a) = []).
    { unfold slice. now rewrite Nat.sub_diag. }
    rewrite S0. cbn [List.length Nat.add]. rewrite Nat.add_0_r, Nat.sub_diag.
    cbn [keeps_down app backtrack Nat.ltb Nat.leb andb Nat.eqb orb Nat.sub rev
         do_adds nth_error].
    repeat f_equal. lia.
  Qed.

Lemma patchDiff_drop_last (a : list A) x :
    patchDiff eqb (a ++ [x]) a
    = DRemove (Some x) (List.length a) (Z.of_nat (List.length a))
      :: keeps_down (a ++ [x]) 0 (List.length a) 0.
  Proof.
    unfold patchDiff.
    pose proof (trim_start_prefix a [x] [] (S (List.length (a ++ [x]))) 0) as T.
    rewrite !app_nil_r in T. rewrite T by (rewrite ?length_app; cbn; auto; lia).
    clear T.
    rewrite Nat.eqb_refl.
    replace (List.length a =? List.length (a ++ [x]))%nat with false
      by (symmetry; apply Nat.eqb_neq; rewrite length_app; cbn; lia).
    cbn [andb trim_end]. rewrite Nat.ltb_irrefl, andb_false_r. cbn [andb].
    pose proof (slice_tail a [x]) as S1. rewrite S1.
    assert (S0 : slice a (List.length a) (List.length a) = []).
    { unfold slice. now rewrite Nat.sub_diag. }
    rewrite S0. cbn [List.length].
    replace (List.length (a ++ [x]) - (List.length a + 1))%nat with 0%nat
      by (rewrite length_app; cbn; lia).
    cbn [keeps_down app backtrack Nat.ltb Nat.leb andb Nat.eqb orb Nat.sub rev
         do_adds nth_error Nat.add].
    rewrite app_nil_r. f_equal. f_equal. lia.
  Qed.
End DiffEdges.

(** The edges of [_patchDiff], for an equality test that holds of every
    element and itself: for two equal lists it makes no call at all; for
    a list and the list with one more element at the end it makes the
    keep calls and one add call, for the new element at the index of the
    end, and no remove call; for a list and the list without its last
    element it makes one remove call, for that element at its index,
    and no add call. *)
Theorem patchDiff_unchanged_append_drop {A : Type} (eqb : A -> A -> bool)
    (a : list A) (x : A) :
  (forall y, eqb y y = true) ->
  let n := List.length a in
  patchDiff eqb a a = []
  /\ patchDiff eqb a (a ++ [x])
     = keeps_down a 0 n 0 ++ [DAdd (Some x) n (Z.of_nat n)]
  /\ patchDiff eqb (a ++ [x]) a
     = DRemove (Some x) n (Z.of_nat n) :: keeps_down (a ++ [x]) 0 n 0.
Proof.
  intros H n. split; [now apply patchDiff_same|].
  split; [now apply patchDiff_append|now apply patchDiff_drop_last].
Qed.

Lemma prim_eqb_refl p : prim_eqb p p = true.
Proof.
  destruct p; cbn; auto using Z.eqb_refl, String.eqb_refl, Bool.eqb_reflx.
Qed.

Lemma patchDiff_unchanged_append_drop_witness :
  patchDiff prim_eqb [PNum 1] [PNum 1; PNum 2]
  = [DKeep (Some (PNum 1)) 0 0 0; DAdd (Some (PNum 2)) 1 1].
Proof.
  exact (proj1 (proj2 (patchDiff_unchanged_append_drop prim_eqb [PNum 1] (PNum 2)
                         prim_eqb_refl))).
Defined.


(* ================================================================== *)
(** ** Facts about strings and objects *)

Lemma string_length_append a b :
  String.length (a ++ b)%string = (String.length a + String.length b)%nat.
Proof. induction a as [|x a IH]; simpl; auto. Qed.

Lemma lastIndexOf_from_app ch a b : forall pos acc,
  lastIndexOf_from ch (a ++ b)%string pos acc
  = lastIndexOf_from ch b (pos + String.length a)%nat (lastIndexOf_from ch a pos acc).
Proof.
  induction a as [|x a IH]; intros pos acc; simpl.
  - now rewrite Nat.add_0_r.
  - rewrite IH. f_equal. lia.
Qed.

Lemma lastIndexOf_from_absent ch s : forall p q acc,
  indexOf_from ch s p = None -> lastIndexOf_from ch s q acc = acc.
Proof.
  induction s as [|x s IH]; intros p q acc H; simpl in *; auto.
  destruct (Ascii.eqb x ch); [discriminate|]. eapply IH; eauto.
Qed.

Lemma lastIndexOf_dotted r name :
  indexOf "."%char name = None ->
  lastIndexOf "."%char (r ++ "." ++ name)%string = Some (String.length r).
Proof.
  intros H. unfold lastIndexOf. rewrite lastIndexOf_from_app. simpl.
  unfold indexOf in H. now rewrite (lastIndexOf_from_absent _ _ _ _ _ H).
Qed.

Lemma substring_prefix a b : substring 0 (String.length a) (a ++ b)%string = a.
Proof.
  induction a as [|x a IH]; simpl.
  - now destruct b.
  - now rewrite IH.
Qed.

Lemma substring_whole s : forall m, (String.length s <= m)%nat -> substring 0 m s = s.
Proof.
  induction s as [|x s IH]; intros [|m] H; simpl in *; auto; try lia.
  rewrite IH; auto. lia.
Qed.

Lemma substring_suffix a b : forall m,
  (String.length b <= m)%nat ->
  substring (String.length a) m (a ++ b)%string = b.
Proof.
  induction a as [|x a IH]; intros m H; simpl.
  - now apply substring_whole.
  - now apply IH.
Qed.

Lemma event_name_parse r name :
  indexOf "."%char name = None -> name <> ""%string ->
  let event := (r ++ "." ++ name)%string in
  lastIndexOf "."%char event = Some (String.length r)
  /\ (String.length r =? String.length event - 1)%nat = false
  /\ substr_to (String.length r) event = r
  /\ substr_from (S (String.length r)) event = name.
Proof.
  intros H N event. subst event. split; [now apply lastIndexOf_dotted|].
  split; [|split].
  - apply Nat.eqb_neq. rewrite string_length_append. simpl.
    destruct name; [congruence|]. simpl. lia.
  - apply substring_prefix.
  - unfold substr_from.
    change (r ++ "." ++ name)%string with (r ++ String "."%char name)%string.
    replace (r ++ String "."%char name)%string
      with ((r ++ ".") ++ name)%string.
    + replace (S (String.length r)) with (String.length (r ++ ".")%string).
      * apply substring_suffix. rewrite !string_length_append. lia.
      * rewrite string_length_append. simpl. lia.
    + clear. induction r as [|x r IH]; simpl; auto. now rewrite IH.
Qed.

(** Object identities are distinct. *)
Definition wf_ids (s : Client) : Prop :=
  NoDup (map ci_id (cache s ++ detached s)).

Lemma find_id_In l x :
  NoDup (map ci_id l) -> In x l -> find_id (ci_id x) l = Some x.
Proof.
  unfold find_id. induction l as [|y l IH]; simpl; [tauto|].
  intros ND [->|I].
  - now rewrite Nat.eqb_refl.
  - inversion ND as [|? ? N ND']; subst.
    destruct (Nat.eqb_spec (ci_id y) (ci_id x)) as [E|E]; auto.
    exfalso. apply N. rewrite E. now apply in_map.
Qed.

Lemma deref_cached s r ci :
  wf_ids s -> cache_get (cache s) r = Some ci -> deref (ci_id ci) s = Some ci.
Proof.
  intros W H. unfold deref.
  rewrite (find_id_In (cache s) ci).
  - reflexivity.
  - unfold wf_ids in W. rewrite map_app in W.
    eapply NoDup_app_remove_r; eauto.
  - eapply cache_get_In; eauto.
Qed.

(* ================================================================== *)
(** ** Events addressed to a resource of another kind *)

(** A [change] event addressed to a cached resource whose type is not
    model, and an [add] or [remove] event addressed to a cached resource
    whose type is not collection, are not handled: [_handleEvent] emits
    them on the event bus and changes nothing else. *)
Lemma foreign_event_at s r name data ci :
  wf_ids s ->
  cache_get (cache s) r = Some ci ->
  (name = "change" /\ type ci <> Some typeModel)
  \/ ((name = "add" \/ name = "remove") /\ type ci <> Some typeCollection) ->
  handleEvent (r ++ "." ++ name) data s
  = Ok tt (emit (EBus (item_oid ci)
                      (namespace s ++ ".resource." ++ r ++ "." ++ name)
                      (BRaw data)) s).
Proof.
  intros W C H.
  assert (P : indexOf "."%char name = None /\ name <> ""%string).
  { destruct H as [(-> & _)|([->| ->] & _)]; split; try reflexivity;
      discriminate. }
  destruct P as (P1 & P2).
  destruct (event_name_parse r name P1 P2) as (E1 & E2 & E3 & E4).
  unfold handleEvent. rewrite E1, E2, E3, E4.
  unfold bind, gets. rewrite C.
  pose proof (deref_cached s r ci W C) as D.
  destruct H as [(-> & T)|([->| ->] & T)]; simpl.
  - unfold handleChangeEvent, handleChangeEvent_with, bind, the_obj.
    rewrite D. unfold not_model.
    destruct (type ci) as [[| |]|]; try congruence; reflexivity.
  - unfold handleAddEvent, handleAddEvent_with, bind, the_obj.
    rewrite D. unfold not_collection.
    destruct (type ci) as [[| |]|]; try congruence; reflexivity.
  - unfold handleRemoveEvent, bind, the_obj.
    rewrite D. unfold not_collection.
    destruct (type ci) as [[| |]|]; try congruence; reflexivity.
Qed.

(* ================================================================== *)
(** ** The reference table of a change event *)

Lemma rm_bump_get r r' d rm :
  Obj.get r (rm_bump r' d rm)
  = if String.eqb r' r
    then Some (match Obj.get r rm with Some n => n + d | None => d end)
    else Obj.get r rm.
Proof.
  unfold rm_bump. destruct (String.eqb_spec r' r) as [->|N].
  - destruct (Obj.get r rm); now rewrite get_set_eq.
  - destruct (Obj.get r' rm); now rewrite get_set_ne.
Qed.

Lemma keys_set_NoDup {V} k (v : V) o :
  NoDup (Obj.keys o) -> NoDup (Obj.keys (Obj.set k v o)).
Proof.
  intros ND. destruct (Obj.get k o) eqn:E.
  - now rewrite (keys_set_old _ _ _ _ E).
  - rewrite (set_new _ _ _ E). unfold Obj.keys. rewrite map_app. simpl.
    apply NoDup_app; auto.
    + repeat constructor. simpl. tauto.
    + intros x I [<-|[]]. now apply get_None_keys in E.
Qed.

Lemma rm_bump_NoDup r d rm : NoDup (Obj.keys rm) -> NoDup (Obj.keys (rm_bump r d rm)).
Proof. unfold rm_bump. destruct (Obj.get r rm); apply keys_set_NoDup. Qed.

(** The net count [rm[r]] the first loop leaves. *)
Definition rm_after (before : option Z) (olds news : Z) : option Z :=
  match before with
  | Some n => Some (n + olds - news)
  | None => if Z.eqb (olds + news) 0 then None else Some (olds - news)
  end.

Lemma change_scan_rm c props vals :
  forall acc rm vals' rm',
    change_scan c props vals acc rm = inr (vals', rm') ->
    NoDup (Obj.keys rm) ->
    NoDup (Obj.keys rm')
    /\ forall r, Obj.get r rm'
                 = rm_after (Obj.get r rm) (old_refs r props vals) (new_refs r vals).
Proof.
  induction vals as [|[k v] vals IH]; intros acc rm vals' rm' H ND.
  - simpl in H. inversion H; subst. split; auto. intros r.
    unfold rm_after, old_refs, new_refs. simpl.
    destruct (Obj.get r rm'); auto. f_equal. lia.
  - cbn [change_scan] in H.
    set (olds := fun r => old_refs r props vals) in *.
    set (news := fun r => new_refs r vals) in *.
    assert (ON : forall r, 0 <= olds r /\ 0 <= news r).
    { intros r. unfold olds, news, old_refs, new_refs. lia. }
    assert (STEP : forall (rm1 : Obj.t Z) (v' : value) (dn : string -> Z),
      NoDup (Obj.keys rm1) ->
      (forall r, 0 <= dn r) ->
      (forall r, new_refs r ((k, v) :: vals) = dn r + news r) ->
      (forall r, Obj.get r rm1 = rm_after (Obj.get r rm) 0 (dn r)) ->
      change_scan c props vals (acc ++ [(k, v')])
        match Obj.get k props with
        | Some (VRes _ r') => rm_bump r' 1 rm1
        | _ => rm1
        end = inr (vals', rm') ->
      NoDup (Obj.keys rm')
      /\ forall r, Obj.get r rm'
                   = rm_after (Obj.get r rm) (old_refs r props ((k, v) :: vals))
                              (new_refs r ((k, v) :: vals))).
    { intros rm1 v' dn ND1 Hdn Hnew Hrm1 Hs.
      apply IH in Hs.
      2:{ destruct (Obj.get k props) as [[| |]|]; auto using rm_bump_NoDup. }
      destruct Hs as (ND' & G). split; auto. intros r.
      rewrite G, Hnew. fold (olds r) (news r).
      assert (Eo : old_refs r props ((k, v) :: vals)
                   = (match Obj.get k props with
                      | Some (VRes _ r') => if String.eqb r' r then 1 else 0
                      | _ => 0
                      end) + olds r).
      { unfold olds, old_refs. cbn [filter fst].
        destruct (Obj.get k props) as [[p|o r'|m]|]; try lia.
        destruct (String.eqb r' r); cbn [List.length]; lia. }
      rewrite Eo. specialize (ON r). specialize (Hdn r).
      destruct (Obj.get k props) as [[p|o r'|m]|];
        try (rewrite Hrm1; unfold rm_after;
             destruct (Obj.get r rm);
             repeat match goal with
                    | |- context [Z.eqb ?a ?b] => destruct (Z.eqb_spec a b)
                    end; try f_equal; lia).
      rewrite rm_bump_get, Hrm1. unfold rm_after.
      destruct (String.eqb r' r); destruct (Obj.get r rm);
        repeat match goal with
               | |- context [Z.eqb ?a ?b] => destruct (Z.eqb_spec a b)
               end; try f_equal; lia. }
    assert (RM0 : forall r, Obj.get r rm = rm_after (Obj.get r rm) 0 0).
    { intros r. unfold rm_after. destruct (Obj.get r rm); auto. f_equal. lia. }
    destruct v as [p|m].
    + apply (STEP rm (VPrim p) (fun _ => 0));
        [assumption | intros; lia | | assumption | assumption].
      intros r. unfold news, new_refs. reflexivity.
    + destruct (wire_is_delete (WObj m)) eqn:WD.
      * apply (STEP rm (VPrim PUndef) (fun _ => 0));
          [assumption | intros; lia | | assumption | assumption].
        intros r. unfold news, new_refs. cbn [filter snd]. rewrite WD.
        reflexivity.
      * destruct (wire_ref (WObj m)) as [r0|] eqn:WR; [|discriminate].
        destruct (cache_get c r0) as [ci|] eqn:CG; [|discriminate].
        apply (STEP (rm_bump r0 (-1) rm) (item_value ci)
                    (fun r => if String.eqb r0 r then 1 else 0));
          [now apply rm_bump_NoDup | | | | assumption].
        -- intros r. destruct (String.eqb r0 r); lia.
        -- intros r. unfold news, new_refs. cbn [filter snd].
           rewrite WD, WR. cbn [negb andb].
           destruct (String.eqb r0 r); cbn [List.length]; lia.
        -- intros r. rewrite rm_bump_get. unfold rm_after.
           destruct (String.eqb r0 r); destruct (Obj.get r rm);
             simpl; try f_equal; try lia.
Qed.

Lemma removeIndirect_zero ci : removeIndirect 0 ci = ci.
Proof. destruct ci. unfold removeIndirect. simpl. now rewrite Z.sub_0_r. Qed.

Lemma set_cache_same s : set_cache (cache s) s = s.
Proof. now destruct s. Qed.

Lemma cache_alter_id f r c : (forall x, f x = x) -> cache_alter f r c = c.
Proof.
  intros H. unfold cache_alter. induction c as [|x c IH]; simpl; auto.
  rewrite IH. destruct (String.eqb (rid x) r); now rewrite ?H.
Qed.

(** C8 (amended). In a change event in which as many fields take a
    reference to [r] as had one before, and at least one does, the first
    loop of [_handleChangeEvent] leaves [rm[r] = 0], and the round of the
    second loop for that entry changes nothing: the indirect count is
    adjusted by zero and [_tryDelete] is not called. *)
Theorem change_event_net_zero c props vals vals' rm r :
  change_scan c props vals [] [] = inr (vals', rm) ->
  0 < new_refs r vals ->
  new_refs r vals = old_refs r props vals ->
  Obj.get r rm = Some 0
  /\ (forall n, In (r, n) rm -> n = 0)
  /\ (forall s, cache_get (cache s) r <> None -> change_step (r, 0) s = Ok tt s).
Proof.
  intros H P E.
  destruct (change_scan_rm c props vals [] [] vals' rm H) as (ND & G);
    [constructor|].
  assert (G0 : Obj.get r rm = Some 0).
  { rewrite G. simpl. rewrite <- E.
    destruct (Z.eqb_spec (new_refs r vals + new_refs r vals) 0); [lia|].
    f_equal. lia. }
  split; auto. split.
  - intros n I. apply (In_get_NoDup _ _ _ ND) in I. congruence.
  - intros s C. unfold change_step, bind, cached, modify. simpl.
    destruct (cache_get (cache s) r) eqn:Ec; [|congruence].
    rewrite (cache_alter_id _ _ _ removeIndirect_zero), set_cache_same.
    reflexivity.
Qed.

Lemma change_event_net_zero_witness :
  Obj.get "X" [("X", 0)] = Some 0
  /\ (forall n, In ("X", n) [("X", 0)] -> n = 0)
  /\ (forall s, cache_get (cache s) "X" <> None -> change_step ("X", 0) s = Ok tt s).
Proof.
  apply (change_event_net_zero (cache s_two_refs)
           [("a", VRes 5 "X"); ("b", VRes 5 "X")]
           [("a", ref "X")] [("a", VRes 5 "X")] [("X", 0)] "X").
  - reflexivity.
  - reflexivity.
  - reflexivity.
Defined.

(** In [s_two_refs] the change [{a: {rid: X}, b: {action: delete}}] has
    [X] both as the previous value of the changed fields and as the new
    value of [a]; handling the event takes [X]'s indirect count from 2
    to 1. *)
Lemma change_event_readd_changes_indirect :
  let vals := [("a", ref "X"); ("b", del)] in
  (exists ci, cache_get (cache s_two_refs) "M" = Some ci
              /\ type ci = Some typeModel
              /\ 0 < old_refs "X" (props_of ci) vals
              /\ 0 < new_refs "X" vals)
  /\ exists s', handleEvent "M.change" (Some (chg vals)) s_two_refs = Ok tt s'
                /\ option_map indirect (cache_get (cache s_two_refs) "X") = Some 2
                /\ option_map indirect (cache_get (cache s') "X") = Some 1.
Proof.
  split.
  - vm_compute. eexists. repeat split; congruence.
  - vm_compute. eexists. repeat split.
Qed.


(* ================================================================== *)
(** ** Protocol violations *)

Lemma change_scan_unsupported c props k m vals :
  In (k, WObj m) vals ->
  wire_is_delete (WObj m) = false ->
  wire_ref (WObj m) = None ->
  forall acc rm, exists msg, change_scan c props vals acc rm = inl msg.
Proof.
  intros I WD WR. induction vals as [|[k' v] vals IH]; [destruct I|].
  intros acc rm. cbn [change_scan]. destruct I as [E|I].
  - inversion E; subst. rewrite WD, WR. eauto.
  - destruct v as [p|m']; [now apply IH|].
    destruct (wire_is_delete (WObj m')); [now apply IH|].
    destruct (wire_ref (WObj m')) as [r0|]; [|eauto].
    destruct (cache_get c r0); [now apply IH|eauto].
Qed.

Lemma change_unsupported_throws s r ci ev d vals k m :
  wf_ids s ->
  cache_get (cache s) r = Some ci ->
  type ci = Some typeModel ->
  d_values d = Some vals ->
  In (k, WObj m) vals ->
  wire_is_delete (WObj m) = false ->
  wire_ref (WObj m) = None ->
  exists msg s', handleChangeEvent (ci_id ci) ev (Some d) s = Err msg s'.
Proof.
  intros W C T V I WD WR.
  unfold handleChangeEvent, handleChangeEvent_with, bind, the_obj.
  rewrite (deref_cached s r ci W C). unfold not_model. rewrite T.
  cbn [rtype_eqb negb].
  destruct (cacheResources (Some d) s) as [[] s1|e s1]; [|eauto].
  destruct (deref (ci_id ci) s1) as [ci1|]; [|unfold typeError_undefined; eauto].
  unfold gets. rewrite V.
  destruct (change_scan_unsupported (cache s1) (props_of ci1) k m vals I WD WR [] [])
    as (msg & ->).
  unfold throw. eauto.
Qed.

(** What the handler of an inbound frame does on each of the four
    protocol violations, in a state with distinct object identities. *)
Lemma protocol_violations_at s :
  (forall id e res,
      req_get id (requests s) = None ->
      throws (IMessage (MResponse id e res)) s = Some no_matching_request)
  /\ (forall ev d,
        lastIndexOf "."%char ev = None
        \/ lastIndexOf "."%char ev = Some (String.length ev - 1)%nat ->
        throws (IMessage (MEvent ev d)) s = Some (malformed_event ++ ev)%string)
  /\ (forall r ci d vals k m,
        wf_ids s ->
        cache_get (cache s) r = Some ci ->
        type ci = Some typeModel ->
        d_values d = Some vals ->
        In (k, WObj m) vals ->
        wire_is_delete (WObj m) = false ->
        wire_ref (WObj m) = None ->
        throws (IMessage (MEvent (r ++ "." ++ "change") (Some d))) s <> None)
  /\ (forall t r d ci,
        cache_get (cache s) r = Some ci ->
        item ci <> None ->
        type ci <> Some t ->
        createItems t [(r, d)] s
        = Ok ([], []) (emit (EConsoleError type_inconsistency) (removeStale r s))).
Proof.
  split; [|split; [|split]].
  - intros id e res H. unfold throws, handler, receive, bind, gets.
    now rewrite H.
  - intros ev d [H|H]; unfold throws, handler, receive, handleEvent; rewrite H.
    + reflexivity.
    + now rewrite Nat.eqb_refl.
  - intros r ci d vals k m W C T V I WD WR.
    destruct (event_name_parse r "change") as (E1 & E2 & E3 & E4);
      [reflexivity|discriminate|].
    unfold throws, handler, receive, handleEvent.
    rewrite E1, E2, E3, E4. unfold bind, gets. rewrite C.
    cbn [String.eqb Ascii.eqb Bool.eqb andb].
    destruct (change_unsupported_throws s r ci "change" d vals k m W C T V I WD WR)
      as (msg & s' & ->).
    discriminate.
  - intros t r d ci C I T.
    cbn [createItems]. unfold bind, gets, modify, ret. rewrite C.
    destruct (item ci); [|congruence].
    destruct (type ci) as [t'|].
    + destruct (rtype_eqb t' t) eqn:E.
      * exfalso. apply T. f_equal. destruct t', t; simpl in E; congruence.
      * reflexivity.
    + reflexivity.
Qed.


(** In [s_two_refs], where [X] is cached as a model, a change event on
    [M] whose bundle carries [X] as a collection is handled without an
    exception: the turn logs the inconsistency and nothing else. *)
Lemma type_inconsistency_is_logged_not_thrown :
  let msg := MEvent "M.change"
               (Some (mkData None (Some [("X", [])]) None (Some []) None None None)) in
  option_map type (cache_get (cache s_two_refs) "X") = Some (Some typeModel)
  /\ throws (IMessage msg) s_two_refs = None
  /\ trace (turn (IMessage msg) s_two_refs)
     = trace s_two_refs ++ [EConsoleError type_inconsistency]
  /\ cache (turn (IMessage msg) s_two_refs) = cache s_two_refs.
Proof. vm_compute. repeat split. Qed.


(* ================================================================== *)
(** ** Materializing a resource bundle *)

(** What a wire value becomes when a reference is replaced by the item
    cached under its RID. *)
Definition resolve (c : Cache) (v : wire) : value :=
  match wire_ref v with
  | Some r =>
      match cache_get c r with
      | Some ci => item_value ci
      | None => VPrim PUndef
      end
  | None => wire_plain v
  end.

Definition resolve_data (c : Cache) (d : rdata) : content :=
  match d with
  | RDModel o => CModel (map (fun kv => (fst kv, resolve c (snd kv))) o)
  | RDCollection l => CCollection (map (resolve c) l)
  | RDError e => CError e
  end.



Definition rdata_type (d : rdata) : rtype :=
  match d with
  | RDModel _ => typeModel
  | RDCollection _ => typeCollection
  | RDError _ => typeError
  end.

Definition refs_of (t : rtype) (d : Data) : Obj.t rdata :=
  match bundle t d with Some l => l | None => [] end.

(** Every resource of a bundle, in the order the phases take them. *)
Definition all_refs (d : Data) : Obj.t rdata :=
  refs_of typeModel d ++ refs_of typeCollection d ++ refs_of typeError d.



Section CacheRel.
Variable R : CacheItem -> CacheItem -> Prop.
Hypothesis R_rid : forall x y, R x y -> rid x = rid y.
Hypothesis R_refl : forall x, R x x.
Hypothesis R_trans : forall x y z, R x y -> R y z -> R x z.

Lemma rel_get c c' r :
    Forall2 R c c' ->
    match cache_get c r, cache_get c' r with
    | Some x, Some y => R x y
    | None, None => True
    | _, _ => False
    end.
  Proof.
    induction 1 as [|x y c c' H F IH]; simpl; auto.
    rewrite <- (R_rid _ _ H). destruct (String.eqb (rid x) r); auto.
  Qed.


Lemma rel_get_None c c' r :
    Forall2 R c c' -> cache_get c r = None -> cache_get c' r = None.
  Proof.
    intros F G. pose proof (rel_get c c' r F) as H. rewrite G in H.
    destruct (cache_get c' r); [tauto|auto].
  Qed.



End CacheRel.








(** *** The init phase *)






Lemma cache_alter_get f r c r' :
  (forall x, rid (f x) = rid x) ->
  cache_get (cache_alter f r c) r'
  = if String.eqb r r' then option_map f (cache_get c r') else cache_get c r'.
Proof.
  intros H. unfold cache_alter. induction c as [|x c IH]; simpl.
  - now destruct (String.eqb r r').
  - destruct (String.eqb_spec (rid x) r) as [E|E].
    + rewrite H. destruct (String.eqb_spec (rid x) r') as [E'|E'].
      * subst. now rewrite String.eqb_refl.
      * exact IH.
    + destruct (String.eqb_spec (rid x) r') as [E'|E']; [|exact IH].
      destruct (String.eqb_spec r r'); [congruence|reflexivity].
Qed.


(** *** The create phase *)

Lemma cache_put_absent ci c :
  cache_get c (rid ci) = None -> cache_put ci c = c ++ [ci].
Proof.
  induction c as [|x c IH]; simpl; auto.
  destruct (String.eqb (rid x) (rid ci)); [discriminate|].
  intros H. now rewrite IH.
Qed.

Lemma cache_alter_absent f r c : cache_get c r = None -> cache_alter f r c = c.
Proof.
  unfold cache_alter. induction c as [|x c IH]; simpl; auto.
  destruct (String.eqb (rid x) r); [discriminate|].
  intros H. now rewrite IH.
Qed.

Lemma cache_alter_app f r c n :
  cache_alter f r (c ++ n) = cache_alter f r c ++ cache_alter f r n.
Proof. unfold cache_alter. apply map_app. Qed.

Lemma cache_get_app c n r :
  cache_get (c ++ n) r
  = match cache_get c r with Some x => Some x | None => cache_get n r end.
Proof.
  induction c as [|x c IH]; simpl; auto.
  now destruct (String.eqb (rid x) r).
Qed.





Lemma cache_removeStale r s : cache (removeStale r s) = cache s.
Proof.
  unfold removeStale. destruct (stale s); auto. now destruct (Obj.del r t).
Qed.

Lemma nextId_removeStale r s : nextId (removeStale r s) = nextId s.
Proof.
  unfold removeStale. destruct (stale s); auto. now destruct (Obj.del r t).
Qed.



(** *** The three phases together *)











(** Two models that refer to each other. *)
Definition cyclic_bundle : Data :=
  mdl [("A", [("b", ref "B")]); ("B", [("a", ref "A")])].




(** The cycle as it is cached: [A.b] is the item of [B] and [B.a] the
    item of [A]. *)
Example cyclic_bundle_cached :
  match cacheResources (Some cyclic_bundle) newClient with
  | Ok _ s => Some (brief s)
  | Err _ _ => None
  end
  = Some [("A", 0, 1, false, [VRes 3 "B"]); ("B", 0, 1, false, [VRes 1 "A"])]
  /\ map (fun ci => (rid ci, item_oid ci))
         (cache (state_of (cacheResources (Some cyclic_bundle) newClient)))
     = [("A", Some 1%nat); ("B", Some 3%nat)].
Proof. split; reflexivity. Qed.
(** A session in which [A] has been fetched as a collection, and
    [get("B")] is waiting for its reply. *)
Definition collection_A_session : list input :=
  connect_session
  ++ [IGet "A";
      IMessage (MResponse 1 None
        (Some (mkData None (Some [("A", [])]) None None None None None)));
      IGet "B"].

(** C4, counterexample.  [A] is cached as a collection when the reply
    to [get("B")] brings the models [A] and [B] that refer to each
    other.  The materialization returns, but [_createItems] logs
    [Resource type inconsistency] and drops [A] from the bundle:
    afterwards the item of [A] is still the empty collection, it does
    not hold the item of [B]. *)
Lemma typed_item_is_not_rematerialized :
  let s := run collection_A_session newClient in
  let s' := state_of (cacheResources (Some cyclic_bundle) s) in
  (exists s1, cacheResources (Some cyclic_bundle) s = Ok tt s1)
  /\ trace s' = trace s ++ [EConsoleError type_inconsistency]
  /\ option_map (fun ci => (type ci, option_map body (item ci)))
                (cache_get (cache s') "A")
     = Some (Some typeCollection, Some (CCollection []))
  /\ ~ (forall r rd, In (r, rd) (all_refs cyclic_bundle) ->
          exists ci o,
            cache_get (cache s') r = Some ci
            /\ type ci = Some (rdata_type rd)
            /\ item ci = Some (mkResobj o (resolve_data (cache s') rd))).
Proof.
  cbv zeta.
  assert (F : option_map type
                (cache_get
                   (cache (state_of (cacheResources (Some cyclic_bundle)
                                       (run collection_A_session newClient)))) "A")
              = Some (Some typeCollection)).
  { vm_compute. reflexivity. }
  split; [eexists; vm_compute; reflexivity|].
  split; [vm_compute; reflexivity|].
  split; [vm_compute; reflexivity|].
  intros H.
  destruct (H "A" (RDModel [("b", ref "B")]) (or_introl eq_refl))
    as (ci & o & G & T & _).
  rewrite G in F. cbn [option_map] in F. cbn [rdata_type] in T. congruence.
Qed.

(** The reply to [get("A")] that brings the cycle: [A], the item [get]
    had cached, and the new [B] hold each other. *)
Example cyclic_reply_cached :
  brief (run (connect_session
              ++ [IGet "A"; IMessage (MResponse 1 None (Some cyclic_bundle))])
             newClient)
  = [("A", 0, 1, true, [VRes 5 "B"]); ("B", 0, 1, false, [VRes 3 "A"])].
Proof. vm_compute. reflexivity. Qed.


(* ================================================================== *)
(** ** What the classification guarantees for a cached root *)

Lemma inbound_ge c (P : string -> bool) r p :
  In p c -> P (rid p) = true -> hits r (kids c p) <= inbound c P r.
Proof.
  intros I HP. unfold inbound. set (f := kids c). clearbody f.
  induction c as [|a l IH]; [destruct I|].
  cbn [flat_map]. rewrite hits_app. destruct I as [->|I].
  - rewrite HP. pose proof (hits_nonneg r (flat_map (fun p0 => if P (rid p0) then f p0 else []) l)).
    lia.
  - specialize (IH I). pose proof (hits_nonneg r (if P (rid a) then f a else [])). lia.
Qed.

(** For a root that is cached and not subscribed, in a cache with
    distinct keys and exact [indirect] counts: an item classified
    [stateDelete] has no direct listener, is not subscribed, and every
    cached item that refers to it is classified [stateDelete] too. *)
Theorem getRefState_delete_sound c ci R y rs :
  NoDup (cache_rids c) -> indirect_ok c ->
  cache_get c (rid ci) = Some ci -> subscribed ci = false ->
  getRefState c ci = Done R ->
  Obj.get y R = Some rs -> st rs = stateDelete ->
  direct (rs_ci rs) = 0
  /\ subscribed (rs_ci rs) = false
  /\ forall p, In p c -> 0 < hits y (kids c p) ->
       exists rp, Obj.get (rid p) R = Some rp /\ st rp = stateDelete.
Proof.
  intros NC IO Hc Hs E G D.
  destruct (getRefState_spec c ci Hc Hs) as (R' & E' & OK).
  rewrite E in E'. injection E' as <-.
  destruct OK as [ND RE EN DL CV].
  destruct (EN y rs G) as (Cx & Sx & RC & _).
  destruct (DL y rs G D) as (RC0 & D0).
  split; auto. split; auto.
  pose proof (cache_get_rid _ _ _ Cx) as Ey.
  set (x := rs_ci rs) in *.
  assert (EXT : inbound c (fun p => negb (if in_dec string_dec p (Obj.keys R)
                                          then true else false)) y = 0).
  { pose proof (IO x (cache_get_In _ _ _ Cx)) as I1.
    rewrite (inbound_split c (fun p => if in_dec string_dec p (Obj.keys R)
                                       then true else false)) in I1.
    rewrite <- Ey in Cx.
    pose proof (inner_edges_inbound c (Obj.keys R) x NC ND Cx Sx) as I2.
    rewrite Ey in I1, I2.
    assert (0 <= inbound c
              (fun p => negb (if in_dec string_dec p (Obj.keys R)
                              then true else false)) y)
      by (unfold inbound; apply hits_nonneg).
    lia. }
  intros p Ip Hp.
  destruct (in_dec string_dec (rid p) (Obj.keys R)) as [K|K].
  - destruct (keys_get _ _ K) as (rp & Gp). exists rp. split; auto.
    destruct (EN _ _ Gp) as (Cp & _ & _ & [Dp|Rp]); auto.
    exfalso.
    assert (Cp' : cache_get c (rid p) = Some p) by now apply cache_get_NoDup.
    destruct (hits_pos_In _ _ Hp) as (x' & Ix & Ex).
    pose proof (kids_cached _ _ _ Ix) as Cx'.
    rewrite Ex, Cx in Cx'. injection Cx' as <-.
    assert (Ins : In x (nskids_of c (rid p))).
    { unfold nskids_of. rewrite Cp'. unfold nskids. apply filter_In.
      split; auto. unfold nonsub. now rewrite Sx. }
    destruct (CV (rid p) rp Gp Rp x Ins) as (ry & Gy & Ry).
    rewrite Ey, G in Gy. injection Gy as <-.
    rewrite D in Ry. destruct Ry; discriminate.
  - exfalso.
    pose proof (inbound_ge c
      (fun p => negb (if in_dec string_dec p (Obj.keys R) then true else false))
      y p Ip) as GE.
    cbv beta in GE.
    destruct (in_dec string_dec (rid p) (Obj.keys R)); [tauto|].
    specialize (GE eq_refl). lia.
Qed.

(** Whether the loop of [_tryDelete] over [refs] deletes [r]. *)
Definition deleted (r : string) (refs : Refs) : bool :=
  existsb (fun e => Z.eqb (st (snd e)) stateDelete
                    && String.eqb (rid (rs_ci (snd e))) r) refs.

Lemma cache_setStale r s : cache (setStale r s) = cache s.
Proof. unfold setStale. now destruct (connected (addStale r s)). Qed.

Lemma cache_rids_alter f r c :
  (forall x, rid (f x) = rid x) -> cache_rids (cache_alter f r c) = cache_rids c.
Proof.
  intros H. unfold cache_rids, cache_alter. rewrite map_map. apply map_ext.
  intros x. destruct (String.eqb (rid x) r); auto.
Qed.

Lemma cache_rids_del r c :
  cache_rids (cache_del r c) = filter (fun k => negb (String.eqb k r)) (cache_rids c).
Proof.
  induction c as [|x c IH]; simpl; auto.
  destruct (String.eqb (rid x) r); simpl; now rewrite IH.
Qed.

Lemma cache_rids_deleteRef ci s :
  cache_rids (cache (deleteRef ci s))
  = filter (fun k => negb (String.eqb k (rid ci))) (cache_rids (cache s)).
Proof.
  unfold deleteRef. rewrite cache_removeStale. unfold uncache. cbn [cache set_cache set_detached].
  rewrite cache_rids_del. f_equal.
  generalize (cache s). induction (item_values ci) as [|v vs IH]; intros c; simpl; auto.
  rewrite IH. destruct (getRefItem c v); auto.
  now apply cache_rids_alter.
Qed.

Lemma filter_twice {A} (f g : A -> bool) l :
  filter f (filter g l) = filter (fun x => negb (negb (g x) || negb (f x))) l.
Proof.
  induction l as [|a l IH]; simpl; auto.
  destruct (g a); simpl; rewrite IH; auto. now destruct (f a).
Qed.

Lemma tryDelete_loop_rids refs : forall s,
  cache_rids (cache (fold_left tryDelete_step refs s))
  = filter (fun k => negb (deleted k refs)) (cache_rids (cache s)).
Proof.
  induction refs as [|e refs IH]; intros s.
  - simpl. induction (cache_rids (cache s)) as [|k l IHl]; simpl; auto.
    now rewrite <- IHl.
  - cbn [fold_left]. rewrite IH. unfold tryDelete_step at 1.
    destruct (Z.eqb (st (snd e)) stateStale) eqn:E1.
    + rewrite cache_setStale. apply filter_ext. intros k.
      unfold deleted. cbn [existsb].
      apply Z.eqb_eq in E1. rewrite E1. reflexivity.
    + destruct (Z.eqb (st (snd e)) stateDelete) eqn:E2.
      * rewrite cache_rids_deleteRef, filter_twice. apply filter_ext. intros k.
        unfold deleted. cbn [existsb]. rewrite E2. cbn [andb].
        rewrite (String.eqb_sym (rid (rs_ci (snd e))) k).
        destruct (String.eqb k (rid (rs_ci (snd e)))); cbn [negb orb];
          try reflexivity;
          match goal with |- context [existsb ?f refs] => now destruct (existsb f refs) end.
      * apply filter_ext. intros k. unfold deleted. cbn [existsb].
        now rewrite E2.
Qed.

(** [_tryDelete] on a root that is cached and not subscribed, in a cache
    with distinct keys and exact [indirect] counts, returns; every item
    it evicts has no direct listener, is not subscribed, and every
    cached item that referred to it is evicted with it. *)
Theorem tryDelete_evicts_only_unreferenced s ci :
  NoDup (cache_rids (cache s)) -> indirect_ok (cache s) ->
  cache_get (cache s) (rid ci) = Some ci -> subscribed ci = false ->
  exists s',
    tryDelete ci s = Ok tt s'
    /\ forall y x,
         cache_get (cache s) y = Some x -> cache_get (cache s') y = None ->
         direct x = 0
         /\ subscribed x = false
         /\ forall p, In p (cache s) -> 0 < hits y (kids (cache s) p) ->
              cache_get (cache s') (rid p) = None.
Proof.
  intros NC IO Hc Hs.
  destruct (getRefState_spec (cache s) ci Hc Hs) as (R & E & OK).
  exists (fold_left tryDelete_step R s). split.
  - unfold tryDelete. now rewrite E.
  - pose proof (tryDelete_loop_rids R s) as RD.
    assert (GONE : forall k, cache_get (cache (fold_left tryDelete_step R s)) k = None
                             <-> cache_get (cache s) k = None \/ deleted k R = true).
    { intros k. rewrite !cache_get_None, RD, filter_In.
      destruct (deleted k R); intuition discriminate. }
    assert (DEL : forall k, deleted k R = true ->
                    exists rs, Obj.get k R = Some rs /\ st rs = stateDelete).
    { intros k H. unfold deleted in H. apply existsb_exists in H.
      destruct H as ([k' rs] & I & H). simpl in H.
      apply andb_true_iff in H. destruct H as (H1 & H2).
      apply Z.eqb_eq in H1. apply String.eqb_eq in H2.
      apply (In_get_NoDup _ _ _ (ro_nodup _ _ _ OK)) in I.
      destruct (ro_entry _ _ _ OK _ _ I) as (C & _).
      apply cache_get_rid in C. exists rs. split; auto. congruence. }
    intros y x Cx Gone. apply GONE in Gone. destruct Gone as [G|G]; [congruence|].
    destruct (DEL y G) as (rs & Gy & D).
    destruct (getRefState_delete_sound _ _ _ _ _ NC IO Hc Hs E Gy D) as (D0 & S0 & P).
    destruct (ro_entry _ _ _ OK _ _ Gy) as (C & _).
    rewrite Cx in C. injection C as ->.
    split; auto. split; auto.
    intros p Ip Hp. destruct (P p Ip Hp) as (rp & Gp & Dp).
    apply GONE. right. unfold deleted. apply existsb_exists.
    exists (rid p, rp). split; [now apply get_In|]. simpl.
    rewrite Dp. cbn [Z.eqb andb]. 
    destruct (ro_entry _ _ _ OK _ _ Gp) as (C & _).
    apply cache_get_rid in C. rewrite C. apply String.eqb_refl.
Qed.

(* ================================================================== *)
(** ** Continuations that hold an evicted cache item *)

(** [Z] and [X] both refer to [Y]; the last listener of [X] is removed,
    which sends [unsubscribe.X] (request 3); before the reply, the server
    sends the event [X.unsubscribe], on which [X] is evicted. *)
Definition unsubscribe_race : list input :=
  [IGet "Z";
   IMessage (MResponse 1 None
     (Some (mdl [("Z", [("y", ref "Y")]); ("Y", [("v", WPrim (PNum 1))])])));
   IGet "X";
   IMessage (MResponse 2 None (Some (mdl [("X", [("y", ref "Y")])])));
   IResourceOn "X"; IResourceOn "Z";
   IResourceOff "X";
   IMessage (MEvent "X.unsubscribe" None)].

(** C1. After [unsubscribe_race] the cache is consistent: [Z], subscribed
    and listened to, holds [Y], whose indirect count is 1, and [X] is
    gone.  The reply to request 3 then runs [_tryDelete] on the evicted
    item of [X]: the classification rooted there gives [Y] the delete
    state, and [Y] is evicted although [Z] still refers to it. *)
Theorem late_unsubscribe_reply_evicts_referenced_item :
  let s := run unsubscribe_race s_conn in
  let s' := turn (IMessage (MResponse 3 None None)) s in
  brief s = [("Z", 1, 0, true, [VRes 5 "Y"]); ("Y", 0, 1, false, [VPrim (PNum 1)])]
  /\ inbound (cache s) (fun _ => true) "Y" = 1
  /\ (exists x, detached s = [x] /\ rid x = "X"
                /\ option_map (map (fun e => (fst e, rc (snd e), st (snd e))))
                     (match getRefState (cache s) (setSubscribed false x) with
                      | Done R => Some R
                      | _ => None
                      end)
                   = Some [("X", 0, stateDelete); ("Y", 0, stateDelete)])
  /\ throws (IMessage (MResponse 3 None None)) s = None
  /\ brief s' = [("Z", 1, 0, true, [VRes 5 "Y"])]
  /\ cache_get (cache s') "Y" = None.
Proof.
  vm_compute. repeat split. eexists. repeat split.
Qed.

(** C2.  After [unsubscribe_race] the reply to request 3 makes
    [_tryDelete] call [_getRefState] with the evicted item of [X] as
    root; the root is not subscribed.  The cache is consistent then:
    [Y.indirect] is 1, the number of references to [Y] from cached
    items.  The first traversal returns the table [{X: rc 0, Y: rc 0}],
    although one reference into [Y] comes from outside the table, from
    the cached item [Z]: the reference from [X], taken off [Y.indirect]
    when [X] was evicted, is discounted a second time. *)
Theorem seekRefs_on_evicted_root_discounts_twice :
  let s := run unsubscribe_race s_conn in
  exists x y R,
    detached s = [x] /\ rid x = "X"%string /\ subscribed x = false
    /\ cache_rids (cache s) = ["Z"; "Y"]%string
    /\ cache_get (cache s) "Y" = Some y /\ indirect y = 1
    /\ inbound (cache s) (fun _ => true) "Y" = 1
    /\ seekPass (cache s) x = Done R
    /\ map (fun e => (fst e, rc (snd e))) R = [("X", 0); ("Y", 0)]%string
    /\ inbound (cache s) (fun p => negb (Obj.has p R)) "Y" = 1.
Proof.
  vm_compute. do 3 eexists. repeat split.
Qed.

(** The item of [X] is evicted on the event [X.unsubscribe] while
    request 2 ([unsubscribe.X]) is outstanding; [X] is fetched again and
    listened to; the reply to request 2 arrives, then an error reply to
    the new subscription (request 3). *)
Definition resubscribe_race : list input :=
  [IGet "X";
   IMessage (MResponse 1 None (Some (mdl [("X", [])])));
   IResourceOn "X"; IResourceOff "X";
   IMessage (MEvent "X.unsubscribe" None);
   IGet "X"; IResourceOn "X";
   IMessage (MResponse 2 None None);
   IMessage (MResponse 3 (Some (mkErrBody "system.notFound" "Not found")) None)].

(** C9. After [resubscribe_race], between turns, [X] is in the stale set
    and not in the cache; the timer [_setStale] started then makes
    [_subscribeToStale] read [this.cache[rid]], which is undefined, and
    throw.  On the way, the reply to request 2 evicted the new item of
    [X] while it was subscribed and had a listener. *)
Theorem failed_subscribe_leaves_stale_without_cache :
  let s1 := run (firstn 7 resubscribe_race) s_conn in
  let s2 := run (firstn 8 resubscribe_race) s_conn in
  let s := run resubscribe_race s_conn in
  brief s1 = [("X", 1, 0, true, [])]
  /\ brief s2 = []
  /\ cache s = []
  /\ stale s = Some [("X", true)]
  /\ micro s = []
  /\ In (ETimeout (TmSubscribeToStale "X") subscribeStaleDelay) (trace s)
  /\ throws (ITimer (TmSubscribeToStale "X")) s = Some typeError_undefined.
Proof.
  vm_compute. repeat split. tauto.
Qed.

Lemma get_del {V} k (o : Obj.t V) : Obj.get k (Obj.del k o) = None.
Proof.
  induction o as [|[k' v] o IH]; simpl; auto.
  destruct (String.eqb k' k) eqn:E; auto. simpl. now rewrite E.
Qed.

(** [_deleteRef], the one place where an entry leaves the cache, takes
    the RID out of the stale set as well. *)
Lemma deleteRef_clears_stale ci s :
  cache_get (cache (deleteRef ci s)) (rid ci) = None
  /\ is_stale (rid ci) (deleteRef ci s) = false.
Proof.
  split.
  - apply cache_get_None. rewrite cache_rids_deleteRef. intros I.
    apply filter_In in I. destruct I as (_ & I).
    now rewrite String.eqb_refl in I.
  - unfold deleteRef.
    set (s0 := uncache (rid ci) _). unfold removeStale, is_stale.
    destruct (stale s0) as [o|] eqn:E; [|now rewrite E].
    pose proof (get_del (rid ci) o) as G.
    destruct (Obj.del (rid ci) o) as [|e o'] eqn:D; [reflexivity|].
    cbn [stale set_stale]. now rewrite G.
Qed.

(** The same defect without the unsubscribe callback of the cache
    item: the event [X.unsubscribe] arrives while the subscription that
    [get("X")] started is outstanding and evicts the item; [X] is fetched
    again and listened to; both subscriptions are then answered with an
    error. *)
Definition pending_subscribe_race : list input :=
  let not_found := mkErrBody "system.notFound" "Not found" in
  [IGet "X";
   IMessage (MEvent "X.unsubscribe" None);
   IGet "X"; IResourceOn "X";
   IMessage (MResponse 1 (Some not_found) None);
   IMessage (MResponse 2 (Some not_found) None)].

(** The error reply to request 1 evicts the second item of [X] while it
    is subscribed and has a listener; the error reply to request 2 then
    marks [X] stale although the cache has no entry for it. *)
Lemma pending_subscribe_race_evicts_listened_item :
  let s4 := run (firstn 4 pending_subscribe_race) s_conn in
  let s5 := run (firstn 5 pending_subscribe_race) s_conn in
  let s6 := run pending_subscribe_race s_conn in
  brief s4 = [("X", 1, 0, true, [])]
  /\ cache s5 = []
  /\ cache s6 = []
  /\ stale s6 = Some [("X", true)].
Proof. vm_compute. repeat split. Qed.


(* ================================================================== *)
(** ** Two-state properties of handlers *)

(** A relation between the state before and the state after that every
    step can be composed along. *)
Record preorder (R : Client -> Client -> Prop) : Prop := mkPreorder {
  po_refl : forall s, R s s;
  po_trans : forall a b c, R a b -> R b c -> R a c
}.

(** [m] relates the state it starts in to the state it leaves, whether
    it returns or throws. *)
Definition obeys (R : Client -> Client -> Prop) {A} (m : M A) : Prop :=
  forall s, R s (state_of (m s)).

Section Frame.
Variable R : Client -> Client -> Prop.
Hypothesis PO : preorder R.

Lemma obeys_ret {A} (a : A) : obeys R (ret a).
  Proof. intros s. apply (po_refl R PO). Qed.

Lemma obeys_throw {A} msg : obeys R (@throw A msg).
  Proof. intros s. apply (po_refl R PO). Qed.

Lemma obeys_gets {A} (f : Client -> A) : obeys R (gets f).
  Proof. intros s. apply (po_refl R PO). Qed.

Lemma obeys_modify f : (forall s, R s (f s)) -> obeys R (modify f).
  Proof. intros H s. apply H. Qed.

Lemma obeys_bind {A B} (m : M A) (k : A -> M B) :
    obeys R m -> (forall a, obeys R (k a)) -> obeys R (bind m k).
  Proof.
    intros Hm Hk s. unfold bind. specialize (Hm s).
    destruct (m s) as [a s'|e s']; simpl in *; auto.
    eapply (po_trans R PO); [exact Hm|apply Hk].
  Qed.

Lemma obeys_forEach {A} (l : list A) (body : A -> M unit) :
    (forall x, obeys R (body x)) -> obeys R (forEach l body).
  Proof.
    intros H. induction l as [|x l IH]; simpl.
    - apply obeys_ret.
    - apply obeys_bind; auto.
  Qed.

Lemma obeys_try_catch {A} (m : M A) (h : string -> M A) :
    obeys R m -> (forall e, obeys R (h e)) -> obeys R (try_catch m h).
  Proof.
    intros Hm Hh s. unfold try_catch. specialize (Hm s).
    destruct (m s) as [a s'|e s']; simpl in *; auto.
    eapply (po_trans R PO); [exact Hm|apply Hh].
  Qed.

Lemma obeys_fun {A} (m : M A) :
    (forall s, R s (state_of (m s))) -> obeys R m.
  Proof. auto. Qed.
End Frame.

Lemma obeys_weaken (R R' : Client -> Client -> Prop) {A} (m : M A) :
  (forall s s', R s s' -> R' s s') -> obeys R m -> obeys R' m.
Proof. intros H Hm s. apply H, Hm. Qed.

Create HintDb frame.

(** Take a handler apart along its binds, loops, handlers and case
    distinctions; what is left are state updates and calls. *)
Ltac frame_step :=
  match goal with
  | |- obeys _ (bind _ _) => apply obeys_bind; [solve [auto with frame]| |intros ?]
  | |- obeys _ (ret _) => apply obeys_ret; solve [auto with frame]
  | |- obeys _ (throw _) => apply obeys_throw; solve [auto with frame]
  | |- obeys _ (gets _) => apply obeys_gets; solve [auto with frame]
  | |- obeys _ (forEach _ _) => apply obeys_forEach; [solve [auto with frame]|intros ?]
  | |- obeys _ (try_catch _ _) =>
      apply obeys_try_catch; [solve [auto with frame]| |intros ?]
  | |- obeys _ (if ?b then _ else _) => destruct b
  | |- obeys _ (match ?x with _ => _ end) => destruct x
  | |- obeys _ (let '(_, _) := ?x in _) => destruct x
  end.

Ltac frame := repeat frame_step; auto with frame.

(* ================================================================== *)
(** ** Handlers that only work on the cache *)

Definition is_req_event (e : effect) : bool :=
  match e with
  | ESettle (PReq _) _ => true
  | _ => false
  end.

(** A relation that holds across every update of the cache, of the
    detached items and of the stale set, every allocation, and every
    effect other than the settlement of a request promise. *)
Record inert (R : Client -> Client -> Prop) : Prop := mkInert {
  in_po : preorder R;
  in_fresh : forall s, R s (set_nextId (S (nextId s)) s);
  in_cache : forall c s, R s (set_cache c s);
  in_detached : forall d s, R s (set_detached d s);
  in_stale : forall o s, R s (set_stale o s);
  in_emit : forall e s, is_req_event e = false -> R s (emit e s)
}.
#[local] Hint Resolve in_po : frame.

Lemma inert_removeStale_step R (HI : inert R) r s : R s (removeStale r s).
Proof.
  unfold removeStale.
  destruct (stale s); [destruct (Obj.del r t)|];
    try apply (in_stale R HI); apply (po_refl R (in_po R HI)).
Qed.

Lemma inert_setStale_step R (HI : inert R) r s : R s (setStale r s).
Proof.
  unfold setStale, addStale.
  destruct (connected _); [|apply (in_stale R HI)].
  eapply (po_trans R (in_po R HI)); [|now apply (in_emit R HI)].
  apply (in_stale R HI).
Qed.

Lemma inert_uncache_step R (HI : inert R) r s : R s (uncache r s).
Proof.
  unfold uncache.
  eapply (po_trans R (in_po R HI)); [|apply (in_cache R HI)].
  apply (in_detached R HI).
Qed.

Lemma inert_deleteRef_step R (HI : inert R) ci s : R s (deleteRef ci s).
Proof.
  unfold deleteRef. set (c' := fold_left _ (item_values ci) (cache s)).
  apply (po_trans R (in_po R HI) _ (set_cache c' s)); [apply (in_cache R HI)|].
  apply (po_trans R (in_po R HI) _ (uncache (rid ci) (set_cache c' s)));
    [apply inert_uncache_step, HI|].
  apply inert_removeStale_step, HI.
Qed.

Lemma inert_tryDelete_loop R (HI : inert R) refs : forall s,
  R s (fold_left tryDelete_step refs s).
Proof.
  induction refs as [|e refs IH]; intros s; simpl.
  - apply (po_refl R (in_po R HI)).
  - eapply (po_trans R (in_po R HI)); [|apply IH]. unfold tryDelete_step.
    destruct (Z.eqb (st (snd e)) stateStale); [apply inert_setStale_step, HI|].
    destruct (Z.eqb (st (snd e)) stateDelete); [apply inert_deleteRef_step, HI|].
    apply (po_refl R (in_po R HI)).
Qed.

Lemma inert_set_cache R (HI : inert R) (f : Client -> Cache) :
  obeys R (modify (fun s => set_cache (f s) s)).
Proof. intros s. apply (in_cache R HI). Qed.

Lemma inert_alter_obj R (HI : inert R) f h : obeys R (modify (alter_obj f h)).
Proof.
  intros s. unfold modify, alter_obj. cbn [state_of].
  eapply (po_trans R (in_po R HI)); [|apply (in_detached R HI)].
  apply (in_cache R HI).
Qed.

Lemma inert_modify_removeStale R (HI : inert R) r : obeys R (modify (removeStale r)).
Proof. intros s. exact (inert_removeStale_step R HI r s). Qed.

Lemma inert_modify_emit R (HI : inert R) e :
  is_req_event e = false -> obeys R (modify (emit e)).
Proof. intros H s. exact (in_emit R HI e s H). Qed.

Lemma inert_settle R (HI : inert R) p o :
  match p with PReq _ => False | _ => True end -> obeys R (settle p o).
Proof.
  intros H. unfold settle. apply inert_modify_emit; auto. now destruct p.
Qed.

#[local] Hint Resolve inert_alter_obj inert_modify_removeStale : frame.
#[local] Hint Extern 1 (obeys _ (modify (emit _))) =>
  apply inert_modify_emit; [solve [auto with frame]|reflexivity] : frame.
#[local] Hint Extern 1 (obeys _ (settle _ _)) =>
  apply inert_settle; [solve [auto with frame]|exact I] : frame.
#[local] Hint Extern 2 (obeys _ (modify (fun s => set_cache _ s))) =>
  apply inert_set_cache; solve [auto with frame] : frame.

Lemma inert_alloc R (HI : inert R) : obeys R alloc.
Proof. intros s. exact (in_fresh R HI s). Qed.

Lemma inert_the_obj R (HI : inert R) h : obeys R (the_obj h).
Proof.
  intros s. unfold the_obj. destruct (deref h s); apply (po_refl R (in_po R HI)).
Qed.

Lemma inert_cached R (HI : inert R) r : obeys R (cached r).
Proof.
  intros s. unfold cached.
  destruct (cache_get (cache s) r); apply (po_refl R (in_po R HI)).
Qed.

Lemma inert_emit_bus R (HI : inert R) ci ev p : obeys R (emit_bus ci ev p).
Proof. intros s. unfold emit_bus. cbn [state_of]. now apply (in_emit R HI). Qed.

Lemma inert_tryDelete R (HI : inert R) ci : obeys R (tryDelete ci).
Proof.
  intros s. unfold tryDelete.
  destruct (getRefState (cache s) ci); try apply (po_refl R (in_po R HI)).
  exact (inert_tryDelete_loop R HI a s).
Qed.
#[local] Hint Resolve inert_alloc inert_the_obj inert_cached inert_emit_bus
  inert_tryDelete : frame.

Lemma inert_change_step R (HI : inert R) e : obeys R (change_step e).
Proof. unfold change_step. frame. Qed.
#[local] Hint Resolve inert_change_step : frame.

Lemma inert_change_apply R (HI : inert R) rm : obeys R (change_apply rm).
Proof. unfold change_apply. frame. Qed.
#[local] Hint Resolve inert_change_apply : frame.

Lemma inert_handleChangeEvent_with R (HI : inert R) cr h ev d :
  (forall x, obeys R (cr x)) ->
  obeys R (handleChangeEvent_with cr h ev d).
Proof. intros H. unfold handleChangeEvent_with. frame. Qed.

Lemma inert_handleAddEvent_with R (HI : inert R) cr h ev d :
  (forall x, obeys R (cr x)) ->
  obeys R (handleAddEvent_with cr h ev d).
Proof. intros H. unfold handleAddEvent_with. frame. Qed.

Lemma inert_handleRemoveEvent R (HI : inert R) h ev d :
  obeys R (handleRemoveEvent h ev d).
Proof. unfold handleRemoveEvent. frame. Qed.

Lemma inert_handleUnsubscribeEvent R (HI : inert R) h ev :
  obeys R (handleUnsubscribeEvent h ev).
Proof. unfold handleUnsubscribeEvent. frame. Qed.
#[local] Hint Resolve inert_handleRemoveEvent inert_handleUnsubscribeEvent : frame.

Lemma inert_createItems R (HI : inert R) t refs : obeys R (createItems t refs).
Proof.
  induction refs as [|[r d] refs IH]; cbn [createItems]; frame.
Qed.

Lemma inert_take_ref R (HI : inert R) r : obeys R (take_ref r).
Proof. unfold take_ref. frame. Qed.
#[local] Hint Resolve inert_createItems inert_take_ref : frame.

Lemma inert_prepareValue R (HI : inert R) v : obeys R (prepareValue v).
Proof. unfold prepareValue. frame. Qed.
#[local] Hint Resolve inert_prepareValue : frame.

Lemma inert_prepareModel R (HI : inert R) o : obeys R (prepareModel o).
Proof. induction o as [|[k v] o IH]; cbn [prepareModel]; frame. Qed.

Lemma inert_prepareCollection R (HI : inert R) l : obeys R (prepareCollection l).
Proof. induction l as [|v l IH]; cbn [prepareCollection]; frame. Qed.
#[local] Hint Resolve inert_prepareModel inert_prepareCollection : frame.

Lemma inert_prepareData R (HI : inert R) d : obeys R (prepareData d).
Proof. unfold prepareData. frame. Qed.
#[local] Hint Resolve inert_prepareData : frame.

Lemma inert_initItems R (HI : inert R) refs : obeys R (initItems refs).
Proof. unfold initItems. frame. Qed.

Lemma inert_no_resources R (HI : inert R) d : obeys R (no_resources d).
Proof. unfold no_resources. frame. Qed.
#[local] Hint Resolve inert_initItems inert_no_resources : frame.

Lemma inert_syncModel R (HI : inert R) h d : obeys R (syncModel h d).
Proof.
  unfold syncModel. frame.
  apply inert_handleChangeEvent_with; auto with frame.
Qed.

Lemma inert_syncCollection R (HI : inert R) h d : obeys R (syncCollection h d).
Proof.
  unfold syncCollection. frame;
    apply inert_handleAddEvent_with; auto with frame.
Qed.
#[local] Hint Resolve inert_syncModel inert_syncCollection : frame.

Lemma inert_syncItems R (HI : inert R) refs : obeys R (syncItems refs).
Proof. unfold syncItems. frame. Qed.

Lemma inert_create_phase R (HI : inert R) t d : obeys R (create_phase t d).
Proof. unfold create_phase. frame. Qed.
#[local] Hint Resolve inert_syncItems inert_create_phase : frame.

Lemma inert_cacheResources R (HI : inert R) d : obeys R (cacheResources d).
Proof. unfold cacheResources. frame. Qed.
#[local] Hint Resolve inert_cacheResources : frame.

Lemma inert_handleChangeEvent R (HI : inert R) h ev d :
  obeys R (handleChangeEvent h ev d).
Proof. apply inert_handleChangeEvent_with; auto with frame. Qed.

Lemma inert_handleAddEvent R (HI : inert R) h ev d :
  obeys R (handleAddEvent h ev d).
Proof. apply inert_handleAddEvent_with; auto with frame. Qed.
#[local] Hint Resolve inert_handleChangeEvent inert_handleAddEvent : frame.

Lemma inert_handleEvent R (HI : inert R) ev d : obeys R (handleEvent ev d).
Proof.
  unfold handleEvent. frame.
  apply obeys_fun. intros s. cbn [state_of]. now apply (in_emit R HI).
Qed.
#[local] Hint Resolve inert_handleEvent : frame.

Lemma inert_handleFailedSubscribe R (HI : inert R) h :
  obeys R (handleFailedSubscribe h).
Proof. unfold handleFailedSubscribe. frame. Qed.
#[local] Hint Resolve inert_handleFailedSubscribe : frame.

(** The reactions to a settled request promise work on the cache
    only. *)
Lemma inert_run_cont R (HI : inert R) k o : obeys R (run_cont k o).
Proof. unfold run_cont. frame. Qed.
#[local] Hint Resolve inert_run_cont : frame.

(* ================================================================== *)
(** ** Handlers that leave the request table alone *)

(** What the request promises depend on: the table, the next id and
    the settlements made so far. *)
Definition mview (s : Client) : list (Z * Request) * Z * list effect :=
  (requests s, reqId s, filter is_req_event (trace s)).

Definition quiet (s s' : Client) : Prop := mview s' = mview s.

Lemma quiet_po : preorder quiet.
Proof. split; unfold quiet; congruence. Qed.

Lemma mview_emit e s : is_req_event e = false -> mview (emit e s) = mview s.
Proof.
  intros H. unfold mview, emit. cbn [requests reqId trace set_trace].
  rewrite filter_app. cbn [filter]. rewrite H. now rewrite app_nil_r.
Qed.

Lemma quiet_inert : inert quiet.
Proof.
  split; try (intros; reflexivity).
  - exact quiet_po.
  - intros e s H. now apply mview_emit.
Qed.
#[local] Hint Resolve quiet_po quiet_inert : frame.
#[local] Hint Extern 3 (obeys quiet (modify _)) =>
  apply obeys_modify; intros ?; reflexivity : frame.
#[local] Hint Extern 3 (obeys quiet (enqueue _)) =>
  apply obeys_modify; intros ?; reflexivity : frame.

Lemma quiet_connect : obeys quiet connect.
Proof. unfold connect. frame. Qed.

Lemma quiet_take_waiting p :
  obeys quiet (fun s => let (l, s') := take_waiting p s in Ok l s').
Proof. intros s. reflexivity. Qed.
#[local] Hint Resolve quiet_connect quiet_take_waiting : frame.

Lemma quiet_connectResolve : obeys quiet connectResolve.
Proof. unfold connectResolve. frame. Qed.

Lemma quiet_connectReject c m : obeys quiet (connectReject c m).
Proof. unfold connectReject. frame. Qed.
#[local] Hint Resolve quiet_connectResolve quiet_connectReject : frame.

Lemma quiet_disconnect : obeys quiet disconnect.
Proof. unfold disconnect. frame. Qed.

Lemma quiet_handleOnopen : obeys quiet handleOnopen.
Proof. unfold handleOnopen. frame. Qed.

Lemma quiet_handleOnerror : obeys quiet handleOnerror.
Proof. unfold handleOnerror. frame. Qed.

Lemma quiet_handleOnclose : obeys quiet handleOnclose.
Proof. unfold handleOnclose. frame. Qed.

Lemma quiet_resourceOn r : obeys quiet (resourceOn r).
Proof. unfold resourceOn. frame. Qed.

Lemma quiet_reconnectTimer : obeys quiet reconnectTimer.
Proof. unfold reconnectTimer. frame. Qed.
#[local] Hint Resolve quiet_disconnect quiet_handleOnopen quiet_handleOnerror
  quiet_handleOnclose quiet_resourceOn quiet_reconnectTimer : frame.

(* ================================================================== *)
(** ** The invariant of the request table *)

(** Requests have distinct ids below [reqId]; the promise of a request
    has been settled once if the request was issued and is no longer
    outstanding, and not at all otherwise. *)
Definition J (s : Client) : Prop :=
  1 <= reqId s
  /\ NoDup (map fst (requests s))
  /\ (forall id, In id (map fst (requests s)) -> 1 <= id < reqId s)
  /\ (forall id, settled_count id (trace s)
                 = if (1 <=? id) && (id <? reqId s)
                      && negb (outstanding id (requests s))
                   then 1%nat else 0%nat).

Lemma req_settle_event id e : is_req_settle id e = true -> is_req_event e = true.
Proof. destruct e as [| | | | | | |p o]; try discriminate. now destruct p. Qed.

Lemma settled_count_events id t :
  settled_count id t = settled_count id (filter is_req_event t).
Proof.
  unfold settled_count. induction t as [|e t IH]; simpl; auto.
  destruct (is_req_settle id e) eqn:E.
  - rewrite (req_settle_event id e E). simpl. rewrite E. simpl. now rewrite IH.
  - destruct (is_req_event e); simpl; rewrite ?E; auto.
Qed.

Lemma J_quiet s s' : quiet s s' -> J s -> J s'.
Proof.
  unfold quiet, mview. intros E (J1 & J2 & J3 & J4).
  injection E as E1 E2 E3. unfold J. rewrite E1, E2.
  repeat split; auto; try lia; try (apply J3; auto).
  intros id. rewrite settled_count_events, E3, <- settled_count_events. apply J4.
Qed.

(** The table only grows, and the invariant is kept. *)
Definition sends (s s' : Client) : Prop :=
  (J s -> J s') /\ exists extra, requests s' = requests s ++ extra.

Lemma sends_po : preorder sends.
Proof.
  split.
  - intros s. split; auto. exists []. now rewrite app_nil_r.
  - intros a b c (H1 & x1 & E1) (H2 & x2 & E2). split; auto.
    exists (x1 ++ x2). now rewrite E2, E1, app_assoc.
Qed.

Lemma quiet_sends s s' : quiet s s' -> sends s s'.
Proof.
  intros Q. split; [now apply J_quiet|].
  exists []. unfold quiet, mview in Q. injection Q as E _ _.
  now rewrite app_nil_r.
Qed.

#[local] Hint Resolve sends_po : frame.
#[local] Hint Extern 6 (obeys sends _) =>
  apply (obeys_weaken quiet sends); [exact quiet_sends|solve [auto with frame]] : frame.

Lemma req_get_None id rs : req_get id rs = None <-> ~ In id (map fst rs).
Proof.
  induction rs as [|[k r] rs IH]; simpl; [tauto|].
  destruct (Z.eqb_spec k id); [split; [discriminate|tauto]|tauto].
Qed.

Lemma req_get_app id rs x :
  req_get id (rs ++ x)
  = match req_get id rs with Some r => Some r | None => req_get id x end.
Proof.
  induction rs as [|[k r] rs IH]; simpl; auto.
  now destruct (Z.eqb k id).
Qed.

Lemma settled_count_app id t e :
  settled_count id (t ++ [e])
  = (settled_count id t + if is_req_settle id e then 1 else 0)%nat.
Proof.
  unfold settled_count. rewrite filter_app, length_app. simpl.
  now destruct (is_req_settle id e).
Qed.

Lemma outstanding_app_other id rs k req :
  k <> id -> outstanding id (rs ++ [(k, req)]) = outstanding id rs.
Proof.
  intros N. unfold outstanding. rewrite req_get_app. simpl.
  destruct (req_get id rs); auto.
  destruct (Z.eqb_spec k id); [contradiction|reflexivity].
Qed.

(** Issuing request [reqId s], its promise settled at once or not. *)
Lemma J_issue s s' req out :
  J s ->
  requests s' = requests s ++ [(reqId s, req)] ->
  reqId s' = reqId s + 1 ->
  filter is_req_event (trace s')
  = filter is_req_event (trace s)
    ++ (if rq_settled req then [ESettle (PReq (reqId s)) out] else []) ->
  J s'.
Proof.
  intros (J1 & J2 & J3 & J4) Er Ei Et.
  assert (NI : ~ In (reqId s) (map fst (requests s))).
  { intros I. apply J3 in I. lia. }
  unfold J. rewrite Er, Ei, map_app. cbn [map fst].
  split; [lia|]. split; [|split].
  - apply NoDup_app; auto.
    + repeat constructor. simpl. tauto.
    + intros a Ia [<-|[]]. contradiction.
  - intros id I. apply in_app_or in I. destruct I as [I|[<-|[]]]; [|lia].
    apply J3 in I. lia.
  - intros id. rewrite settled_count_events, Et.
    assert (Ec : settled_count id
                   (filter is_req_event (trace s)
                    ++ (if rq_settled req then [ESettle (PReq (reqId s)) out] else []))
                 = (settled_count id (trace s)
                    + if rq_settled req && Z.eqb (reqId s) id then 1 else 0)%nat).
    { destruct (rq_settled req).
      - rewrite settled_count_app, <- settled_count_events. reflexivity.
      - rewrite app_nil_r, <- settled_count_events. simpl. lia. }
    rewrite Ec, J4. clear Ec.
    destruct (Z.eqb_spec (reqId s) id) as [<-|N].
    + apply req_get_None in NI.
      unfold outstanding. rewrite req_get_app, NI. simpl.
      rewrite Z.eqb_refl, andb_true_r.
      replace (reqId s <? reqId s) with false by (symmetry; apply Z.ltb_ge; lia).
      replace (reqId s <? reqId s + 1) with true by (symmetry; apply Z.ltb_lt; lia).
      replace (1 <=? reqId s) with true by (symmetry; apply Z.leb_le; lia).
      simpl. now destruct (rq_settled req).
    + rewrite outstanding_app_other by auto. rewrite andb_false_r, Nat.add_0_r.
      replace (id <? reqId s + 1) with (id <? reqId s); auto.
      destruct (Z.ltb_spec id (reqId s)), (Z.ltb_spec id (reqId s + 1)); auto; lia.
Qed.

Lemma sends_sendNow m p k o : obeys sends (sendNow m p k o).
Proof.
  intros s. unfold sendNow, bind, gets, modify, settle, enqueue, ret.
  cbn [ws set_reqId set_requests reqId requests state_of].
  split.
  - intros HJ.
    destruct (ws s) eqn:W; [|destruct o as [n|]]; simpl;
      (eapply (J_issue s _ _ (Rejected (PEExn ws_is_null)) HJ);
       [simpl; reflexivity|reflexivity|]);
      simpl; rewrite ?filter_app; simpl; rewrite ?app_nil_r; reflexivity.
  - destruct (ws s); [|destruct o]; eexists; simpl; reflexivity.
Qed.
#[local] Hint Resolve sends_sendNow : frame.

Lemma sends_send a r m p k : obeys sends (send a r m p k).
Proof. unfold send. frame. Qed.
#[local] Hint Resolve sends_send : frame.

Lemma sends_subscribe h t g : obeys sends (subscribe h t g).
Proof. unfold subscribe. frame. Qed.
#[local] Hint Resolve sends_subscribe : frame.

Lemma sends_subscribeReferred h : obeys sends (subscribeReferred h).
Proof. unfold subscribeReferred. frame. Qed.
#[local] Hint Resolve sends_subscribeReferred : frame.

Lemma sends_unsubscribe h : obeys sends (unsubscribe h).
Proof. unfold unsubscribe. frame. Qed.
#[local] Hint Resolve sends_unsubscribe : frame.

Lemma sends_resourceOff r : obeys sends (resourceOff r).
Proof. unfold resourceOff, removeDirect. frame. Qed.

Lemma sends_get r : obeys sends (get r).
Proof. unfold get. frame. Qed.

Lemma sends_call r m p : obeys sends (call r m p).
Proof. unfold call. auto with frame. Qed.

Lemma sends_authenticate r m p : obeys sends (authenticate r m p).
Proof. unfold authenticate. auto with frame. Qed.

Lemma sends_create r p : obeys sends (create r p).
Proof. unfold create. frame. Qed.

Lemma sends_subscribeToStale r : obeys sends (subscribeToStale r).
Proof. unfold subscribeToStale. frame. Qed.
#[local] Hint Resolve sends_resourceOff sends_get sends_call sends_authenticate
  sends_create sends_subscribeToStale : frame.

Lemma sends_subscribeToAllStale : obeys sends subscribeToAllStale.
Proof. unfold subscribeToAllStale. frame. Qed.
#[local] Hint Resolve sends_subscribeToAllStale : frame.

Lemma sends_onConnectDone ok : obeys sends (onConnectDone ok).
Proof. unfold onConnectDone, close_socket. frame. Qed.

Lemma sends_run_task t : obeys sends (run_task t).
Proof. unfold run_task. frame. Qed.
#[local] Hint Resolve sends_onConnectDone sends_run_task : frame.

Lemma sends_run_tasks ts : forall s, sends s (run_tasks ts s).
Proof.
  induction ts as [|t ts IH]; intros s; simpl.
  - apply (po_refl _ sends_po).
  - eapply (po_trans _ sends_po); [apply sends_run_task|apply IH].
Qed.

Lemma sends_drain_once s : sends s (drain_once s).
Proof.
  unfold drain_once. eapply (po_trans _ sends_po); [|apply sends_run_tasks].
  apply quiet_sends. reflexivity.
Qed.

Lemma sends_drain s : sends s (drain s).
Proof.
  unfold drain.
  eapply (po_trans _ sends_po); [apply sends_drain_once|].
  eapply (po_trans _ sends_po); apply sends_drain_once.
Qed.

(** Every handler but the one for an inbound frame. *)
Lemma sends_handler i : (forall msg, i <> IMessage msg) -> obeys sends (handler i).
Proof.
  intros H. destruct i; cbn [handler]; frame.
  exfalso. eapply H. reflexivity.
Qed.

(** *** Inbound responses *)

Lemma req_get_del_other id k rs : k <> id -> req_get id (req_del k rs) = req_get id rs.
Proof.
  intros N. unfold req_del. induction rs as [|[j r] rs IH]; simpl; auto.
  destruct (Z.eqb_spec j k) as [->|Njk]; simpl.
  - destruct (Z.eqb_spec k id); [contradiction|exact IH].
  - destruct (Z.eqb j id); auto.
Qed.

Lemma req_get_del_same id rs : req_get id (req_del id rs) = None.
Proof.
  unfold req_del. induction rs as [|[j r] rs IH]; simpl; auto.
  destruct (Z.eqb_spec j id) as [->|N]; simpl; auto.
  destruct (Z.eqb_spec j id); [contradiction|exact IH].
Qed.

Lemma req_del_keys id rs a : In a (map fst (req_del id rs)) -> In a (map fst rs).
Proof.
  unfold req_del. intros I. apply in_map_iff in I. destruct I as (x & E & I).
  apply filter_In in I. apply in_map_iff. exists x. tauto.
Qed.

Lemma req_del_NoDup id rs : NoDup (map fst rs) -> NoDup (map fst (req_del id rs)).
Proof.
  unfold req_del. induction rs as [|[j r] rs IH]; simpl; auto.
  intros ND. inversion ND as [|? ? N ND']; subst.
  destruct (Z.eqb j id); simpl; auto.
  constructor; auto. intros I. apply N. eapply (req_del_keys id). exact I.
Qed.

(** Answering request [id]: it leaves the table, and its promise is
    settled unless it already was. *)
Lemma J_answer s s' id req out :
  J s ->
  req_get id (requests s) = Some req ->
  requests s' = req_del id (requests s) ->
  reqId s' = reqId s ->
  filter is_req_event (trace s')
  = filter is_req_event (trace s)
    ++ (if rq_settled req then [] else [ESettle (PReq id) out]) ->
  J s'.
Proof.
  intros (J1 & J2 & J3 & J4) G Er Ei Et.
  assert (IN : 1 <= id < reqId s).
  { apply J3. destruct (in_dec Z.eq_dec id (map fst (requests s))) as [I|I]; auto.
    apply req_get_None in I. congruence. }
  unfold J. rewrite Er, Ei.
  split; [lia|]. split; [now apply req_del_NoDup|]. split.
  - intros k I. apply J3. eapply req_del_keys; eauto.
  - intros k. rewrite settled_count_events, Et.
    assert (Ec : settled_count k
                   (filter is_req_event (trace s)
                    ++ (if rq_settled req then [] else [ESettle (PReq id) out]))
                 = (settled_count k (trace s)
                    + if negb (rq_settled req) && Z.eqb id k then 1 else 0)%nat).
    { destruct (rq_settled req).
      - rewrite app_nil_r, <- settled_count_events. simpl. lia.
      - rewrite settled_count_app, <- settled_count_events. reflexivity. }
    rewrite Ec, J4. clear Ec.
    destruct (Z.eqb_spec id k) as [<-|N].
    + unfold outstanding. rewrite req_get_del_same, G.
      replace (1 <=? id) with true by (symmetry; apply Z.leb_le; lia).
      replace (id <? reqId s) with true by (symmetry; apply Z.ltb_lt; lia).
      simpl. now destruct (rq_settled req).
    + unfold outstanding. rewrite req_get_del_other by auto.
      rewrite andb_false_r, Nat.add_0_r. reflexivity.
Qed.

Lemma J_receive msg s : J s -> J (state_of (receive msg s)).
Proof.
  intros HJ. destruct msg as [id e res|ev d|]; cbn [receive].
  - unfold bind, gets. destruct (req_get id (requests s)) as [req|] eqn:G;
      [|exact HJ].
    unfold modify.
    assert (GEN : forall o pre,
      is_req_event pre = false ->
      J (state_of (resolve_request id req o
                     (emit pre (set_requests (req_del id (requests s)) s))))
      /\ J (state_of (resolve_request id req o
                        (set_requests (req_del id (requests s)) s)))).
    { intros o pre Hp.
      unfold resolve_request, bind, settle, modify, enqueue, ret.
      destruct (rq_settled req) eqn:ST.
      - split; simpl;
          (eapply (J_answer s _ id req (Rejected (PEExn "")) HJ G);
           [reflexivity|reflexivity|]);
          rewrite ST; simpl; rewrite ?filter_app; simpl; rewrite ?Hp, ?app_nil_r;
          reflexivity.
      - split; destruct (rq_outer req); simpl;
          (eapply (J_answer s _ id req _ HJ G);
           [reflexivity|reflexivity|]);
          rewrite ST; simpl; rewrite ?filter_app; simpl;
          rewrite ?Hp, ?app_nil_r; simpl; rewrite ?app_nil_r; reflexivity. }
    destruct e as [e|].
    + unfold handleErrorResponse, bind, modify.
      apply (GEN _ (EClient "error" _)). reflexivity.
    + unfold handleSuccessResponse.
      apply (GEN (RResult res) EWsNew). reflexivity.
  - apply (J_quiet s); auto. apply inert_handleEvent, quiet_inert.
  - exact HJ.
Qed.

Lemma J_newClient : J newClient.
Proof.
  unfold J. simpl. split; [lia|]. split; [constructor|]. split; [tauto|].
  intros id. unfold outstanding, settled_count. cbn [req_get filter List.length negb].
  destruct (Z.leb_spec 1 id), (Z.ltb_spec id 1); simpl; auto. lia.
Qed.

Lemma J_turn i s : J s -> J (turn i s).
Proof.
  intros HJ. unfold turn. apply sends_drain.
  destruct i; try (apply sends_handler; [discriminate|exact HJ]).
  cbn [handler]. now apply J_receive.
Qed.

Lemma J_run ins : forall s, J s -> J (run ins s).
Proof.
  unfold run. induction ins as [|i ins IH]; intros s HJ; simpl; auto.
  apply IH. now apply J_turn.
Qed.

Lemma turn_grows i s :
  (forall msg, i <> IMessage msg) ->
  exists extra, requests (turn i s) = requests s ++ extra.
Proof.
  intros H. unfold turn.
  destruct (sends_handler i H s) as (_ & x1 & E1).
  destruct (sends_drain (state_of (handler i s))) as (_ & x2 & E2).
  exists (x1 ++ x2). now rewrite E2, E1, app_assoc.
Qed.


(* ================================================================== *)
(** ** Settlement of request promises *)

Lemma outstanding_grows id rs extra :
  outstanding id rs = true -> outstanding id (rs ++ extra) = true.
Proof.
  unfold outstanding. rewrite req_get_app.
  destruct (req_get id rs); [auto|discriminate].
Qed.

(** C6 (amended). In every execution from the constructor, the promise
    of a request is settled at most once, and it has been settled
    exactly when the request was issued and is no longer outstanding:
    its response arrived, or the socket was null when it was sent.  No
    turn other than the arrival of a frame settles or removes an
    outstanding request: after a close of the transport, a call of
    [disconnect], or any other such turn, the request is still in the
    table and its promise still pending. *)
Theorem request_promise_settled_at_most_once (ins : list input) (id : Z) :
  let s := run ins newClient in
  (settled_count id (trace s) <= 1)%nat
  /\ (settled_count id (trace s) = 1%nat
      <-> 1 <= id < reqId s /\ outstanding id (requests s) = false)
  /\ (forall i, (forall msg, i <> IMessage msg) ->
        outstanding id (requests s) = true ->
        outstanding id (requests (turn i s)) = true
        /\ settled_count id (trace (turn i s)) = 0%nat).
Proof.
  intros s.
  assert (HJ : J s) by (apply J_run, J_newClient).
  pose proof HJ as (_ & _ & _ & J4).
  split; [|split].
  - rewrite J4. destruct (_ && _); lia.
  - rewrite J4.
    destruct (Z.leb_spec 1 id), (Z.ltb_spec id (reqId s)),
             (outstanding id (requests s)); simpl;
      split; try discriminate; try lia; intros (? & ?); try lia; discriminate.
  - intros i Hi O.
    destruct (turn_grows i s Hi) as (extra & E).
    assert (O' : outstanding id (requests (turn i s)) = true).
    { rewrite E. now apply outstanding_grows. }
    split; auto.
    destruct (J_turn i s HJ) as (_ & _ & _ & J4').
    rewrite J4', O'. cbn [negb]. now rewrite andb_false_r.
Qed.

Lemma request_promise_settled_at_most_once_witness :
  let s := run [IConnect; IOpen; IOnConnectDone true; IGet "X"] newClient in
  (outstanding 1 (requests (turn IClose s)) = true
   /\ settled_count 1 (trace (turn IClose s)) = 0%nat)
  /\ (outstanding 1 (requests (turn IDisconnect s)) = true
      /\ settled_count 1 (trace (turn IDisconnect s)) = 0%nat).
Proof.
  intros s.
  destruct (request_promise_settled_at_most_once
              [IConnect; IOpen; IOnConnectDone true; IGet "X"] 1) as (_ & _ & H).
  split; apply H; try discriminate; reflexivity.
Defined.

(** The subscribe request of [get("X")] is outstanding when the
    transport closes, or when [disconnect()] is called and the transport
    then closes: afterwards it is still in the table, and its promise
    has not been settled. *)
Lemma request_abandoned_on_close :
  let sent := [IConnect; IOpen; IOnConnectDone true; IGet "X"] in
  let closed := run (sent ++ [IClose]) newClient in
  let disconnected := run (sent ++ [IDisconnect; IClose]) newClient in
  (outstanding 1 (requests closed) = true
   /\ settled_count 1 (trace closed) = 0%nat
   /\ ws closed = false /\ connected closed = false /\ micro closed = [])
  /\ (outstanding 1 (requests disconnected) = true
      /\ settled_count 1 (trace disconnected) = 0%nat
      /\ ws disconnected = false /\ connected disconnected = false
      /\ micro disconnected = []).
Proof. vm_compute. repeat split. Qed.


(* ================================================================== *)
(** ** A subscription that fails *)

Lemma find_id_app h l x :
  find_id h l = None ->
  find_id h (l ++ [x]) = if Nat.eqb (ci_id x) h then Some x else None.
Proof.
  unfold find_id. induction l as [|y l IH]; simpl; auto.
  destruct (Nat.eqb (ci_id y) h); [discriminate|auto].
Qed.

Lemma alter_id_absent f h l : find_id h l = None -> alter_id f h l = l.
Proof.
  unfold find_id, alter_id. induction l as [|y l IH]; simpl; auto.
  destruct (Nat.eqb (ci_id y) h); [discriminate|].
  intros H. now rewrite IH.
Qed.

Lemma alter_id_app f h l l' :
  alter_id f h (l ++ l') = alter_id f h l ++ alter_id f h l'.
Proof. unfold alter_id. apply map_app. Qed.



Lemma req_del_last id rs q :
  req_get id rs = None -> req_del id (rs ++ [(id, q)]) = rs.
Proof.
  unfold req_del. induction rs as [|[k r] rs IH]; simpl.
  - now rewrite Z.eqb_refl.
  - destruct (Z.eqb k id); [discriminate|]. simpl. intros H. now rewrite IH.
Qed.

Lemma append_empty_r s : (s ++ "")%string = s.
Proof. induction s as [|a s IH]; simpl; auto. now rewrite IH. Qed.


Lemma drain_idle s : micro s = [] -> drain s = s.
Proof.
  intros H. assert (E : drain_once s = s).
  { unfold drain_once. rewrite H. simpl. destruct s; simpl in *. now subst. }
  unfold drain. now rewrite !E.
Qed.

(** Reduce the projections of a state built with the setters. *)
Ltac state_cbn :=
  cbn [namespace tryConnect connected ws requests reqId cache detached stale
       connectPromise connectCallback waiting micro nextId trace
       set_tryConnect set_connected set_ws set_requests set_reqId set_cache
       set_detached set_stale set_connectPromise set_connectCallback
       set_waiting set_micro set_nextId set_trace emit].

(** Turn setters applied to a state record into a state record. *)
Ltac state_norm :=
  cbv beta iota delta
      [set_tryConnect set_connected set_ws set_requests set_reqId set_cache
       set_detached set_stale set_connectPromise set_connectCallback
       set_waiting set_micro set_nextId set_trace emit
       namespace tryConnect connected ws requests reqId cache detached stale
       connectPromise connectCallback waiting micro nextId trace].

Ltac state_cbn_all :=
  cbn [namespace tryConnect connected ws requests reqId cache detached stale
       connectPromise connectCallback waiting micro nextId trace] in *.

Lemma removeStale_fields r s :
  removeStale r s = set_stale (stale (removeStale r s)) s.
Proof.
  unfold removeStale. destruct (stale s) as [o|] eqn:E.
  - now destruct (Obj.del r o).
  - destruct s; simpl in *. now subst.
Qed.

Lemma stale_removeStale_ext r s s' :
  stale s = stale s' -> stale (removeStale r s) = stale (removeStale r s').
Proof.
  intros E. unfold removeStale. rewrite <- E.
  destruct (stale s) as [o|] eqn:E'; [|congruence].
  now destruct (Obj.del r o).
Qed.

Section FailedGet.
Variables (s : Client) (r : string).
Hypothesis Hconn : connected s = true.
Hypothesis Hws : ws s = true.
Hypothesis Hmicro : micro s = [].
Hypothesis Hr : r <> ""%string.
Hypothesis Hc : cache_get (cache s) r = None.
Hypothesis Hreq : req_get (reqId s) (requests s) = None.
Hypothesis Hid1 : find_id (nextId s) (cache s) = None.
Hypothesis Hid2 : find_id (nextId s) (detached s) = None.

  (** The state [get(r)] leaves: the new item is cached, marked as
      subscribed, with the promise [g] that [get] returned; request
      [reqId s] has been sent. *)
Definition s_sent : Client :=
    mkClient (namespace s) (tryConnect s) true true
      (requests s
       ++ [(reqId s,
            mkRequest ("subscribe." ++ r) None false
                      (KSubscribe (nextId s) true (Some (S (nextId s)))) None)])
      (reqId s + 1)
      (cache s ++ [mkCI (nextId s) r None None 0 0 true (Some (S (nextId s)))])
      (detached s) (stale (removeStale r s)) (connectPromise s)
      (connectCallback s) (waiting s) [] (S (S (nextId s)))
      (trace s ++ [ESend (reqId s) ("subscribe." ++ r) None]).

Lemma handler_get_uncached : handler (IGet r) s = Ok tt s_sent.
  Proof.
    unfold s_sent.
    destruct s as [ns tc cn w0 rq rid0 c dt stl cp cc wt mi nx tr].
    state_cbn_all. subst cn w0 mi.
    cbn [handler]. unfold get, bind, gets. state_cbn. rewrite Hc.
    unfold alloc, fresh, modify. state_cbn.
    rewrite (cache_put_absent (newCacheItem nx r)) by exact Hc.
    unfold subscribe, bind, the_obj, deref. state_cbn.
    rewrite (find_id_app nx c _ Hid1). cbn [ci_id newCacheItem].
    rewrite Nat.eqb_refl.
    unfold modify, alter_obj. state_cbn.
    rewrite !alter_id_app, !alter_id_absent by assumption.
    cbn [alter_id map ci_id]. rewrite Nat.eqb_refl.
    cbn [rid newCacheItem setSubscribed ci_id type item direct indirect
         subscribed promise].
    assert (Er : String.eqb r "" = false) by now apply String.eqb_neq.
    unfold send. rewrite Er. unfold bind, gets, sendNow, bind, gets, modify, ret.
    destruct stl as [o|]; [destruct (Obj.del r o) eqn:D|];
      unfold removeStale; state_cbn; rewrite ?D; state_cbn;
      rewrite !alter_id_app, !alter_id_absent by assumption;
      cbn [alter_id map ci_id setSubscribed newCacheItem];
      rewrite Nat.eqb_refl, append_empty_r; reflexivity.
  Qed.

Lemma turn_get_uncached : turn (IGet r) s = s_sent.
  Proof.
    unfold turn. rewrite handler_get_uncached. cbn [state_of].
    now apply drain_idle.
  Qed.



End FailedGet.





(* ================================================================== *)
(** ** Keys and identities in every reachable state *)

(** The cache has one entry per RID, and the cache items in use, cached
    or not, are distinct objects whose identities were allocated. *)
Definition W (s : Client) : Prop :=
  NoDup (cache_rids (cache s))
  /\ NoDup (map ci_id (cache s ++ detached s))
  /\ (forall x, In x (cache s ++ detached s) -> (ci_id x < nextId s)%nat).

Definition keepsW (s s' : Client) : Prop := W s -> W s'.

Lemma keepsW_po : preorder keepsW.
Proof. split; unfold keepsW; auto. Qed.
#[local] Hint Resolve keepsW_po : frame.

(** A method of a cache item that leaves its identity and RID. *)
Definition stable (f : CacheItem -> CacheItem) : Prop :=
  forall x, ci_id (f x) = ci_id x /\ rid (f x) = rid x.

Lemma stable_setSubscribed b : stable (setSubscribed b).
Proof. now intros x. Qed.
Lemma stable_addIndirect n : stable (addIndirect n).
Proof. now intros x. Qed.
Lemma stable_removeIndirect n : stable (removeIndirect n).
Proof. now intros x. Qed.
Lemma stable_addDirect : stable addDirect.
Proof. now intros x. Qed.
Lemma stable_decDirect : stable decDirect.
Proof. now intros x. Qed.
Lemma stable_setItem o t : stable (setItem o t).
Proof. now intros x. Qed.
Lemma stable_setPromise p : stable (setPromise p).
Proof. now intros x. Qed.
Lemma stable_setBody b : stable (setBody b).
Proof. now intros x. Qed.
#[local] Hint Resolve stable_setSubscribed stable_addIndirect stable_removeIndirect
  stable_addDirect stable_decDirect stable_setItem stable_setPromise
  stable_setBody : frame.

(** A list of cache items changed item by item, identities and RIDs
    staying. *)
Definition alike (l l' : list CacheItem) : Prop :=
  map ci_id l' = map ci_id l /\ map rid l' = map rid l.

Lemma alike_refl l : alike l l.
Proof. now split. Qed.

Lemma alike_trans a b c : alike a b -> alike b c -> alike a c.
Proof. intros (A1 & A2) (B1 & B2). split; congruence. Qed.

Lemma alike_map g l : (forall x, ci_id (g x) = ci_id x /\ rid (g x) = rid x) ->
  alike l (map g l).
Proof.
  intros H. split; rewrite map_map; apply map_ext; intros x; apply H.
Qed.

Lemma alike_cache_alter f r c : stable f -> alike c (cache_alter f r c).
Proof.
  intros H. apply alike_map. intros x.
  destruct (String.eqb (rid x) r); auto.
Qed.

Lemma alike_alter_id f h l : stable f -> alike l (alter_id f h l).
Proof.
  intros H. apply alike_map. intros x.
  destruct (Nat.eqb (ci_id x) h); auto.
Qed.

Lemma alike_In l l' x :
  alike l l' -> In x l' -> exists y, In y l /\ ci_id y = ci_id x.
Proof.
  intros (A & _) I. apply (in_map ci_id) in I. rewrite A in I.
  apply in_map_iff in I. destruct I as (y & E & I). eauto.
Qed.

Lemma W_alike s s' :
  alike (cache s) (cache s') -> alike (detached s) (detached s') ->
  (nextId s <= nextId s')%nat -> W s -> W s'.
Proof.
  intros Ac Ad N (W1 & W2 & W3). split; [|split].
  - unfold cache_rids. now rewrite (proj2 Ac).
  - rewrite map_app, (proj1 Ac), (proj1 Ad), <- map_app. exact W2.
  - intros x I. apply in_app_or in I. destruct I as [I|I].
    + destruct (alike_In _ _ _ Ac I) as (y & Iy & E). rewrite <- E.
      specialize (W3 y (in_or_app _ _ _ (or_introl Iy))). lia.
    + destruct (alike_In _ _ _ Ad I) as (y & Iy & E). rewrite <- E.
      specialize (W3 y (in_or_app _ _ _ (or_intror Iy))). lia.
Qed.

Lemma keepsW_same s s' :
  cache s' = cache s -> detached s' = detached s -> nextId s' = nextId s ->
  keepsW s s'.
Proof.
  intros E1 E2 E3 H. apply (W_alike s); auto; rewrite ?E1, ?E2, ?E3;
    auto using alike_refl.
Qed.

Lemma keepsW_cache_alter f r :
  stable f ->
  obeys keepsW (modify (fun s => set_cache (cache_alter f r (cache s)) s)).
Proof.
  intros H s HW. apply (W_alike s); simpl; auto using alike_refl, alike_cache_alter.
Qed.

Lemma keepsW_alter_obj f h : stable f -> obeys keepsW (modify (alter_obj f h)).
Proof.
  intros H s HW. apply (W_alike s); simpl; auto using alike_alter_id.
Qed.

Lemma wview_removeStale r s :
  cache (removeStale r s) = cache s
  /\ detached (removeStale r s) = detached s
  /\ nextId (removeStale r s) = nextId s.
Proof.
  unfold removeStale. destruct (stale s); [destruct (Obj.del r t)|]; auto.
Qed.

Lemma keepsW_removeStale r : obeys keepsW (modify (removeStale r)).
Proof.
  intros s. destruct (wview_removeStale r s) as (A & B & C).
  now apply keepsW_same.
Qed.

Lemma keepsW_setStale r s : keepsW s (setStale r s).
Proof.
  unfold setStale. destruct (connected (addStale r s)); now apply keepsW_same.
Qed.

Lemma cache_del_filter r c :
  cache_del r c = filter (fun x => negb (String.eqb (rid x) r)) c.
Proof.
  induction c as [|x c IH]; simpl; auto.
  destruct (String.eqb (rid x) r); simpl; now rewrite IH.
Qed.

Lemma filter_split_perm {A} (p : A -> bool) l :
  Permutation (filter (fun x => negb (p x)) l ++ filter p l) l.
Proof.
  induction l as [|x l IH]; simpl; auto.
  destruct (p x); simpl.
  - apply Permutation_sym, Permutation_cons_app, Permutation_sym, IH.
  - now constructor.
Qed.

Lemma NoDup_filter_rids (p : string -> bool) c :
  NoDup (cache_rids c) -> NoDup (cache_rids (filter (fun x => p (rid x)) c)).
Proof.
  unfold cache_rids. induction c as [|x c IH]; simpl; auto.
  intros ND. inversion ND as [|? ? N ND']; subst.
  destruct (p (rid x)); simpl; auto.
  constructor; auto. intros I. apply N.
  apply in_map_iff in I. destruct I as (y & E & I).
  apply filter_In in I. apply in_map_iff. exists y. tauto.
Qed.

Lemma keepsW_uncache r s : keepsW s (uncache r s).
Proof.
  intros (W1 & W2 & W3). unfold uncache. simpl.
  rewrite cache_del_filter.
  assert (P : Permutation
                (filter (fun x => negb (String.eqb (rid x) r)) (cache s)
                 ++ detached s ++ filter (fun x => String.eqb (rid x) r) (cache s))
                (cache s ++ detached s)).
  { rewrite (Permutation_app_comm (detached s)), app_assoc.
    apply Permutation_app_tail, filter_split_perm. }
  split; [|split].
  - apply (NoDup_filter_rids (fun k => negb (String.eqb k r))). exact W1.
  - eapply Permutation_NoDup; [|exact W2].
    apply Permutation_map, Permutation_sym, P.
  - intros x I. apply W3. eapply Permutation_in; [exact P|exact I].
Qed.

Lemma keepsW_deleteRef ci s : keepsW s (deleteRef ci s).
Proof.
  intros HW. unfold deleteRef.
  set (c' := fold_left _ (item_values ci) (cache s)).
  assert (AL : alike (cache s) c').
  { unfold c'. generalize (cache s).
    induction (item_values ci) as [|v vs IH]; intros c; simpl.
    - apply alike_refl.
    - eapply alike_trans; [|apply IH].
      destruct (getRefItem c v); [|apply alike_refl].
      apply alike_cache_alter, stable_removeIndirect. }
  destruct (wview_removeStale (rid ci) (uncache (rid ci) (set_cache c' s)))
    as (A & B & C).
  apply (keepsW_same (uncache (rid ci) (set_cache c' s))); auto.
  apply keepsW_uncache.
  apply (W_alike s); simpl; auto using alike_refl.
Qed.

Lemma keepsW_tryDelete_loop refs : forall s, keepsW s (fold_left tryDelete_step refs s).
Proof.
  induction refs as [|e refs IH]; intros s; simpl.
  - now intros H.
  - intros H. apply IH. unfold tryDelete_step.
    destruct (Z.eqb (st (snd e)) stateStale); [now apply keepsW_setStale|].
    destruct (Z.eqb (st (snd e)) stateDelete); [now apply keepsW_deleteRef|exact H].
Qed.

Lemma keepsW_alloc : obeys keepsW alloc.
Proof.
  intros s (W1 & W2 & W3). simpl. split; [|split]; auto.
  intros x I. specialize (W3 x I). simpl. lia.
Qed.

Lemma keepsW_the_obj h : obeys keepsW (the_obj h).
Proof. intros s. unfold the_obj. destruct (deref h s); now intros H. Qed.

Lemma keepsW_cached r : obeys keepsW (cached r).
Proof. intros s. unfold cached. destruct (cache_get (cache s) r); now intros H. Qed.

Lemma keepsW_emit_bus ci ev p : obeys keepsW (emit_bus ci ev p).
Proof. intros s. now apply keepsW_same. Qed.

Lemma keepsW_tryDelete ci : obeys keepsW (tryDelete ci).
Proof.
  intros s. unfold tryDelete.
  destruct (getRefState (cache s) ci); try (now intros H).
  apply keepsW_tryDelete_loop.
Qed.

Lemma cache_put_rids x c :
  NoDup (cache_rids c) -> NoDup (cache_rids (cache_put x c)).
Proof.
  unfold cache_rids. induction c as [|y c IH]; simpl; intros ND.
  - repeat constructor. simpl. tauto.
  - inversion ND as [|? ? N ND']; subst.
    destruct (String.eqb_spec (rid y) (rid x)) as [E|E]; simpl.
    + rewrite <- E. now constructor.
    + constructor; auto. intros I. apply N.
      clear - I E. induction c as [|z c IH]; simpl in *.
      * destruct I as [I|[]]. congruence.
      * destruct (String.eqb_spec (rid z) (rid x)) as [Ez|Ez]; simpl in I.
        -- destruct I as [I|I]; [congruence|auto].
        -- destruct I as [I|I]; auto.
Qed.

Lemma cache_put_In x c y : In y (cache_put x c) -> y = x \/ In y c.
Proof.
  induction c as [|z c IH]; simpl.
  - intros [<-|[]]. now left.
  - destruct (String.eqb (rid z) (rid x)); simpl.
    + intros [<-|I]; auto.
    + intros [<-|I]; auto. destruct (IH I); auto.
Qed.

Lemma cache_put_ids x c dt :
  NoDup (map ci_id (c ++ dt)) ->
  ~ In (ci_id x) (map ci_id (c ++ dt)) ->
  NoDup (map ci_id (cache_put x c ++ dt)).
Proof.
  induction c as [|z c IH]; simpl; intros ND NI.
  - constructor; auto.
  - inversion ND as [|? ? N ND']; subst.
    destruct (String.eqb (rid z) (rid x)); simpl.
    + constructor; auto.
    + constructor; [|apply IH; auto].
      intros I. rewrite map_app in I. apply in_app_or in I.
      destruct I as [I|I].
      * apply in_map_iff in I. destruct I as (y & E & I).
        apply cache_put_In in I. destruct I as [->|I].
        -- apply NI. now left.
        -- apply N. rewrite map_app. apply in_or_app. left.
           rewrite <- E. now apply in_map.
      * apply N. rewrite map_app. apply in_or_app. now right.
Qed.

(** Allocating an identity and caching a new item under it. *)
Lemma keepsW_alloc_put {A} r (k : nat -> M A) :
  (forall h, obeys keepsW (k h)) ->
  obeys keepsW
    (bind alloc (fun h =>
       bind (modify (fun s => set_cache (cache_put (newCacheItem h r) (cache s)) s))
            (fun _ => k h))).
Proof.
  intros Hk s HW. unfold bind, alloc, fresh, modify.
  apply Hk. destruct HW as (W1 & W2 & W3). simpl.
  split; [|split].
  - now apply cache_put_rids.
  - apply cache_put_ids; auto. simpl. intros I.
    apply in_map_iff in I. destruct I as (y & E & I).
    specialize (W3 y I). lia.
  - intros x I. apply in_app_or in I. destruct I as [I|I].
    + apply cache_put_In in I. destruct I as [->|I]; simpl; [lia|].
      specialize (W3 x (in_or_app _ _ _ (or_introl I))). lia.
    + simpl in I |- *. specialize (W3 x (in_or_app _ _ _ (or_intror I))). lia.
Qed.

#[local] Hint Resolve keepsW_alloc keepsW_the_obj keepsW_cached keepsW_emit_bus
  keepsW_tryDelete keepsW_removeStale : frame.
#[local] Hint Extern 1 (obeys keepsW (modify (fun s => set_cache (cache_alter _ _ (cache s)) s))) =>
  apply keepsW_cache_alter; solve [auto with frame] : frame.
#[local] Hint Extern 1 (obeys keepsW (modify (alter_obj _ _))) =>
  apply keepsW_alter_obj; solve [auto with frame] : frame.
#[local] Hint Extern 3 (obeys keepsW (modify _)) =>
  apply obeys_modify; intros ?; apply keepsW_same; reflexivity : frame.
#[local] Hint Extern 3 (obeys keepsW (settle _ _)) =>
  apply obeys_modify; intros ?; apply keepsW_same; reflexivity : frame.
#[local] Hint Extern 3 (obeys keepsW (enqueue _)) =>
  apply obeys_modify; intros ?; apply keepsW_same; reflexivity : frame.

(** As [frame], with the allocation of a cache item taken as one step. *)
Ltac frameW :=
  repeat first
    [ match goal with
      | |- obeys keepsW (bind alloc (fun h => bind (modify (fun s =>
             set_cache (cache_put (newCacheItem h _) (cache s)) s)) _)) =>
          apply keepsW_alloc_put; intros ?
      end
    | frame_step ];
  auto with frame.

Lemma keepsW_change_step e : obeys keepsW (change_step e).
Proof. unfold change_step. frameW. Qed.
#[local] Hint Resolve keepsW_change_step : frame.

Lemma keepsW_change_apply rm : obeys keepsW (change_apply rm).
Proof. unfold change_apply. frameW. Qed.
#[local] Hint Resolve keepsW_change_apply : frame.

Lemma keepsW_handleChangeEvent_with cr h ev d :
  (forall x, obeys keepsW (cr x)) ->
  obeys keepsW (handleChangeEvent_with cr h ev d).
Proof. intros H. unfold handleChangeEvent_with. frameW. Qed.

Lemma keepsW_handleAddEvent_with cr h ev d :
  (forall x, obeys keepsW (cr x)) ->
  obeys keepsW (handleAddEvent_with cr h ev d).
Proof. intros H. unfold handleAddEvent_with. frameW. Qed.

Lemma keepsW_handleRemoveEvent h ev d : obeys keepsW (handleRemoveEvent h ev d).
Proof. unfold handleRemoveEvent. frameW. Qed.

Lemma keepsW_handleUnsubscribeEvent h ev : obeys keepsW (handleUnsubscribeEvent h ev).
Proof. unfold handleUnsubscribeEvent. frameW. Qed.
#[local] Hint Resolve keepsW_handleRemoveEvent keepsW_handleUnsubscribeEvent : frame.

Lemma keepsW_createItems t refs : obeys keepsW (createItems t refs).
Proof.
  induction refs as [|[r d] refs IH]; cbn [createItems]; frameW.
Qed.

Lemma keepsW_take_ref r : obeys keepsW (take_ref r).
Proof. unfold take_ref. frameW. Qed.
#[local] Hint Resolve keepsW_createItems keepsW_take_ref : frame.

Lemma keepsW_prepareValue v : obeys keepsW (prepareValue v).
Proof. unfold prepareValue. frameW. Qed.
#[local] Hint Resolve keepsW_prepareValue : frame.

Lemma keepsW_prepareModel o : obeys keepsW (prepareModel o).
Proof. induction o as [|[k v] o IH]; cbn [prepareModel]; frameW. Qed.

Lemma keepsW_prepareCollection l : obeys keepsW (prepareCollection l).
Proof. induction l as [|v l IH]; cbn [prepareCollection]; frameW. Qed.
#[local] Hint Resolve keepsW_prepareModel keepsW_prepareCollection : frame.

Lemma keepsW_prepareData d : obeys keepsW (prepareData d).
Proof. unfold prepareData. frameW. Qed.
#[local] Hint Resolve keepsW_prepareData : frame.

Lemma keepsW_initItems refs : obeys keepsW (initItems refs).
Proof. unfold initItems. frameW. Qed.

Lemma keepsW_no_resources d : obeys keepsW (no_resources d).
Proof. unfold no_resources. frameW. Qed.
#[local] Hint Resolve keepsW_initItems keepsW_no_resources : frame.

Lemma keepsW_syncModel h d : obeys keepsW (syncModel h d).
Proof.
  unfold syncModel. frameW.
  apply keepsW_handleChangeEvent_with. auto with frame.
Qed.

Lemma keepsW_syncCollection h d : obeys keepsW (syncCollection h d).
Proof.
  unfold syncCollection. frameW;
    apply keepsW_handleAddEvent_with; auto with frame.
Qed.
#[local] Hint Resolve keepsW_syncModel keepsW_syncCollection : frame.

Lemma keepsW_syncItems refs : obeys keepsW (syncItems refs).
Proof. unfold syncItems. frameW. Qed.

Lemma keepsW_create_phase t d : obeys keepsW (create_phase t d).
Proof. unfold create_phase. frameW. Qed.
#[local] Hint Resolve keepsW_syncItems keepsW_create_phase : frame.

Lemma keepsW_cacheResources d : obeys keepsW (cacheResources d).
Proof. unfold cacheResources. frameW. Qed.
#[local] Hint Resolve keepsW_cacheResources : frame.

Lemma keepsW_handleChangeEvent h ev d : obeys keepsW (handleChangeEvent h ev d).
Proof. apply keepsW_handleChangeEvent_with. auto with frame. Qed.

Lemma keepsW_handleAddEvent h ev d : obeys keepsW (handleAddEvent h ev d).
Proof. apply keepsW_handleAddEvent_with. auto with frame. Qed.
#[local] Hint Resolve keepsW_handleChangeEvent keepsW_handleAddEvent : frame.

Lemma keepsW_handleEvent ev d : obeys keepsW (handleEvent ev d).
Proof.
  unfold handleEvent. frameW.
  apply obeys_fun. intros s. now apply keepsW_same.
Qed.
#[local] Hint Resolve keepsW_handleEvent : frame.

Lemma keepsW_handleFailedSubscribe h : obeys keepsW (handleFailedSubscribe h).
Proof. unfold handleFailedSubscribe. frameW. Qed.
#[local] Hint Resolve keepsW_handleFailedSubscribe : frame.

Lemma keepsW_run_cont k o : obeys keepsW (run_cont k o).
Proof. unfold run_cont. frameW. Qed.

Lemma keepsW_connect : obeys keepsW connect.
Proof. unfold connect. frameW. Qed.

Lemma keepsW_take_waiting p :
  obeys keepsW (fun s => let (l, s') := take_waiting p s in Ok l s').
Proof. intros s. now apply keepsW_same. Qed.
#[local] Hint Resolve keepsW_run_cont keepsW_connect keepsW_take_waiting : frame.

Lemma keepsW_connectResolve : obeys keepsW connectResolve.
Proof. unfold connectResolve. frameW. Qed.

Lemma keepsW_connectReject c m : obeys keepsW (connectReject c m).
Proof. unfold connectReject. frameW. Qed.
#[local] Hint Resolve keepsW_connectResolve keepsW_connectReject : frame.

Lemma keepsW_sendNow m p k o : obeys keepsW (sendNow m p k o).
Proof. unfold sendNow. frameW. Qed.
#[local] Hint Resolve keepsW_sendNow : frame.

Lemma keepsW_send a r m p k : obeys keepsW (send a r m p k).
Proof. unfold send. frameW. Qed.
#[local] Hint Resolve keepsW_send : frame.

Lemma keepsW_subscribe h t g : obeys keepsW (subscribe h t g).
Proof. unfold subscribe. frameW. Qed.
#[local] Hint Resolve keepsW_subscribe : frame.

Lemma keepsW_subscribeReferred h : obeys keepsW (subscribeReferred h).
Proof. unfold subscribeReferred. frameW. Qed.
#[local] Hint Resolve keepsW_subscribeReferred : frame.

Lemma keepsW_unsubscribe h : obeys keepsW (unsubscribe h).
Proof. unfold unsubscribe. frameW. Qed.
#[local] Hint Resolve keepsW_unsubscribe : frame.

Lemma keepsW_receive msg : obeys keepsW (receive msg).
Proof.
  unfold receive, handleErrorResponse, handleSuccessResponse, resolve_request.
  frameW.
Qed.

Lemma keepsW_subscribeToStale r : obeys keepsW (subscribeToStale r).
Proof. unfold subscribeToStale. frameW. Qed.
#[local] Hint Resolve keepsW_receive keepsW_subscribeToStale : frame.

Lemma keepsW_handler i : obeys keepsW (handler i).
Proof.
  destruct i; cbn [handler];
    unfold get, call, authenticate, create, resourceOn, resourceOff,
      removeDirect, disconnect, handleOnopen, onConnectDone, close_socket, handleOnerror,
      handleOnclose, reconnectTimer, subscribeToAllStale;
    frameW.
Qed.

Lemma keepsW_run_task t : obeys keepsW (run_task t).
Proof. unfold run_task. frameW. Qed.

Lemma keepsW_run_tasks ts : forall s, keepsW s (run_tasks ts s).
Proof.
  induction ts as [|t ts IH]; intros s; simpl.
  - now intros H.
  - intros H. apply IH. now apply keepsW_run_task.
Qed.

Lemma keepsW_drain s : keepsW s (drain s).
Proof.
  assert (D : forall t, keepsW t (drain_once t)).
  { intros t H. unfold drain_once. apply keepsW_run_tasks.
    revert H. now apply keepsW_same. }
  intros H. unfold drain. now apply D, D, D.
Qed.

Lemma W_newClient : W newClient.
Proof. repeat split; simpl; try constructor. intros x []. Qed.

(** Every state a session reaches has distinct keys and identities. *)
Theorem W_run ins : W (run ins newClient).
Proof.
  unfold run. generalize W_newClient. generalize newClient.
  induction ins as [|i ins IH]; intros s H; simpl; auto.
  apply IH. unfold turn. apply keepsW_drain. now apply keepsW_handler.
Qed.

Corollary wf_ids_run ins : wf_ids (run ins newClient).
Proof. exact (proj1 (proj2 (W_run ins))). Qed.

Lemma W_fresh s : W s ->
  find_id (nextId s) (cache s) = None /\ find_id (nextId s) (detached s) = None.
Proof.
  intros (_ & _ & W3).
  assert (F : forall l, (forall x, In x l -> In x (cache s ++ detached s)) ->
                        find_id (nextId s) l = None).
  { intros l Hl. unfold find_id.
    destruct (find (fun x => Nat.eqb (ci_id x) (nextId s)) l) as [x|] eqn:E; auto.
    apply find_some in E. destruct E as (I & E).
    apply Nat.eqb_eq in E. specialize (W3 x (Hl x I)). lia. }
  split; apply F; intros x I; apply in_or_app; auto.
Qed.


(* ================================================================== *)
(** ** The reaction queue is empty between turns *)

Definition still (s s' : Client) : Prop := micro s' = micro s.

Lemma still_inert : inert still.
Proof.
  split; try (intros; reflexivity).
  split; unfold still; congruence.
Qed.
#[local] Hint Resolve still_inert : frame.

Definition is_cont (t : microtask) : bool :=
  match t with MtCont _ _ => true | _ => false end.

(** The queue grows by reactions to settled request promises only. *)
Definition conts (s s' : Client) : Prop :=
  exists extra, micro s' = micro s ++ extra /\ forallb is_cont extra = true.

Lemma conts_po : preorder conts.
Proof.
  split.
  - intros s. exists []. now rewrite app_nil_r.
  - intros a b c (x1 & E1 & F1) (x2 & E2 & F2). exists (x1 ++ x2).
    rewrite E2, E1, app_assoc, forallb_app, F1, F2. auto.
Qed.

Lemma still_conts s s' : still s s' -> conts s s'.
Proof. intros E. exists []. now rewrite app_nil_r. Qed.

Lemma conts_sendNow m p k o : obeys conts (sendNow m p k o).
Proof.
  intros s. unfold sendNow, bind, gets, modify, settle, enqueue, ret.
  cbn [ws set_reqId set_requests reqId requests state_of].
  destruct (ws s); [|destruct o].
  - exists []. simpl. now rewrite app_nil_r.
  - eexists. simpl. split; reflexivity.
  - eexists. simpl. split; reflexivity.
Qed.

Lemma conts_run_task t : obeys conts (run_task t).
Proof.
  destruct t as [k o|w|w c m]; cbn [run_task].
  - apply (obeys_weaken still conts); [exact still_conts|].
    apply inert_run_cont, still_inert.
  - apply obeys_bind; [exact conts_po|apply conts_sendNow|].
    intros a. apply obeys_ret, conts_po.
  - intros s. unfold bind, settle, modify, enqueue. cbn [state_of].
    eexists. simpl. split; reflexivity.
Qed.

Lemma conts_run_tasks ts : forall s, conts s (run_tasks ts s).
Proof.
  induction ts as [|t ts IH]; intros s; simpl.
  - apply (po_refl _ conts_po).
  - eapply (po_trans _ conts_po); [apply conts_run_task|apply IH].
Qed.

Lemma still_run_tasks ts : forall s,
  forallb is_cont ts = true -> still s (run_tasks ts s).
Proof.
  induction ts as [|t ts IH]; intros s F; simpl in *.
  - reflexivity.
  - apply andb_true_iff in F. destruct F as (F1 & F2).
    destruct t as [k o|w|w c m]; try discriminate.
    unfold still. rewrite (IH _ F2).
    apply (inert_run_cont still still_inert k o s).
Qed.

(** Three rounds run every reaction a handler queued and every reaction
    those queue in turn. *)
Theorem drain_quiescent s : micro (drain s) = [].
Proof.
  unfold drain.
  set (s1 := drain_once s).
  assert (C1 : forallb is_cont (micro s1) = true).
  { unfold s1, drain_once.
    destruct (conts_run_tasks (micro s) (set_micro [] s)) as (x & E & F).
    rewrite E. exact F. }
  set (s2 := drain_once s1).
  assert (C2 : micro s2 = []).
  { unfold s2, drain_once.
    rewrite (still_run_tasks (micro s1) (set_micro [] s1) C1). reflexivity. }
  unfold drain_once. rewrite C2. reflexivity.
Qed.

Corollary micro_run ins : micro (run ins newClient) = [].
Proof.
  unfold run. rewrite <- fold_left_rev_right.
  destruct (rev ins) as [|i l]; simpl; [reflexivity|].
  unfold turn. apply drain_quiescent.
Qed.

(** In a reachable state the next request id is unused. *)
Lemma reqId_fresh ins :
  req_get (reqId (run ins newClient)) (requests (run ins newClient)) = None.
Proof.
  destruct (J_run ins newClient J_newClient) as (_ & _ & J3 & _).
  apply req_get_None. intros I. apply J3 in I. lia.
Qed.


(* ================================================================== *)
(** ** Inbound frames in a session *)

Lemma turn_idle i s s' :
  handler i s = Ok tt s' -> micro s' = [] -> turn i s = s'.
Proof.
  intros H M. unfold turn. rewrite H. cbn [state_of]. now apply drain_idle.
Qed.

(** C10. In every state a session reaches: a [change] event addressed to
    a cached resource whose type is not model, and an [add] or [remove]
    event addressed to a cached resource whose type is not collection,
    is emitted on the event bus under [namespace.resource.rid.event]
    with the payload as received, and the turn changes nothing else: the
    cache, the stale set and the request table are as before. *)
Theorem foreign_event_passes_through ins r name data ci :
  let s := run ins newClient in
  let raw := EBus (item_oid ci)
                  (namespace s ++ ".resource." ++ r ++ "." ++ name) (BRaw data) in
  cache_get (cache s) r = Some ci ->
  (name = "change" /\ type ci <> Some typeModel)
  \/ ((name = "add" \/ name = "remove") /\ type ci <> Some typeCollection) ->
  handleEvent (r ++ "." ++ name) data s = Ok tt (emit raw s)
  /\ turn (IMessage (MEvent (r ++ "." ++ name) data)) s = emit raw s
  /\ cache (turn (IMessage (MEvent (r ++ "." ++ name) data)) s) = cache s.
Proof.
  intros s raw C H.
  assert (E : handleEvent (r ++ "." ++ name) data s = Ok tt (emit raw s)).
  { apply foreign_event_at; auto. apply wf_ids_run. }
  assert (T : turn (IMessage (MEvent (r ++ "." ++ name) data)) s = emit raw s).
  { apply turn_idle; [exact E|]. apply micro_run. }
  split; [exact E|]. split; [exact T|]. now rewrite T.
Qed.

Lemma foreign_event_passes_through_witness :
  let s := run two_refs_session newClient in
  let raw := EBus (Some 5%nat)
                  (namespace s ++ ".resource." ++ "X" ++ "." ++ "add") (BRaw None) in
  handleEvent ("X" ++ "." ++ "add") None s = Ok tt (emit raw s)
  /\ turn (IMessage (MEvent ("X" ++ "." ++ "add") None)) s = emit raw s
  /\ cache (turn (IMessage (MEvent ("X" ++ "." ++ "add") None)) s) = cache s.
Proof.
  refine (foreign_event_passes_through two_refs_session "X" "add" None
            (mkCI 4 "X" (Some typeModel) (Some (mkResobj 5 (CModel []))) 0 2 false None)
            _ _).
  - reflexivity.
  - right. split; [now left | discriminate].
Defined.

(** C7 (amended). In every state a session reaches, in the turn that
    handles an inbound frame: a response whose id matches no stored
    request throws; an event whose name has no ['.'], or ends in one,
    throws; a change event addressed to a cached model, with a value
    that is an object but neither a reference nor the delete action,
    throws.  A resource that arrives under a type other than the one its
    cached item has does not throw: [_createItems] logs
    [Resource type inconsistency] on the console, takes the RID out of
    the stale set, and drops the resource from the bundle. *)
Theorem protocol_violations ins :
  let s := run ins newClient in
  (forall id e res,
      req_get id (requests s) = None ->
      throws (IMessage (MResponse id e res)) s = Some no_matching_request)
  /\ (forall ev d,
        lastIndexOf "."%char ev = None
        \/ lastIndexOf "."%char ev = Some (String.length ev - 1)%nat ->
        throws (IMessage (MEvent ev d)) s = Some (malformed_event ++ ev)%string)
  /\ (forall r ci d vals k m,
        cache_get (cache s) r = Some ci ->
        type ci = Some typeModel ->
        d_values d = Some vals ->
        In (k, WObj m) vals ->
        wire_is_delete (WObj m) = false ->
        wire_ref (WObj m) = None ->
        throws (IMessage (MEvent (r ++ "." ++ "change") (Some d))) s <> None)
  /\ (forall t r d ci,
        cache_get (cache s) r = Some ci ->
        item ci <> None ->
        type ci <> Some t ->
        createItems t [(r, d)] s
        = Ok ([], []) (emit (EConsoleError type_inconsistency) (removeStale r s))).
Proof.
  intros s. destruct (protocol_violations_at s) as (A & B & C & D).
  split; [exact A|]. split; [exact B|]. split; [|exact D].
  intros r ci d vals k m. apply C. apply wf_ids_run.
Qed.

Lemma protocol_violations_witness :
  let s := run two_refs_session newClient in
  throws (IMessage (MResponse 7 None None)) s = Some no_matching_request
  /\ throws (IMessage (MEvent "nodot" None)) s
     = Some (malformed_event ++ "nodot")%string
  /\ throws (IMessage (MEvent ("M" ++ "." ++ "change")
                              (Some (chg [("a", WObj [("x", PNum 1)])]))))
            s <> None
  /\ createItems typeCollection [("X", RDCollection [])] s
     = Ok ([], []) (emit (EConsoleError type_inconsistency) (removeStale "X" s)).
Proof.
  destruct (protocol_violations two_refs_session) as (A & B & C & D).
  split; [|split; [|split]].
  - apply A. reflexivity.
  - apply B. left. reflexivity.
  - apply (C "M"
             (mkCI 1 "M" (Some typeModel)
                   (Some (mkResobj 3 (CModel [("a", VRes 5 "X"); ("b", VRes 5 "X")])))
                   0 0 true None)
             (chg [("a", WObj [("x", PNum 1)])])
             [("a", WObj [("x", PNum 1)])] "a" [("x", PNum 1)]).
    + reflexivity.
    + reflexivity.
    + reflexivity.
    + now left.
    + reflexivity.
    + reflexivity.
  - apply (D typeCollection "X" (RDCollection [])
             (mkCI 4 "X" (Some typeModel) (Some (mkResobj 5 (CModel []))) 0 2 false None)).
    + reflexivity.
    + discriminate.
    + discriminate.
Defined.




(* ================================================================== *)
(** ** A request made before the connection is open *)

Section QueuedSend.
Variables (s : Client) (r m : string) (p : option Data).
Hypothesis Hconn : connected s = false.
Hypothesis Hcp : connectPromise s = None.
Hypothesis Hwait : waiting s = [].
Hypothesis Hstale : stale s = None.
Hypothesis Hmicro : micro s = [].
Hypothesis Hr : r <> ""%string.
Hypothesis Hm : m <> ""%string.

Definition queued_name : string := ("call." ++ r ++ "." ++ m)%string.

  (** The state [call(r, m, p)] leaves: a connection is started and
      the request waits for it. *)
Definition s_queued : Client :=
    mkClient (namespace s) true false true (requests s) (reqId s)
      (cache s) (detached s) None (Some (nextId s)) (Some (nextId s))
      [mkPending (nextId s) r queued_name p (S (nextId s)) KNone] []
      (S (S (nextId s))) (trace s ++ [EWsNew]).

Lemma call_disconnected :
    call r (Some m) p s = Ok (PSend (S (nextId s))) s_queued.
  Proof.
    unfold s_queued, queued_name.
    destruct s as [ns tc cn w0 rq rid0 c dt stl cp cc wt mi nx tr].
    state_cbn_all. subst cn cp wt stl mi.
    assert (Er : String.eqb r "" = false) by now apply String.eqb_neq.
    unfold call. destruct m as [|a m']; [congruence|].
    unfold send. rewrite Er.
    unfold bind, gets, connect, bind, gets, modify, alloc, fresh, ret. state_cbn.
    unfold connect_pending. state_cbn. rewrite Nat.eqb_refl. reflexivity.
  Qed.

Lemma turn_call_disconnected : turn (ICall r (Some m) p) s = s_queued.
  Proof.
    unfold turn. cbn [handler]. unfold bind at 1. rewrite call_disconnected.
    cbn [ret state_of]. apply drain_idle. reflexivity.
  Qed.

  (** The socket opens and [onConnect] completes. *)
Definition s_flushed : Client :=
    mkClient (namespace s) true true true
      (requests s
       ++ [(reqId s, mkRequest queued_name p false KNone (Some (S (nextId s))))])
      (reqId s + 1) (cache s) (detached s) None (Some (nextId s)) None
      [] [] (S (S (nextId s)))
      (trace s ++ [EWsNew; EClient "connect" None;
                   ESettle (PConnect (nextId s)) (Resolved PVUnit);
                   ESend (reqId s) queued_name p]).

Lemma turn_connected :
    turn (IOnConnectDone true) (turn IOpen s_queued) = s_flushed.
  Proof.
    unfold s_flushed, s_queued, queued_name.
    destruct s as [ns tc cn w0 rq rid0 c dt stl cp cc wt mi nx tr].
    state_cbn_all. subst cn cp wt stl mi.
    unfold turn at 2. cbn [handler handleOnopen modify state_of].
    rewrite drain_idle by reflexivity. state_norm.
    unfold turn. cbn [handler onConnectDone].
    unfold try_catch, bind, subscribeToAllStale, bind, gets, modify, connectResolve,
      bind, gets, settle, modify, ret.
    state_norm. unfold take_waiting. state_norm.
    cbv beta iota delta [filter pn_on]. rewrite (Nat.eqb_refl nx). cbn [negb forEach].
    unfold bind, enqueue, modify, ret. state_norm. cbn [state_of].
    unfold drain. unfold drain_once at 3. state_norm.
    cbn [app run_tasks run_task pn_method pn_params pn_then pn_promise].
    unfold bind, sendNow, bind, gets, modify, ret. state_norm. cbn [state_of].
    unfold drain_once. state_norm. cbn [run_tasks]. state_norm.
    rewrite <- !app_assoc. reflexivity.
  Qed.

  (** The reply to the request that was flushed. *)
Lemma turn_flushed_result res :
    req_get (reqId s) (requests s) = None ->
    trace (turn (IMessage (MResponse (reqId s) None res)) s_flushed)
    = trace s_flushed ++ [ESettle (PReq (reqId s)) (Resolved (PVData res));
                          ESettle (PSend (S (nextId s))) (Resolved (PVData res))].
  Proof.
    intros Hreq. unfold turn, s_flushed.
    destruct s as [ns tc cn w0 rq rid0 c dt stl cp cc wt mi nx tr].
    state_cbn_all. subst cn cp wt stl mi.
    cbn [handler receive]. unfold bind, gets. state_cbn.
    rewrite req_get_app, Hreq. cbn [req_get]. rewrite Z.eqb_refl.
    unfold modify. state_cbn. rewrite req_del_last by exact Hreq.
    unfold handleSuccessResponse, resolve_request.
    cbn [rq_settled rq_method rq_params rq_outer rq_then].
    unfold bind, settle, modify, enqueue, ret, modify. state_cbn.
    cbn [state_of]. unfold drain. unfold drain_once at 3.
    cbn [app]. state_norm. cbn [run_tasks run_task run_cont]. unfold ret.
    cbn [state_of]. unfold drain_once. state_norm. cbn [run_tasks]. state_norm.
    rewrite <- !app_assoc. reflexivity.
  Qed.

  (** The connection fails instead. *)
Definition connection_error (rid method : string) (params : option Data) : ResErr :=
    mkResErr rid method params "system.connectionError" "Connection error".

Definition s_refused : Client :=
    mkClient (namespace s) true false false (requests s) (reqId s)
      (cache s) (detached s) None None None [] [] (S (S (nextId s)))
      (trace s ++ [EWsNew;
                   ESettle (PConnect (nextId s))
                           (Rejected (PEErr (connection_error "" "" None)));
                   ESettle (PSend (S (nextId s)))
                           (Rejected (PEErr (connection_error r queued_name p)))]).

Lemma turn_refused : turn IError s_queued = s_refused.
  Proof.
    unfold s_refused, s_queued, queued_name, connection_error.
    destruct s as [ns tc cn w0 rq rid0 c dt stl cp cc wt mi nx tr].
    state_cbn_all. subst cn cp wt stl mi.
    unfold turn. cbn [handler].
    unfold handleOnerror, connectReject, bind, gets, settle, modify, ret.
    state_norm. unfold take_waiting. state_norm.
    cbv beta iota delta [filter pn_on]. rewrite (Nat.eqb_refl nx). cbn [negb forEach].
    unfold bind, enqueue, modify, ret. state_norm. cbn [state_of].
    unfold drain. unfold drain_once at 3. state_norm.
    cbn [app run_tasks run_task pn_method pn_params pn_then pn_promise pn_rid].
    unfold bind, settle, enqueue, modify, ret. state_norm. cbn [state_of].
    unfold drain_once at 2. state_norm.
    cbn [app run_tasks run_task run_cont]. unfold ret. cbn [state_of].
    unfold drain_once. state_norm. cbn [run_tasks]. state_norm.
    rewrite <- !app_assoc. reflexivity.
  Qed.
End QueuedSend.

(** A request made while the client is disconnected (no connection
    attempt under way, nothing stale) opens a socket and sends nothing
    yet.  Once the socket has opened and [onConnect] is done, the
    request goes out under the next request id, and the reply to that id
    resolves the promise [call] returned.  If the socket reports an error
    instead, nothing is sent and that promise is rejected with a
    [ResError] carrying the resource id, the full method name, the
    parameters and the code [system.connectionError]. *)
Theorem call_waits_for_the_connection s r m p res :
  connected s = false -> connectPromise s = None -> waiting s = [] ->
  stale s = None -> micro s = [] ->
  r <> ""%string -> m <> ""%string ->
  req_get (reqId s) (requests s) = None ->
  let name := ("call." ++ r ++ "." ++ m)%string in
  let s1 := turn (ICall r (Some m) p) s in
  let s2 := run [IOpen; IOnConnectDone true] s1 in
  let s3 := turn (IMessage (MResponse (reqId s) None res)) s2 in
  let s4 := turn IError s1 in
  call r (Some m) p s = Ok (PSend (S (nextId s))) s1
  /\ trace s1 = trace s ++ [EWsNew]
  /\ trace s2 = trace s1 ++ [EClient "connect" None;
                             ESettle (PConnect (nextId s)) (Resolved PVUnit);
                             ESend (reqId s) name p]
  /\ trace s3 = trace s2 ++ [ESettle (PReq (reqId s)) (Resolved (PVData res));
                             ESettle (PSend (S (nextId s))) (Resolved (PVData res))]
  /\ trace s4 = trace s1 ++ [ESettle (PConnect (nextId s))
                               (Rejected (PEErr (connection_error "" "" None)));
                             ESettle (PSend (S (nextId s)))
                               (Rejected (PEErr (connection_error r name p)))]
  /\ requests s4 = requests s /\ ws s4 = false.
Proof.
  intros Hc Hcp Hw Hst Hmi Hr Hm Hreq name s1 s2 s3 s4.
  assert (E1 : s1 = s_queued s r m p)
    by (apply turn_call_disconnected; assumption).
  assert (E2 : s2 = s_flushed s r m p).
  { unfold s2, run. cbn [fold_left]. rewrite E1.
    apply turn_connected; assumption. }
  assert (E4 : s4 = s_refused s r m p).
  { unfold s4. rewrite E1. apply turn_refused; assumption. }
  split; [rewrite E1; apply call_disconnected; assumption|].
  split; [rewrite E1; reflexivity|].
  split; [rewrite E2, E1; cbn [trace s_flushed s_queued];
          rewrite <- app_assoc; reflexivity|].
  split; [unfold s3; rewrite E2; apply turn_flushed_result; assumption|].
  split; [rewrite E4, E1; cbn [trace s_refused s_queued];
          rewrite <- app_assoc; reflexivity|].
  rewrite E4. split; reflexivity.
Qed.

Lemma call_waits_for_the_connection_witness :
  let s := newClient in
  let s1 := turn (ICall "svc.math" (Some "add") None) s in
  trace (run [IOpen; IOnConnectDone true] s1)
  = [EWsNew; EClient "connect" None; ESettle (PConnect (nextId s)) (Resolved PVUnit);
     ESend (reqId s) "call.svc.math.add" None]
  /\ requests (turn IError s1) = [].
Proof.
  pose proof (call_waits_for_the_connection newClient "svc.math" "add" None None) as H.
  cbv zeta in H.
  destruct H as (_ & T1 & T2 & _ & _ & R & _);
    [reflexivity | reflexivity | reflexivity | reflexivity | reflexivity
    | discriminate | discriminate | reflexivity |].
  cbv zeta. split.
  - rewrite T2, T1. reflexivity.
  - exact R.
Defined.


(* ================================================================== *)
(** ** [disconnect()] while a request waits for the connection *)

Section DisconnectWaiting.
Variables (s : Client) (r m : string) (p : option Data).
Hypothesis Hconn : connected s = false.
Hypothesis Hcp : connectPromise s = None.
Hypothesis Hwait : waiting s = [].
Hypothesis Hstale : stale s = None.
Hypothesis Hmicro : micro s = [].
Hypothesis Hr : r <> ""%string.
Hypothesis Hm : m <> ""%string.

Definition disconnect_error (rid method : string) (params : option Data) : ResErr :=
    mkResErr rid method params "system.disconnect" "Disconnect called".

Definition s_disconnected : Client :=
    mkClient (namespace s) false false false (requests s) (reqId s)
      (cache s) (detached s) None None None [] [] (S (S (nextId s)))
      (trace s ++ [EWsNew; EWsClose;
                   ESettle (PConnect (nextId s))
                           (Rejected (PEErr (disconnect_error "" "" None)));
                   ESettle (PSend (S (nextId s)))
                           (Rejected (PEErr (disconnect_error r (queued_name r m) p)))]).

Lemma turn_disconnect_waiting : turn IDisconnect (s_queued s r m p) = s_disconnected.
  Proof.
    unfold s_disconnected, s_queued, queued_name, disconnect_error.
    destruct s as [ns tc cn w0 rq rid0 c dt stl cp cc wt mi nx tr].
    state_cbn_all. subst cn cp wt stl mi.
    unfold turn. cbn [handler].
    unfold disconnect, bind, gets, modify. state_norm.
    unfold connectReject, bind, gets, settle, modify, ret.
    state_norm. unfold take_waiting. state_norm.
    cbv beta iota delta [filter pn_on]. rewrite (Nat.eqb_refl nx). cbn [negb forEach].
    unfold bind, enqueue, modify, ret. state_norm. cbn [state_of].
    unfold drain. unfold drain_once at 3. state_norm.
    cbn [app run_tasks run_task pn_method pn_params pn_then pn_promise pn_rid].
    unfold bind, settle, enqueue, modify, ret. state_norm. cbn [state_of].
    unfold drain_once at 2. state_norm.
    cbn [app run_tasks run_task run_cont]. unfold ret. cbn [state_of].
    unfold drain_once. state_norm. cbn [run_tasks]. state_norm.
    rewrite <- !app_assoc. reflexivity.
  Qed.
End DisconnectWaiting.

(** [disconnect()] while a request waits for the connection.  For a
    client that is disconnected, with no connection attempt under way
    and nothing stale: when [call(r, m, p)] has started a connection and
    [disconnect()] is called before the socket opens, the socket is
    closed, the connect promise and then the promise [call] returned are
    rejected with the code [system.disconnect], the latter with a
    [ResError] that carries the rid, the full method name and the
    parameters; nothing is written to a socket, no request is left
    waiting, and [tryConnect] is off. *)
Theorem disconnect_rejects_waiting_request s r m p :
  connected s = false -> connectPromise s = None -> waiting s = [] ->
  stale s = None -> micro s = [] ->
  r <> ""%string -> m <> ""%string ->
  let name := ("call." ++ r ++ "." ++ m)%string in
  let s1 := turn (ICall r (Some m) p) s in
  let s2 := turn IDisconnect s1 in
  trace s2 = trace s1 ++ [EWsClose;
                          ESettle (PConnect (nextId s))
                            (Rejected (PEErr (disconnect_error "" "" None)));
                          ESettle (PSend (S (nextId s)))
                            (Rejected (PEErr (disconnect_error r name p)))]
  /\ waiting s2 = [] /\ requests s2 = requests s
  /\ tryConnect s2 = false /\ ws s2 = false /\ connectPromise s2 = None.
Proof.
  intros Hc Hcp Hw Hst Hmi Hr Hm name s1 s2.
  assert (E1 : s1 = s_queued s r m p)
    by (apply turn_call_disconnected; assumption).
  assert (E2 : s2 = s_disconnected s r m p).
  { unfold s2. rewrite E1. apply turn_disconnect_waiting; assumption. }
  rewrite E2, E1. unfold s_disconnected, s_queued, queued_name.
  cbn [trace waiting requests tryConnect ws connectPromise].
  split; [now rewrite <- app_assoc|]. repeat split.
Qed.

Lemma disconnect_rejects_waiting_request_witness :
  let s1 := turn (ICall "svc.math" (Some "add") None) newClient in
  let s2 := turn IDisconnect s1 in
  waiting s2 = [] /\ tryConnect s2 = false.
Proof.
  pose proof (disconnect_rejects_waiting_request newClient "svc.math" "add" None) as H.
  cbv zeta in H.
  destruct H as (_ & W2 & _ & T2 & _);
    [reflexivity | reflexivity | reflexivity | reflexivity | reflexivity
    | discriminate | discriminate |].
  cbv zeta. split; [exact W2|exact T2].
Defined.


(* ================================================================== *)
(** ** A subscription that succeeds *)

Lemma prepareModel_scalars props s :
  prepareModel (scalar_props props) s = Ok (scalar_values props) s.
Proof.
  induction props as [|[k p] props IH]; cbn [scalar_props scalar_values map prepareModel];
    [reflexivity|].
  unfold bind. cbn [fst snd prepareValue wire_ref wire_plain ret].
  fold (scalar_props props). rewrite IH. reflexivity.
Qed.

Lemma del_idem {V} k (o : Obj.t V) : Obj.del k (Obj.del k o) = Obj.del k o.
Proof.
  induction o as [|[a v] o IH]; cbn; auto.
  destruct (String.eqb a k) eqn:E; cbn; rewrite ?E, IH; reflexivity.
Qed.

(** Taking a rid out of the stale set a second time changes nothing. *)
Lemma removeStale_again r x s0 :
  stale x = stale (removeStale r s0) ->
  removeStale r x = set_stale (stale (removeStale r s0)) x.
Proof.
  intros E. rewrite (removeStale_fields r x). f_equal.
  rewrite (stale_removeStale_ext r x (removeStale r s0) E).
  unfold removeStale. destruct (stale s0) as [o|] eqn:E0; [|now rewrite E0].
  destruct (Obj.del r o) as [|e o'] eqn:D; cbn [stale set_stale]; auto.
  rewrite <- D, del_idem, D. reflexivity.
Qed.

Section GetSucceeds.
Variables (s : Client) (r : string) (props : Obj.t prim).
Hypothesis Hconn : connected s = true.
Hypothesis Hws : ws s = true.
Hypothesis Hmicro : micro s = [].
Hypothesis Hr : r <> ""%string.
Hypothesis Hc : cache_get (cache s) r = None.
Hypothesis Hreq : req_get (reqId s) (requests s) = None.
Hypothesis Hid1 : find_id (nextId s) (cache s) = None.
Hypothesis Hid2 : find_id (nextId s) (detached s) = None.

  (** The bundle of the reply: the model [r] alone. *)
Definition model_reply : Data := mdl [(r, scalar_props props)].

  (** The state after the reply and the reactions to it. *)
Definition s_got : Client :=
    mkClient (namespace s) (tryConnect s) true true (requests s) (reqId s + 1)
      (cache s
       ++ [mkCI (nextId s) r (Some typeModel)
                (Some (mkResobj (S (S (nextId s))) (CModel (scalar_values props))))
                0 0 true None])
      (detached s) (stale (removeStale r s)) (connectPromise s)
      (connectCallback s) (waiting s) [] (S (S (S (nextId s))))
      (trace s
       ++ [ESend (reqId s) ("subscribe." ++ r) None;
           ESettle (PReq (reqId s)) (Resolved (PVData (Some model_reply)));
           ESettle (PGet (S (nextId s)))
                   (Resolved (PVItem (Some (S (S (nextId s))))))]).

Lemma turn_model_reply :
    turn (IMessage (MResponse (reqId s) None (Some model_reply))) (s_sent s r) = s_got.
  Proof.
    unfold turn, s_got, s_sent, model_reply.
    destruct s as [ns tc cn w0 rq rid0 c dt stl cp cc wt mi nx tr].
    state_cbn_all. subst cn w0 mi.
    cbn [handler receive]. unfold bind, gets. state_cbn.
    rewrite req_get_app, Hreq. cbn [req_get]. rewrite Z.eqb_refl.
    unfold modify. state_cbn. rewrite req_del_last by exact Hreq.
    unfold handleSuccessResponse, resolve_request.
    cbn [rq_settled rq_method rq_params rq_outer rq_then].
    unfold bind, settle, modify, enqueue, ret, modify. state_cbn.
    cbn [state_of]. unfold drain. unfold drain_once at 3.
    cbn [app]. state_norm.
    cbn [run_tasks run_task run_cont].
    unfold try_catch, bind, cacheResources, bind, create_phase.
    cbn [bundle mdl d_models d_collections d_errors option_map map fst snd].
    cbn [createItems]. unfold bind, gets. state_norm.
    rewrite cache_get_app, Hc. cbn [cache_get rid]. rewrite String.eqb_refl.
    unfold modify, ret. cbn [item].
    match goal with
    | |- context [removeStale r ?x] =>
        rewrite (removeStale_again r x
                   (mkClient ns tc true true rq rid0 c dt stl cp cc wt [] nx tr))
          by reflexivity
    end.
    unfold alloc, fresh, bind, modify, ret. state_norm.
    rewrite cache_alter_app, cache_alter_absent by exact Hc.
    cbn [cache_alter map rid]. rewrite String.eqb_refl.
    cbn [app fst snd]. unfold initItems. cbn [forEach]. unfold bind, cached.
    state_norm. cbn [fst snd].
    rewrite cache_get_app, Hc. cbn [cache_get rid setItem]. rewrite String.eqb_refl.
    cbn [item setItem prepareData]. unfold bind. cbv beta.
    rewrite prepareModel_scalars.
    unfold ret, modify. state_norm.
    rewrite cache_alter_app, cache_alter_absent by exact Hc.
    cbn [cache_alter map rid]. rewrite String.eqb_refl.
    cbn [setBody item oid ci_id rid type direct indirect subscribed promise].
    cbn [syncItems forEach]. unfold ret.
    unfold the_obj, deref. state_norm.
    rewrite (find_id_app nx c _ Hid1). cbn [ci_id]. rewrite Nat.eqb_refl.
    unfold settle, modify. cbn [item_oid item oid state_of].
    unfold drain_once. state_norm. cbn [run_tasks]. state_norm.
    rewrite <- !app_assoc. reflexivity.
  Qed.

  (** What [get] returns for an uncached rid. *)
Lemma get_uncached : get r s = Ok (GetPromise (S (nextId s))) (s_sent s r).
  Proof.
    unfold s_sent.
    destruct s as [ns tc cn w0 rq rid0 c dt stl cp cc wt mi nx tr].
    state_cbn_all. subst cn w0 mi.
    unfold get, bind, gets. state_cbn. rewrite Hc.
    unfold alloc, fresh, modify. state_cbn.
    rewrite (cache_put_absent (newCacheItem nx r)) by exact Hc.
    unfold subscribe, bind, the_obj, deref. state_cbn.
    rewrite (find_id_app nx c _ Hid1). cbn [ci_id newCacheItem].
    rewrite Nat.eqb_refl.
    unfold modify, alter_obj. state_cbn.
    rewrite !alter_id_app, !alter_id_absent by assumption.
    cbn [alter_id map ci_id]. rewrite Nat.eqb_refl.
    cbn [rid newCacheItem setSubscribed ci_id type item direct indirect
         subscribed promise].
    assert (Er : String.eqb r "" = false) by now apply String.eqb_neq.
    unfold send. rewrite Er. unfold bind, gets, sendNow, bind, gets, modify, ret.
    destruct stl as [o|]; [destruct (Obj.del r o) eqn:D|];
      unfold removeStale; state_cbn; rewrite ?D; state_cbn;
      rewrite !alter_id_app, !alter_id_absent by assumption;
      cbn [alter_id map ci_id setSubscribed newCacheItem];
      rewrite Nat.eqb_refl, append_empty_r; reflexivity.
  Qed.

  (** [get] again while the subscription is outstanding, and after the
      model has arrived. *)
Lemma get_pending : get r (s_sent s r) = Ok (GetPromise (S (nextId s))) (s_sent s r).
  Proof.
    unfold get, bind, gets. unfold s_sent at 1. cbn [cache].
    rewrite cache_get_app, Hc. cbn [cache_get rid]. rewrite String.eqb_refl.
    reflexivity.
  Qed.

Lemma get_cached : get r s_got = Ok (GetNow (Some (S (S (nextId s))))) s_got.
  Proof.
    unfold get, bind, gets. unfold s_got at 1. cbn [cache].
    rewrite cache_get_app, Hc. cbn [cache_get rid]. rewrite String.eqb_refl.
    reflexivity.
  Qed.
End GetSucceeds.

(** [get(r)] answered with a model.  In every state a session reaches
    with the connection open, for an rid for which [this.cache[rid]] is
    falsy (nothing is cached under it and it names no member of
    [Object.prototype]): when the subscribe request of [get(r)] is
    answered with the model [r], of scalar properties, the item of [r]
    is in the cache, subscribed, typed as a model, holding the
    properties of the reply, with no promise left; the request leaves
    the table and its promise and then the promise [get] returned are
    resolved, once each, the second with the new model. *)
Theorem get_resolves_with_the_model ins r props :
  let s := run ins newClient in
  connected s = true -> ws s = true -> r <> ""%string ->
  cache_has (cache s) r = false ->
  let s1 := turn (IGet r) s in
  let d := mdl [(r, scalar_props props)] in
  let s2 := turn (IMessage (MResponse (reqId s) None (Some d))) s1 in
  let o := S (S (nextId s)) in
  cache s2
  = cache s ++ [mkCI (nextId s) r (Some typeModel)
                     (Some (mkResobj o (CModel (scalar_values props))))
                     0 0 true None]
  /\ trace s2 = trace s1 ++ [ESettle (PReq (reqId s)) (Resolved (PVData (Some d)));
                             ESettle (PGet (S (nextId s)))
                                     (Resolved (PVItem (Some o)))]
  /\ requests s2 = requests s.
Proof.
  intros s Hconn Hws Hr Hc s1 d s2 o. apply cache_has_uncached in Hc.
  destruct (W_fresh s (W_run ins)) as (F1 & F2).
  pose proof (micro_run ins) as Mi. pose proof (reqId_fresh ins) as Rq.
  fold s in Mi, Rq.
  assert (E1 : s1 = s_sent s r) by now apply turn_get_uncached.
  assert (E2 : s2 = s_got s r props).
  { unfold s2, d. rewrite E1. now apply turn_model_reply. }
  rewrite E2, E1. unfold s_got, s_sent, model_reply. state_cbn.
  split; [reflexivity|]. split; [|reflexivity].
  now rewrite <- app_assoc.
Qed.

Lemma get_resolves_with_the_model_witness :
  let s := run connect_session newClient in
  let props := [("name", PStr "Ada"); ("age", PNum 36)] in
  let s1 := turn (IGet "user.1") s in
  let d := mdl [("user.1", scalar_props props)] in
  let s2 := turn (IMessage (MResponse (reqId s) None (Some d))) s1 in
  let o := S (S (nextId s)) in
  cache s2
  = cache s ++ [mkCI (nextId s) "user.1" (Some typeModel)
                     (Some (mkResobj o (CModel (scalar_values props))))
                     0 0 true None]
  /\ trace s2 = trace s1 ++ [ESettle (PReq (reqId s)) (Resolved (PVData (Some d)));
                             ESettle (PGet (S (nextId s)))
                                     (Resolved (PVItem (Some o)))]
  /\ requests s2 = requests s.
Proof.
  apply (get_resolves_with_the_model connect_session "user.1"
           [("name", PStr "Ada"); ("age", PNum 36)]); try reflexivity.
  discriminate.
Defined.

(** One subscription however often [get] is called.  In every state a
    session reaches with the connection open, for an rid for which
    [this.cache[rid]] is falsy (nothing is cached under it and it names
    no member of [Object.prototype]): [get(r)] caches an item and
    returns a new promise; [get(r)] again before the reply returns that
    same promise and changes nothing, so no second request is sent;
    [get(r)] after the model has arrived returns a promise resolved with
    the cached model and changes nothing. *)
Theorem get_again_shares_the_subscription ins r props :
  let s := run ins newClient in
  connected s = true -> ws s = true -> r <> ""%string ->
  cache_has (cache s) r = false ->
  let s1 := turn (IGet r) s in
  let s2 := turn (IMessage (MResponse (reqId s) None
                              (Some (mdl [(r, scalar_props props)])))) s1 in
  get r s = Ok (GetPromise (S (nextId s))) s1
  /\ get r s1 = Ok (GetPromise (S (nextId s))) s1
  /\ get r s2 = Ok (GetNow (Some (S (S (nextId s))))) s2.
Proof.
  intros s Hconn Hws Hr Hc s1 s2. apply cache_has_uncached in Hc.
  destruct (W_fresh s (W_run ins)) as (F1 & F2).
  pose proof (micro_run ins) as Mi. pose proof (reqId_fresh ins) as Rq.
  fold s in Mi, Rq.
  assert (E1 : s1 = s_sent s r) by now apply turn_get_uncached.
  assert (E2 : s2 = s_got s r props).
  { unfold s2. rewrite E1. now apply turn_model_reply. }
  rewrite E2, E1. split; [now apply get_uncached|].
  split; [now apply get_pending|now apply get_cached].
Qed.

Lemma get_again_shares_the_subscription_witness :
  let s := run connect_session newClient in
  let s1 := turn (IGet "user.1") s in
  let s2 := turn (IMessage (MResponse (reqId s) None
                              (Some (mdl [("user.1", scalar_props [("age", PNum 36)])]))))
                 s1 in
  get "user.1" s = Ok (GetPromise (S (nextId s))) s1
  /\ get "user.1" s1 = Ok (GetPromise (S (nextId s))) s1
  /\ get "user.1" s2 = Ok (GetNow (Some (S (S (nextId s))))) s2.
Proof.
  apply (get_again_shares_the_subscription connect_session "user.1"
           [("age", PNum 36)]); try reflexivity.
  discriminate.
Defined.



(* ================================================================== *)
(** ** The rid an error names *)

Lemma indexOf_from_app_absent ch a b : forall p,
  indexOf_from ch a p = None ->
  indexOf_from ch (a ++ b)%string p = indexOf_from ch b (p + String.length a)%nat.
Proof.
  induction a as [|x a IH]; intros p H; cbn in *.
  - now rewrite Nat.add_0_r.
  - destruct (Ascii.eqb x ch); [discriminate|].
    rewrite (IH _ H). f_equal. lia.
Qed.

Lemma indexOf_dotted a b :
  indexOf "."%char a = None ->
  indexOf "."%char (a ++ "." ++ b)%string = Some (String.length a).
Proof.
  intros H. unfold indexOf in *. rewrite (indexOf_from_app_absent _ _ _ _ H).
  reflexivity.
Qed.

Lemma substr_dotted a b :
  substr_to (String.length a) (a ++ "." ++ b) = a
  /\ substr_from (S (String.length a)) (a ++ "." ++ b)%string = b.
Proof.
  split; [apply substring_prefix|].
  unfold substr_from.
  change (a ++ "." ++ b)%string with (a ++ String "."%char b)%string.
  replace (a ++ String "."%char b)%string with ((a ++ ".") ++ b)%string.
  - replace (S (String.length a)) with (String.length (a ++ ".")%string).
    + apply substring_suffix. rewrite !string_length_append. lia.
    + rewrite string_length_append. simpl. lia.
  - clear. induction a as [|x a IH]; simpl; auto. now rewrite IH.
Qed.

(** The rid [_handleErrorResponse] puts in the error, for the method
    names [_send] builds. *)
Lemma method_rid_of_send action r :
  indexOf "."%char action = None ->
  (forall m, (action = "call" \/ action = "auth")%string ->
             indexOf "."%char m = None ->
             method_rid (action ++ "." ++ r ++ "." ++ m) = trim r)
  /\ (action <> "call"%string -> action <> "auth"%string ->
      method_rid (action ++ "." ++ r) = trim r).
Proof.
  intros H. split.
  - intros m A Hm. unfold method_rid. rewrite (indexOf_dotted _ _ H).
    destruct (substr_dotted action (r ++ "." ++ m)) as (E1 & E2).
    rewrite E1, E2.
    replace (String.eqb action "call" || String.eqb action "auth") with true
      by (destruct A as [-> | ->]; reflexivity).
    rewrite (lastIndexOf_dotted r m Hm).
    now rewrite (proj1 (substr_dotted r m)).
  - intros N1 N2. unfold method_rid. rewrite (indexOf_dotted _ _ H).
    destruct (substr_dotted action r) as (E1 & E2). rewrite E1, E2.
    apply String.eqb_neq in N1, N2. now rewrite N1, N2.
Qed.

(* ================================================================== *)
(** ** A call and its reply *)

Section CallFlow.
Variables (s : Client) (r m : string) (p : option Data).
Hypothesis Hconn : connected s = true.
Hypothesis Hws : ws s = true.
Hypothesis Hmicro : micro s = [].
Hypothesis Hr : r <> ""%string.
Hypothesis Hm : m <> ""%string.
Hypothesis Hreq : req_get (reqId s) (requests s) = None.

Definition call_name : string := ("call." ++ r ++ "." ++ m)%string.

  (** The state [call(r, m, p)] leaves. *)
Definition s_called : Client :=
    mkClient (namespace s) (tryConnect s) true true
      (requests s ++ [(reqId s, mkRequest call_name p false KNone None)])
      (reqId s + 1) (cache s) (detached s) (stale s) (connectPromise s)
      (connectCallback s) (waiting s) [] (nextId s)
      (trace s ++ [ESend (reqId s) call_name p]).

Lemma call_connected : call r (Some m) p s = Ok (PReq (reqId s)) s_called.
  Proof.
    unfold s_called, call_name.
    destruct s as [ns tc cn w0 rq rid0 c dt stl cp cc wt mi nx tr].
    state_cbn_all. subst cn w0 mi.
    assert (Er : String.eqb r "" = false) by now apply String.eqb_neq.
    unfold call. destruct m as [|a m']; [congruence|].
    unfold send. rewrite Er.
    unfold bind, gets, sendNow, bind, gets, modify, ret. state_cbn.
    reflexivity.
  Qed.

Lemma turn_call : turn (ICall r (Some m) p) s = s_called.
  Proof.
    unfold turn. cbn [handler]. unfold bind at 1. rewrite call_connected.
    cbn [ret state_of]. now apply drain_idle.
  Qed.

  (** The state after a reply, without the effects of the reply. *)
Definition s_replied (t : list effect) : Client :=
    mkClient (namespace s) (tryConnect s) true true (requests s)
      (reqId s + 1) (cache s) (detached s) (stale s) (connectPromise s)
      (connectCallback s) (waiting s) [] (nextId s)
      (trace s ++ ESend (reqId s) call_name p :: t).

Lemma turn_call_result res :
    turn (IMessage (MResponse (reqId s) None res)) s_called
    = s_replied [ESettle (PReq (reqId s)) (Resolved (PVData res))].
  Proof.
    unfold turn, s_replied, s_called.
    destruct s as [ns tc cn w0 rq rid0 c dt stl cp cc wt mi nx tr].
    state_cbn_all. subst cn w0 mi.
    cbn [handler receive]. unfold bind, gets. state_cbn.
    rewrite req_get_app, Hreq. cbn [req_get]. rewrite Z.eqb_refl.
    unfold modify. state_cbn. rewrite req_del_last by exact Hreq.
    unfold handleSuccessResponse, resolve_request.
    cbn [rq_settled rq_method rq_params rq_outer rq_then].
    unfold bind, settle, modify, enqueue, ret, modify. state_cbn.
    cbn [state_of]. unfold drain. unfold drain_once at 3.
    cbn [app]. state_norm. cbn [run_tasks run_task run_cont]. unfold ret.
    cbn [state_of]. unfold drain_once. state_norm. cbn [run_tasks]. state_norm.
    rewrite <- !app_assoc. reflexivity.
  Qed.

  (** The error [_handleErrorResponse] builds for the call. *)
Definition call_err (e : ErrBody) : ResErr :=
    mkResErr (method_rid call_name) call_name p (eb_code e) (eb_message e).

Lemma turn_call_error e res :
    turn (IMessage (MResponse (reqId s) (Some e) res)) s_called
    = s_replied [EClient "error" (Some (call_err e));
                 ESettle (PReq (reqId s)) (Rejected (PEErr (call_err e)))].
  Proof.
    unfold turn, s_replied, s_called, call_err.
    destruct s as [ns tc cn w0 rq rid0 c dt stl cp cc wt mi nx tr].
    state_cbn_all. subst cn w0 mi.
    cbn [handler receive]. unfold bind, gets. state_cbn.
    rewrite req_get_app, Hreq. cbn [req_get]. rewrite Z.eqb_refl.
    unfold modify. state_cbn. rewrite req_del_last by exact Hreq.
    unfold handleErrorResponse, bind, modify, resolve_request.
    cbn [rq_settled rq_method rq_params rq_outer rq_then].
    unfold bind, settle, modify, enqueue, ret, modify. state_cbn.
    cbn [state_of]. unfold drain. unfold drain_once at 3.
    cbn [app]. state_norm. cbn [run_tasks run_task run_cont]. unfold ret.
    cbn [state_of]. unfold drain_once. state_norm. cbn [run_tasks]. state_norm.
    rewrite <- !app_assoc. reflexivity.
  Qed.
End CallFlow.

(** A call and its reply.  In every state a session reaches with the
    connection open, [call(r, m, p)] with a method name writes the
    request [call.r.m] with the parameters to the socket under the next
    id and returns the promise of that request; a reply with a result
    resolves the promise with the result; a reply with an error emits
    the client event [error] and then rejects the promise, both with an
    error that carries the code and message of the reply, the method
    [call.r.m], the parameters, and, when [m] has no ['.'], the rid [r]
    trimmed.  Either reply takes the request out of the table. *)
Theorem call_settles_with_the_reply ins r m p e res :
  let s := run ins newClient in
  connected s = true -> ws s = true -> r <> ""%string -> m <> ""%string ->
  let name := ("call." ++ r ++ "." ++ m)%string in
  let s1 := turn (ICall r (Some m) p) s in
  let ok := turn (IMessage (MResponse (reqId s) None res)) s1 in
  let ko := turn (IMessage (MResponse (reqId s) (Some e) res)) s1 in
  let err := mkResErr (method_rid name) name p (eb_code e) (eb_message e) in
  call r (Some m) p s = Ok (PReq (reqId s)) s1
  /\ trace s1 = trace s ++ [ESend (reqId s) name p]
  /\ trace ok = trace s1 ++ [ESettle (PReq (reqId s)) (Resolved (PVData res))]
  /\ trace ko = trace s1 ++ [EClient "error" (Some err);
                             ESettle (PReq (reqId s)) (Rejected (PEErr err))]
  /\ requests ok = requests s /\ requests ko = requests s
  /\ cache ok = cache s /\ cache ko = cache s
  /\ (indexOf "."%char m = None -> er_rid err = trim r).
Proof.
  intros s Hconn Hws Hr Hm name s1 ok ko err.
  pose proof (micro_run ins) as Mi. pose proof (reqId_fresh ins) as Rq.
  fold s in Mi, Rq.
  assert (E1 : s1 = s_called s r m p) by now apply turn_call.
  assert (E2 : ok = s_replied s r m p
                     [ESettle (PReq (reqId s)) (Resolved (PVData res))]).
  { unfold ok. rewrite E1. now apply turn_call_result. }
  assert (E3 : ko = s_replied s r m p
                     [EClient "error" (Some err);
                      ESettle (PReq (reqId s)) (Rejected (PEErr err))]).
  { unfold ko. rewrite E1. now apply turn_call_error. }
  rewrite E1, E2, E3. unfold s_replied, s_called. state_cbn.
  split; [now apply call_connected|].
  repeat (split; [try reflexivity; now rewrite <- app_assoc|]).
  intros Hd. unfold err, name. cbn [er_rid].
  apply (proj1 (method_rid_of_send "call" r eq_refl)); auto.
Qed.

Lemma call_settles_with_the_reply_witness :
  let s := run connect_session newClient in
  let e := mkErrBody "system.notFound" "Not found" in
  let name := ("call." ++ "svc.math" ++ "." ++ "add")%string in
  let s1 := turn (ICall "svc.math" (Some "add") None) s in
  let ok := turn (IMessage (MResponse (reqId s) None None)) s1 in
  let ko := turn (IMessage (MResponse (reqId s) (Some e) None)) s1 in
  let err := mkResErr (method_rid name) name None (eb_code e) (eb_message e) in
  call "svc.math" (Some "add") None s = Ok (PReq (reqId s)) s1
  /\ trace s1 = trace s ++ [ESend (reqId s) name None]
  /\ trace ok = trace s1 ++ [ESettle (PReq (reqId s)) (Resolved (PVData None))]
  /\ trace ko = trace s1 ++ [EClient "error" (Some err);
                             ESettle (PReq (reqId s)) (Rejected (PEErr err))]
  /\ requests ok = requests s /\ requests ko = requests s
  /\ cache ok = cache s /\ cache ko = cache s
  /\ (indexOf "."%char "add" = None -> er_rid err = trim "svc.math").
Proof.
  apply (call_settles_with_the_reply connect_session "svc.math" "add" None
           (mkErrBody "system.notFound" "Not found") None);
    try reflexivity; discriminate.
Defined.


(* ================================================================== *)
(** ** [create] and its reply *)

Section CreateFlow.
Variables (s : Client) (r r' : string) (params : option Data) (props : Obj.t prim).
Hypothesis Hconn : connected s = true.
Hypothesis Hws : ws s = true.
Hypothesis Hmicro : micro s = [].
Hypothesis Hr : r <> ""%string.
Hypothesis Hreq : req_get (reqId s) (requests s) = None.

  (** The state [create(r, params)] leaves. *)
Definition s_new : Client :=
    mkClient (namespace s) (tryConnect s) true true
      (requests s
       ++ [(reqId s, mkRequest ("new." ++ r) params false (KCreate (nextId s)) None)])
      (reqId s + 1) (cache s) (detached s) (stale s) (connectPromise s)
      (connectCallback s) (waiting s) [] (S (nextId s))
      (trace s ++ [ESend (reqId s) ("new." ++ r) params]).

Lemma create_connected : create r params s = Ok (nextId s) s_new.
  Proof.
    unfold s_new.
    destruct s as [ns tc cn w0 rq rid0 c dt stl cp cc wt mi nx tr].
    state_cbn_all. subst cn w0 mi.
    assert (Er : String.eqb r "" = false) by now apply String.eqb_neq.
    unfold create, bind, alloc, fresh. state_cbn.
    unfold send. rewrite Er.
    unfold bind, gets, sendNow, bind, gets, modify, ret. state_cbn.
    rewrite append_empty_r. reflexivity.
  Qed.

Lemma turn_create : turn (ICreate r params) s = s_new.
  Proof.
    unfold turn. cbn [handler]. unfold bind at 1. rewrite create_connected.
    cbn [ret state_of]. now apply drain_idle.
  Qed.

  (** A reply that names the model [r'] and carries it. *)
Definition created_reply : Data :=
    mkData (Some [(r', scalar_props props)]) None None None None None (Some r').

Definition s_created : Client :=
    mkClient (namespace s) (tryConnect s) true true (requests s) (reqId s + 1)
      (cache s
       ++ [mkCI (S (nextId s)) r' (Some typeModel)
                (Some (mkResobj (S (S (nextId s))) (CModel (scalar_values props))))
                0 0 true None])
      (detached s) (stale s) (connectPromise s)
      (connectCallback s) (waiting s) [] (S (S (S (nextId s))))
      (trace s
       ++ [ESend (reqId s) ("new." ++ r) params;
           ESettle (PReq (reqId s)) (Resolved (PVData (Some created_reply)));
           ESettle (PCreate (nextId s))
                   (Resolved (PVItem (Some (S (S (nextId s))))))]).

Lemma turn_created :
    cache_get (cache s) r' = None ->
    turn (IMessage (MResponse (reqId s) None (Some created_reply))) s_new = s_created.
  Proof.
    intros Hc. unfold turn, s_created, s_new, created_reply.
    destruct s as [ns tc cn w0 rq rid0 c dt stl cp cc wt mi nx tr].
    state_cbn_all. subst cn w0 mi.
    cbn [handler receive]. unfold bind, gets. state_cbn.
    rewrite req_get_app, Hreq. cbn [req_get]. rewrite Z.eqb_refl.
    unfold modify. state_cbn. rewrite req_del_last by exact Hreq.
    unfold handleSuccessResponse, resolve_request.
    cbn [rq_settled rq_method rq_params rq_outer rq_then].
    unfold bind, settle, modify, enqueue, ret, modify. state_cbn.
    cbn [state_of]. unfold drain. unfold drain_once at 3.
    cbn [app]. state_norm.
    cbn [run_tasks run_task run_cont].
    unfold try_catch, bind, cacheResources, bind, create_phase.
    cbn [bundle d_models d_collections d_errors d_rid option_map map fst snd].
    cbn [createItems]. unfold bind, gets. state_norm.
    rewrite Hc. unfold alloc, fresh, bind, modify, ret. state_norm.
    rewrite (cache_put_absent (newCacheItem (S nx) r')) by exact Hc.
    cbn [item newCacheItem]. state_norm.
    rewrite cache_alter_app, cache_alter_absent by exact Hc.
    cbn [cache_alter map rid newCacheItem]. rewrite String.eqb_refl.
    cbn [app fst snd]. unfold initItems. cbn [forEach]. unfold bind, cached.
    state_norm. cbn [fst snd].
    rewrite cache_get_app, Hc. cbn [cache_get rid setItem]. rewrite String.eqb_refl.
    cbn [item setItem prepareData]. unfold bind. cbv beta.
    rewrite prepareModel_scalars.
    unfold ret, modify. state_norm.
    rewrite cache_alter_app, cache_alter_absent by exact Hc.
    cbn [cache_alter map rid]. rewrite String.eqb_refl.
    cbn [setBody item oid ci_id rid type direct indirect subscribed promise].
    cbn [syncItems forEach]. unfold ret. state_norm.
    rewrite cache_get_app, Hc. cbn [cache_get rid]. rewrite String.eqb_refl.
    state_norm. cbn [rid].
    rewrite cache_alter_app, cache_alter_absent by exact Hc.
    cbn [cache_alter map rid]. rewrite String.eqb_refl.
    unfold settle, modify.
    cbn [setSubscribed item_oid item oid ci_id rid type direct indirect subscribed
         promise state_of].
    unfold drain_once. state_norm. cbn [run_tasks]. state_norm.
    rewrite <- !app_assoc. reflexivity.
  Qed.

  (** A reply that carries no resource and names one, [k], that is not
      cached ([undefined] when the reply has no [rid]). *)
Definition bare_reply (k : option string) : Data :=
    mkData None None None None None None k.

Definition s_create_failed (k : option string) : Client :=
    mkClient (namespace s) (tryConnect s) true true (requests s) (reqId s + 1)
      (cache s) (detached s) (stale s) (connectPromise s)
      (connectCallback s) (waiting s) [] (S (nextId s))
      (trace s
       ++ [ESend (reqId s) ("new." ++ r) params;
           ESettle (PReq (reqId s)) (Resolved (PVData (Some (bare_reply k))));
           ESettle (PCreate (nextId s)) (Rejected (PEExn typeError_undefined))]).

Lemma turn_create_bare k :
    cache_get (cache s) (match k with Some x => x | None => "undefined" end) = None ->
    turn (IMessage (MResponse (reqId s) None (Some (bare_reply k)))) s_new
    = s_create_failed k.
  Proof.
    intros Hc. unfold turn, s_create_failed, s_new, bare_reply.
    destruct s as [ns tc cn w0 rq rid0 c dt stl cp cc wt mi nx tr].
    state_cbn_all. subst cn w0 mi.
    cbn [handler receive]. unfold bind, gets. state_cbn.
    rewrite req_get_app, Hreq. cbn [req_get]. rewrite Z.eqb_refl.
    unfold modify. state_cbn. rewrite req_del_last by exact Hreq.
    unfold handleSuccessResponse, resolve_request.
    cbn [rq_settled rq_method rq_params rq_outer rq_then].
    unfold bind, settle, modify, enqueue, ret, modify. state_cbn.
    cbn [state_of]. unfold drain. unfold drain_once at 3.
    cbn [app]. state_norm.
    cbn [run_tasks run_task run_cont].
    unfold try_catch, bind, cacheResources, bind, create_phase.
    cbn [bundle d_models d_collections d_errors d_rid option_map map fst snd].
    unfold ret, initItems, syncItems. cbn [forEach fst snd]. unfold ret, cached.
    state_norm. rewrite Hc.
    unfold settle, modify. cbn [state_of].
    unfold drain_once. state_norm. cbn [run_tasks]. state_norm.
    rewrite <- !app_assoc. reflexivity.
  Qed.

  (** A reply without a result. *)
Definition s_create_null : Client :=
    mkClient (namespace s) (tryConnect s) true true (requests s) (reqId s + 1)
      (cache s) (detached s) (stale s) (connectPromise s)
      (connectCallback s) (waiting s) [] (S (nextId s))
      (trace s
       ++ [ESend (reqId s) ("new." ++ r) params;
           ESettle (PReq (reqId s)) (Resolved (PVData None));
           ESettle (PCreate (nextId s)) (Rejected (PEExn typeError_undefined))]).

Lemma turn_create_null :
    turn (IMessage (MResponse (reqId s) None None)) s_new = s_create_null.
  Proof.
    unfold turn, s_create_null, s_new.
    destruct s as [ns tc cn w0 rq rid0 c dt stl cp cc wt mi nx tr].
    state_cbn_all. subst cn w0 mi.
    cbn [handler receive]. unfold bind, gets. state_cbn.
    rewrite req_get_app, Hreq. cbn [req_get]. rewrite Z.eqb_refl.
    unfold modify. state_cbn. rewrite req_del_last by exact Hreq.
    unfold handleSuccessResponse, resolve_request.
    cbn [rq_settled rq_method rq_params rq_outer rq_then].
    unfold bind, settle, modify, enqueue, ret, modify. state_cbn.
    cbn [state_of]. unfold drain. unfold drain_once at 3.
    cbn [app]. state_norm.
    cbn [run_tasks run_task run_cont].
    unfold try_catch, bind, cacheResources, ret, throw.
    unfold settle, modify. cbn [state_of].
    unfold drain_once. state_norm. cbn [run_tasks]. state_norm.
    rewrite <- !app_assoc. reflexivity.
  Qed.
End CreateFlow.

(** [create] and its reply.  In every state a session reaches with the
    connection open, [create(r, params)] writes the request [new.r]
    with the parameters under the next id.  Below, a rid is uncached
    when [this.cache[rid]] is falsy: nothing is cached under it and it
    names no member of [Object.prototype].  When the reply names an
    uncached model and carries it, with scalar properties, the model is
    cached as a subscribed item with the properties of the reply and
    the promise [create] returned is resolved with it.  When the reply
    carries no resource and names an uncached one, or none, and when
    the reply has no result at all, that promise is rejected with a
    [TypeError] and the cache is as before: the promise is never left
    pending. *)
Theorem create_settles_with_the_reply ins r r' params props k :
  let s := run ins newClient in
  connected s = true -> ws s = true -> r <> ""%string ->
  cache_has (cache s) r' = false ->
  cache_has (cache s) (match k with Some x => x | None => "undefined" end) = false ->
  let s1 := turn (ICreate r params) s in
  let d := mkData (Some [(r', scalar_props props)]) None None None None None (Some r') in
  let d0 := mkData None None None None None None k in
  let ok := turn (IMessage (MResponse (reqId s) None (Some d))) s1 in
  let ko := turn (IMessage (MResponse (reqId s) None (Some d0))) s1 in
  let kn := turn (IMessage (MResponse (reqId s) None None)) s1 in
  let o := S (S (nextId s)) in
  create r params s = Ok (nextId s) s1
  /\ trace s1 = trace s ++ [ESend (reqId s) ("new." ++ r) params]
  /\ cache ok
     = cache s ++ [mkCI (S (nextId s)) r' (Some typeModel)
                        (Some (mkResobj o (CModel (scalar_values props))))
                        0 0 true None]
  /\ trace ok = trace s1 ++ [ESettle (PReq (reqId s)) (Resolved (PVData (Some d)));
                             ESettle (PCreate (nextId s)) (Resolved (PVItem (Some o)))]
  /\ cache ko = cache s
  /\ trace ko = trace s1 ++ [ESettle (PReq (reqId s)) (Resolved (PVData (Some d0)));
                             ESettle (PCreate (nextId s))
                                     (Rejected (PEExn typeError_undefined))]
  /\ cache kn = cache s
  /\ trace kn = trace s1 ++ [ESettle (PReq (reqId s)) (Resolved (PVData None));
                             ESettle (PCreate (nextId s))
                                     (Rejected (PEExn typeError_undefined))]
  /\ requests ok = requests s /\ requests ko = requests s /\ requests kn = requests s.
Proof.
  intros s Hconn Hws Hr Hc Hk s1 d d0 ok ko kn o.
  apply cache_has_uncached in Hc. apply cache_has_uncached in Hk.
  pose proof (micro_run ins) as Mi. pose proof (reqId_fresh ins) as Rq.
  fold s in Mi, Rq.
  assert (E1 : s1 = s_new s r params) by now apply turn_create.
  assert (E2 : ok = s_created s r r' params props).
  { unfold ok. rewrite E1. now apply turn_created. }
  assert (E3 : ko = s_create_failed s r params k).
  { unfold ko. rewrite E1. now apply turn_create_bare. }
  assert (E4 : kn = s_create_null s r params).
  { unfold kn. rewrite E1. now apply turn_create_null. }
  rewrite E1, E2, E3, E4. unfold s_created, s_create_failed, s_create_null, s_new.
  state_cbn.
  split; [now apply create_connected|].
  repeat (split; [try reflexivity; now rewrite <- app_assoc|]).
  reflexivity.
Qed.

Lemma create_settles_with_the_reply_witness :
  let s := run connect_session newClient in
  let s1 := turn (ICreate "users" None) s in
  let d := mkData (Some [("users.7", scalar_props [("name", PStr "Ada")])])
                  None None None None None (Some "users.7") in
  cache (turn (IMessage (MResponse (reqId s) None (Some d))) s1)
  = cache s ++ [mkCI (S (nextId s)) "users.7" (Some typeModel)
                     (Some (mkResobj (S (S (nextId s)))
                                     (CModel (scalar_values [("name", PStr "Ada")]))))
                     0 0 true None]
  /\ trace (turn (IMessage (MResponse (reqId s) None None)) s1)
     = trace s1 ++ [ESettle (PReq (reqId s)) (Resolved (PVData None));
                    ESettle (PCreate (nextId s)) (Rejected (PEExn typeError_undefined))].
Proof.
  pose proof (create_settles_with_the_reply connect_session "users" "users.7" None
                [("name", PStr "Ada")] None) as H.
  cbv zeta in H.
  destruct H as (_ & _ & C & _ & _ & _ & _ & T & _);
    [reflexivity|reflexivity|discriminate|reflexivity|reflexivity|].
  split; [exact C|exact T].
Defined.


(* ================================================================== *)
(** ** The rid of an error response *)

Lemma append_assoc (a b c : string) : ((a ++ b) ++ c = a ++ b ++ c)%string.
Proof. induction a as [|x a IH]; cbn; [reflexivity|now rewrite IH]. Qed.

(** The rid [_handleErrorResponse] puts in the error of a request that
    [_send] built.  For [subscribe], [unsubscribe] and [new] it is the
    rid of the request, trimmed.  For [call] and [auth] it is what
    precedes the last ['.'] of [rid.method], trimmed: the rid when the
    method name has no ['.'], and [rid.m1] when the method name is
    [m1.m2]. *)
Theorem error_rid_is_request_rid r m1 m2 :
  indexOf "."%char m2 = None ->
  method_rid ("subscribe." ++ r) = trim r
  /\ method_rid ("unsubscribe." ++ r) = trim r
  /\ method_rid ("new." ++ r) = trim r
  /\ method_rid ("call." ++ r ++ "." ++ m2) = trim r
  /\ method_rid ("auth." ++ r ++ "." ++ m2) = trim r
  /\ method_rid ("call." ++ r ++ "." ++ m1 ++ "." ++ m2) = trim (r ++ "." ++ m1).
Proof.
  intros H.
  split; [apply (proj2 (method_rid_of_send "subscribe" r eq_refl)); discriminate|].
  split; [apply (proj2 (method_rid_of_send "unsubscribe" r eq_refl)); discriminate|].
  split; [apply (proj2 (method_rid_of_send "new" r eq_refl)); discriminate|].
  split; [apply (proj1 (method_rid_of_send "call" r eq_refl)); auto|].
  split; [apply (proj1 (method_rid_of_send "auth" r eq_refl)); auto|].
  pose proof (proj1 (method_rid_of_send "call" (r ++ "." ++ m1) eq_refl) m2
                (or_introl eq_refl) H) as E.
  rewrite <- E. f_equal. cbn [append]. f_equal. f_equal. f_equal. f_equal. f_equal.
  now rewrite append_assoc.
Qed.

Lemma error_rid_is_request_rid_witness :
  method_rid ("call." ++ "svc" ++ "." ++ "math" ++ "." ++ "add") = trim ("svc" ++ "." ++ "math").
Proof.
  exact (proj2 (proj2 (proj2 (proj2 (proj2
           (error_rid_is_request_rid "svc" "math" "add" eq_refl)))))).
Defined.


(* ================================================================== *)
(** ** Edges of the public interface *)

(** An event whose name is none of [change], [add], [remove] and
    [unsubscribe], addressed to a cached resource, is emitted on the
    event bus under [namespace.resource.rid.name] with the payload as
    received, in every state a session reaches; the turn does nothing
    else. *)
Theorem custom_event_is_emitted_raw ins r name data ci :
  let s := run ins newClient in
  cache_get (cache s) r = Some ci ->
  indexOf "."%char name = None -> name <> ""%string ->
  name <> "change"%string -> name <> "add"%string ->
  name <> "remove"%string -> name <> "unsubscribe"%string ->
  turn (IMessage (MEvent (r ++ "." ++ name) data)) s
  = emit (EBus (item_oid ci)
               (namespace s ++ ".resource." ++ r ++ "." ++ name) (BRaw data)) s.
Proof.
  intros s C P1 P2 N1 N2 N3 N4.
  apply turn_idle; [|apply micro_run].
  cbn [handler receive].
  destruct (event_name_parse r name P1 P2) as (E1 & E2 & E3 & E4).
  unfold handleEvent. rewrite E1, E2, E3, E4.
  unfold bind, gets. rewrite C.
  apply String.eqb_neq in N1, N2, N3, N4. rewrite N1, N2, N3, N4.
  reflexivity.
Qed.

Lemma custom_event_is_emitted_raw_witness :
  let s := run two_refs_session newClient in
  turn (IMessage (MEvent ("X" ++ "." ++ "renamed") None)) s
  = emit (EBus (Some 5%nat)
               (namespace s ++ ".resource." ++ "X" ++ "." ++ "renamed") (BRaw None)) s.
Proof.
  refine (custom_event_is_emitted_raw two_refs_session "X" "renamed" None
            (mkCI 4 "X" (Some typeModel) (Some (mkResobj 5 (CModel []))) 0 2 false None)
            _ _ _ _ _ _ _); try reflexivity; discriminate.
Defined.

(** In every state a session reaches, an event addressed to a resource
    for which [this.cache[rid]] is falsy (nothing is cached under the
    rid and it names no member of [Object.prototype]), and [resourceOn]
    and [resourceOff] for such a resource, throw
    [Resource not found in cache]; the turn leaves the client as it
    was. *)
Theorem uncached_resource_is_refused ins r name data :
  let s := run ins newClient in
  cache_has (cache s) r = false ->
  indexOf "."%char name = None -> name <> ""%string ->
  (throws (IMessage (MEvent (r ++ "." ++ name) data)) s = Some not_in_cache
   /\ turn (IMessage (MEvent (r ++ "." ++ name) data)) s = s)
  /\ (throws (IResourceOn r) s = Some not_in_cache /\ turn (IResourceOn r) s = s)
  /\ (throws (IResourceOff r) s = Some not_in_cache /\ turn (IResourceOff r) s = s).
Proof.
  intros s C P1 P2. apply cache_has_uncached in C.
  assert (D : drain s = s) by (apply drain_idle, micro_run).
  destruct (event_name_parse r name P1 P2) as (E1 & E2 & E3 & E4).
  assert (H1 : handler (IMessage (MEvent (r ++ "." ++ name) data)) s
               = Err not_in_cache s).
  { cbn [handler receive]. unfold handleEvent. rewrite E1, E2, E3.
    unfold bind, gets. now rewrite C. }
  assert (H2 : handler (IResourceOn r) s = Err not_in_cache s).
  { cbn [handler]. unfold resourceOn, bind, gets. now rewrite C. }
  assert (H3 : handler (IResourceOff r) s = Err not_in_cache s).
  { cbn [handler]. unfold resourceOff, bind, gets. now rewrite C. }
  unfold throws, turn. rewrite H1, H2, H3. cbn [state_of]. rewrite D. auto.
Qed.

Lemma uncached_resource_is_refused_witness :
  let s := run two_refs_session newClient in
  (throws (IMessage (MEvent ("Q" ++ "." ++ "change") None)) s = Some not_in_cache
   /\ turn (IMessage (MEvent ("Q" ++ "." ++ "change") None)) s = s)
  /\ (throws (IResourceOn "Q") s = Some not_in_cache /\ turn (IResourceOn "Q") s = s)
  /\ (throws (IResourceOff "Q") s = Some not_in_cache /\ turn (IResourceOff "Q") s = s).
Proof.
  apply (uncached_resource_is_refused two_refs_session "Q" "change" None);
    try reflexivity; discriminate.
Defined.

(** [call] and [authenticate] without a method name, or with the empty
    one, throw in every state a session reaches ([Invalid resource ID]
    for the empty rid, [Invalid method] otherwise): [method || ''] makes
    the name empty and [_send] refuses the empty name.  Nothing is sent
    and no connection is started. *)
Theorem call_without_method_throws ins r m p :
  let s := run ins newClient in
  m = None \/ m = Some ""%string ->
  let msg := if String.eqb r "" then invalid_rid else invalid_method in
  (throws (ICall r m p) s = Some msg /\ turn (ICall r m p) s = s)
  /\ (throws (IAuthenticate r m p) s = Some msg
      /\ turn (IAuthenticate r m p) s = s).
Proof.
  intros s H msg.
  assert (D : drain s = s) by (apply drain_idle, micro_run).
  assert (H1 : handler (ICall r m p) s = Err msg s).
  { cbn [handler]. unfold call, send, bind, msg.
    destruct H as [-> | ->]; now destruct (String.eqb r ""). }
  assert (H2 : handler (IAuthenticate r m p) s = Err msg s).
  { cbn [handler]. unfold authenticate, send, bind, msg.
    destruct H as [-> | ->]; now destruct (String.eqb r ""). }
  unfold throws, turn. rewrite H1, H2. cbn [state_of]. rewrite D. auto.
Qed.

Lemma call_without_method_throws_witness :
  let s := run connect_session newClient in
  (throws (ICall "svc.math" None None) s = Some invalid_method
   /\ turn (ICall "svc.math" None None) s = s)
  /\ (throws (IAuthenticate "svc.math" None None) s = Some invalid_method
      /\ turn (IAuthenticate "svc.math" None None) s = s).
Proof.
  apply (call_without_method_throws connect_session "svc.math" None None).
  now left.
Defined.

(** [get("")] throws [Invalid resource ID], in every state a session
    reaches in which the empty rid is not cached, but only after the
    new cache item has been stored and marked as subscribed: the item
    stays in the cache with no resource object and no promise, and a
    second [get("")] returns a promise resolved with [null]. *)
Theorem get_of_empty_rid_leaves_item ins :
  let s := run ins newClient in
  cache_get (cache s) "" = None ->
  let s' := turn (IGet "") s in
  throws (IGet "") s = Some invalid_rid
  /\ cache s' = cache s ++ [mkCI (nextId s) "" None None 0 0 true None]
  /\ trace s' = trace s
  /\ get "" s' = Ok (GetNow None) s'.
Proof.
  intros s C s'.
  destruct (W_fresh s (W_run ins)) as (F1 & F2).
  pose proof (micro_run ins) as Mi. fold s in Mi.
  set (s1 := set_stale (stale (removeStale "" s))
               (set_cache (cache s ++ [mkCI (nextId s) "" None None 0 0 true None])
                  (set_nextId (S (S (nextId s))) s))).
  assert (H : handler (IGet "") s = Err invalid_rid s1).
  { unfold s1. clearbody s. clear s'.
    destruct s as [ns tc cn w0 rq rid0 c dt stl cp cc wt mi nx tr].
    state_cbn_all. subst mi.
    cbn [handler]. unfold get, bind, gets. state_cbn. rewrite C.
    unfold alloc, fresh, modify. state_cbn.
    rewrite (cache_put_absent (newCacheItem nx "")) by exact C.
    unfold subscribe, bind, the_obj, deref. state_cbn.
    rewrite (find_id_app nx c _ F1). cbn [ci_id newCacheItem].
    rewrite Nat.eqb_refl.
    unfold modify, alter_obj. state_cbn.
    rewrite !alter_id_app, !alter_id_absent by assumption.
    cbn [alter_id map ci_id]. rewrite Nat.eqb_refl.
    cbn [rid newCacheItem setSubscribed ci_id type item direct indirect
         subscribed promise].
    unfold send. cbn [String.eqb]. unfold throw.
    destruct stl as [o|]; [destruct (Obj.del "" o) eqn:D|];
      unfold removeStale; state_cbn; rewrite ?D; state_cbn; reflexivity. }
  assert (T : s' = s1).
  { unfold s', turn. rewrite H. cbn [state_of]. apply drain_idle.
    unfold s1. cbn. exact Mi. }
  split; [unfold throws; now rewrite H|].
  rewrite T. split; [reflexivity|]. split; [reflexivity|].
  unfold get, bind, gets. unfold s1 at 1. cbn [cache set_stale set_cache].
  rewrite cache_get_app, C. cbn [cache_get rid]. reflexivity.
Qed.

Lemma get_of_empty_rid_leaves_item_witness :
  let s := run connect_session newClient in
  let s' := turn (IGet "") s in
  throws (IGet "") s = Some invalid_rid
  /\ cache s' = cache s ++ [mkCI (nextId s) "" None None 0 0 true None]
  /\ trace s' = trace s
  /\ get "" s' = Ok (GetNow None) s'.
Proof.
  apply (get_of_empty_rid_leaves_item connect_session). reflexivity.
Defined.


(* ================================================================== *)
(** ** [setModel] and the change event that answers it *)

Lemma setModel_params_cons k p props :
  setModel_params (scalar_props ((k, p) :: props))
  = (k, match p with PUndef => actionDelete | _ => WPrim p end)
    :: setModel_params (scalar_props props).
Proof. now destruct p. Qed.

Lemma change_scan_setModel c old props : forall acc rm,
  exists rm',
    change_scan c old (setModel_params (scalar_props props)) acc rm
    = inr (acc ++ scalar_values props, rm').
Proof.
  induction props as [|[k p] props IH]; intros acc rm.
  - exists rm. cbn. now rewrite app_nil_r.
  - rewrite setModel_params_cons. cbn [change_scan scalar_values map fst snd].
    assert (G : forall v rm1,
              exists rm',
                change_scan c old (setModel_params (scalar_props props))
                            (acc ++ [(k, v)]) rm1
                = inr (acc ++ (k, v) :: scalar_values props, rm')).
    { intros v rm1. destruct (IH (acc ++ [(k, v)]) rm1) as (rm' & E).
      exists rm'. rewrite E, <- app_assoc. reflexivity. }
    destruct p as [| |b|n|t]; cbn [actionDelete wire_is_delete Obj.get String.eqb
                                    Ascii.eqb Bool.eqb]; apply G.
Qed.

(** What [setModel] sends is what [_handleChangeEvent] reads back.
    [setModel] keeps the keys of [props] and their order.  For
    properties that are scalars or [undefined], the parameters it
    builds (with [actionDelete] in the place of every [undefined]), when
    they come back as the values of a change event, are prepared by the
    first loop of [_handleChangeEvent] into the very properties given,
    [undefined] included, whatever the model held; no value is
    refused. *)
Theorem setModel_params_read_back c old props :
  Obj.keys (setModel_params (scalar_props props)) = Obj.keys props
  /\ exists rm,
       change_scan c old (setModel_params (scalar_props props)) [] []
       = inr (scalar_values props, rm).
Proof.
  split.
  - unfold Obj.keys, setModel_params, scalar_props. rewrite !map_map.
    apply map_ext. reflexivity.
  - apply (change_scan_setModel c old props [] []).
Qed.

(* ================================================================== *)
(** ** [_resolvePath] *)

Lemma starts_with_app p : forall s,
  starts_with p s = true -> exists t, s = (p ++ t)%string.
Proof.
  induction p as [|a p IH]; intros s H; cbn in *.
  - exists s. reflexivity.
  - destruct s as [|b s]; [discriminate|].
    apply andb_prop in H. destruct H as (H1 & H2).
    apply Ascii.eqb_eq in H1. subst b.
    destruct (IH s H2) as (t & ->). exists t. reflexivity.
Qed.

Lemma http_to_ws_http t : http_to_ws ("http" ++ t) = ("ws" ++ t)%string.
Proof.
  unfold http_to_ws. cbn [append starts_with Ascii.eqb Bool.eqb andb].
  cbn [String.length substring]. f_equal.
  rewrite substring_whole; [reflexivity|lia].
Qed.

(** [_resolvePath] returns a [ws://] or [wss://] URL as it is, and
    returns every URL as it is where there is no [document]; resolving
    the result again changes nothing.  Elsewhere the result is the URL
    the browser resolves the given one to, with [ws] in the place of a
    leading [http]: if the browser resolves to an [http://] or
    [https://] URL, the result is a [ws://] or a [wss://] URL, and
    resolving it again changes nothing. *)
Theorem resolvePath_gives_websocket_url has_document href url :
  let r := resolvePath has_document href url in
  let as_given :=
    starts_with "ws://" url || starts_with "wss://" url || negb has_document in
  (as_given = true -> r = url /\ resolvePath has_document href r = r)
  /\ (as_given = false ->
      (forall t, href url = ("http" ++ t)%string -> r = ("ws" ++ t)%string)
      /\ (starts_with "http://" (href url) = true
          \/ starts_with "https://" (href url) = true ->
          starts_with "ws://" r || starts_with "wss://" r = true
          /\ resolvePath has_document href r = r)).
Proof.
  intros r as_given. unfold r, as_given, resolvePath.
  destruct (starts_with "ws://" url || starts_with "wss://" url || negb has_document)
    eqn:E.
  - split; [|discriminate]. intros _. split; [reflexivity|]. now rewrite E.
  - split; [discriminate|]. intros _. split.
    + intros t Eh. rewrite Eh. apply http_to_ws_http.
    + intros H.
      assert (T : exists t, href url = ("http" ++ t)%string
                  /\ starts_with "ws://" ("ws" ++ t) || starts_with "wss://" ("ws" ++ t)
                     = true).
      { destruct H as [H|H]; apply starts_with_app in H; destruct H as (t & H).
        - exists ("://" ++ t)%string. split; [exact H|reflexivity].
        - exists ("s://" ++ t)%string. split; [exact H|].
          cbn. reflexivity. }
      destruct T as (t & Eh & Ew). rewrite Eh, http_to_ws_http.
      split; [exact Ew|]. now rewrite Ew.
Qed.

Lemma resolvePath_gives_websocket_url_witness :
  let href := fun u => ("https://example.org" ++ u)%string in
  resolvePath true href "wss://example.org/api" = "wss://example.org/api"%string
  /\ resolvePath false href "/api" = "/api"%string
  /\ resolvePath true href "/api" = "wss://example.org/api"%string
  /\ resolvePath true href (resolvePath true href "/api") = resolvePath true href "/api".
Proof.
  cbv zeta. split; [|split; [|split]].
  - apply (proj1 (resolvePath_gives_websocket_url true
                    (fun u => ("https://example.org" ++ u)%string)
                    "wss://example.org/api")).
    reflexivity.
  - apply (proj1 (resolvePath_gives_websocket_url false
                    (fun u => ("https://example.org" ++ u)%string) "/api")).
    reflexivity.
  - apply (proj1 (proj2 (resolvePath_gives_websocket_url true
                           (fun u => ("https://example.org" ++ u)%string) "/api")
                        eq_refl)
                 "s://example.org/api"%string).
    reflexivity.
  - apply (proj2 (proj2 (resolvePath_gives_websocket_url true
                           (fun u => ("https://example.org" ++ u)%string) "/api")
                        eq_refl)).
    right. reflexivity.
Defined.

(* ================================================================== *)
(** ** Registering resource types *)

(** With a type list from which [removeFactory] takes out what
    [addFactory] put in: a model type that is registered and then
    unregistered leaves both lists as they were and the factory is
    returned; a collection type that is registered and then unregistered
    stays registered, because [unregisterCollectionType] takes the
    pattern out of the model list. *)
Theorem unregisterCollectionType_leaves_collection_type
    (TypeList factory : Type)
    (addFactory : string -> factory -> TypeList -> TypeList)
    (removeFactory : string -> TypeList -> option factory * TypeList)
    (p : string) (f : factory) (t : Types TypeList) :
  (forall q g l, removeFactory q (addFactory q g l) = (Some g, l)) ->
  unregisterModelType removeFactory p (registerModelType addFactory p f t)
  = (Some f, mkTypes (model_list t) (collection_list t))
  /\ unregisterCollectionType removeFactory p
       (registerCollectionType addFactory p f t)
     = (fst (removeFactory p (model_list t)),
        mkTypes (snd (removeFactory p (model_list t)))
                (addFactory p f (collection_list t))).
Proof.
  intros L. unfold unregisterModelType, registerModelType,
    unregisterCollectionType, registerCollectionType.
  cbn [model_list collection_list]. rewrite L. split; [reflexivity|].
  now destruct (removeFactory p (model_list t)).
Qed.

(** A type list as an association list, for the example. *)
Definition ex_add (p : string) (f : nat) (l : list (string * nat)) : list (string * nat) :=
  (p, f) :: l.

Fixpoint ex_remove (p : string) (l : list (string * nat))
  : option nat * list (string * nat) :=
  match l with
  | [] => (None, [])
  | (q, g) :: l' =>
      if String.eqb q p then (Some g, l')
      else let (r, l'') := ex_remove p l' in (r, (q, g) :: l'')
  end.

Lemma unregisterCollectionType_leaves_collection_type_witness :
  let t := mkTypes [("m.*", 1%nat)] [] in
  unregisterModelType ex_remove "c.*" (registerModelType ex_add "c.*" 2%nat t)
  = (Some 2%nat, mkTypes (model_list t) (collection_list t))
  /\ unregisterCollectionType ex_remove "c.*"
       (registerCollectionType ex_add "c.*" 2%nat t)
     = (fst (ex_remove "c.*" (model_list t)),
        mkTypes (snd (ex_remove "c.*" (model_list t)))
                (ex_add "c.*" 2%nat (collection_list t))).
Proof.
  apply (unregisterCollectionType_leaves_collection_type
           (list (string * nat)) nat ex_add ex_remove "c.*" 2%nat
           (mkTypes [("m.*", 1%nat)] [])).
  intros q g l. cbn. now rewrite String.eqb_refl.
Defined.


(* ================================================================== *)
(** ** More example caches *)

(** A cache in which nothing holds [X] or the item [Y] it refers to. *)
Definition ex_X : CacheItem := ex_model "X" 1 [("y", (2%nat, "Y"))] 0 0 false.
Definition ex_Y : CacheItem := ex_model "Y" 2 [] 0 1 false.
Definition ex_orphans : Cache := [ex_X; ex_Y].

(** The same with a listener on [X]. *)
Definition ex_L : CacheItem := ex_model "X" 1 [("y", (2%nat, "Y"))] 1 0 false.
Definition ex_listened : Cache := [ex_L; ex_Y].

Lemma ex_orphans_nodup : NoDup (cache_rids ex_orphans).
Proof. repeat constructor; simpl; intuition discriminate. Qed.

Lemma ex_orphans_indirect_ok : indirect_ok ex_orphans.
Proof. intros x [<-|[<-|[]]]; reflexivity. Qed.

Lemma ex_listened_nodup : NoDup (cache_rids ex_listened).
Proof. repeat constructor; simpl; intuition discriminate. Qed.

Lemma ex_listened_indirect_ok : indirect_ok ex_listened.
Proof. intros x [<-|[<-|[]]]; reflexivity. Qed.


(* ================================================================== *)
(** ** Eviction and the reference counts *)

(** Number of values of [vs] that are the resource [r]. *)
Definition count_refs (r : string) (vs : list value) : Z :=
  Z.of_nat (List.length
    (filter (fun v => match v with VRes _ r' => String.eqb r' r | _ => false end) vs)).

(** Number of values held by the items of [c] that are the resource [r]. *)
Definition total_refs (r : string) (c : Cache) : Z :=
  fold_right Z.add 0 (map (fun p => count_refs r (item_values p)) c).

Lemma count_refs_cons r v vs :
  count_refs r (v :: vs)
  = (match v with VRes _ r' => if String.eqb r' r then 1 else 0 | _ => 0 end)
    + count_refs r vs.
Proof.
  unfold count_refs. cbn [filter].
  destruct v as [p|o r'|m]; try lia.
  destruct (String.eqb r' r); cbn [List.length]; lia.
Qed.

Lemma count_refs_nonneg r vs : 0 <= count_refs r vs.
Proof. unfold count_refs. lia. Qed.

Lemma hits_kids c p r :
  hits r (kids c p)
  = match cache_get c r with Some _ => count_refs r (item_values p) | None => 0 end.
Proof.
  unfold kids. induction (item_values p) as [|v vs IH]; cbn [flat_map].
  - rewrite hits_nil. now destruct (cache_get c r).
  - rewrite hits_app, IH, count_refs_cons.
    destruct v as [q|o r'|m]; cbn [getRefItem]; rewrite ?hits_nil;
      try (destruct (cache_get c r); lia).
    destruct (cache_get c r') as [x|] eqn:E.
    + rewrite hits_cons, hits_nil, (cache_get_rid _ _ _ E).
      destruct (String.eqb_spec r' r) as [->|N].
      * rewrite E. lia.
      * destruct (cache_get c r); lia.
    + rewrite hits_nil. destruct (String.eqb_spec r' r) as [->|N].
      * rewrite E. lia.
      * destruct (cache_get c r); lia.
Qed.

Lemma inbound_total c r :
  inbound c (fun _ => true) r
  = match cache_get c r with Some _ => total_refs r c | None => 0 end.
Proof.
  unfold inbound, total_refs.
  assert (H : forall l,
    hits r (flat_map (fun p => if true then kids c p else []) l)
    = match cache_get c r with
      | Some _ => fold_right Z.add 0 (map (fun p => count_refs r (item_values p)) l)
      | None => 0
      end).
  { induction l as [|a l IH]; cbn [flat_map map fold_right].
    - rewrite hits_nil. now destruct (cache_get c r).
    - rewrite hits_app, IH, hits_kids. destruct (cache_get c r); lia. }
  apply H.
Qed.

Lemma removeIndirect_0 y : removeIndirect 0 y = y.
Proof. destruct y. unfold removeIndirect. cbn. f_equal. lia. Qed.

Lemma removeIndirect_add a b y :
  removeIndirect a (removeIndirect b y) = removeIndirect (b + a) y.
Proof. destruct y. unfold removeIndirect. cbn. f_equal. lia. Qed.

(** The first loop of [_deleteRef]: every cached item loses as many
    indirect references as the deleted item has values that are it. *)
Lemma deleteRef_loop vs : forall c,
  fold_left
    (fun c v => match getRefItem c v with
                | Some ri => cache_alter (removeIndirect 1) (rid ri) c
                | None => c
                end) vs c
  = map (fun y => removeIndirect (count_refs (rid y) vs) y) c.
Proof.
  induction vs as [|v vs IH]; intros c; cbn [fold_left].
  - rewrite <- (map_id c) at 1. apply map_ext. intros y.
    now rewrite removeIndirect_0.
  - rewrite IH. clear IH.
    destruct v as [q|o r|m]; cbn [getRefItem];
      try (apply map_ext; intros y; now rewrite count_refs_cons).
    destruct (cache_get c r) as [ri|] eqn:E.
    + rewrite (cache_get_rid _ _ _ E). unfold cache_alter. rewrite map_map.
      apply map_ext. intros y. rewrite count_refs_cons.
      rewrite (String.eqb_sym r (rid y)).
      destruct (String.eqb (rid y) r).
      * rewrite removeIndirect_add. reflexivity.
      * reflexivity.
    + apply map_ext_in. intros y I. rewrite count_refs_cons.
      destruct (String.eqb_spec r (rid y)) as [->|N]; [|reflexivity].
      exfalso. apply cache_get_None in E. apply E. unfold cache_rids.
      now apply in_map.
Qed.

Lemma deleteRef_cache ci s :
  cache (deleteRef ci s)
  = cache_del (rid ci)
      (map (fun y => removeIndirect (count_refs (rid y) (item_values ci)) y) (cache s)).
Proof.
  unfold deleteRef. rewrite cache_removeStale. unfold uncache.
  cbn [cache set_cache set_detached]. now rewrite deleteRef_loop.
Qed.

Lemma cache_del_absent k c : ~ In k (cache_rids c) -> cache_del k c = c.
Proof.
  induction c as [|a l IH]; cbn; auto. intros N.
  destruct (String.eqb_spec (rid a) k); [tauto|]. f_equal. tauto.
Qed.

Lemma cache_del_In k c x : In x (cache_del k c) <-> In x c /\ rid x <> k.
Proof.
  induction c as [|a l IH]; cbn; [tauto|].
  destruct (String.eqb_spec (rid a) k) as [E|N]; cbn; rewrite IH.
  - split; [tauto|]. intros ([<-|I] & H); tauto.
  - split; [intros [<-|I]; tauto|tauto].
Qed.

Section DeleteCounts.
Variable g : CacheItem -> CacheItem.
Hypothesis g_rid : forall y, rid (g y) = rid y.
Hypothesis g_values : forall y, item_values (g y) = item_values y.

Lemma total_refs_map r c : total_refs r (map g c) = total_refs r c.
  Proof.
    unfold total_refs. rewrite map_map. f_equal. apply map_ext.
    intros y. now rewrite g_values.
  Qed.

Lemma cache_rids_map c : cache_rids (map g c) = cache_rids c.
  Proof. unfold cache_rids. rewrite map_map. apply map_ext. exact g_rid. Qed.

Lemma total_refs_del r k x c :
    NoDup (cache_rids c) -> cache_get c k = Some x ->
    total_refs r (cache_del k (map g c))
    = total_refs r c - count_refs r (item_values x).
  Proof.
    induction c as [|a l IH]; cbn [cache_get]; [discriminate|].
    intros ND G. inversion ND as [|? ? N ND']; subst.
    cbn [map cache_del]. rewrite g_rid.
    destruct (String.eqb_spec (rid a) k) as [E|NE].
    - injection G as <-. rewrite cache_del_absent.
      + rewrite total_refs_map. unfold total_refs. cbn [map fold_right]. lia.
      + rewrite cache_rids_map. now rewrite <- E.
    - unfold total_refs in *. cbn [map fold_right]. rewrite g_values.
      rewrite IH by auto. lia.
  Qed.
End DeleteCounts.

Lemma indirect_ok_total c :
  indirect_ok c <-> forall x, In x c -> indirect x = total_refs (rid x) c.
Proof.
  unfold indirect_ok. split; intros H x I; specialize (H x I);
    rewrite inbound_total in *;
    destruct (cache_get c (rid x)) eqn:E; auto;
    apply cache_get_None in E; exfalso; apply E; unfold cache_rids;
    now apply in_map.
Qed.

(** [_deleteRef] of an item as it is cached keeps the keys distinct and
    the [indirect] counts exact. *)
Lemma deleteRef_counts ci x s :
  NoDup (cache_rids (cache s)) -> indirect_ok (cache s) ->
  cache_get (cache s) (rid ci) = Some x ->
  item_values x = item_values ci ->
  NoDup (cache_rids (cache (deleteRef ci s)))
  /\ indirect_ok (cache (deleteRef ci s)).
Proof.
  intros ND IO G V. split.
  - rewrite cache_rids_deleteRef. now apply NoDup_filter.
  - apply indirect_ok_total. rewrite deleteRef_cache.
    set (g := fun y => removeIndirect (count_refs (rid y) (item_values ci)) y).
    intros y2 I. apply cache_del_In in I. destruct I as (I & NE).
    apply in_map_iff in I. destruct I as (y & <- & I).
    rewrite (total_refs_del g) with (x := x); auto.
    pose proof (proj1 (indirect_ok_total _) IO y I) as IOy.
    unfold g. cbn [indirect rid removeIndirect]. rewrite V. lia.
Qed.

Lemma cache_get_del_map g k c r :
  (forall y, rid (g y) = rid y) ->
  cache_get (cache_del k (map g c)) r
  = if String.eqb r k then None else option_map g (cache_get c r).
Proof.
  intros Hg. induction c as [|a l IH]; cbn [map cache_del cache_get].
  - now destruct (String.eqb r k).
  - rewrite Hg. destruct (String.eqb_spec (rid a) k) as [E|NE].
    + rewrite IH. destruct (String.eqb_spec r k) as [->|N]; auto.
      destruct (String.eqb_spec (rid a) r); [congruence|reflexivity].
    + cbn [cache_get]. rewrite Hg, IH.
      destruct (String.eqb_spec (rid a) r) as [<-|N].
      * destruct (String.eqb_spec (rid a) k); [contradiction|reflexivity].
      * reflexivity.
Qed.

(** The entries of a reference-state table name items as they are
    cached, under distinct rids. *)
Definition names_cached (c : Cache) (R : Refs) : Prop :=
  NoDup (map (fun e => rid (rs_ci (snd e))) R)
  /\ forall e, In e R ->
       exists x, cache_get c (rid (rs_ci (snd e))) = Some x
                 /\ item_values x = item_values (rs_ci (snd e)).

Lemma tryDelete_loop_counts R : forall s,
  NoDup (cache_rids (cache s)) -> indirect_ok (cache s) ->
  names_cached (cache s) R ->
  NoDup (cache_rids (cache (fold_left tryDelete_step R s)))
  /\ indirect_ok (cache (fold_left tryDelete_step R s)).
Proof.
  induction R as [|e R IH]; intros s ND IO (NR & NC); cbn [fold_left]; auto.
  cbn [map] in NR. inversion NR as [|? ? NI NR']; subst.
  assert (KEEP : forall s1, cache s1 = cache s ->
            NoDup (cache_rids (cache (fold_left tryDelete_step R s1)))
            /\ indirect_ok (cache (fold_left tryDelete_step R s1))).
  { intros s1 E. apply IH; rewrite ?E; auto. split; auto.
    intros e' I. apply NC. now right. }
  unfold tryDelete_step at 2 4.
  destruct (Z.eqb (st (snd e)) stateStale); [apply KEEP, cache_setStale|].
  destruct (Z.eqb (st (snd e)) stateDelete); [|now apply KEEP].
  destruct (NC e (or_introl eq_refl)) as (x & G & V).
  destruct (deleteRef_counts (rs_ci (snd e)) x s ND IO G V) as (ND' & IO').
  apply IH; auto. split; auto.
  intros e' I. destruct (NC e' (or_intror I)) as (x' & G' & V').
  rewrite deleteRef_cache.
  rewrite cache_get_del_map by reflexivity. rewrite G'.
  destruct (String.eqb_spec (rid (rs_ci (snd e'))) (rid (rs_ci (snd e)))) as [E|N].
  - exfalso. apply NI. rewrite <- E.
    apply (in_map (fun e => rid (rs_ci (snd e)))). exact I.
  - cbn [option_map]. eexists. split; [reflexivity|]. exact V'.
Qed.

Lemma refstate_names_cached c ci R : refstate_ok c ci R -> names_cached c R.
Proof.
  intros [ND RE EN DL CV].
  assert (K : forall e, In e R -> cache_get c (fst e) = Some (rs_ci (snd e))).
  { intros [k rs] I. apply (In_get_NoDup _ _ _ ND) in I.
    now destruct (EN _ _ I). }
  split.
  - replace (map (fun e => rid (rs_ci (snd e))) R) with (Obj.keys R); auto.
    unfold Obj.keys. apply map_ext_in. intros e I.
    now rewrite (cache_get_rid _ _ _ (K e I)).
  - intros e I. exists (rs_ci (snd e)). split; auto.
    rewrite (cache_get_rid _ _ _ (K e I)). now apply K.
Qed.

(** [_tryDelete] keeps the reference counts exact.  In a cache with
    distinct keys in which every [indirect] count is the number of
    references to the item from cached items, [_tryDelete] of a cached
    item returns and leaves such a cache: what it evicts no longer
    counts as a referrer of what stays. *)
Theorem tryDelete_keeps_counts_exact s ci :
  NoDup (cache_rids (cache s)) -> indirect_ok (cache s) ->
  cache_get (cache s) (rid ci) = Some ci ->
  exists s',
    tryDelete ci s = Ok tt s'
    /\ NoDup (cache_rids (cache s'))
    /\ indirect_ok (cache s').
Proof.
  intros ND IO Hc. unfold tryDelete.
  destruct (subscribed ci) eqn:Hs.
  - unfold getRefState. rewrite Hs. exists s. now cbn.
  - destruct (getRefState_spec (cache s) ci Hc Hs) as (R & E & OK).
    rewrite E. eexists. split; [reflexivity|].
    apply tryDelete_loop_counts; auto.
    eapply refstate_names_cached; eauto.
Qed.


(* ================================================================== *)
(** ** What the second traversal keeps: anchors *)

(** An entry with a reference from outside the table, or with a direct
    listener. *)
Definition anchor (rs : RefState) : Prop :=
  0 < rc rs \/ direct (rs_ci rs) <> 0.

(** [p] is reached from an anchor of the table along references
    between cached items that are not subscribed. *)
Definition anchored (c : Cache) (R : Refs) (p : string) : Prop :=
  exists a ra, Obj.get a R = Some ra /\ anchor ra /\ nsreach c a p.

Section MarkAnchors.
Variable c : Cache.

  (** Every retained entry is anchored. *)
Definition kept_anchored (R : Refs) : Prop :=
    forall p rs, Obj.get p R = Some rs -> retained (st rs) -> anchored c R p.

  (** The state passed down is [stateDelete], or the rid of an anchor
      that reaches the item it is passed to. *)
Definition tok_anchor (state : tstate) (R : Refs) (p : string) : Prop :=
    match state with
    | TRid T => exists ra, Obj.get T R = Some ra /\ anchor ra /\ nsreach c T p
    | TNum n => n = stateDelete
    | TBool _ => False
    end.

Lemma anchored_le R R' p : refs_le R R' -> anchored c R p -> anchored c R' p.
  Proof.
    intros L (a & ra & G & A & H).
    destruct (refs_le_get_Some _ _ _ _ L G) as (ra' & G' & E1 & E2 & _).
    exists a, ra'. split; auto. split; auto.
    unfold anchor in *. now rewrite <- E1, <- E2.
  Qed.

Lemma tok_anchor_le state R R' p :
    refs_le R R' -> tok_anchor state R p -> tok_anchor state R' p.
  Proof.
    intros L. destruct state as [b|n|T]; cbn; auto.
    intros (ra & G & A & H).
    destruct (refs_le_get_Some _ _ _ _ L G) as (ra' & G' & E1 & E2 & _).
    exists ra'. split; auto. split; auto.
    unfold anchor in *. now rewrite <- E1, <- E2.
  Qed.

Lemma tok_anchor_step state R x y :
    cache_get c (rid x) = Some x ->
    In y (kids c x) -> subscribed y = false ->
    tok_anchor state R (rid x) -> tok_anchor state R (rid y).
  Proof.
    intros Cx I Sy. destruct state as [b|n|T]; cbn; auto.
    intros (ra & G & A & H). exists ra. split; auto. split; auto.
    eapply nsr_step; [exact H|]. rewrite (nskids_of_cached _ _ Cx).
    unfold nskids. apply filter_In. split; auto. unfold nonsub. now rewrite Sy.
  Qed.

Lemma kept_anchored_set R x rs s' :
    Obj.get (rid x) R = Some rs -> st_le (st rs) s' ->
    kept_anchored R ->
    (retained s' -> anchored c R (rid x)) ->
    kept_anchored (Obj.set (rid x) (set_st rs s') R).
  Proof.
    intros G Le K H p rsp Gp Rp.
    pose proof (refs_le_set R (rid x) rs s' G Le) as L.
    apply (anchored_le R); auto.
    destruct (string_dec (rid x) p) as [<-|N].
    - rewrite get_set_eq in Gp. injection Gp as <-. now apply H.
    - rewrite get_set_ne in Gp by auto. eapply K; eauto.
  Qed.

  (** The loop over the items an entry refers to. *)
Lemma anchors_loop (visit : CacheItem -> Refs -> outcome Refs) s1 l :
    (forall y R R',
        In y l ->
        (subscribed y = false -> tok_anchor s1 R (rid y)) ->
        kept_anchored R -> visit y R = Done R' ->
        refs_le R R' /\ kept_anchored R') ->
    forall R R',
      (forall y, In y l -> subscribed y = false -> tok_anchor s1 R (rid y)) ->
      kept_anchored R -> each_ci visit l R = Done R' ->
      refs_le R R' /\ kept_anchored R'.
  Proof.
    induction l as [|y l IH]; intros HV R R' T K E; cbn [each_ci] in E.
    - injection E as <-. split; auto using refs_le_refl.
    - destruct (visit y R) as [R1| |] eqn:E1; try discriminate.
      destruct (HV y R R1 (or_introl eq_refl) (T y (or_introl eq_refl)) K E1)
        as (L1 & K1).
      destruct (IH (fun z A B I => HV z A B (or_intror I)) R1 R') as (L2 & K2); auto.
      + intros z I Sz. eapply tok_anchor_le; eauto. apply T; auto. now right.
      + split; auto. eapply refs_le_trans; eauto.
  Qed.

Lemma anchors_visit fuel :
    forall x state R R',
      cache_get c (rid x) = Some x ->
      (subscribed x = false -> tok_anchor state R (rid x)) ->
      kept_anchored R ->
      traverse fuel c markDelete x state false R = Done R' ->
      refs_le R R' /\ kept_anchored R'.
  Proof.
    induction fuel as [|fuel IH]; intros x state R R' Cx T K E;
      [discriminate|].
    rewrite traverse_visit_eq in E. unfold markDelete at 1 in E.
    destruct (subscribed x) eqn:Sx.
    { cbn [tstate_is_false] in E. injection E as <-.
      split; auto using refs_le_refl. }
    specialize (T eq_refl).
    destruct (Obj.get (rid x) R) as [rs|] eqn:G; [|discriminate].
    (* the entry is updated to [s'] and the children visited with [s1] *)
    assert (EXP : forall s' s1,
      st_le (st rs) s' ->
      (retained s' -> anchored c R (rid x)) ->
      tok_anchor s1 (Obj.set (rid x) (set_st rs s') R) (rid x) ->
      each_ci (fun ci' r => traverse fuel c markDelete ci' s1 false r)
              (kids c x) (Obj.set (rid x) (set_st rs s') R) = Done R' ->
      refs_le R R' /\ kept_anchored R').
    { intros s' s1 Le An Tk E'.
      pose proof (refs_le_set R (rid x) rs s' G Le) as L0.
      pose proof (kept_anchored_set R x rs s' G Le K An) as K0.
      destruct (anchors_loop
                  (fun ci' r => traverse fuel c markDelete ci' s1 false r) s1
                  (kids c x))
        with (R := Obj.set (rid x) (set_st rs s') R) (R' := R')
        as (L1 & K1); auto.
      - intros y R1 R1' I Ty Ky Ey.
        apply (IH y s1 R1 R1'); auto. eapply kids_cached; exact I.
      - intros y I Sy. eapply tok_anchor_step; eauto.
      - split; auto. eapply refs_le_trans; eauto. }
    assert (SELF : forall s', anchor rs ->
              tok_anchor (TRid (rid x)) (Obj.set (rid x) (set_st rs s') R) (rid x)).
    { intros s' A. cbn. exists (set_st rs s'). rewrite get_set_eq.
      split; auto. split; [exact A|constructor]. }
    assert (ANC : anchor rs -> anchored c R (rid x)).
    { intros A. exists (rid x), rs. split; auto. split; auto. constructor. }
    assert (LK : st_le (st rs) stateKeep) by (right; left; reflexivity).
    destruct (Z.eqb_spec (st rs) stateKeep) as [Kp|NK].
    { cbn [tstate_is_false] in E. injection E as <-.
      split; auto using refs_le_refl. }
    destruct (tstate_is_delete state) eqn:SD.
    - destruct (Z.ltb_spec 0 (rc rs)) as [RC|RC].
      + cbn [tstate_is_false] in E.
        apply (EXP stateKeep (TRid (rid x))); auto.
        * intros _. apply ANC. now left.
        * apply SELF. now left.
      + destruct (Z.eqb_spec (st rs) stateNone) as [N0|N0]; cbn [negb] in E.
        2:{ cbn [tstate_is_false] in E. injection E as <-.
            split; auto using refs_le_refl. }
        destruct (Z.eqb_spec (direct (rs_ci rs)) 0) as [D0|D0]; cbn [negb] in E.
        * cbn [tstate_is_false] in E.
          apply (EXP stateDelete (TNum stateDelete)); auto.
          -- right. right. auto.
          -- unfold retained, stateDelete, stateKeep, stateStale. lia.
          -- reflexivity.
        * cbn [tstate_is_false] in E.
          apply (EXP stateStale (TRid (rid x))); auto.
          -- right. right. auto.
          -- intros _. apply ANC. now right.
          -- apply SELF. now right.
    - destruct (tstate_is_rid (rid x) state) eqn:TR.
      + cbn [tstate_is_false] in E. injection E as <-.
        split; auto using refs_le_refl.
      + destruct state as [b|n|T0]; cbn in T; try tauto.
        { subst n. discriminate. }
        destruct (Z.ltb_spec 0 (rc rs)) as [RC|RC]; cbn [tstate_is_false] in E.
        * apply (EXP stateKeep (TRid (rid x))); auto.
          -- intros _. apply ANC. now left.
          -- apply SELF. now left.
        * apply (EXP stateKeep (TRid T0)); auto.
          -- intros _. destruct T as (ra & Ga & A & H). exists T0, ra. auto.
          -- apply (tok_anchor_le (TRid T0) R); [now apply refs_le_set|exact T].
  Qed.
End MarkAnchors.

(** [_getRefState] marks for deletion exactly what nothing holds.  In
    the table returned for a cached root that is not subscribed, an
    entry has [stateDelete] if and only if no entry with a reference
    from outside the table ([rc > 0]) or with a direct listener reaches
    it along references between cached items that are not subscribed. *)
Theorem getRefState_deletes_exactly_unanchored c ci R p rs :
  cache_get c (rid ci) = Some ci -> subscribed ci = false ->
  getRefState c ci = Done R ->
  Obj.get p R = Some rs ->
  (st rs = stateDelete <-> ~ anchored c R p).
Proof.
  intros Hc Hs E G.
  destruct (getRefState_spec c ci Hc Hs) as (R' & E' & OK).
  rewrite E in E'. injection E' as <-.
  assert (KA : kept_anchored c R).
  { unfold getRefState in E. rewrite Hs in E.
    destruct (seekPass c ci) as [R0| |] eqn:E0; try discriminate.
    destruct (seekPass_spec c ci R0 Hc E0) as (_ & _ & EN & _).
    eapply (anchors_visit c (mark_fuel R0) ci (TNum stateDelete) R0 R); eauto.
    - intros _. reflexivity.
    - intros q rq Gq Rq. destruct (EN _ _ Gq) as (_ & S0 & _).
      unfold retained, stateNone, stateKeep, stateStale in *. lia. }
  destruct OK as [ND RE EN DL CV].
  split.
  - intros D (a & ra & Ga & A & H).
    assert (RT : forall q, nsreach c a q ->
                   exists rq, Obj.get q R = Some rq /\ retained (st rq)).
    { intros q Hq. induction Hq as [|b y Hb IH Hy].
      - exists ra. split; auto.
        destruct (EN _ _ Ga) as (_ & _ & _ & [Dl|Rt]); auto.
        destruct (DL _ _ Ga Dl) as (RC & D0). unfold anchor in A. lia.
      - destruct IH as (rb & Gb & Rb). eapply CV; eauto. }
    destruct (RT p H) as (rp & Gp & Rp). rewrite G in Gp. injection Gp as <-.
    unfold retained, stateDelete, stateKeep, stateStale in *. lia.
  - intros NA. destruct (EN _ _ G) as (_ & _ & _ & [Dl|Rt]); auto.
    exfalso. apply NA. eapply KA; eauto.
Qed.


(* ================================================================== *)
(** ** What [_tryDelete] does evict *)

Lemma get_del_other {V} k k' (o : Obj.t V) :
  k <> k' -> Obj.get k (Obj.del k' o) = Obj.get k o.
Proof.
  intros N. induction o as [|[a v] o IH]; cbn; auto.
  destruct (String.eqb_spec a k') as [->|N1]; cbn.
  - destruct (String.eqb_spec k' k); [congruence|exact IH].
  - now rewrite IH.
Qed.

Lemma is_stale_removeStale_other k k' s :
  k <> k' -> is_stale k (removeStale k' s) = is_stale k s.
Proof.
  intros N. unfold removeStale, is_stale.
  destruct (stale s) as [o|] eqn:E; [|now rewrite E].
  pose proof (get_del_other k k' o N) as G.
  destruct (Obj.del k' o) as [|e o'] eqn:D; cbn [stale set_stale].
  - rewrite <- G. reflexivity.
  - now rewrite G.
Qed.

Lemma is_stale_removeStale_same k s : is_stale k (removeStale k s) = false.
Proof.
  unfold removeStale, is_stale.
  destruct (stale s) as [o|] eqn:E; [|now rewrite E].
  pose proof (get_del k o) as G.
  destruct (Obj.del k o) as [|e o'] eqn:D; cbn [stale set_stale]; auto.
  now rewrite G.
Qed.

Lemma is_stale_setStale k k' s :
  is_stale k (setStale k' s) = (String.eqb k' k || is_stale k s)%bool.
Proof.
  unfold setStale. set (s1 := addStale k' s).
  assert (E : is_stale k s1 = (String.eqb k' k || is_stale k s)%bool).
  { unfold s1, addStale, is_stale. cbn [stale set_stale].
    destruct (String.eqb_spec k' k) as [->|N].
    - now rewrite get_set_eq.
    - rewrite get_set_ne by auto. now destruct (stale s). }
  destruct (connected s1); auto.
Qed.

Lemma is_stale_deleteRef k ci s :
  is_stale k (deleteRef ci s)
  = (negb (String.eqb k (rid ci)) && is_stale k s)%bool.
Proof.
  unfold deleteRef. set (s0 := uncache _ _).
  assert (E : is_stale k s0 = is_stale k s) by reflexivity.
  destruct (String.eqb_spec k (rid ci)) as [->|N]; cbn [negb andb].
  - apply is_stale_removeStale_same.
  - now rewrite is_stale_removeStale_other.
Qed.

(** After the loop of [_tryDelete], a rid is in the stale set if the
    table marks it stale, is not if the table marks it for deletion,
    and is as before otherwise. *)
Lemma tryDelete_loop_stale k R : forall s,
  NoDup (Obj.keys R) ->
  (forall e, In e R -> rid (rs_ci (snd e)) = fst e) ->
  is_stale k (fold_left tryDelete_step R s)
  = match Obj.get k R with
    | Some rs =>
        if Z.eqb (st rs) stateStale then true
        else if Z.eqb (st rs) stateDelete then false
        else is_stale k s
    | None => is_stale k s
    end.
Proof.
  induction R as [|[k' rs] R IH]; intros s ND HR; cbn [fold_left]; auto.
  cbn [Obj.keys map fst] in ND. inversion ND as [|? ? NI ND']; subst.
  rewrite IH; auto.
  2:{ intros e I. apply HR. now right. }
  pose proof (HR (k', rs) (or_introl eq_refl)) as Ek. cbn [fst snd] in Ek.
  cbn [Obj.get]. unfold tryDelete_step. cbn [fst snd].
  destruct (String.eqb_spec k' k) as [->|N].
  - assert (G : Obj.get k R = None) by now apply get_None_keys.
    rewrite G.
    destruct (Z.eqb (st rs) stateStale).
    + rewrite is_stale_setStale, String.eqb_refl. reflexivity.
    + destruct (Z.eqb (st rs) stateDelete); auto.
      rewrite is_stale_deleteRef, Ek, String.eqb_refl. reflexivity.
  - assert (O : is_stale k
                  (if Z.eqb (st rs) stateStale then setStale k' s
                   else if Z.eqb (st rs) stateDelete then deleteRef (rs_ci rs) s
                        else s) = is_stale k s).
    { destruct (Z.eqb (st rs) stateStale).
      - rewrite is_stale_setStale.
        destruct (String.eqb_spec k' k); [contradiction|reflexivity].
      - destruct (Z.eqb (st rs) stateDelete); auto.
        rewrite is_stale_deleteRef, Ek.
        destruct (String.eqb_spec k k'); [congruence|reflexivity]. }
    rewrite O. reflexivity.
Qed.


(* ================================================================== *)
(** ** Why an entry is kept *)

Section MarkKeeps.
Variable c : Cache.

  (** Some cached item that is not subscribed refers to [p]. *)
Definition has_parent (p : string) : Prop :=
    exists b y, In y (nskids_of c b) /\ rid y = p.

  (** An entry marked [stateKeep] has a reference from outside the
      table or from a cached item that is not subscribed; an entry
      marked [stateStale] has a direct listener and no reference from
      outside. *)
Definition marks_justified (R : Refs) : Prop :=
    forall p rs, Obj.get p R = Some rs ->
      (st rs = stateKeep -> 0 < rc rs \/ has_parent p)
      /\ (st rs = stateStale -> rc rs <= 0 /\ direct (rs_ci rs) <> 0).

Lemma marks_justified_set R x rs s' :
    Obj.get (rid x) R = Some rs ->
    marks_justified R ->
    (s' = stateKeep -> 0 < rc rs \/ has_parent (rid x)) ->
    (s' = stateStale -> rc rs <= 0 /\ direct (rs_ci rs) <> 0) ->
    marks_justified (Obj.set (rid x) (set_st rs s') R).
  Proof.
    intros G K H1 H2 p rsp Gp.
    destruct (string_dec (rid x) p) as [<-|N].
    - rewrite get_set_eq in Gp. injection Gp as <-. cbn [st rc rs_ci set_st].
      auto.
    - rewrite get_set_ne in Gp by auto. eapply K; eauto.
  Qed.

Lemma keeps_loop (visit : CacheItem -> Refs -> outcome Refs) l :
    (forall y R R',
        In y l -> marks_justified R -> visit y R = Done R' ->
        marks_justified R') ->
    forall R R',
      marks_justified R -> each_ci visit l R = Done R' -> marks_justified R'.
  Proof.
    induction l as [|y l IH]; intros HV R R' K E; cbn [each_ci] in E.
    - now injection E as <-.
    - destruct (visit y R) as [R1| |] eqn:E1; try discriminate.
      apply (IH (fun z A B I => HV z A B (or_intror I)) R1 R'); auto.
      eapply HV; eauto. now left.
  Qed.

Lemma keeps_visit fuel :
    forall x state R R',
      cache_get c (rid x) = Some x ->
      (subscribed x = false -> tstate_is_delete state = false ->
       has_parent (rid x)) ->
      marks_justified R ->
      traverse fuel c markDelete x state false R = Done R' ->
      marks_justified R'.
  Proof.
    induction fuel as [|fuel IH]; intros x state R R' Cx T K E;
      [discriminate|].
    rewrite traverse_visit_eq in E. unfold markDelete at 1 in E.
    destruct (subscribed x) eqn:Sx.
    { cbn [tstate_is_false] in E. now injection E as <-. }
    specialize (T eq_refl).
    destruct (Obj.get (rid x) R) as [rs|] eqn:G; [|discriminate].
    assert (EXP : forall s' s1,
      (s' = stateKeep -> 0 < rc rs \/ has_parent (rid x)) ->
      (s' = stateStale -> rc rs <= 0 /\ direct (rs_ci rs) <> 0) ->
      each_ci (fun ci' r => traverse fuel c markDelete ci' s1 false r)
              (kids c x) (Obj.set (rid x) (set_st rs s') R) = Done R' ->
      marks_justified R').
    { intros s' s1 H1 H2 E'.
      apply (keeps_loop
               (fun ci' r => traverse fuel c markDelete ci' s1 false r)
               (kids c x)) with (R := Obj.set (rid x) (set_st rs s') R); auto.
      - intros y R1 R1' I Ky Ey.
        apply (IH y s1 R1 R1'); auto.
        + eapply kids_cached; exact I.
        + intros Sy _. exists (rid x), y. split; auto.
          rewrite (nskids_of_cached _ _ Cx). unfold nskids.
          apply filter_In. split; auto. unfold nonsub. now rewrite Sy.
      - now apply marks_justified_set. }
    destruct (Z.eqb_spec (st rs) stateKeep) as [Kp|NK].
    { cbn [tstate_is_false] in E. now injection E as <-. }
    destruct (tstate_is_delete state) eqn:SD.
    - destruct (Z.ltb_spec 0 (rc rs)) as [RC|RC].
      + cbn [tstate_is_false] in E.
        apply (EXP stateKeep (TRid (rid x))); auto. discriminate.
      + destruct (Z.eqb_spec (st rs) stateNone) as [N0|N0]; cbn [negb] in E.
        2:{ cbn [tstate_is_false] in E. now injection E as <-. }
        destruct (Z.eqb_spec (direct (rs_ci rs)) 0) as [D0|D0]; cbn [negb] in E.
        * cbn [tstate_is_false] in E.
          apply (EXP stateDelete (TNum stateDelete)); auto; discriminate.
        * cbn [tstate_is_false] in E.
          apply (EXP stateStale (TRid (rid x))); auto. discriminate.
    - destruct (tstate_is_rid (rid x) state) eqn:TR.
      + cbn [tstate_is_false] in E. now injection E as <-.
      + assert (NF : tstate_is_false (if 0 <? rc rs then TRid (rid x) else state)
                     = true ->
                     marks_justified R').
        { intros F. rewrite F in E. injection E as <-.
          apply marks_justified_set; auto. discriminate. }
        destruct (tstate_is_false (if 0 <? rc rs then TRid (rid x) else state))
          eqn:F; [now apply NF|].
        apply (EXP stateKeep (if 0 <? rc rs then TRid (rid x) else state)); auto.
        discriminate.
  Qed.
End MarkKeeps.

Lemma getRefState_marks_justified c ci R :
  cache_get c (rid ci) = Some ci -> subscribed ci = false ->
  getRefState c ci = Done R -> marks_justified c R.
Proof.
  intros Hc Hs E. unfold getRefState in E. rewrite Hs in E.
  destruct (seekPass c ci) as [R0| |] eqn:E0; try discriminate.
  destruct (seekPass_spec c ci R0 Hc E0) as (_ & _ & EN & _).
  eapply (keeps_visit c (mark_fuel R0) ci (TNum stateDelete) R0 R); eauto.
  - intros _. discriminate.
  - intros q rq Gq. destruct (EN _ _ Gq) as (_ & S0 & _).
    rewrite S0. split; discriminate.
Qed.

Lemma hits_In_pos r L y : In y L -> rid y = r -> 0 < hits r L.
Proof.
  intros I E. pose proof (hits_nonneg r L).
  destruct (Z.eq_dec (hits r L) 0) as [Z0|]; [|lia].
  exfalso. exact (hits_zero_In r L y Z0 I E).
Qed.

(** With exact counts, an item whose [indirect] count is zero has no
    cached referrer. *)
Lemma no_parent_of_unreferenced c ci :
  indirect_ok c -> cache_get c (rid ci) = Some ci -> indirect ci = 0 ->
  ~ has_parent c (rid ci).
Proof.
  intros IO Hc I0 (b & y & Hy & Ey).
  unfold nskids_of in Hy. destruct (cache_get c b) as [pb|] eqn:Eb; [|destruct Hy].
  unfold nskids in Hy. apply filter_In in Hy. destruct Hy as (Hy & _).
  pose proof (hits_In_pos (rid ci) _ y Hy Ey) as P.
  pose proof (inbound_ge c (fun _ => true) (rid ci) pb
                (cache_get_In _ _ _ Eb) eq_refl) as GE.
  rewrite <- (IO ci (cache_get_In _ _ _ Hc)) in GE. lia.
Qed.

Lemma tryDelete_step_frame e s :
  connected (tryDelete_step s e) = connected s
  /\ exists t, trace (tryDelete_step s e) = trace s ++ t.
Proof.
  unfold tryDelete_step.
  destruct (Z.eqb (st (snd e)) stateStale).
  - unfold setStale. destruct (connected (addStale (fst e) s)).
    + split; [reflexivity|]. eexists. reflexivity.
    + split; [reflexivity|]. exists []. now rewrite app_nil_r.
  - destruct (Z.eqb (st (snd e)) stateDelete).
    + unfold deleteRef. set (s0 := uncache _ _). unfold removeStale.
      destruct (stale s0) as [o|]; [destruct (Obj.del (rid (rs_ci (snd e))) o)|];
        (split; [reflexivity|exists []; now rewrite app_nil_r]).
    + split; auto. exists []. now rewrite app_nil_r.
Qed.

(** The loop of [_tryDelete] sets the timer that resubscribes for
    every entry marked stale, when the client is connected. *)
Lemma tryDelete_loop_timer R : forall s k rs,
  In (k, rs) R -> st rs = stateStale -> connected s = true ->
  In (ETimeout (TmSubscribeToStale k) subscribeStaleDelay)
     (trace (fold_left tryDelete_step R s)).
Proof.
  assert (MONO : forall R0 s e, In e (trace s) ->
                   In e (trace (fold_left tryDelete_step R0 s))).
  { intros R0. induction R0 as [|x R0 IH]; intros s e I; cbn [fold_left]; auto.
    apply IH. destruct (tryDelete_step_frame x s) as (_ & t & ->).
    apply in_or_app. now left. }
  induction R as [|x R IH]; intros s k rs I S C; [destruct I|].
  cbn [fold_left]. destruct I as [->|I].
  - apply MONO. unfold tryDelete_step. cbn [fst snd]. rewrite S.
    cbn [Z.eqb stateStale]. unfold setStale.
    replace (connected (addStale k s)) with true by (symmetry; exact C).
    unfold emit. cbn [trace set_trace]. apply in_or_app. right. now left.
  - apply (IH _ k rs); auto.
    destruct (tryDelete_step_frame x s) as (-> & _). exact C.
Qed.

(** What [_tryDelete] does with an item nothing refers to.  In a cache
    with distinct keys and exact [indirect] counts, for a cached item
    that is not subscribed and whose [indirect] count is zero:
    without a direct listener the item is evicted and its rid is not in
    the stale set; with a direct listener it stays in the cache, its rid
    is put in the stale set and, when the client is connected, the timer
    that resubscribes it is set. *)
Theorem tryDelete_of_unreferenced_item s ci :
  NoDup (cache_rids (cache s)) -> indirect_ok (cache s) ->
  cache_get (cache s) (rid ci) = Some ci ->
  subscribed ci = false -> indirect ci = 0 ->
  exists s',
    tryDelete ci s = Ok tt s'
    /\ (direct ci = 0 ->
          cache_get (cache s') (rid ci) = None
          /\ is_stale (rid ci) s' = false)
    /\ (direct ci <> 0 ->
          cache_get (cache s') (rid ci) <> None
          /\ is_stale (rid ci) s' = true
          /\ (connected s = true ->
                In (ETimeout (TmSubscribeToStale (rid ci)) subscribeStaleDelay)
                   (trace s'))).
Proof.
  intros ND IO Hc Hs I0.
  destruct (getRefState_spec (cache s) ci Hc Hs) as (R & E & OK).
  exists (fold_left tryDelete_step R s).
  split; [unfold tryDelete; now rewrite E|].
  pose proof (getRefState_marks_justified _ _ _ Hc Hs E) as MJ.
  pose proof (no_parent_of_unreferenced _ _ IO Hc I0) as NP.
  destruct (keys_get (rid ci) R) as (rs0 & G0).
  { apply (ro_reach _ _ _ OK). constructor. }
  destruct (ro_entry _ _ _ OK _ _ G0) as (C0 & _ & RC0 & CL0).
  rewrite Hc in C0. injection C0 as C0.
  assert (RC : rc rs0 <= 0).
  { rewrite RC0, <- C0, I0. unfold inner_edges.
    pose proof (hits_nonneg (rid ci) (flat_map (nskids_of (cache s)) (Obj.keys R))).
    lia. }
  assert (NK : st rs0 <> stateKeep).
  { intros Kp. destruct (proj1 (MJ _ _ G0) Kp) as [P|P]; [lia|contradiction]. }
  assert (HR : forall e, In e R -> rid (rs_ci (snd e)) = fst e).
  { intros [k rs] I. apply (In_get_NoDup _ _ _ (ro_nodup _ _ _ OK)) in I.
    destruct (ro_entry _ _ _ OK _ _ I) as (C & _).
    now apply cache_get_rid in C. }
  pose proof (tryDelete_loop_stale (rid ci) R s (ro_nodup _ _ _ OK) HR) as ST.
  rewrite G0 in ST.
  pose proof (tryDelete_loop_rids R s) as RD.
  assert (DEL : deleted (rid ci) R = true <-> st rs0 = stateDelete).
  { unfold deleted. rewrite existsb_exists. split.
    - intros ([k rs] & I & H). cbn [snd] in H.
      apply andb_true_iff in H. destruct H as (H1 & H2).
      apply Z.eqb_eq in H1. apply String.eqb_eq in H2.
      pose proof (HR _ I) as Ek. cbn [fst snd] in Ek.
      apply (In_get_NoDup _ _ _ (ro_nodup _ _ _ OK)) in I.
      rewrite <- Ek, H2, G0 in I. now injection I as <-.
    - intros D. exists (rid ci, rs0). split; [now apply get_In|].
      cbn [snd]. rewrite D, <- C0. cbn [Z.eqb stateDelete andb].
      apply String.eqb_refl. }
  split.
  - intros D0.
    assert (D : st rs0 = stateDelete).
    { destruct CL0 as [D|[Kp|S]]; auto; [contradiction|].
      destruct (proj2 (MJ _ _ G0) S) as (_ & DN). rewrite <- C0 in DN.
      contradiction. }
    split.
    + apply cache_get_None. rewrite RD. intros I. apply filter_In in I.
      destruct I as (_ & I). apply DEL in D. rewrite D in I. discriminate.
    + rewrite ST, D. reflexivity.
  - intros DN.
    assert (S : st rs0 = stateStale).
    { destruct CL0 as [D|[Kp|S]]; auto; [|contradiction].
      destruct (ro_delete _ _ _ OK _ _ G0 D) as (_ & D0). rewrite <- C0 in D0.
      contradiction. }
    split; [|split].
    + intros N. apply cache_get_None in N. apply N. rewrite RD.
      apply filter_In. split.
      * unfold cache_rids. apply in_map. eapply cache_get_In; eauto.
      * destruct (deleted (rid ci) R); auto.
        exfalso. destruct DEL as [DEL _]. specialize (DEL eq_refl).
        rewrite S in DEL. discriminate.
    + rewrite ST, S. reflexivity.
    + intros Cn. apply (tryDelete_loop_timer R s (rid ci) rs0); auto.
      now apply get_In.
Qed.


(* ================================================================== *)
(** ** The reference-state engine: summary *)

(** [_getRefState] returns for every cached root that is not
    subscribed, whatever cycles the references form.  The table it
    returns has an entry for the root and for every item that is
    reached from it along references between cached items that are not
    subscribed, and for no other rid; every entry holds the item cached
    under its key and one of the states delete, keep and stale. *)
Theorem getRefState_classifies_reachable c ci :
  cache_get c (rid ci) = Some ci -> subscribed ci = false ->
  exists R,
    getRefState c ci = Done R
    /\ NoDup (Obj.keys R)
    /\ (forall r, In r (Obj.keys R) <-> nsreach c (rid ci) r)
    /\ (forall r rs, Obj.get r R = Some rs ->
          cache_get c r = Some (rs_ci rs)
          /\ (st rs = stateDelete \/ st rs = stateKeep \/ st rs = stateStale)).
Proof.
  intros Hc Hs. destruct (getRefState_spec c ci Hc Hs) as (R & E & OK).
  exists R. split; auto. split; [apply (ro_nodup _ _ _ OK)|].
  split; [apply (ro_reach _ _ _ OK)|].
  intros r rs G. destruct (ro_entry _ _ _ OK _ _ G) as (C & _ & _ & S). auto.
Qed.

Lemma getRefState_classifies_reachable_witness :
  exists R,
    getRefState ex_cache ex_A = Done R
    /\ NoDup (Obj.keys R)
    /\ (forall r, In r (Obj.keys R) <-> nsreach ex_cache (rid ex_A) r)
    /\ (forall r rs, Obj.get r R = Some rs ->
          cache_get ex_cache r = Some (rs_ci rs)
          /\ (st rs = stateDelete \/ st rs = stateKeep \/ st rs = stateStale)).
Proof.
  apply (getRefState_classifies_reachable ex_cache ex_A); reflexivity.
Defined.

Lemma getRefState_deletes_exactly_unanchored_witness :
  let R := [("X", mkRS ex_X 0 stateDelete); ("Y", mkRS ex_Y 0 stateDelete)] in
  st (mkRS ex_Y 0 stateDelete) = stateDelete <-> ~ anchored ex_orphans R "Y".
Proof.
  apply (getRefState_deletes_exactly_unanchored ex_orphans ex_X
           [("X", mkRS ex_X 0 stateDelete); ("Y", mkRS ex_Y 0 stateDelete)]
           "Y" (mkRS ex_Y 0 stateDelete)); reflexivity.
Defined.

Lemma tryDelete_keeps_counts_exact_witness :
  exists s',
    tryDelete ex_X (set_cache ex_orphans newClient) = Ok tt s'
    /\ NoDup (cache_rids (cache s'))
    /\ indirect_ok (cache s').
Proof.
  apply (tryDelete_keeps_counts_exact (set_cache ex_orphans newClient) ex_X).
  - exact ex_orphans_nodup.
  - exact ex_orphans_indirect_ok.
  - reflexivity.
Defined.

Lemma tryDelete_of_unreferenced_item_witness :
  let s := set_connected true (set_cache ex_listened newClient) in
  exists s',
    tryDelete ex_L s = Ok tt s'
    /\ (direct ex_L = 0 ->
          cache_get (cache s') (rid ex_L) = None
          /\ is_stale (rid ex_L) s' = false)
    /\ (direct ex_L <> 0 ->
          cache_get (cache s') (rid ex_L) <> None
          /\ is_stale (rid ex_L) s' = true
          /\ (connected s = true ->
                In (ETimeout (TmSubscribeToStale (rid ex_L)) subscribeStaleDelay)
                   (trace s'))).
Proof.
  apply (tryDelete_of_unreferenced_item
           (set_connected true (set_cache ex_listened newClient)) ex_L).
  - exact ex_listened_nodup.
  - exact ex_listened_indirect_ok.
  - reflexivity.
  - reflexivity.
  - reflexivity.
Defined.


(* ================================================================== *)
(** ** Relations kept by everything that stays inside the client *)

(** Effects that do not reach the socket. *)
Definition is_local (e : effect) : bool :=
  match e with
  | ESend _ _ _ | EWsNew | EWsClose => false
  | _ => true
  end.

(** A relation that holds across every update of the cache and of the
    detached items, every allocation, every addition to and removal
    from the stale set, and every effect that does not reach the
    socket. *)
Record passive (R : Client -> Client -> Prop) : Prop := mkPassive {
  pa_po : preorder R;
  pa_fresh : forall s, R s (set_nextId (S (nextId s)) s);
  pa_cache : forall c s, R s (set_cache c s);
  pa_detached : forall d s, R s (set_detached d s);
  pa_addStale : forall r s, R s (addStale r s);
  pa_removeStale : forall r s, R s (removeStale r s);
  pa_emit : forall e s, is_local e = true -> R s (emit e s)
}.

Create HintDb passive.
#[local] Hint Resolve pa_po : passive.

Ltac pframe_step :=
  match goal with
  | |- obeys _ (bind _ _) => apply obeys_bind; [solve [auto with passive]| |intros ?]
  | |- obeys _ (ret _) => apply obeys_ret; solve [auto with passive]
  | |- obeys _ (throw _) => apply obeys_throw; solve [auto with passive]
  | |- obeys _ (gets _) => apply obeys_gets; solve [auto with passive]
  | |- obeys _ (forEach _ _) =>
      apply obeys_forEach; [solve [auto with passive]|intros ?]
  | |- obeys _ (try_catch _ _) =>
      apply obeys_try_catch; [solve [auto with passive]| |intros ?]
  | |- obeys _ (if ?b then _ else _) => destruct b
  | |- obeys _ (match ?x with _ => _ end) => destruct x
  | |- obeys _ (let '(_, _) := ?x in _) => destruct x
  end.

Ltac pframe := repeat pframe_step; auto with passive.

Section Passive.
Variable R : Client -> Client -> Prop.
Hypothesis HP : passive R.

Lemma passive_setStale_step r s : R s (setStale r s).
  Proof.
    unfold setStale.
    destruct (connected _); [|apply (pa_addStale R HP)].
    eapply (po_trans R (pa_po R HP)); [apply (pa_addStale R HP)|].
    now apply (pa_emit R HP).
  Qed.

Lemma passive_uncache_step r s : R s (uncache r s).
  Proof.
    unfold uncache.
    eapply (po_trans R (pa_po R HP)); [|apply (pa_cache R HP)].
    apply (pa_detached R HP).
  Qed.

Lemma passive_deleteRef_step ci s : R s (deleteRef ci s).
  Proof.
    unfold deleteRef. set (c' := fold_left _ (item_values ci) (cache s)).
    apply (po_trans R (pa_po R HP) _ (set_cache c' s)); [apply (pa_cache R HP)|].
    apply (po_trans R (pa_po R HP) _ (uncache (rid ci) (set_cache c' s)));
      [apply passive_uncache_step|].
    apply (pa_removeStale R HP).
  Qed.

Lemma passive_tryDelete_loop refs : forall s, R s (fold_left tryDelete_step refs s).
  Proof.
    induction refs as [|e refs IH]; intros s; simpl.
    - apply (po_refl R (pa_po R HP)).
    - eapply (po_trans R (pa_po R HP)); [|apply IH]. unfold tryDelete_step.
      destruct (Z.eqb (st (snd e)) stateStale); [apply passive_setStale_step|].
      destruct (Z.eqb (st (snd e)) stateDelete); [apply passive_deleteRef_step|].
      apply (po_refl R (pa_po R HP)).
  Qed.

Lemma passive_set_cache (f : Client -> Cache) :
    obeys R (modify (fun s => set_cache (f s) s)).
  Proof. intros s. apply (pa_cache R HP). Qed.

Lemma passive_alter_obj f h : obeys R (modify (alter_obj f h)).
  Proof.
    intros s. unfold modify, alter_obj. cbn [state_of].
    eapply (po_trans R (pa_po R HP)); [|apply (pa_detached R HP)].
    apply (pa_cache R HP).
  Qed.

Lemma passive_modify_removeStale r : obeys R (modify (removeStale r)).
  Proof. intros s. exact (pa_removeStale R HP r s). Qed.

Lemma passive_modify_addStale r : obeys R (modify (addStale r)).
  Proof. intros s. exact (pa_addStale R HP r s). Qed.

Lemma passive_modify_emit e : is_local e = true -> obeys R (modify (emit e)).
  Proof. intros H s. exact (pa_emit R HP e s H). Qed.

Lemma passive_settle p o : obeys R (settle p o).
  Proof. unfold settle. now apply passive_modify_emit. Qed.

Lemma passive_alloc : obeys R alloc.
  Proof. intros s. exact (pa_fresh R HP s). Qed.

Lemma passive_the_obj h : obeys R (the_obj h).
  Proof.
    intros s. unfold the_obj. destruct (deref h s); apply (po_refl R (pa_po R HP)).
  Qed.

Lemma passive_cached r : obeys R (cached r).
  Proof.
    intros s. unfold cached.
    destruct (cache_get (cache s) r); apply (po_refl R (pa_po R HP)).
  Qed.

Lemma passive_emit_bus ci ev p : obeys R (emit_bus ci ev p).
  Proof. intros s. unfold emit_bus. cbn [state_of]. now apply (pa_emit R HP). Qed.

Lemma passive_tryDelete ci : obeys R (tryDelete ci).
  Proof.
    intros s. unfold tryDelete.
    destruct (getRefState (cache s) ci); try apply (po_refl R (pa_po R HP)).
    exact (passive_tryDelete_loop a s).
  Qed.
End Passive.

#[local] Hint Resolve passive_alter_obj passive_modify_removeStale
  passive_modify_addStale passive_settle passive_alloc passive_the_obj
  passive_cached passive_emit_bus passive_tryDelete : passive.
#[local] Hint Extern 1 (obeys _ (modify (emit _))) =>
  apply passive_modify_emit; [solve [auto with passive]|reflexivity] : passive.
#[local] Hint Extern 2 (obeys _ (modify (fun s => set_cache _ s))) =>
  apply passive_set_cache; solve [auto with passive] : passive.

Section PassiveHandlers.
Variable R : Client -> Client -> Prop.
Hypothesis HP : passive R.

Lemma passive_change_step e : obeys R (change_step e).
  Proof. unfold change_step. pframe. Qed.
Hint Resolve passive_change_step : passive.

Lemma passive_change_apply rm : obeys R (change_apply rm).
  Proof. unfold change_apply. pframe. Qed.
Hint Resolve passive_change_apply : passive.

Lemma passive_handleChangeEvent_with cr h ev d :
    (forall x, obeys R (cr x)) -> obeys R (handleChangeEvent_with cr h ev d).
  Proof. intros H. unfold handleChangeEvent_with. pframe. Qed.

Lemma passive_handleAddEvent_with cr h ev d :
    (forall x, obeys R (cr x)) -> obeys R (handleAddEvent_with cr h ev d).
  Proof. intros H. unfold handleAddEvent_with. pframe. Qed.

Lemma passive_handleRemoveEvent h ev d : obeys R (handleRemoveEvent h ev d).
  Proof. unfold handleRemoveEvent. pframe. Qed.

Lemma passive_handleUnsubscribeEvent h ev : obeys R (handleUnsubscribeEvent h ev).
  Proof. unfold handleUnsubscribeEvent. pframe. Qed.
Hint Resolve passive_handleRemoveEvent passive_handleUnsubscribeEvent : passive.

Lemma passive_createItems t refs : obeys R (createItems t refs).
  Proof. induction refs as [|[r d] refs IH]; cbn [createItems]; pframe. Qed.

Lemma passive_take_ref r : obeys R (take_ref r).
  Proof. unfold take_ref. pframe. Qed.
Hint Resolve passive_createItems passive_take_ref : passive.

Lemma passive_prepareValue v : obeys R (prepareValue v).
  Proof. unfold prepareValue. pframe. Qed.
Hint Resolve passive_prepareValue : passive.

Lemma passive_prepareModel o : obeys R (prepareModel o).
  Proof. induction o as [|[k v] o IH]; cbn [prepareModel]; pframe. Qed.

Lemma passive_prepareCollection l : obeys R (prepareCollection l).
  Proof. induction l as [|v l IH]; cbn [prepareCollection]; pframe. Qed.
Hint Resolve passive_prepareModel passive_prepareCollection : passive.

Lemma passive_prepareData d : obeys R (prepareData d).
  Proof. unfold prepareData. pframe. Qed.
Hint Resolve passive_prepareData : passive.

Lemma passive_initItems refs : obeys R (initItems refs).
  Proof. unfold initItems. pframe. Qed.

Lemma passive_no_resources d : obeys R (no_resources d).
  Proof. unfold no_resources. pframe. Qed.
Hint Resolve passive_initItems passive_no_resources : passive.

Lemma passive_syncModel h d : obeys R (syncModel h d).
  Proof.
    unfold syncModel. pframe.
    apply passive_handleChangeEvent_with; auto with passive.
  Qed.

Lemma passive_syncCollection h d : obeys R (syncCollection h d).
  Proof.
    unfold syncCollection. pframe;
      apply passive_handleAddEvent_with; auto with passive.
  Qed.
Hint Resolve passive_syncModel passive_syncCollection : passive.

Lemma passive_syncItems refs : obeys R (syncItems refs).
  Proof. unfold syncItems. pframe. Qed.

Lemma passive_create_phase t d : obeys R (create_phase t d).
  Proof. unfold create_phase. pframe. Qed.
Hint Resolve passive_syncItems passive_create_phase : passive.

Lemma passive_cacheResources d : obeys R (cacheResources d).
  Proof. unfold cacheResources. pframe. Qed.
Hint Resolve passive_cacheResources : passive.

Lemma passive_handleChangeEvent h ev d : obeys R (handleChangeEvent h ev d).
  Proof. apply passive_handleChangeEvent_with; auto with passive. Qed.

Lemma passive_handleAddEvent h ev d : obeys R (handleAddEvent h ev d).
  Proof. apply passive_handleAddEvent_with; auto with passive. Qed.
Hint Resolve passive_handleChangeEvent passive_handleAddEvent : passive.

Lemma passive_handleEvent ev d : obeys R (handleEvent ev d).
  Proof.
    unfold handleEvent. pframe.
    apply obeys_fun. intros s. cbn [state_of]. now apply (pa_emit R HP).
  Qed.

Lemma passive_handleFailedSubscribe h : obeys R (handleFailedSubscribe h).
  Proof. unfold handleFailedSubscribe. pframe. Qed.
Hint Resolve passive_handleFailedSubscribe : passive.

  (** The reactions to a settled request promise stay inside the
      client. *)
Lemma passive_run_cont k o : obeys R (run_cont k o).
  Proof. unfold run_cont. pframe. Qed.
End PassiveHandlers.

#[local] Hint Resolve passive_cacheResources passive_handleEvent
  passive_handleFailedSubscribe passive_run_cont : passive.


(* ================================================================== *)
(** ** Relations kept by every handler *)

(** A passive relation that also holds across a request sent, a
    connection started, reset or rejected, the socket closed, and the
    updates of the fields that queue work. *)
Record wired (R : Client -> Client -> Prop) : Prop := mkWired {
  wi_passive : passive R;
  wi_sendNow : forall m p k o, obeys R (sendNow m p k o);
  wi_connect : obeys R connect;
  wi_connectReject : forall c m, obeys R (connectReject c m);
  wi_reset : forall s, R s (set_ws false (set_connectPromise None s));
  wi_wsclose : forall s, R s (emit EWsClose s);
  wi_waiting : forall w s, R s (set_waiting w s);
  wi_micro : forall q s, R s (set_micro q s);
  wi_requests : forall r s, R s (set_requests r s);
  wi_connectCallback : forall s, R s (set_connectCallback None s);
  wi_connected : forall b s, R s (set_connected b s);
  wi_tryConnect : forall b s, R s (set_tryConnect b s)
}.

#[local] Hint Resolve wi_passive wi_sendNow wi_connect wi_connectReject : passive.

(** [_handleOnclose] after its first two assignments. *)
Definition onclose_rest : M unit :=
  c <- gets connected ;;
  (if c then
     modify (set_connected false) ;;;
     rids <- gets (fun s => cache_rids (cache s)) ;;
     forEach rids (fun r =>
       cc <- gets cache ;;
       match cache_get cc r with
       | None => ret tt
       | Some ci =>
           if subscribed ci then
             modify (fun s => set_cache (cache_alter (setSubscribed false) r (cache s)) s) ;;;
             modify (addStale r) ;;;
             ci' <- cached r ;;
             tryDelete ci'
           else ret tt
       end) ;;;
     modify (emit (EClient "close" None))
   else ret tt) ;;;
  cc <- gets cache ;;
  tc <- gets tryConnect ;;
  let hasStale := match cc with [] => false | _ => true end in
  modify (set_tryConnect (hasStale && tc)) ;;;
  if hasStale && tc
  then modify (emit (ETimeout TmReconnect reconnectDelay))
  else ret tt.


Section Wired.
Variable R : Client -> Client -> Prop.
Hypothesis HW : wired R.

Let PO : preorder R := pa_po R (wi_passive R HW).

Lemma wired_enqueue t : obeys R (enqueue t).
  Proof. intros s. apply (wi_micro R HW). Qed.

Lemma wired_set_waiting (f : Client -> list Pending) :
    obeys R (modify (fun s => set_waiting (f s) s)).
  Proof. intros s. apply (wi_waiting R HW). Qed.

Lemma wired_set_requests (f : Client -> list (Z * Request)) :
    obeys R (modify (fun s => set_requests (f s) s)).
  Proof. intros s. apply (wi_requests R HW). Qed.

Lemma wired_set_connectCallback : obeys R (modify (set_connectCallback None)).
  Proof. intros s. apply (wi_connectCallback R HW). Qed.

Lemma wired_set_connected b : obeys R (modify (set_connected b)).
  Proof. intros s. apply (wi_connected R HW). Qed.

Lemma wired_set_tryConnect (f : Client -> bool) :
    obeys R (modify (fun s => set_tryConnect (f s) s)).
  Proof. intros s. apply (wi_tryConnect R HW). Qed.

Lemma wired_set_tryConnect_const b : obeys R (modify (set_tryConnect b)).
  Proof. intros s. apply (wi_tryConnect R HW). Qed.

Lemma wired_wsclose : obeys R (modify (emit EWsClose)).
  Proof. intros s. apply (wi_wsclose R HW). Qed.

Lemma wired_take_waiting p :
    obeys R (fun s => let (l, s') := take_waiting p s in Ok l s').
  Proof. intros s. cbn. apply (wi_waiting R HW). Qed.

Hint Resolve wired_enqueue wired_set_waiting wired_set_requests
    wired_set_connectCallback wired_set_connected wired_set_tryConnect
    wired_set_tryConnect_const wired_wsclose wired_take_waiting : passive.

Lemma wired_send a r m p k : obeys R (send a r m p k).
  Proof. unfold send. pframe. Qed.
Hint Resolve wired_send : passive.

Lemma wired_subscribe h t g : obeys R (subscribe h t g).
  Proof. unfold subscribe. pframe. Qed.
Hint Resolve wired_subscribe : passive.

Lemma wired_subscribeReferred h : obeys R (subscribeReferred h).
  Proof. unfold subscribeReferred. pframe. Qed.
Hint Resolve wired_subscribeReferred : passive.

Lemma wired_unsubscribe h : obeys R (unsubscribe h).
  Proof. unfold unsubscribe. pframe. Qed.
Hint Resolve wired_unsubscribe : passive.

Lemma wired_resourceOn r : obeys R (resourceOn r).
  Proof. unfold resourceOn. pframe. Qed.

Lemma wired_resourceOff r : obeys R (resourceOff r).
  Proof. unfold resourceOff, removeDirect. pframe. Qed.

Lemma wired_get r : obeys R (get r).
  Proof. unfold get. pframe. Qed.

Lemma wired_call r m p : obeys R (call r m p).
  Proof. unfold call. auto with passive. Qed.

Lemma wired_authenticate r m p : obeys R (authenticate r m p).
  Proof. unfold authenticate. auto with passive. Qed.

Lemma wired_create r p : obeys R (create r p).
  Proof. unfold create. pframe. Qed.

Lemma wired_subscribeToStale r : obeys R (subscribeToStale r).
  Proof. unfold subscribeToStale. pframe. Qed.
Hint Resolve wired_subscribeToStale : passive.

Lemma wired_subscribeToAllStale : obeys R subscribeToAllStale.
  Proof. unfold subscribeToAllStale. pframe. Qed.

Lemma wired_connectResolve : obeys R connectResolve.
  Proof. unfold connectResolve. pframe. Qed.
Hint Resolve wired_subscribeToAllStale wired_connectResolve : passive.

Lemma wired_onConnectDone ok : obeys R (onConnectDone ok).
  Proof. unfold onConnectDone, close_socket. pframe. Qed.

Lemma wired_disconnect : obeys R disconnect.
  Proof. unfold disconnect. pframe. Qed.

Lemma wired_handleOnopen : obeys R handleOnopen.
  Proof. unfold handleOnopen. auto with passive. Qed.

Lemma wired_handleOnerror : obeys R handleOnerror.
  Proof. unfold handleOnerror. auto with passive. Qed.

Lemma wired_reconnectTimer : obeys R reconnectTimer.
  Proof. unfold reconnectTimer. pframe. Qed.

Lemma handleOnclose_split s :
    handleOnclose s = onclose_rest (set_ws false (set_connectPromise None s)).
  Proof. reflexivity. Qed.

Lemma wired_onclose_rest : obeys R onclose_rest.
  Proof. unfold onclose_rest. pframe. Qed.

Lemma wired_handleOnclose : obeys R handleOnclose.
  Proof.
    intros s. rewrite handleOnclose_split.
    eapply (po_trans R PO); [apply (wi_reset R HW)|apply wired_onclose_rest].
  Qed.

Lemma wired_resolve_request id req o : obeys R (resolve_request id req o).
  Proof. unfold resolve_request. pframe. Qed.
Hint Resolve wired_resolve_request : passive.

Lemma wired_receive msg : obeys R (receive msg).
  Proof.
    unfold receive, handleErrorResponse, handleSuccessResponse. pframe.
  Qed.

Lemma wired_handler i : obeys R (handler i).
  Proof.
    destruct i as [r|r m p|r m p|r p|r|r| | | |ok| |msg| |[r|]]; cbn [handler];
      pframe;
      auto using wired_get, wired_call, wired_authenticate, wired_create,
        wired_resourceOn, wired_resourceOff, wired_disconnect, wired_handleOnopen,
        wired_onConnectDone, wired_handleOnerror, wired_receive,
        wired_handleOnclose, wired_reconnectTimer.
  Qed.

Lemma wired_run_task t : obeys R (run_task t).
  Proof. unfold run_task. pframe. Qed.

Lemma wired_run_tasks ts : forall s, R s (run_tasks ts s).
  Proof.
    induction ts as [|t ts IH]; intros s; simpl.
    - apply (po_refl R PO).
    - eapply (po_trans R PO); [apply wired_run_task|apply IH].
  Qed.

Lemma wired_drain s : R s (drain s).
  Proof.
    assert (D : forall s, R s (drain_once s)).
    { intros s0. unfold drain_once.
      eapply (po_trans R PO); [apply (wi_micro R HW)|apply wired_run_tasks]. }
    unfold drain.
    eapply (po_trans R PO); [apply D|].
    eapply (po_trans R PO); apply D.
  Qed.

Lemma wired_turn i s : R s (turn i s).
  Proof.
    unfold turn. eapply (po_trans R PO); [apply wired_handler|apply wired_drain].
  Qed.

Lemma wired_run ins : forall s, R s (run ins s).
  Proof.
    unfold run. induction ins as [|i ins IH]; intros s; simpl.
    - apply (po_refl R PO).
    - eapply (po_trans R PO); [apply wired_turn|apply IH].
  Qed.
End Wired.


(* ================================================================== *)
(** ** Parts of the state that a step leaves alone *)

Definition keeps {V : Type} (v : Client -> V) (s s' : Client) : Prop := v s' = v s.

Lemma keeps_po {V} (v : Client -> V) : preorder (keeps v).
Proof. split; unfold keeps; congruence. Qed.
#[local] Hint Resolve keeps_po : passive.
#[local] Hint Extern 3 (obeys (keeps _) (modify _)) =>
  apply obeys_modify; intros ?; reflexivity : passive.
#[local] Hint Extern 3 (obeys (keeps _) (enqueue _)) =>
  apply obeys_modify; intros ?; reflexivity : passive.
#[local] Hint Extern 3 (obeys (keeps _) (alloc)) =>
  intros ?; reflexivity : passive.
#[local] Hint Extern 3 (obeys (keeps _) (fun s => let (l, s') := take_waiting _ s in Ok l s')) =>
  intros ?; reflexivity : passive.

(** An invariant that reads one part of the state is kept across
    every step that leaves the part alone. *)
Definition through (I : Client -> Prop) (s s' : Client) : Prop := I s -> I s'.

Lemma through_po I : preorder (through I).
Proof. split; unfold through; auto. Qed.

Lemma through_run (I : Client -> Prop) :
  wired (through I) -> I newClient -> forall ins, I (run ins newClient).
Proof. intros HW I0 ins. exact (wired_run _ HW ins newClient I0). Qed.

(* ================================================================== *)
(** ** The stale set is never an empty object *)

Definition stale_nonempty (s : Client) : Prop := stale s <> Some [].

Lemma set_not_nil {V} k (v : V) o : Obj.set k v o <> [].
Proof. destruct o as [|[k' v'] o]; cbn; [discriminate|]. now destruct (String.eqb k' k). Qed.

Lemma stale_nonempty_addStale r s : stale_nonempty (addStale r s).
Proof.
  unfold stale_nonempty, addStale. cbn [stale set_stale].
  intros [= H]. now apply set_not_nil in H.
Qed.

Lemma stale_nonempty_removeStale r s :
  stale_nonempty s -> stale_nonempty (removeStale r s).
Proof.
  unfold stale_nonempty, removeStale. intros H.
  destruct (stale s) as [o|] eqn:E; [|now rewrite E].
  destruct (Obj.del r o); cbn [stale set_stale]; discriminate.
Qed.

Lemma keeps_stale_through s s' :
  keeps stale s s' -> through stale_nonempty s s'.
Proof. unfold keeps, through, stale_nonempty. now intros ->. Qed.

Lemma stale_nonempty_wired : wired (through stale_nonempty).
Proof.
  assert (P : passive (through stale_nonempty)).
  { split; try (intros; apply keeps_stale_through; reflexivity).
    - apply through_po.
    - intros r s _. apply stale_nonempty_addStale.
    - intros r s H. now apply stale_nonempty_removeStale. }
  split; auto; try (intros; apply keeps_stale_through; reflexivity).
  - intros m p k o. apply (obeys_weaken (keeps stale)); [exact keeps_stale_through|].
    unfold sendNow, settle. pframe.
  - apply (obeys_weaken (keeps stale)); [exact keeps_stale_through|].
    unfold connect. pframe.
  - intros c m. apply (obeys_weaken (keeps stale)); [exact keeps_stale_through|].
    unfold connectReject, settle. pframe.
Qed.

(** In every state a session reaches, [this.stale] is [null] or has an
    entry: [_removeStale] resets it to [null] when the last entry goes,
    and nothing else takes entries out. *)
Theorem stale_is_null_or_nonempty ins : stale (run ins newClient) <> Some [].
Proof.
  apply (through_run stale_nonempty stale_nonempty_wired). discriminate.
Qed.


(* ================================================================== *)
(** ** Request ids on the socket *)

(** The ids of the requests written to the socket, in order. *)
Definition sent_ids (t : list effect) : list Z :=
  flat_map (fun e => match e with ESend id _ _ => [id] | _ => [] end) t.

Definition is_send (e : effect) : bool :=
  match e with ESend _ _ _ => true | _ => false end.

Lemma sent_ids_emit e s :
  is_send e = false -> sent_ids (trace (emit e s)) = sent_ids (trace s).
Proof.
  intros H. unfold emit, sent_ids. cbn [trace set_trace].
  rewrite flat_map_app. cbn [flat_map].
  destruct e; try discriminate; now rewrite !app_nil_r.
Qed.

Definition ids_view (s : Client) : Z * list Z := (reqId s, sent_ids (trace s)).

Lemma keeps_ids_emit e : is_send e = false -> obeys (keeps ids_view) (modify (emit e)).
Proof.
  intros H s. unfold keeps, ids_view. cbn [state_of modify].
  now rewrite sent_ids_emit.
Qed.

Lemma keeps_ids_passive : passive (keeps ids_view).
Proof.
  split; try (intros; reflexivity).
  - apply keeps_po.
  - intros r s. unfold keeps, ids_view, removeStale.
    destruct (stale s) as [o|]; [destruct (Obj.del r o)|]; reflexivity.
  - intros e s H. apply (keeps_ids_emit e). now destruct e.
Qed.
#[local] Hint Resolve keeps_ids_passive : passive.
#[local] Hint Extern 1 (obeys (keeps ids_view) (modify (emit _))) =>
  apply keeps_ids_emit; reflexivity : passive.

(** Ids written so far ascend strictly from 1 or above and are below
    the next id. *)
Definition ids_ascend (s : Client) : Prop :=
  1 <= reqId s
  /\ asc_above 0 (sent_ids (trace s))
  /\ forall id, In id (sent_ids (trace s)) -> id < reqId s.

Lemma keeps_ids_through s s' : keeps ids_view s s' -> through ids_ascend s s'.
Proof.
  unfold keeps, through, ids_ascend, ids_view. intros [= E1 E2].
  now rewrite E1, E2.
Qed.

Lemma ids_ascend_sendNow m p k o : obeys (through ids_ascend) (sendNow m p k o).
Proof.
  intros s (H1 & H2 & H3).
  unfold sendNow, settle, enqueue, bind, gets, modify, ret.
  cbn [ws set_reqId set_requests reqId state_of].
  destruct (ws s).
  - unfold ids_ascend. cbn [state_of reqId emit set_trace trace set_requests set_reqId].
    unfold sent_ids. rewrite flat_map_app. cbn [flat_map]. rewrite app_nil_r.
    fold (sent_ids (trace s)).
    split; [lia|]. split.
    + apply asc_above_snoc; auto. lia.
    + intros id I. apply in_app_or in I. destruct I as [I|[<-|[]]]; [|lia].
      specialize (H3 id I). lia.
  - assert (E : forall s1 : Client,
               reqId s1 = reqId s + 1 -> sent_ids (trace s1) = sent_ids (trace s) ->
               ids_ascend s1).
    { intros s1 E1 E2. unfold ids_ascend. rewrite E1, E2.
      split; [lia|]. split; auto. intros id I. specialize (H3 id I). lia. }
    destruct o as [n|]; cbn [state_of]; apply E; try reflexivity;
      cbn [trace set_micro]; rewrite ?sent_ids_emit; reflexivity.
Qed.

Lemma ids_ascend_wired : wired (through ids_ascend).
Proof.
  assert (P : passive (through ids_ascend)).
  { split; try (intros; apply keeps_ids_through; reflexivity).
    - apply through_po.
    - intros r s. apply keeps_ids_through. apply (pa_removeStale _ keeps_ids_passive).
    - intros e s H. apply keeps_ids_through. now apply (pa_emit _ keeps_ids_passive). }
  split; auto; try (intros; apply keeps_ids_through; reflexivity).
  - exact ids_ascend_sendNow.
  - apply (obeys_weaken (keeps ids_view)); [exact keeps_ids_through|].
    unfold connect. pframe.
  - intros c m. apply (obeys_weaken (keeps ids_view)); [exact keeps_ids_through|].
    unfold connectReject. pframe.
  - intros s. apply keeps_ids_through. now apply (keeps_ids_emit EWsClose).
Qed.

(** In every state a session reaches, the ids of the requests written
    to the socket, in the order written, are at least 1 and strictly
    ascending, and all are below [reqId]: no id is used twice. *)
Theorem request_ids_strictly_ascend ins :
  let s := run ins newClient in
  asc_above 0 (sent_ids (trace s))
  /\ forall id, In id (sent_ids (trace s)) -> id < reqId s.
Proof.
  intros s.
  destruct (through_run ids_ascend ids_ascend_wired) with (ins := ins)
    as (_ & H2 & H3); auto.
  unfold ids_ascend. cbn. split; [lia|]. split; [exact I|]. intros id [].
Qed.

(* ================================================================== *)
(** ** One socket at a time *)

Definition socket_view (s : Client) : bool * option nat := (ws s, connectPromise s).

Lemma keeps_socket_passive : passive (keeps socket_view).
Proof.
  split; try (intros; reflexivity).
  - apply keeps_po.
  - intros r s. unfold keeps, socket_view, removeStale.
    destruct (stale s) as [o|]; [destruct (Obj.del r o)|]; reflexivity.
Qed.
#[local] Hint Resolve keeps_socket_passive : passive.

(** [this.ws] is set exactly while [this.connectPromise] is. *)
Definition socket_iff_promise (s : Client) : Prop :=
  ws s = true <-> connectPromise s <> None.

Lemma keeps_socket_through s s' :
  keeps socket_view s s' -> through socket_iff_promise s s'.
Proof.
  unfold keeps, through, socket_iff_promise, socket_view. intros [= E1 E2].
  now rewrite E1, E2.
Qed.

(** [_connectReject] after its first two assignments. *)
Definition connectReject_rest (code message : string) : M unit :=
  cb <- gets connectCallback ;;
  match cb with
  | None => ret tt
  | Some p =>
      settle (PConnect p)
             (Rejected (PEErr (mkResErr "" "" None code message))) ;;;
      wl <- (fun s => let (l, s') := take_waiting p s in Ok l s') ;;
      forEach wl (fun w => enqueue (MtFail w code message)) ;;;
      modify (set_connectCallback None)
  end.

Lemma connectReject_split c m s :
  connectReject c m s = connectReject_rest c m (set_ws false (set_connectPromise None s)).
Proof. reflexivity. Qed.

Lemma socket_reset s : socket_iff_promise (set_ws false (set_connectPromise None s)).
Proof. unfold socket_iff_promise. cbn. split; [discriminate|congruence]. Qed.

Lemma socket_iff_promise_wired : wired (through socket_iff_promise).
Proof.
  assert (P : passive (through socket_iff_promise)).
  { split; try (intros; apply keeps_socket_through; reflexivity).
    - apply through_po.
    - intros r s. apply keeps_socket_through.
      apply (pa_removeStale _ keeps_socket_passive). }
  split; auto; try (intros; apply keeps_socket_through; reflexivity).
  - intros m p k o. apply (obeys_weaken (keeps socket_view)); [exact keeps_socket_through|].
    unfold sendNow. pframe.
  - intros s H. unfold connect, bind, modify, gets, alloc, ret.
    cbn [state_of connectPromise set_tryConnect].
    destruct (connectPromise s) as [p|] eqn:E; cbn [state_of fresh].
    + unfold socket_iff_promise in *. cbn. now rewrite E in *.
    + unfold socket_iff_promise. cbn. split; [discriminate|reflexivity].
  - intros c m s _. rewrite connectReject_split.
    assert (K : obeys (keeps socket_view) (connectReject_rest c m))
      by (unfold connectReject_rest; pframe).
    apply (keeps_socket_through _ _ (K _)). apply socket_reset.
  - intros s _. apply socket_reset.
Qed.

(** In every state a session reaches, [this.ws] is set exactly while
    [this.connectPromise] is: [connect()] creates a WebSocket only when
    the client has none, and every path that drops the socket drops the
    connect promise with it. *)
Theorem socket_exactly_while_connect_promise ins :
  let s := run ins newClient in
  ws s = true <-> connectPromise s <> None.
Proof.
  apply (through_run socket_iff_promise socket_iff_promise_wired).
  unfold socket_iff_promise. cbn. split; [discriminate|congruence].
Qed.


(* ================================================================== *)
(** ** [disconnect()] stops the attempts to reconnect *)

(** The number of WebSockets created. *)
Definition ws_opened (t : list effect) : nat :=
  List.length (filter (fun e => match e with EWsNew => true | _ => false end) t).

Lemma ws_opened_emit e s :
  e <> EWsNew -> ws_opened (trace (emit e s)) = ws_opened (trace s).
Proof.
  intros H. unfold emit, ws_opened. cbn [trace set_trace].
  rewrite filter_app, length_app. cbn [filter].
  destruct e; try contradiction; cbn; lia.
Qed.

Definition connect_view (s : Client) : bool * nat :=
  (tryConnect s, ws_opened (trace s)).

Lemma keeps_connect_emit e :
  e <> EWsNew -> obeys (keeps connect_view) (modify (emit e)).
Proof.
  intros H s. unfold keeps, connect_view. cbn [state_of modify].
  now rewrite ws_opened_emit.
Qed.

Lemma keeps_connect_passive : passive (keeps connect_view).
Proof.
  split; try (intros; reflexivity).
  - apply keeps_po.
  - intros r s. unfold keeps, connect_view, removeStale.
    destruct (stale s) as [o|]; [destruct (Obj.del r o)|]; reflexivity.
  - intros e s H. apply (keeps_connect_emit e). now destruct e.
Qed.
#[local] Hint Resolve keeps_connect_passive : passive.
#[local] Hint Extern 1 (obeys (keeps connect_view) (modify (emit _))) =>
  apply keeps_connect_emit; discriminate : passive.

(** While [tryConnect] is false, it stays false and no WebSocket is
    created. *)
Definition stays_down (s s' : Client) : Prop :=
  tryConnect s = false -> connect_view s' = connect_view s.

Lemma stays_down_po : preorder stays_down.
Proof.
  split; unfold stays_down; auto.
  intros a b c H1 H2 T. specialize (H1 T).
  rewrite <- H1. apply H2. unfold connect_view in H1.
  injection H1 as H1 _. congruence.
Qed.

Lemma keeps_stays_down s s' : keeps connect_view s s' -> stays_down s s'.
Proof. unfold keeps, stays_down. auto. Qed.

Lemma stays_down_passive : passive stays_down.
Proof.
  split; try (intros; apply keeps_stays_down; reflexivity).
  - exact stays_down_po.
  - intros r s. apply keeps_stays_down. apply (pa_removeStale _ keeps_connect_passive).
  - intros e s H. apply keeps_stays_down. now apply (pa_emit _ keeps_connect_passive).
Qed.
#[local] Hint Resolve stays_down_po stays_down_passive : passive.
#[local] Hint Extern 6 (obeys stays_down _) =>
  apply (obeys_weaken (keeps connect_view) stays_down);
    [exact keeps_stays_down|solve [auto with passive]] : passive.

Lemma keeps_connect_sendNow m p k o : obeys (keeps connect_view) (sendNow m p k o).
Proof. unfold sendNow. pframe. Qed.
#[local] Hint Resolve keeps_connect_sendNow : passive.

Lemma connected_removeStale r s : connected (removeStale r s) = connected s.
Proof.
  unfold removeStale. destruct (stale s) as [o|]; [destruct (Obj.del r o)|]; reflexivity.
Qed.

(** A request made while connected is sent at once: [_send] does not
    call [connect()]. *)
Lemma send_connected a r m p k s :
  connected s = true ->
  keeps connect_view s (state_of (send a r m p k s)).
Proof.
  intros C. unfold send.
  destruct (String.eqb r ""); [reflexivity|].
  assert (H : forall mm (chained : M promise_ref),
    keeps connect_view s
      (state_of ((c <- gets connected ;;
                  if c then id <- sendNow mm p k None ;; ret (PReq id)
                  else chained) s))).
  { intros mm chained. unfold bind at 1. unfold gets at 1. rewrite C.
    assert (O : obeys (keeps connect_view)
                  (id <- sendNow mm p k None ;; ret (PReq id))) by pframe.
    apply O. }
  destruct m as [[|a0 m0]|]; [reflexivity|apply H|apply H].
Qed.

Lemma stays_down_subscribe h t g s :
  connected s = true -> stays_down s (state_of (subscribe h t g s)).
Proof.
  intros C. apply keeps_stays_down.
  unfold subscribe, bind, the_obj, modify.
  destruct (deref h s) as [ci|]; [|reflexivity].
  set (s2 := removeStale (rid ci) (alter_obj (setSubscribed true) h s)).
  assert (C2 : connected s2 = true)
    by (unfold s2; rewrite connected_removeStale; exact C).
  assert (K2 : keeps connect_view s s2).
  { unfold s2. apply (po_trans _ (keeps_po connect_view) _
                        (alter_obj (setSubscribed true) h s)); [reflexivity|].
    apply (pa_removeStale _ keeps_connect_passive). }
  pose proof (send_connected "subscribe" (rid ci) None None
                (KSubscribe h t g) s2 C2) as K3.
  destruct (send "subscribe" (rid ci) None None (KSubscribe h t g) s2)
    as [x s3|e s3]; cbn [state_of ret] in *;
    unfold keeps in *; congruence.
Qed.

Lemma stays_down_subscribeToStale r : obeys stays_down (subscribeToStale r).
Proof.
  intros s. unfold subscribeToStale, bind, gets.
  destruct (connected s) eqn:C; cbn [negb orb]; [|apply (po_refl _ stays_down_po)].
  destruct (is_stale r s); cbn [negb]; [|apply (po_refl _ stays_down_po)].
  unfold cached. destruct (cache_get (cache s) r) as [ci|];
    [|apply (po_refl _ stays_down_po)].
  now apply stays_down_subscribe.
Qed.
#[local] Hint Resolve stays_down_subscribeToStale : passive.

Lemma keeps_connect_connectResolve : obeys (keeps connect_view) connectResolve.
Proof. unfold connectResolve. pframe. Qed.

Lemma keeps_connect_connectReject c m : obeys (keeps connect_view) (connectReject c m).
Proof. unfold connectReject. pframe. Qed.
#[local] Hint Resolve keeps_connect_connectResolve keeps_connect_connectReject : passive.

Lemma stays_down_onConnectDone ok : obeys stays_down (onConnectDone ok).
Proof. unfold onConnectDone, close_socket, subscribeToAllStale. pframe. Qed.

Lemma keeps_connect_receive msg : obeys (keeps connect_view) (receive msg).
Proof.
  unfold receive, handleErrorResponse, handleSuccessResponse, resolve_request.
  pframe.
Qed.

(** The end of [_handleOnclose]. *)
Definition onclose_tail : M unit :=
  cc <- gets cache ;;
  tc <- gets tryConnect ;;
  let hasStale := match cc with [] => false | _ => true end in
  modify (set_tryConnect (hasStale && tc)) ;;;
  if hasStale && tc
  then modify (emit (ETimeout TmReconnect reconnectDelay))
  else ret tt.

Lemma stays_down_onclose_tail : obeys stays_down onclose_tail.
Proof.
  intros s T. unfold onclose_tail, bind, gets, modify. rewrite T.
  rewrite andb_false_r. cbn [state_of ret]. unfold connect_view.
  cbn. now rewrite T.
Qed.

Lemma stays_down_handleOnclose : obeys stays_down handleOnclose.
Proof.
  intros s. rewrite handleOnclose_split.
  apply (po_trans _ stays_down_po _ (set_ws false (set_connectPromise None s)));
    [apply keeps_stays_down; reflexivity|].
  revert s. assert (O : obeys stays_down onclose_rest); [|intros s; apply O].
  unfold onclose_rest.
  apply obeys_bind; [auto with passive|apply obeys_gets; auto with passive|intros c].
  apply obeys_bind; [auto with passive| |intros _; exact stays_down_onclose_tail].
  destruct c; pframe.
Qed.

Lemma stays_down_reconnectTimer : obeys stays_down reconnectTimer.
Proof.
  intros s T. unfold reconnectTimer, bind, gets. now rewrite T.
Qed.

(** The inputs that come from the socket or from a timer. *)
Definition from_network (i : input) : bool :=
  match i with
  | IOpen | IOnConnectDone _ | IError | IMessage _ | IClose | ITimer _ => true
  | _ => false
  end.

Lemma stays_down_handler i : from_network i = true -> obeys stays_down (handler i).
Proof.
  destruct i as [r|r m p|r m p|r p|r|r| | | |ok| |msg| |[r|]]; try discriminate;
    intros _; cbn [handler].
  - unfold handleOnopen. auto with passive.
  - apply stays_down_onConnectDone.
  - unfold handleOnerror. auto with passive.
  - apply (obeys_weaken (keeps connect_view)); [exact keeps_stays_down|].
    apply keeps_connect_receive.
  - apply stays_down_handleOnclose.
  - apply stays_down_subscribeToStale.
  - apply stays_down_reconnectTimer.
Qed.

Lemma stays_down_drain s : stays_down s (drain s).
Proof.
  assert (T : forall t, obeys stays_down (run_task t))
    by (intros t; unfold run_task; pframe).
  assert (TS : forall ts s0, stays_down s0 (run_tasks ts s0)).
  { induction ts as [|t ts IH]; intros s0; cbn [run_tasks].
    - apply (po_refl _ stays_down_po).
    - eapply (po_trans _ stays_down_po); [apply T|apply IH]. }
  assert (D : forall s0, stays_down s0 (drain_once s0)).
  { intros s0. unfold drain_once.
    eapply (po_trans _ stays_down_po); [|apply TS].
    apply keeps_stays_down. reflexivity. }
  unfold drain.
  eapply (po_trans _ stays_down_po); [apply D|].
  eapply (po_trans _ stays_down_po); apply D.
Qed.

Lemma stays_down_run ins : forall s,
  forallb from_network ins = true -> stays_down s (run ins s).
Proof.
  unfold run. induction ins as [|i ins IH]; intros s F; cbn [fold_left].
  - apply (po_refl _ stays_down_po).
  - cbn [forallb] in F. apply andb_prop in F. destruct F as (Fi & F).
    eapply (po_trans _ stays_down_po); [|apply IH; exact F].
    unfold turn. eapply (po_trans _ stays_down_po);
      [apply stays_down_handler; exact Fi|apply stays_down_drain].
Qed.

(** After [disconnect()], whatever the state it is called in, nothing
    that arrives from the socket and no timer makes the client connect
    again: [tryConnect] stays false and no WebSocket is created, until
    the application calls the client again. *)
Theorem disconnect_stops_reconnecting s0 ins :
  forallb from_network ins = true ->
  let s := turn IDisconnect s0 in
  tryConnect s = false
  /\ tryConnect (run ins s) = false
  /\ ws_opened (trace (run ins s)) = ws_opened (trace s).
Proof.
  intros F s.
  assert (T : tryConnect s = false).
  { unfold s, turn.
    assert (H : tryConnect (state_of (handler IDisconnect s0)) = false).
    { cbn [handler]. unfold disconnect, bind, modify, gets.
      cbn [ws set_tryConnect].
      assert (K : forall s1, tryConnect s1 = false ->
                    tryConnect (state_of (connectReject "system.disconnect"
                                            "Disconnect called" s1)) = false).
      { intros s1 T1.
        pose proof (keeps_connect_connectReject "system.disconnect"
                      "Disconnect called" s1) as K.
        unfold keeps, connect_view in K. injection K as K _. congruence. }
      destruct (ws s0); [|reflexivity].
      cbn [state_of]. apply K. reflexivity. }
    pose proof (stays_down_drain (state_of (handler IDisconnect s0)) H) as D.
    unfold connect_view in D. injection D as D _.
    cbn [handler] in *. congruence. }
  pose proof (stays_down_run ins s F T) as R.
  unfold connect_view in R. injection R as R1 R2.
  split; auto. split; [congruence|auto].
Qed.

Lemma disconnect_stops_reconnecting_witness :
  let ins := [IClose; ITimer TmReconnect; IOpen; IOnConnectDone true] in
  let s := turn IDisconnect s_two_refs in
  tryConnect s = false
  /\ tryConnect (run ins s) = false
  /\ ws_opened (trace (run ins s)) = ws_opened (trace s).
Proof.
  apply (disconnect_stops_reconnecting s_two_refs
           [IClose; ITimer TmReconnect; IOpen; IOnConnectDone true]).
  reflexivity.
Defined.


(* ================================================================== *)
(** ** What the close of the socket leaves behind *)

(** The part of the state [_tryDelete] and the stale set stay out of. *)
Definition line_view (s : Client)
  : bool * bool * option nat * bool * list microtask * list (Z * Request) * string :=
  (connected s, ws s, connectPromise s, tryConnect s, micro s, requests s, namespace s).

Lemma line_view_passive : passive (keeps line_view).
Proof.
  split; try (intros; reflexivity).
  - apply keeps_po.
  - intros r s. unfold keeps, line_view, removeStale.
    destruct (stale s); auto. now destruct (Obj.del r t).
Qed.

(** The cache after one round of the loop of [_tryDelete], key by
    key: an entry is gone, or it is the entry there was with another
    indirect count. *)
Lemma tryDelete_step_get e s r x :
  cache_get (cache (tryDelete_step s e)) r = Some x ->
  exists y, cache_get (cache s) r = Some y /\ subscribed x = subscribed y.
Proof.
  unfold tryDelete_step.
  destruct (Z.eqb (st (snd e)) stateStale).
  { rewrite cache_setStale. eauto. }
  destruct (Z.eqb (st (snd e)) stateDelete); [|eauto].
  rewrite deleteRef_cache, cache_get_del_map by reflexivity.
  destruct (String.eqb r (rid (rs_ci (snd e)))); [discriminate|].
  destruct (cache_get (cache s) r) as [y|]; [|discriminate].
  cbn [option_map]. intros [= <-]. eauto.
Qed.

Lemma tryDelete_loop_get R : forall s r x,
  cache_get (cache (fold_left tryDelete_step R s)) r = Some x ->
  exists y, cache_get (cache s) r = Some y /\ subscribed x = subscribed y.
Proof.
  induction R as [|e R IH]; intros s r x; cbn [fold_left]; [eauto|].
  intros H. apply IH in H. destruct H as (y & H & E).
  apply tryDelete_step_get in H. destruct H as (z & H & E').
  exists z. split; [exact H|congruence].
Qed.

(** A stale rid stays stale through the loop of [_tryDelete] unless
    its item is evicted. *)
Lemma tryDelete_step_stays_stale e s r :
  is_stale r s = true ->
  is_stale r (tryDelete_step s e) = true
  \/ cache_get (cache (tryDelete_step s e)) r = None.
Proof.
  intros H. unfold tryDelete_step.
  destruct (Z.eqb (st (snd e)) stateStale).
  { left. rewrite is_stale_setStale, H. apply orb_true_r. }
  destruct (Z.eqb (st (snd e)) stateDelete); [|now left].
  rewrite is_stale_deleteRef, deleteRef_cache, cache_get_del_map by reflexivity.
  destruct (String.eqb r (rid (rs_ci (snd e)))); [now right|left].
  now rewrite H.
Qed.

Lemma tryDelete_loop_stays_stale R : forall s r,
  is_stale r s = true ->
  cache_get (cache (fold_left tryDelete_step R s)) r <> None ->
  is_stale r (fold_left tryDelete_step R s) = true.
Proof.
  induction R as [|e R IH]; intros s r H N; cbn [fold_left] in *; auto.
  destruct (tryDelete_step_stays_stale e s r H) as [H'|H']; [now apply IH|].
  exfalso. destruct (cache_get (cache (fold_left tryDelete_step R _)) r) as [x|] eqn:E;
    [|now apply N].
  apply tryDelete_loop_get in E. destruct E as (y & E & _). congruence.
Qed.

(** One round of the loop of [_handleOnclose]. *)
Definition onclose_round (r : string) : M unit :=
  cc <- gets cache ;;
  match cache_get cc r with
  | None => ret tt
  | Some ci =>
      if subscribed ci then
        modify (fun s => set_cache (cache_alter (setSubscribed false) r (cache s)) s) ;;;
        modify (addStale r) ;;;
        ci' <- cached r ;;
        tryDelete ci'
      else ret tt
  end.

(** What holds of the cache [c0] the loop started from and of the state
    it has reached when the rids [seen] have had their round. *)
Record closing (c0 : Cache) (seen : list string) (s : Client) : Prop := mkClosing {
  cl_flag : forall r x, cache_get (cache s) r = Some x ->
    exists x0, cache_get c0 r = Some x0
               /\ (In r seen -> subscribed x = false)
               /\ (~ In r seen -> subscribed x = subscribed x0);
  cl_stale : forall r x x0, cache_get (cache s) r = Some x ->
    cache_get c0 r = Some x0 -> subscribed x0 = true -> In r seen ->
    is_stale r s = true
}.

Lemma is_stale_addStale r k s :
  is_stale k (addStale r s) = (String.eqb r k || is_stale k s)%bool.
Proof.
  unfold addStale, is_stale. cbn [stale set_stale].
  destruct (String.eqb_spec r k) as [->|N].
  - now rewrite get_set_eq.
  - rewrite get_set_ne by auto. now destruct (stale s).
Qed.

Lemma onclose_round_closing c0 seen r s :
  closing c0 seen s ->
  exists s', onclose_round r s = Ok tt s'
             /\ closing c0 (r :: seen) s'
             /\ line_view s' = line_view s.
Proof.
  intros [F T]. unfold onclose_round, bind, gets.
  destruct (cache_get (cache s) r) as [ci|] eqn:G.
  2:{ exists s. split; [reflexivity|]. split; [|reflexivity]. split.
      - intros k x Hk. destruct (F k x Hk) as (x0 & E0 & A & B).
        exists x0. split; [exact E0|]. split.
        + intros [<-|I]; [congruence|auto].
        + intros N. apply B. intros I. apply N. now right.
      - intros k x x0 Hk E0 S [<-|I]; [congruence|eauto]. }
  destruct (subscribed ci) eqn:Sb.
  2:{ exists s. split; [reflexivity|]. split; [|reflexivity]. split.
      - intros k x Hk. destruct (F k x Hk) as (x0 & E0 & A & B).
        exists x0. split; [exact E0|]. split.
        + intros [<-|I]; [congruence|auto].
        + intros N. apply B. intros I. apply N. now right.
      - intros k x x0 Hk E0 S [<-|I]; [|eauto].
        destruct (in_dec string_dec r seen) as [I|N]; [eauto|].
        destruct (F r x Hk) as (x1 & E1 & _ & B). specialize (B N).
        congruence. }
  unfold modify, cached. cbn [state_of cache set_cache].
  set (s1 := addStale r (set_cache (cache_alter (setSubscribed false) r (cache s)) s)).
  assert (C1 : forall k, cache_get (cache s1) k
                 = if String.eqb r k then option_map (setSubscribed false) (cache_get (cache s) k)
                   else cache_get (cache s) k).
  { intros k. unfold s1, addStale. cbn [cache set_stale set_cache].
    now apply cache_alter_get. }
  change (cache (addStale r (set_cache (cache_alter (setSubscribed false) r (cache s)) s)))
    with (cache s1).
  rewrite (C1 r), String.eqb_refl, G. cbn [option_map].
  set (ci' := setSubscribed false ci).
  assert (G1 : cache_get (cache s1) (rid ci') = Some ci').
  { change (rid ci') with (rid ci). rewrite (cache_get_rid _ _ _ G).
    rewrite (C1 r), String.eqb_refl, G. reflexivity. }
  destruct (getRefState_spec (cache s1) ci' G1 eq_refl) as (R & ER & _).
  unfold tryDelete. rewrite ER.
  exists (fold_left tryDelete_step R s1). split; [reflexivity|]. split; [split|].
  - intros k x Hk. apply tryDelete_loop_get in Hk. destruct Hk as (y & Hy & Ey).
    rewrite C1 in Hy. destruct (String.eqb_spec r k) as [<-|N].
    + rewrite G in Hy. injection Hy as <-.
      destruct (F r ci G) as (x0 & E0 & _). exists x0. split; [exact E0|].
      split; [intros _; rewrite Ey; reflexivity|]. intros N. exfalso. apply N. now left.
    + destruct (F k y Hy) as (x0 & E0 & A & B). exists x0. split; [exact E0|].
      rewrite Ey. split.
      * intros [E|I]; [contradiction|auto].
      * intros N'. apply B. intros I. apply N'. now right.
  - intros k x x0 Hk E0 S I.
    apply tryDelete_loop_stays_stale; [|congruence].
    apply tryDelete_loop_get in Hk. destruct Hk as (y & Hy & _).
    unfold s1. rewrite is_stale_addStale.
    destruct (String.eqb_spec r k) as [<-|N]; [reflexivity|]. cbn [orb].
    destruct I as [E|I]; [contradiction|].
    rewrite C1 in Hy. destruct (String.eqb_spec r k); [contradiction|].
    eapply T; eauto.
  - pose proof (passive_tryDelete_loop _ line_view_passive R s1) as K.
    unfold keeps in K. rewrite K. reflexivity.
Qed.

Lemma onclose_loop_closing c0 rids : forall seen s,
  closing c0 seen s ->
  exists s', forEach rids onclose_round s = Ok tt s'
             /\ closing c0 (rev rids ++ seen) s'
             /\ line_view s' = line_view s.
Proof.
  induction rids as [|r rids IH]; intros seen s H; cbn [forEach rev app].
  - exists s. split; [reflexivity|]. split; [exact H|reflexivity].
  - destruct (onclose_round_closing c0 seen r s H) as (s1 & E1 & H1 & L1).
    destruct (IH (r :: seen) s1 H1) as (s2 & E2 & H2 & L2).
    exists s2. unfold bind. rewrite E1, E2. split; [reflexivity|].
    rewrite <- app_assoc. cbn [app]. split; [exact H2|congruence].
Qed.

Lemma closing_start c : forall s, cache s = c -> closing c [] s.
Proof.
  intros s <-. split.
  - intros r x H. exists x. split; [exact H|]. split; [contradiction|reflexivity].
  - intros r x x0 _ _ _ [].
Qed.

(** The close of the socket while the client is connected.  In every
    state a session reaches with the connection open, [_handleOnclose]
    returns and leaves the client disconnected, with no socket and no
    connect promise; no item of the cache is subscribed any longer; an
    item that was subscribed and is still cached has its rid in the
    stale set, so that it is subscribed again when the connection is
    back; no item has entered the cache; the client event [close] has
    been emitted; and [tryConnect] stays set, with the reconnect timer
    started, exactly if it was set and the cache is not empty. *)
Theorem close_marks_subscribed_items_stale ins :
  let s := run ins newClient in
  connected s = true ->
  let s' := turn IClose s in
  handler IClose s = Ok tt s'
  /\ connected s' = false /\ ws s' = false /\ connectPromise s' = None
  /\ (forall r x, cache_get (cache s') r = Some x ->
        subscribed x = false
        /\ exists x0, cache_get (cache s) r = Some x0
                      /\ (subscribed x0 = true -> is_stale r s' = true))
  /\ In (EClient "close" None) (trace s')
  /\ tryConnect s' = (match cache s' with [] => false | _ => true end && tryConnect s)%bool
  /\ (tryConnect s' = true ->
      exists tr, trace s' = tr ++ [ETimeout TmReconnect reconnectDelay]).
Proof.
  intros s Hc s'.
  pose proof (micro_run ins) as Mi. fold s in Mi.
  set (s0 := set_connected false (set_ws false (set_connectPromise None s))).
  destruct (onclose_loop_closing (cache s) (cache_rids (cache s)) [] s0
              (closing_start _ s0 eq_refl)) as (s1 & E1 & [F T] & L1).
  rewrite app_nil_r in F, T.
  assert (SEEN : forall r x, cache_get (cache s1) r = Some x ->
                             In r (rev (cache_rids (cache s)))).
  { intros r x H. destruct (F r x H) as (x0 & E0 & _).
    rewrite <- in_rev. destruct (in_dec string_dec r (cache_rids (cache s))) as [I|N]; auto.
    apply cache_get_None in N. congruence. }
  set (s2 := emit (EClient "close" None) s1).
  set (b := (match cache s1 with [] => false | _ => true end && tryConnect s)%bool).
  set (s3 := set_tryConnect b s2).
  set (s4 := if b then emit (ETimeout TmReconnect reconnectDelay) s3 else s3).
  assert (L : line_view s1 = line_view s0) by exact L1.
  unfold line_view in L. injection L as Lc Lw Lp Lt Lm Lr Ln.
  assert (EH : handleOnclose s = Ok tt s4).
  { unfold handleOnclose, bind, modify, gets. cbn [state_of].
    change (connected (set_ws false (set_connectPromise None s))) with (connected s).
    rewrite Hc. cbn [state_of].
    change (cache (set_connected false (set_ws false (set_connectPromise None s))))
      with (cache s).
    change (forEach (cache_rids (cache s)) _ ?x) with
      (forEach (cache_rids (cache s)) onclose_round s0).
    rewrite E1. cbn [state_of]. fold s2.
    change (cache s2) with (cache s1). change (tryConnect s2) with (tryConnect s1).
    rewrite Lt. change (tryConnect s0) with (tryConnect s). fold b. fold s3.
    unfold s4. destruct b; reflexivity. }
  assert (M4 : micro s4 = []).
  { unfold s4. destruct b; cbn; rewrite Lm; exact Mi. }
  assert (E' : s' = s4).
  { unfold s'. apply turn_idle; [exact EH|exact M4]. }
  rewrite E'. split; [exact EH|].
  assert (C4 : cache s4 = cache s1) by (unfold s4; now destruct b).
  assert (S4 : forall r, is_stale r s4 = is_stale r s1) by (unfold s4; now destruct b).
  split; [unfold s4; destruct b; cbn; rewrite Lc; reflexivity|].
  split; [unfold s4; destruct b; cbn; rewrite Lw; reflexivity|].
  split; [unfold s4; destruct b; cbn; rewrite Lp; reflexivity|].
  split.
  { intros r x H. rewrite C4 in H. pose proof (SEEN r x H) as I.
    destruct (F r x H) as (x0 & E0 & A & _). split; [auto|].
    exists x0. split; [exact E0|]. intros S. rewrite S4. eapply T; eauto. }
  split.
  { unfold s4. destruct b; cbn [trace emit set_trace set_tryConnect s3 s2];
      rewrite ?in_app_iff; cbn; tauto. }
  split.
  { rewrite C4. change (tryConnect s4 = b). unfold s4, s3. generalize b.
    intros [|]; reflexivity. }
  intros TC. assert (B : b = true).
  { unfold s4 in TC. destruct b; [reflexivity|exact TC]. }
  unfold s4. rewrite B. eexists. reflexivity.
Qed.

Lemma close_marks_subscribed_items_stale_witness :
  let s := run two_refs_session newClient in
  let s' := turn IClose s in
  connected s' = false
  /\ tryConnect s' = (match cache s' with [] => false | _ => true end && tryConnect s)%bool.
Proof.
  destruct (close_marks_subscribed_items_stale two_refs_session eq_refl)
    as (_ & C & _ & _ & _ & _ & T & _).
  cbv zeta. split; [exact C|exact T].
Defined.


(* ================================================================== *)
(** ** The stale set as an object: distinct keys, every value [true] *)

Definition stale_obj (s : Client) : Obj.t bool :=
  match stale s with Some o => o | None => [] end.

Definition stale_wf (s : Client) : Prop :=
  stale s <> Some []
  /\ NoDup (Obj.keys (stale_obj s))
  /\ forall k v, Obj.get k (stale_obj s) = Some v -> v = true.

Lemma del_keys_incl {V} r (o : Obj.t V) k :
  In k (Obj.keys (Obj.del r o)) -> In k (Obj.keys o).
Proof.
  induction o as [|[a v] o IH]; cbn; auto.
  destruct (String.eqb a r); cbn; tauto.
Qed.

Lemma keys_del_NoDup {V} r (o : Obj.t V) :
  NoDup (Obj.keys o) -> NoDup (Obj.keys (Obj.del r o)).
Proof.
  induction o as [|[a v] o IH]; cbn; auto.
  intros ND. inversion ND as [|? ? NI ND']; subst.
  destruct (String.eqb a r); cbn; auto.
  constructor; auto. intros I. apply NI. eapply del_keys_incl; eauto.
Qed.

Lemma del_absent {V} r (o : Obj.t V) : ~ In r (Obj.keys o) -> Obj.del r o = o.
Proof.
  induction o as [|[a v] o IH]; cbn; auto. intros N.
  destruct (String.eqb_spec a r); [tauto|]. f_equal. tauto.
Qed.

Lemma stale_obj_removeStale r s :
  stale_obj (removeStale r s) = Obj.del r (stale_obj s).
Proof.
  unfold stale_obj, removeStale. destruct (stale s) as [o|] eqn:E.
  - now destruct (Obj.del r o).
  - now rewrite E.
Qed.

Lemma stale_wf_addStale r s : stale_wf s -> stale_wf (addStale r s).
Proof.
  intros (_ & ND & T). unfold stale_wf, stale_obj, addStale in *.
  cbn [stale set_stale]. split; [|split].
  - intros [= H]. now apply set_not_nil in H.
  - now apply keys_set_NoDup.
  - intros k v. destruct (String.eqb_spec r k) as [->|N].
    + rewrite get_set_eq. congruence.
    + rewrite get_set_ne by auto. apply T.
Qed.

Lemma stale_wf_removeStale r s : stale_wf s -> stale_wf (removeStale r s).
Proof.
  intros (NE & ND & T). split; [|split].
  - unfold removeStale. destruct (stale s) as [o|] eqn:E; [|now rewrite E].
    destruct (Obj.del r o); cbn [stale set_stale]; discriminate.
  - rewrite stale_obj_removeStale. now apply keys_del_NoDup.
  - rewrite stale_obj_removeStale. intros k v.
    destruct (String.eqb_spec k r) as [->|N].
    + now rewrite get_del.
    + rewrite get_del_other by auto. apply T.
Qed.

Lemma keeps_stale_wf s s' : keeps stale s s' -> through stale_wf s s'.
Proof. unfold keeps, through, stale_wf, stale_obj. now intros ->. Qed.

Lemma stale_wf_wired : wired (through stale_wf).
Proof.
  assert (P : passive (through stale_wf)).
  { split; try (intros; apply keeps_stale_wf; reflexivity).
    - apply through_po.
    - intros r s H. now apply stale_wf_addStale.
    - intros r s H. now apply stale_wf_removeStale. }
  split; auto; try (intros; apply keeps_stale_wf; reflexivity).
  - intros m p k o. apply (obeys_weaken (keeps stale)); [exact keeps_stale_wf|].
    unfold sendNow, settle. pframe.
  - apply (obeys_weaken (keeps stale)); [exact keeps_stale_wf|].
    unfold connect. pframe.
  - intros c m. apply (obeys_weaken (keeps stale)); [exact keeps_stale_wf|].
    unfold connectReject, settle. pframe.
Qed.

Lemma stale_wf_run ins : stale_wf (run ins newClient).
Proof.
  apply (through_run stale_wf stale_wf_wired).
  split; [discriminate|]. split; [constructor|discriminate].
Qed.

(* ================================================================== *)
(** ** Resubscribing when the connection is back *)

(** The requests [_subscribeToAllStale] writes for the rids [ks], the
    first under the id [id]. *)
Fixpoint resubscriptions (id : Z) (ks : list string) : list effect :=
  match ks with
  | [] => []
  | k :: ks' => ESend id ("subscribe." ++ k) None :: resubscriptions (id + 1) ks'
  end.

(** The state [_subscribeToStale(k)] leaves when [k] is stale and
    cached under the item [ci]. *)
Definition resubscribed (k : string) (ci : CacheItem) (s : Client) : Client :=
  emit (ESend (reqId s) ("subscribe." ++ k) None)
    (set_requests
       (requests s
        ++ [(reqId s, mkRequest ("subscribe." ++ k) None false
                                (KSubscribe (ci_id ci) false None) None)])
       (set_reqId (reqId s + 1)
          (removeStale k (alter_obj (setSubscribed true) (ci_id ci) s)))).

Lemma subscribeToStale_stale s k ci :
  wf_ids s -> connected s = true -> ws s = true ->
  is_stale k s = true -> k <> ""%string ->
  cache_get (cache s) k = Some ci ->
  subscribeToStale k s = Ok tt (resubscribed k ci s).
Proof.
  intros WF Hc Hw Hs Hk G.
  pose proof (deref_cached s k ci WF G) as D.
  pose proof (cache_get_rid _ _ _ G) as Er.
  assert (Ek : String.eqb k "" = false) by now apply String.eqb_neq.
  unfold subscribeToStale, bind, gets. rewrite Hc, Hs. cbn [negb orb].
  unfold cached. rewrite G.
  unfold subscribe, bind, the_obj. rewrite D. unfold modify. cbn [state_of].
  rewrite Er. unfold send. rewrite Ek. unfold bind, gets.
  assert (C2 : connected (removeStale k (alter_obj (setSubscribed true) (ci_id ci) s)) = true).
  { rewrite removeStale_fields. exact Hc. }
  assert (W2 : ws (removeStale k (alter_obj (setSubscribed true) (ci_id ci) s)) = true).
  { rewrite removeStale_fields. exact Hw. }
  assert (R2 : reqId (removeStale k (alter_obj (setSubscribed true) (ci_id ci) s)) = reqId s).
  { rewrite removeStale_fields. reflexivity. }
  assert (Q2 : requests (removeStale k (alter_obj (setSubscribed true) (ci_id ci) s))
               = requests s).
  { rewrite removeStale_fields. reflexivity. }
  rewrite C2. unfold sendNow, bind, gets, modify, ret. cbn [state_of].
  change (ws (set_reqId ?a ?b)) with (ws b). rewrite W2. cbn [negb state_of].
  change (requests (set_reqId ?a ?b)) with (requests b). rewrite R2, Q2.
  unfold resubscribed. rewrite append_empty_r. reflexivity.
Qed.

(** What a round leaves of the cache, key by key. *)
Lemma resubscribed_get k ci s r :
  cache_get (cache (resubscribed k ci s)) r
  = option_map (fun x => if Nat.eqb (ci_id x) (ci_id ci) then setSubscribed true x else x)
               (cache_get (cache s) r).
Proof.
  unfold resubscribed. cbn [cache emit set_trace set_requests set_reqId].
  rewrite cache_removeStale. unfold alter_obj. cbn [cache set_detached set_cache].
  generalize (cache s). intros c. unfold alter_id.
  induction c as [|x c IH]; cbn [map cache_get option_map]; auto.
  assert (E : rid (if Nat.eqb (ci_id x) (ci_id ci) then setSubscribed true x else x) = rid x)
    by now destruct (Nat.eqb (ci_id x) (ci_id ci)).
  rewrite E. destruct (String.eqb (rid x) r); auto.
Qed.

(** The cache after the rounds for [ks]: every key is still there, the
    items under [ks] are subscribed, and no item has lost its
    subscription. *)
Definition resub (ks : list string) (s s' : Client) : Prop :=
  forall r x, cache_get (cache s) r = Some x ->
    exists x', cache_get (cache s') r = Some x'
               /\ (In r ks \/ subscribed x = true -> subscribed x' = true).

Definition conn_view (s : Client)
  : bool * bool * list microtask * list Pending * option nat * option nat * bool :=
  (connected s, ws s, micro s, waiting s, connectCallback s, connectPromise s,
   tryConnect s).

Lemma del_keys_iff {V} r (o : Obj.t V) k :
  In k (Obj.keys (Obj.del r o)) <-> In k (Obj.keys o) /\ k <> r.
Proof.
  induction o as [|[a v] o IH]; cbn; [tauto|].
  destruct (String.eqb_spec a r) as [->|N]; cbn; rewrite IH.
  - split; [tauto|]. intros ([E|I] & D); [congruence|tauto].
  - split; [|tauto]. intros [E|(I & D)]; [|tauto].
    split; [now left|congruence].
Qed.

Lemma stale_wf_none s : stale_wf s -> Obj.keys (stale_obj s) = [] -> stale s = None.
Proof.
  intros (NE & _ & _) K. unfold stale_obj in K.
  destruct (stale s) as [[|e o]|]; [now elim NE|discriminate|reflexivity].
Qed.

Lemma stale_key_is_stale s k :
  stale_wf s -> In k (Obj.keys (stale_obj s)) -> is_stale k s = true.
Proof.
  intros (_ & _ & T) I. apply keys_get in I. destruct I as (v & G).
  pose proof (T k v G) as ->. unfold is_stale, stale_obj in *.
  destruct (stale s) as [o|]; [now rewrite G|discriminate].
Qed.

Lemma is_stale_key s k : is_stale k s = true -> In k (Obj.keys (stale_obj s)).
Proof.
  unfold is_stale, stale_obj. destruct (stale s) as [o|]; [|discriminate].
  destruct (Obj.get k o) eqn:G; [|discriminate]. intros _. eapply get_Some_keys; eauto.
Qed.

(** The rounds of [_subscribeToAllStale], for the stale rids [ks] in
    whatever order they are enumerated: each round writes one request
    and takes its rid out of the stale set. *)
Lemma resubscribe_loop : forall ks s,
  W s -> connected s = true -> ws s = true -> stale_wf s ->
  NoDup ks ->
  (forall k, In k ks ->
     In k (Obj.keys (stale_obj s)) /\ k <> ""%string /\ cache_get (cache s) k <> None) ->
  exists s', forEach ks subscribeToStale s = Ok tt s'
    /\ stale_wf s'
    /\ (forall k, In k (Obj.keys (stale_obj s'))
                  <-> In k (Obj.keys (stale_obj s)) /\ ~ In k ks)
    /\ trace s' = trace s ++ resubscriptions (reqId s) ks
    /\ resub ks s s'
    /\ conn_view s' = conn_view s.
Proof.
  induction ks as [|k ks IH]; intros s HW Hc Hw SW ND C.
  - exists s. cbn [forEach resubscriptions]. rewrite app_nil_r.
    split; [reflexivity|]. split; [exact SW|].
    split; [intros k; cbn [In]; tauto|]. split; [reflexivity|].
    split; [|reflexivity].
    intros r x G. exists x. split; [exact G|]. now intros [[]|].
  - inversion ND as [|? ? NI ND']; subst.
    destruct (C k (or_introl eq_refl)) as (Ik & Hk & G).
    destruct (cache_get (cache s) k) as [ci|] eqn:Gk; [clear G|congruence].
    pose proof (stale_key_is_stale s k SW Ik) as Hs.
    assert (WF : wf_ids s) by apply HW.
    pose proof (subscribeToStale_stale s k ci WF Hc Hw Hs Hk Gk) as E1.
    set (s1 := resubscribed k ci s) in *.
    assert (So1 : stale_obj s1 = Obj.del k (stale_obj s)).
    { rewrite <- stale_obj_removeStale. unfold stale_obj, s1, resubscribed.
      cbn [stale emit set_trace set_requests set_reqId].
      now rewrite (stale_removeStale_ext k _ s) by reflexivity. }
    assert (SW1 : stale_wf s1).
    { pose proof (stale_wf_removeStale k s SW) as (NE & ND1 & T1).
      assert (E : stale s1 = stale (removeStale k s)).
      { unfold s1, resubscribed. cbn [stale emit set_trace set_requests set_reqId].
        now rewrite (stale_removeStale_ext k _ s) by reflexivity. }
      unfold stale_wf, stale_obj in *. rewrite E. auto. }
    assert (V1 : conn_view s1 = conn_view s).
    { unfold s1, resubscribed, conn_view.
      cbn [connected ws micro waiting connectCallback connectPromise tryConnect
           emit set_trace set_requests set_reqId].
      rewrite removeStale_fields. reflexivity. }
    assert (W1 : W s1).
    { pose proof (keepsW_subscribeToStale k s HW) as K. now rewrite E1 in K. }
    assert (R1 : reqId s1 = reqId s + 1).
    { unfold s1, resubscribed. cbn [reqId emit set_trace set_requests set_reqId].
      reflexivity. }
    assert (T1 : trace s1 = trace s ++ [ESend (reqId s) ("subscribe." ++ k) None]).
    { unfold s1, resubscribed. cbn [trace emit set_trace set_requests set_reqId].
      rewrite removeStale_fields. reflexivity. }
    assert (Hc1 : connected s1 = true).
    { change (connected s1) with (fst (fst (fst (fst (fst (fst (conn_view s1))))))).
      rewrite V1. exact Hc. }
    assert (Hw1 : ws s1 = true).
    { change (ws s1) with (snd (fst (fst (fst (fst (fst (conn_view s1))))))).
      rewrite V1. exact Hw. }
    assert (C' : forall k', In k' ks ->
                   In k' (Obj.keys (stale_obj s1))
                   /\ k' <> ""%string /\ cache_get (cache s1) k' <> None).
    { intros k' I. destruct (C k' (or_intror I)) as (I' & N' & G').
      split; [|split; [exact N'|]].
      - rewrite So1. apply del_keys_iff. split; [exact I'|]. intros ->. contradiction.
      - unfold s1. rewrite resubscribed_get.
        destruct (cache_get (cache s) k'); [discriminate|congruence]. }
    destruct (IH s1 W1 Hc1 Hw1 SW1 ND' C') as (s2 & E2 & SW2 & K2 & T2 & RS & V2).
    exists s2. cbn [forEach]. unfold bind. rewrite E1. cbv beta iota. rewrite E2.
    split; [reflexivity|]. split; [exact SW2|]. split; [|split; [|split]].
    + intros k'. rewrite K2, So1, del_keys_iff. cbn [In]. split.
      * intros ((I & D) & N). split; [exact I|]. intros [E|I']; [congruence|tauto].
      * intros (I & N). split; [split; [exact I|]|]; intros H; apply N; auto.
    + cbn [resubscriptions]. rewrite T2, T1, R1, <- app_assoc. reflexivity.
    + intros r x G. pose proof (resubscribed_get k ci s r) as G1. fold s1 in G1.
      rewrite G in G1. cbn [option_map] in G1.
      destruct (RS r _ G1) as (x' & G2 & S2). exists x'. split; [exact G2|].
      intros H. apply S2.
      destruct (String.eqb_spec k r) as [<-|N].
      * right. rewrite Gk in G. injection G as <-. now rewrite Nat.eqb_refl.
      * destruct H as [[E|I]|S]; [contradiction|now left|right].
        now destruct (Nat.eqb (ci_id x) (ci_id ci)).
    + rewrite V2. exact V1.
Qed.

(** The loop over the whole stale set, in any order of its rids. *)
Lemma resubscribe_all ks s :
  W s -> connected s = true -> ws s = true -> stale_wf s ->
  Permutation ks (Obj.keys (stale_obj s)) ->
  (forall k, In k (Obj.keys (stale_obj s)) ->
     k <> ""%string /\ cache_get (cache s) k <> None) ->
  exists s', forEach ks subscribeToStale s = Ok tt s'
    /\ stale s' = None
    /\ trace s' = trace s ++ resubscriptions (reqId s) ks
    /\ resub ks s s'
    /\ conn_view s' = conn_view s.
Proof.
  intros HW Hc Hw SW P C.
  assert (ND : NoDup ks).
  { eapply Permutation_NoDup; [apply Permutation_sym; exact P|apply SW]. }
  assert (C' : forall k, In k ks ->
                 In k (Obj.keys (stale_obj s))
                 /\ k <> ""%string /\ cache_get (cache s) k <> None).
  { intros k I. assert (I' : In k (Obj.keys (stale_obj s)))
      by (eapply Permutation_in; eauto).
    split; [exact I'|apply C, I']. }
  destruct (resubscribe_loop ks s HW Hc Hw SW ND C') as (s' & E & SW' & K & T & RS & V).
  exists s'. split; [exact E|]. split; [|auto].
  apply stale_wf_none; [exact SW'|].
  destruct (Obj.keys (stale_obj s')) as [|k l] eqn:Ek; [reflexivity|].
  exfalso. destruct (K k) as ((I & N) & _); [try rewrite Ek; now left|].
  apply N. eapply Permutation_in; [apply Permutation_sym; exact P|exact I].
Qed.

(** The requests that waited for the connection are written when the
    connect promise resolves; this touches neither the cache nor the
    stale set. *)
Lemma flush_waiting wl : forall t,
  ws t = true ->
  let t' := run_tasks (map MtSend wl) t in
  stale t' = stale t /\ cache t' = cache t /\ micro t' = micro t /\ ws t' = true
  /\ exists tr, trace t' = trace t ++ tr.
Proof.
  induction wl as [|w wl IH]; intros t Hw; cbn [map run_tasks].
  - repeat split; auto. exists []. now rewrite app_nil_r.
  - cbn [run_task]. unfold bind, sendNow, bind, gets, modify, ret. cbn [state_of].
    change (ws (set_reqId ?a ?b)) with (ws b). rewrite Hw. cbn [negb state_of].
    match goal with |- context [run_tasks _ ?u] => set (t1 := u) end.
    destruct (IH t1 Hw) as (A & B & C & D & tr & E).
    cbv zeta. rewrite A, B, C, D, E. repeat split; auto.
    eexists. unfold t1. cbn [trace emit set_trace set_requests set_reqId].
    rewrite <- app_assoc. reflexivity.
Qed.

(** Resubscription when the connection is back.  In every state a
    session reaches in which the socket is open and connected and every
    rid of the stale set is non-empty and cached: in whatever order the
    stale rids are enumerated, [_subscribeToAllStale] returns, writes
    one [subscribe] request for each of them, under consecutive ids
    from the next one on, and leaves the stale set [null]; the
    completion of [onConnect] writes these requests before anything
    else, in some order of the stale rids, and then emits [connect];
    afterwards the stale set is [null], every item that was stale is
    cached and subscribed, and no cached item has left the cache or
    lost its subscription. *)
Theorem reconnect_resubscribes_stale ins :
  let s := run ins newClient in
  connected s = true -> ws s = true ->
  (forall k, In k (Obj.keys (stale_obj s)) ->
     k <> ""%string /\ cache_get (cache s) k <> None) ->
  let s' := turn (IOnConnectDone true) s in
  (forall ks, Permutation ks (Obj.keys (stale_obj s)) ->
     exists s1, forEach ks subscribeToStale s = Ok tt s1
       /\ trace s1 = trace s ++ resubscriptions (reqId s) ks
       /\ stale s1 = None
       /\ (forall r x, cache_get (cache s) r = Some x ->
             exists x', cache_get (cache s1) r = Some x'
                        /\ (is_stale r s = true \/ subscribed x = true ->
                            subscribed x' = true)))
  /\ (exists ks tr,
        Permutation ks (Obj.keys (stale_obj s))
        /\ trace s' = trace s ++ resubscriptions (reqId s) ks
                               ++ EClient "connect" None :: tr)
  /\ stale s' = None
  /\ (forall r x, cache_get (cache s) r = Some x ->
        exists x', cache_get (cache s') r = Some x'
                   /\ (is_stale r s = true \/ subscribed x = true ->
                       subscribed x' = true)).
Proof.
  intros s Hc Hw C s'.
  pose proof (micro_run ins) as Mi. fold s in Mi.
  pose proof (stale_wf_run ins) as SW. fold s in SW.
  assert (STALE : forall ks r, Permutation ks (Obj.keys (stale_obj s)) ->
            is_stale r s = true -> In r ks).
  { intros ks r P H. apply is_stale_key in H.
    eapply Permutation_in; [apply Permutation_sym; exact P|exact H]. }
  split.
  { intros ks P.
    destruct (resubscribe_all ks s (W_run ins) Hc Hw SW P C)
      as (s1 & E1 & St1 & T1 & RS & _).
    exists s1. split; [exact E1|]. split; [exact T1|]. split; [exact St1|].
    intros r x G. destruct (RS r x G) as (x' & G' & S'). exists x'.
    split; [exact G'|]. intros [H|H]; apply S'; eauto. }
  destruct (resubscribe_all (Obj.keys (stale_obj s)) s (W_run ins) Hc Hw SW
              (Permutation_refl _) C) as (s1 & E1 & St1 & T1 & RS & V1).
  unfold conn_view in V1. injection V1 as Vc Vw Vm Vwt Vcb Vcp Vtc.
  assert (E0 : subscribeToAllStale s = Ok tt s1).
  { unfold subscribeToAllStale, bind, gets.
    unfold stale_obj in E1. destruct (stale s) as [o|] eqn:Es; [exact E1|].
    cbn [Obj.keys map forEach ret] in E1. exact E1. }
  set (s2 := emit (EClient "connect" None) s1).
  assert (FIN : forall s3 tr0,
            stale s3 = None -> cache s3 = cache s1 ->
            trace s3 = trace s1 ++ EClient "connect" None :: tr0 ->
            (exists ks tr,
                Permutation ks (Obj.keys (stale_obj s))
                /\ trace s3 = trace s ++ resubscriptions (reqId s) ks
                                       ++ EClient "connect" None :: tr)
            /\ stale s3 = None
            /\ (forall r x, cache_get (cache s) r = Some x ->
                  exists x', cache_get (cache s3) r = Some x'
                             /\ (is_stale r s = true \/ subscribed x = true ->
                                 subscribed x' = true))).
  { intros s3 tr0 A B D. split; [|split; [exact A|]].
    - exists (Obj.keys (stale_obj s)), tr0. split; [apply Permutation_refl|].
      rewrite D, T1, <- app_assoc. reflexivity.
    - intros r x G. destruct (RS r x G) as (x' & G' & S'). exists x'.
      rewrite B. split; [exact G'|]. intros [H|H]; apply S'; eauto. }
  assert (EH : exists s4 wl tr0,
            handler (IOnConnectDone true) s = Ok tt s4
            /\ micro s4 = map MtSend wl /\ ws s4 = true /\ stale s4 = None
            /\ cache s4 = cache s1
            /\ trace s4 = trace s1 ++ EClient "connect" None :: tr0).
  { cbn [handler onConnectDone]. unfold try_catch, bind. rewrite E0. cbv beta iota.
    unfold modify. cbv beta iota. fold s2.
    unfold connectResolve, bind, gets. cbv beta iota.
    change (connectCallback s2) with (connectCallback s1).
    destruct (connectCallback s1) as [p|] eqn:Cb.
    - unfold settle, modify. cbv beta iota. unfold take_waiting.
      set (wl := filter _ _). set (s3 := set_waiting _ _).
      assert (LOOP : forall l t, forEach l (fun w => enqueue (MtSend w)) t
                       = Ok tt (set_micro (micro t ++ map MtSend l) t)).
      { induction l as [|w l IHl]; intros t; cbn [forEach map].
        - rewrite app_nil_r. unfold ret. f_equal. now destruct t.
        - unfold bind, enqueue, modify. rewrite IHl. cbn [state_of micro set_micro].
          rewrite <- app_assoc. f_equal. }
      rewrite LOOP. cbv beta iota.
      eexists. exists wl. eexists. split; [reflexivity|].
      unfold s3, s2.
      cbn [micro ws stale cache trace set_connectCallback set_micro set_waiting
           emit set_trace].
      rewrite Vm, Mi, <- app_assoc. repeat split; try reflexivity; congruence.
    - exists s2, [], []. unfold ret. split; [reflexivity|].
      unfold s2. cbn [micro ws stale cache trace emit set_trace map].
      rewrite Vm, Mi. repeat split; try reflexivity; congruence. }
  destruct EH as (s4 & wl & tr0 & EH & M4 & W4 & St4 & C4 & T4).
  destruct (flush_waiting wl (set_micro [] s4) W4) as (A & B & Cm & D & tr & E).
  cbv zeta in A, B, Cm, D, E.
  set (s5 := run_tasks (map MtSend wl) (set_micro [] s4)) in *.
  assert (M5 : micro s5 = []) by (rewrite Cm; reflexivity).
  assert (I5 : drain_once s5 = s5).
  { unfold drain_once. rewrite M5. cbn [run_tasks].
    destruct s5; cbn in *; now subst. }
  assert (E' : s' = s5).
  { unfold s', turn. rewrite EH. cbn [state_of].
    unfold drain. unfold drain_once at 3. rewrite M4. fold s5. now rewrite !I5. }
  rewrite E'.
  apply (FIN s5 (tr0 ++ tr)).
  - rewrite A. exact St4.
  - rewrite B. exact C4.
  - rewrite E. cbn [trace set_micro]. rewrite T4, <- app_assoc. reflexivity.
Qed.

(** A session that loses its connection while the model [X] has a
    listener, and opens a new socket. *)
Definition reopened_session : list input :=
  connect_session
  ++ [IGet "X"; IMessage (MResponse 1 None (Some (mdl [("X", [])])));
      IResourceOn "X"; IClose; ITimer TmReconnect; IOpen].

Lemma reopened_stale : Obj.keys (stale_obj (run reopened_session newClient)) = ["X"].
Proof. vm_compute. reflexivity. Qed.

Lemma reopened_cached : cache_get (cache (run reopened_session newClient)) "X" <> None.
Proof. vm_compute. discriminate. Qed.

Lemma reconnect_resubscribes_stale_witness :
  let s := run reopened_session newClient in
  Obj.keys (stale_obj s) = ["X"]
  /\ stale (turn (IOnConnectDone true) s) = None.
Proof.
  cbv zeta. split; [exact reopened_stale|].
  refine (proj1 (proj2 (proj2 (reconnect_resubscribes_stale reopened_session _ _ _))));
    [vm_compute; reflexivity|vm_compute; reflexivity|].
  rewrite reopened_stale. intros k [<-|[]].
  split; [discriminate|exact reopened_cached].
Defined.


(* ================================================================== *)
(** ** The [unsubscribe] event *)

Lemma cache_get_map g c r :
  (forall y, rid (g y) = rid y) ->
  cache_get (map g c) r = option_map g (cache_get c r).
Proof.
  intros H. induction c as [|x c IH]; cbn [map cache_get option_map]; auto.
  rewrite H. destruct (String.eqb (rid x) r); auto.
Qed.

Lemma indirect_ok_map g c :
  (forall y, rid (g y) = rid y) ->
  (forall y, item_values (g y) = item_values y) ->
  (forall y, indirect (g y) = indirect y) ->
  indirect_ok c -> indirect_ok (map g c).
Proof.
  intros Hr Hv Hi H. apply indirect_ok_total. intros x I.
  apply in_map_iff in I. destruct I as (y & <- & I).
  rewrite Hi, Hr, total_refs_map by exact Hv.
  now apply (proj1 (indirect_ok_total c) H).
Qed.

Lemma tryDelete_loop_last R : forall s,
  line_view (fold_left tryDelete_step R s) = line_view s.
Proof. intros s. apply (passive_tryDelete_loop _ line_view_passive R s). Qed.

(** The [unsubscribe] event for an item that no cached item refers to.
    In every state a session reaches in which the [indirect] counts are
    exact, an event [rid.unsubscribe] for a cached item whose [indirect]
    count is zero is handled without an exception and ends with the
    bus event [namespace.resource.rid.unsubscribe].  An item without a
    direct listener is evicted and its rid is not stale.  An item with
    one stays cached, no longer subscribed, its rid is put in the stale
    set, and when the client is connected the timer that subscribes to
    it again is set. *)
Theorem unsubscribe_event_evicts_or_marks_stale ins r ci data :
  let s := run ins newClient in
  indirect_ok (cache s) ->
  cache_get (cache s) r = Some ci -> indirect ci = 0 ->
  let i := IMessage (MEvent (r ++ ".unsubscribe") data) in
  let s' := turn i s in
  (exists s1, handler i s = Ok tt s1)
  /\ (exists tr, trace s'
        = tr ++ [EBus (item_oid ci) (namespace s ++ ".resource." ++ r ++ ".unsubscribe")
                      (BItem (item_oid ci))])
  /\ (direct ci = 0 -> cache_get (cache s') r = None /\ is_stale r s' = false)
  /\ (direct ci <> 0 ->
        (exists x, cache_get (cache s') r = Some x /\ subscribed x = false)
        /\ is_stale r s' = true
        /\ (connected s = true ->
              In (ETimeout (TmSubscribeToStale r) subscribeStaleDelay) (trace s'))).
Proof.
  intros s IO C I0 i s'.
  pose proof (micro_run ins) as Mi. fold s in Mi.
  destruct (W_run ins) as (ND & WF & _). fold s in ND, WF.
  pose proof (cache_get_rid _ _ _ C) as Er.
  set (g := fun x => if Nat.eqb (ci_id x) (ci_id ci) then setSubscribed false x else x).
  assert (g_rid : forall y, rid (g y) = rid y)
    by (intros y; unfold g; now destruct (Nat.eqb (ci_id y) (ci_id ci))).
  assert (g_val : forall y, item_values (g y) = item_values y)
    by (intros y; unfold g; now destruct (Nat.eqb (ci_id y) (ci_id ci))).
  assert (g_ind : forall y, indirect (g y) = indirect y)
    by (intros y; unfold g; now destruct (Nat.eqb (ci_id y) (ci_id ci))).
  set (s1 := alter_obj (setSubscribed false) (ci_id ci) s).
  set (ci' := setSubscribed false ci).
  assert (C1 : cache_get (cache s1) (rid ci') = Some ci').
  { change (rid ci') with (rid ci). rewrite Er.
    change (cache s1) with (map g (cache s)).
    rewrite cache_get_map, C by exact g_rid. cbn [option_map]. unfold g.
    now rewrite Nat.eqb_refl. }
  assert (W1 : W s1).
  { apply (keepsW_alter_obj (setSubscribed false) (ci_id ci)
             (stable_setSubscribed false) s (W_run ins)). }
  assert (D1 : deref (ci_id ci) s1 = Some ci').
  { apply (deref_cached s1 (rid ci') ci'); [apply W1|exact C1]. }
  assert (ND1 : NoDup (cache_rids (cache s1))) by apply W1.
  assert (IO1 : indirect_ok (cache s1)) by now apply indirect_ok_map.
  destruct (tryDelete_of_unreferenced_item s1 ci' ND1 IO1 C1 eq_refl I0)
    as (s2 & E2 & DEL & KEEP).
  assert (L2 : line_view s2 = line_view s).
  { pose proof E2 as E. unfold tryDelete in E.
    destruct (getRefState (cache s1) ci'); try discriminate.
    injection E as <-. now rewrite tryDelete_loop_last. }
  unfold line_view in L2. injection L2 as Lc Lw Lp Lt Lm Lr Ln.
  set (ev := EBus (item_oid ci) (namespace s ++ ".resource." ++ r ++ ".unsubscribe")
                  (BItem (item_oid ci))).
  assert (EH : handler i s = Ok tt (emit ev s2)).
  { unfold i. cbn [handler receive].
    destruct (event_name_parse r "unsubscribe" eq_refl) as (E1 & E3 & E4 & E5);
      [discriminate|].
    change (r ++ ".unsubscribe")%string with (r ++ "." ++ "unsubscribe")%string.
    unfold handleEvent. rewrite E1, E3, E4, E5.
    unfold bind at 1, gets at 1. rewrite C.
    cbn [String.eqb Ascii.eqb Bool.eqb].
    unfold bind at 1. unfold handleUnsubscribeEvent.
    unfold bind at 1, modify at 1. fold s1.
    unfold bind at 1, the_obj. rewrite D1.
    unfold bind at 1. rewrite E2.
    unfold bind at 1, emit_bus, resource_event, ret.
    change (rid ci') with (rid ci). change (item_oid ci') with (item_oid ci).
    rewrite Er, Ln. reflexivity. }
  assert (E' : s' = emit ev s2).
  { unfold s'. apply turn_idle; [exact EH|]. cbn. now rewrite Lm. }
  rewrite E'. split; [eexists; exact EH|].
  split; [exists (trace s2); reflexivity|].
  change (rid ci') with (rid ci) in DEL, KEEP. rewrite Er in DEL, KEEP.
  change (direct ci') with (direct ci) in DEL, KEEP.
  split.
  - intros D0. exact (DEL D0).
  - intros DN. destruct (KEEP DN) as (K1 & K2 & K3). split; [|split].
    + change (cache (emit ev s2)) with (cache s2).
      destruct (cache_get (cache s2) r) as [x|] eqn:G; [|congruence].
      exists x. split; [reflexivity|].
      pose proof E2 as E. unfold tryDelete in E.
      destruct (getRefState (cache s1) ci'); try discriminate.
      injection E as <-. apply tryDelete_loop_get in G.
      destruct G as (y & G & ->). rewrite <- Er in G.
      change (rid ci) with (rid ci') in G. rewrite C1 in G. now injection G as <-.
    + exact K2.
    + intros Hc. cbn [trace emit set_trace]. apply in_or_app. left. now apply K3.
Qed.

(** A session in which the model [X] is fetched and listened to. *)
Definition listened_session : list input :=
  connect_session
  ++ [IGet "X"; IMessage (MResponse 1 None (Some (mdl [("X", [])])));
      IResourceOn "X"].

Definition listened_X : CacheItem :=
  mkCI 1 "X" (Some typeModel) (Some (mkResobj 3 (CModel []))) 1 0 true None.

Lemma listened_cache : cache (run listened_session newClient) = [listened_X].
Proof. vm_compute. reflexivity. Qed.

Lemma listened_indirect_ok : indirect_ok (cache (run listened_session newClient)).
Proof. rewrite listened_cache. intros x [<-|[]]. reflexivity. Qed.

Lemma listened_cached :
  cache_get (cache (run listened_session newClient)) "X" = Some listened_X.
Proof. rewrite listened_cache. reflexivity. Qed.

Lemma unsubscribe_event_evicts_or_marks_stale_witness :
  let s := run listened_session newClient in
  is_stale "X" (turn (IMessage (MEvent ("X" ++ ".unsubscribe") None)) s) = true.
Proof.
  refine (proj1 (proj2 (proj2 (proj2 (proj2
            (unsubscribe_event_evicts_or_marks_stale listened_session "X" listened_X None
               listened_indirect_ok listened_cached eq_refl))) _))).
  discriminate.
Defined.


(* ================================================================== *)
(** ** A request that waits for a connection whose [onConnect] fails *)

Lemma onclose_loop_idle rids : forall s,
  (forall r x, cache_get (cache s) r = Some x -> subscribed x = false) ->
  forEach rids onclose_round s = Ok tt s.
Proof.
  induction rids as [|r rids IH]; intros s H; cbn [forEach]; [reflexivity|].
  unfold bind at 1. unfold onclose_round at 1. unfold bind, gets.
  destruct (cache_get (cache s) r) as [ci|] eqn:G.
  - rewrite (H r ci G). unfold ret. now apply IH.
  - unfold ret. now apply IH.
Qed.

Section Stranded.
Variables (s : Client) (r m : string) (p : option Data).
Hypothesis Hconn : connected s = false.
Hypothesis Hcp : connectPromise s = None.
Hypothesis Hwait : waiting s = [].
Hypothesis Hstale : stale s = None.
Hypothesis Hmicro : micro s = [].
Hypothesis Hr : r <> ""%string.
Hypothesis Hm : m <> ""%string.
Hypothesis Hsub :
    forall k x, cache_get (cache s) k = Some x -> subscribed x = false.

Definition stranded : Pending :=
    mkPending (nextId s) r ("call." ++ r ++ "." ++ m) p (S (nextId s)) KNone.

Definition has_items : bool := match cache s with [] => false | _ => true end.

Definition reconnect_timer : list effect :=
    if has_items then [ETimeout TmReconnect reconnectDelay] else [].

  (** After the socket has opened, [onConnect] has failed and the
      socket has closed. *)
Definition s_dropped : Client :=
    mkClient (namespace s) has_items false false (requests s) (reqId s)
      (cache s) (detached s) None None (Some (nextId s)) [stranded] []
      (S (S (nextId s)))
      (trace s ++ [EWsNew; EWsClose; EClient "close" None] ++ reconnect_timer).

Lemma run_dropped :
    run [IOpen; IOnConnectDone false; IClose] (s_queued s r m p) = s_dropped.
  Proof.
    unfold s_dropped, s_queued, queued_name, stranded, reconnect_timer, has_items.
    destruct s as [ns tc cn w0 rq rid0 c dt stl cp cc wt mi nx tr].
    state_cbn_all. subst cn cp wt stl mi.
    unfold run. cbn [fold_left].
    unfold turn at 3. cbn [handler handleOnopen modify state_of].
    rewrite drain_idle by reflexivity. state_norm.
    unfold turn at 2. cbn [handler onConnectDone]. unfold close_socket, bind, gets, modify.
    state_norm. cbn [state_of]. rewrite drain_idle by reflexivity. state_norm.
    unfold turn. cbn [handler]. unfold handleOnclose.
    unfold bind at 1, modify at 1. unfold bind at 1, modify at 1.
    unfold bind at 1, gets at 1. state_norm.
    unfold bind at 1. unfold bind at 1, modify at 1.
    unfold bind at 1, gets at 1. unfold bind at 1. state_norm.
    match goal with
    | |- context [forEach ?l ?b ?x] =>
        change (forEach l b x) with (forEach l onclose_round x);
        rewrite (onclose_loop_idle l x) by exact Hsub
    end.
    unfold modify at 1. unfold bind, gets, modify, ret. state_norm.
    destruct c as [|x c']; cbn [andb state_of]; rewrite drain_idle by reflexivity;
      rewrite <- !app_assoc; reflexivity.
  Qed.

  (** After [connect()] has been called again, the new socket has
      opened and [onConnect] is done. *)
Definition s_reconnected : Client :=
    mkClient (namespace s) true true true (requests s) (reqId s)
      (cache s) (detached s) None (Some (S (S (nextId s)))) None [stranded] []
      (S (S (S (nextId s))))
      (trace s ++ [EWsNew; EWsClose; EClient "close" None] ++ reconnect_timer
       ++ [EWsNew; EClient "connect" None;
           ESettle (PConnect (S (S (nextId s)))) (Resolved PVUnit)]).

Lemma run_reconnected :
    run [IConnect; IOpen; IOnConnectDone true] s_dropped = s_reconnected.
  Proof.
    unfold s_reconnected, s_dropped, stranded.
    generalize reconnect_timer. intros rt. generalize has_items. intros hi.
    destruct s as [ns tc cn w0 rq rid0 c dt stl cp cc wt mi nx tr].
    state_cbn_all. subst cn cp wt stl mi.
    unfold run. cbn [fold_left].
    unfold turn at 3. cbn [handler]. unfold bind, connect, bind, gets, modify, alloc,
      fresh, ret. state_norm. cbn [state_of].
    rewrite drain_idle by reflexivity. state_norm.
    unfold turn at 2. cbn [handler handleOnopen modify state_of].
    rewrite drain_idle by reflexivity. state_norm.
    unfold turn. cbn [handler onConnectDone].
    unfold try_catch, bind, subscribeToAllStale, bind, gets, modify, connectResolve,
      bind, gets, settle, modify, ret.
    state_norm. unfold take_waiting. state_norm.
    cbv beta iota delta [filter pn_on].
    assert (E : Nat.eqb nx (S (S nx)) = false) by (apply Nat.eqb_neq; lia).
    rewrite E. cbn [negb forEach]. unfold ret. state_norm. cbn [state_of].
    rewrite drain_idle by reflexivity.
    rewrite <- !app_assoc. reflexivity.
  Qed.
End Stranded.

Definition settles_send (n : nat) (e : effect) : bool :=
  match e with
  | ESettle (PSend k) _ => Nat.eqb k n
  | _ => false
  end.

(** A request made before the connection is lost when [onConnect]
    fails.  For a client that is disconnected, with no connection
    attempt under way, nothing stale and no cached item subscribed:
    when [call(r, m, p)] has started a connection, the socket has opened,
    the promise of [onConnect] has been rejected and the socket has closed,
    the request is still waiting, nothing has been written for it and the
    promise [call] returned has not been settled; and it is the same
    after [connect()] has been called again and that connection has been
    established: the request is not sent on the new connection either. *)
Theorem failed_onConnect_strands_waiting_request s r m p :
  connected s = false -> connectPromise s = None -> waiting s = [] ->
  stale s = None -> micro s = [] ->
  r <> ""%string -> m <> ""%string ->
  (forall k x, cache_get (cache s) k = Some x -> subscribed x = false) ->
  let s1 := turn (ICall r (Some m) p) s in
  let s2 := run [IOpen; IOnConnectDone false; IClose] s1 in
  let s3 := run [IConnect; IOpen; IOnConnectDone true] s2 in
  call r (Some m) p s = Ok (PSend (S (nextId s))) s1
  /\ waiting s1 = [stranded s r m p]
  /\ waiting s2 = waiting s1 /\ waiting s3 = waiting s1
  /\ connected s3 = true /\ requests s3 = requests s
  /\ sent_ids (trace s3) = sent_ids (trace s)
  /\ filter (settles_send (S (nextId s))) (trace s3)
     = filter (settles_send (S (nextId s))) (trace s).
Proof.
  intros Hc Hcp Hw Hst Hmi Hr Hm Hsub s1 s2 s3.
  assert (E1 : s1 = s_queued s r m p)
    by (apply turn_call_disconnected; assumption).
  assert (E2 : s2 = s_dropped s r m p).
  { unfold s2. rewrite E1. apply run_dropped; assumption. }
  assert (E3 : s3 = s_reconnected s r m p).
  { unfold s3. rewrite E2. apply run_reconnected; assumption. }
  split; [rewrite E1; apply call_disconnected; assumption|].
  rewrite E3, E2, E1. unfold s_reconnected, s_dropped, s_queued, stranded, queued_name.
  cbn [waiting connected requests trace].
  repeat (split; [reflexivity|]).
  unfold reconnect_timer. destruct (has_items s); split;
    unfold sent_ids; rewrite ?filter_app, ?map_app, ?flat_map_app; cbn;
    rewrite ?app_nil_r; reflexivity.
Qed.

Lemma failed_onConnect_strands_waiting_request_witness :
  let s1 := turn (ICall "svc.math" (Some "add") None) newClient in
  let s2 := run [IOpen; IOnConnectDone false; IClose] s1 in
  let s3 := run [IConnect; IOpen; IOnConnectDone true] s2 in
  waiting s3 = waiting s1 /\ connected s3 = true.
Proof.
  pose proof (failed_onConnect_strands_waiting_request newClient "svc.math" "add" None)
    as H.
  cbv zeta in H.
  destruct H as (_ & _ & _ & W3 & C3 & _);
    [reflexivity | reflexivity | reflexivity | reflexivity | reflexivity
    | discriminate | discriminate | intros k x; discriminate |].
  cbv zeta. split; [exact W3|exact C3].
Defined.
